(** * The Sparkling virtual machine (src/vm.c)

    A shallow embedding of the execution engine: tagged values, the
    frame-structured stack, the call protocol, the symbol resolver and the
    instruction dispatcher, followed by the properties of the specification
    that are checked against it.

    Conventions of the embedding.
    - A pointer into the VM stack is the offset from [vm->stack]; [vm->stack]
      and [vm->sp] are [NULL] together (spn_vm_new and expand_stack set both),
      so [sp = None] stands for both being [NULL].
    - A pointer into bytecode is a word address of the code memory; a pointer
      that may be [NULL] is an [option].
    - A computation is an [option]: [None] is a failed [assert] or an access
      the C language leaves undefined (a register outside the frame, a slot
      read through the wrong union member, an integer division by zero).
    - [long] is 64 bits wide and wraps around; [size_t] is 64 bits wide;
      [spn_uword] is 32 bits wide.  Frame sizes and argument counts (C [int])
      come from 8-bit operands and header words and are kept as [Z]. *)

From Stdlib Require Import ZArith String Ascii List Floats Lia.
From Stdlib Require Import DecimalString HexadecimalString.
From stdpp Require Import base option gmap strings list fin_maps.

Local Open Scope Z_scope.

(** ** Machine integers *)

Definition LONG_MIN : Z := - 2 ^ 63.
Definition LONG_MAX : Z := 2 ^ 63 - 1.
Definition SIZE_MOD : Z := 2 ^ 64.

(** Two's-complement wrap-around of a [long]. *)
Definition long_wrap (z : Z) : Z := (z + 2 ^ 63) mod 2 ^ 64 - 2 ^ 63.

(** Wrap-around of a [size_t]. *)
Definition size_wrap (z : Z) : Z := z mod SIZE_MOD.

(** [(double)i] for a [long] [i]: rounding to the nearest binary64. *)
Definition long_to_double (i : Z) : float :=
  SF2Prim (binary_normalize 53 1024 i 0 false).

(** ** Values (the tagged union SpnValue) *)

Definition addr := positive.

Inductive SpnValue : Type :=
| VNil
| VBool (b : bool)
| VInt (i : Z)
| VFloat (f : float)
| VString (o : addr)
| VArray (o : addr)
| VFunc (o : addr)
| VUserInfo (o : addr)
| VSymStub (o : addr).

Definition makenil : SpnValue := VNil.
Definition makebool (b : bool) : SpnValue := VBool b.
Definition makeint (i : Z) : SpnValue := VInt i.
Definition makefloat (f : float) : SpnValue := VFloat f.

Definition isnil (v : SpnValue) : bool := match v with VNil => true | _ => false end.
Definition isbool (v : SpnValue) : bool := match v with VBool _ => true | _ => false end.
Definition isint (v : SpnValue) : bool := match v with VInt _ => true | _ => false end.
Definition isfloat (v : SpnValue) : bool := match v with VFloat _ => true | _ => false end.
Definition isnum (v : SpnValue) : bool := isint v || isfloat v.
Definition isstring (v : SpnValue) : bool := match v with VString _ => true | _ => false end.
Definition isarray (v : SpnValue) : bool := match v with VArray _ => true | _ => false end.
Definition isfunc (v : SpnValue) : bool := match v with VFunc _ => true | _ => false end.
Definition is_symstub (v : SpnValue) : bool := match v with VSymStub _ => true | _ => false end.

(** The heap object a reference variant points to. *)
Definition objptr (v : SpnValue) : option addr :=
  match v with
  | VString o | VArray o | VFunc o | VUserInfo o | VSymStub o => Some o
  | _ => None
  end.

(** ** Heap objects *)

(** Modelled from the spec: the function object of func.h, which is not part
    of vm.c ("distinguishes native vs script; for script: bytecode pointer, a
    lazy local symbol table, a topprg flag, a one-shot symtab-read flag; for
    closures: an upvalues container").  [repr_bc] and [repr_fn] are the two
    members of the union [repr]; [native] says which one is meaningful. *)
Record SpnFunction : Type := mkFunction {
  fn_name : string;
  native : bool;
  topprg : bool;
  readsymtab : bool;
  repr_bc : Z;
  repr_fn : nat;
  symtab : addr;
  env : addr;
  upvalues : option addr
}.

(** Modelled from the spec: the objects of the reference-counted object
    library (str.h, array.h, func.h), which is not part of vm.c.  An array is
    used by vm.c as an integer-keyed map (local symbol tables, upvalues) and
    as a string-keyed map (the global symbol table). *)
Inductive SpnObject : Type :=
| OString (s : string)
| OArray (ints : gmap Z SpnValue) (strs : gmap string SpnValue)
| OFunc (f : SpnFunction)
| OSymStub (name : string)
| OUser.

Record Cell : Type := mkCell { refcnt : Z; obj : SpnObject }.

(** ** The stack *)

Definition EXTRA_SLOTS : Z := 1.
Definition IDX_FRMHDR : Z := -1.
Definition REG_OFFSET : Z := -2.

Record TFrame : Type := mkFrame {
  frame_size : Z;
  decl_argc : Z;
  extra_argc : Z;
  real_argc : Z;
  retaddr : option Z;
  retidx : Z;
  callee : addr
}.

(** The union TSlot; memory handed out by realloc is [SlotUninit]. *)
Inductive TSlot : Type :=
| SlotH (h : TFrame)
| SlotV (v : SpnValue)
| SlotUninit.

(** struct SpnVMachine, together with the object heap its pointers refer to
    ([objs], which is process memory rather than a member of the struct). *)
Record SpnVMachine : Type := mkVM {
  stack : list TSlot;
  sp : option Z;
  stackallsz : Z;
  glbsymtab : addr;
  errmsg : option string;
  haserror : bool;
  ctx : Z;
  objs : gmap positive Cell
}.

Definition set_stack (l : list TSlot) (vm : SpnVMachine) : SpnVMachine :=
  mkVM l (sp vm) (stackallsz vm) (glbsymtab vm) (errmsg vm) (haserror vm) (ctx vm) (objs vm).
Definition set_sp (s : option Z) (vm : SpnVMachine) : SpnVMachine :=
  mkVM (stack vm) s (stackallsz vm) (glbsymtab vm) (errmsg vm) (haserror vm) (ctx vm) (objs vm).
Definition set_stackallsz (n : Z) (vm : SpnVMachine) : SpnVMachine :=
  mkVM (stack vm) (sp vm) n (glbsymtab vm) (errmsg vm) (haserror vm) (ctx vm) (objs vm).
Definition set_errmsg (m : option string) (vm : SpnVMachine) : SpnVMachine :=
  mkVM (stack vm) (sp vm) (stackallsz vm) (glbsymtab vm) m (haserror vm) (ctx vm) (objs vm).
Definition set_haserror (b : bool) (vm : SpnVMachine) : SpnVMachine :=
  mkVM (stack vm) (sp vm) (stackallsz vm) (glbsymtab vm) (errmsg vm) b (ctx vm) (objs vm).
Definition set_objs (h : gmap positive Cell) (vm : SpnVMachine) : SpnVMachine :=
  mkVM (stack vm) (sp vm) (stackallsz vm) (glbsymtab vm) (errmsg vm) (haserror vm) (ctx vm) h.

(** spn_vm_new; [g] is the address of the fresh global symbol table and [h]
    the heap that holds it. *)
Definition spn_vm_new (g : addr) (h : gmap positive Cell) : SpnVMachine :=
  mkVM [] None 0 g None false 0 h.

(** *** Reference counting *)

(** Modelled from the spec: spn_value_retain and spn_value_release of the
    object library ("every slot that holds a reference variant owns exactly
    one refcount"): they move the reference count of the object behind a
    reference variant and leave primitives alone.  The destructor an object
    runs when its count reaches zero is outside the core. *)
Definition bump (d : Z) (c : Cell) : Cell := mkCell (refcnt c + d) (obj c).

Definition spn_value_retain (v : SpnValue) (vm : SpnVMachine) : SpnVMachine :=
  match objptr v with
  | Some o => set_objs (alter (bump 1) o (objs vm)) vm
  | None => vm
  end.

Definition spn_value_release (v : SpnValue) (vm : SpnVMachine) : SpnVMachine :=
  match objptr v with
  | Some o => set_objs (alter (bump (-1)) o (objs vm)) vm
  | None => vm
  end.

(** The reference count of the object at [o]. *)
Definition refcount (vm : SpnVMachine) (o : addr) : Z :=
  match objs vm !! o with Some c => refcnt c | None => 0 end.

(** *** Slot access *)

Definition slot_get (vm : SpnVMachine) (i : Z) : option TSlot :=
  if 0 <=? i then stack vm !! Z.to_nat i else None.

Definition slot_set (vm : SpnVMachine) (i : Z) (s : TSlot) : option SpnVMachine :=
  if (0 <=? i) && (i <? Z.of_nat (length (stack vm)))
  then Some (set_stack (<[Z.to_nat i := s]> (stack vm)) vm)
  else None.

(** [&s[IDX_FRMHDR].h] *)
Definition frmhdr (vm : SpnVMachine) (s : Z) : option TFrame :=
  match slot_get vm (s + IDX_FRMHDR) with
  | Some (SlotH h) => Some h
  | _ => None
  end.

(** The macro SLOTPTR with its assertion: the absolute index of register [r]
    of the frame whose top is [s].  The comparison of the assertion is
    unsigned, so a negative [r] fails it. *)
Definition SLOTPTR (vm : SpnVMachine) (s r : Z) : option Z :=
  h ← frmhdr vm s;
  if (0 <=? r) && (r <? frame_size h - EXTRA_SLOTS)
  then Some (s + (- r + REG_OFFSET))
  else None.

(** Reading [vm->stack[i].v]. *)
Definition val_at (vm : SpnVMachine) (i : Z) : option SpnValue :=
  match slot_get vm i with
  | Some (SlotV v) => Some v
  | _ => None
  end.

(** Reading [*VALPTR(s, r)]. *)
Definition reg_get (vm : SpnVMachine) (s r : Z) : option SpnValue :=
  i ← SLOTPTR vm s r; val_at vm i.

(** *** Growing the stack *)

Definition stacksize (vm : SpnVMachine) : Z :=
  if stackallsz vm =? 0 then 0 else default 0 (sp vm).

(** [while (vm->stackallsz < newsize) vm->stackallsz *= 2;] with the
    wrap-around of [size_t]; [None] when the fuel runs out. *)
Fixpoint double_until (fuel : nat) (allsz newsize : Z) : option Z :=
  if allsz <? newsize then
    match fuel with
    | O => None
    | S fuel' => double_until fuel' (size_wrap (allsz * 2)) newsize
    end
  else Some allsz.

(** spn_realloc: the old contents are kept, the new slots are indeterminate. *)
Definition spn_realloc (l : list TSlot) (n : Z) : list TSlot :=
  take (Z.to_nat n) l ++ replicate (Z.to_nat n - length l)%nat SlotUninit.

Definition expand_stack (vm : SpnVMachine) (nregs : Z) : option SpnVMachine :=
  let oldsize := stacksize vm in
  let newsize := size_wrap (oldsize + nregs) in
  let allsz0 := if stackallsz vm =? 0 then 8 else stackallsz vm in
  allsz ← double_until 64 allsz0 newsize;
  Some (set_sp (Some oldsize)
         (set_stack (spn_realloc (stack vm) allsz)
           (set_stackallsz allsz vm))).

(** [for (i = from; i < from + n; i++) vm->stack[i].v = makenil();] *)
Fixpoint init_regs (n : nat) (from : Z) (vm : SpnVMachine) : option SpnVMachine :=
  match n with
  | O => Some vm
  | S n' => vm' ← slot_set vm from (SlotV makenil); init_regs n' (from + 1) vm'
  end.

Definition push_frame (vm : SpnVMachine) (nregs decl_argc extra_argc real_argc : Z)
    (retaddr : option Z) (retidx : Z) (callee : addr) : option SpnVMachine :=
  let real_nregs := nregs + extra_argc + EXTRA_SLOTS in
  if extra_argc <? 0 then None else
  vm1 ← (if (stackallsz vm =? 0) || (stackallsz vm <? size_wrap (stacksize vm + real_nregs))
         then expand_stack vm real_nregs
         else Some vm);
  s0 ← sp vm1;
  let s := s0 + real_nregs in
  let vm2 := set_sp (Some s) vm1 in
  vm3 ← init_regs (Z.to_nat (real_nregs - EXTRA_SLOTS)) (s - real_nregs) vm2;
  slot_set vm3 (s + IDX_FRMHDR)
    (SlotH (mkFrame real_nregs decl_argc extra_argc real_argc retaddr retidx callee)).

Definition push_native_pseudoframe (vm : SpnVMachine) (callee : addr) : option SpnVMachine :=
  push_frame vm 0 0 0 0 None (-1) callee.

(** [for (i = from; i < from + n; i++) spn_value_release(&vm->stack[i].v);] *)
Fixpoint release_regs (n : nat) (from : Z) (vm : SpnVMachine) : option SpnVMachine :=
  match n with
  | O => Some vm
  | S n' => v ← val_at vm from; release_regs n' (from + 1) (spn_value_release v vm)
  end.

Definition pop_frame (vm : SpnVMachine) : option SpnVMachine :=
  s ← sp vm;
  hdr ← frmhdr vm s;
  let nregs := frame_size hdr in
  vm' ← release_regs (Z.to_nat (nregs - EXTRA_SLOTS)) (s - nregs) vm;
  Some (set_sp (Some (s - nregs)) vm').

(** [while (vm->sp > vm->stack) pop_frame(vm);] *)
Fixpoint pop_all (fuel : nat) (vm : SpnVMachine) : option SpnVMachine :=
  match sp vm with
  | None => None
  | Some s =>
      if 0 <? s then
        match fuel with
        | O => None
        | S fuel' => vm' ← pop_frame vm; pop_all fuel' vm'
        end
      else Some vm
  end.

Definition free_frames (fuel : nat) (vm : SpnVMachine) : option SpnVMachine :=
  match sp vm with
  | None => Some vm
  | Some _ => pop_all fuel vm
  end.

Definition clean_vm_if_needed (fuel : nat) (vm : SpnVMachine) : option SpnVMachine :=
  if haserror vm then
    vm' ← free_frames fuel vm;
    Some (set_haserror false vm')
  else Some vm.

(** ** Heap access *)

Definition func_at (vm : SpnVMachine) (o : addr) : option SpnFunction :=
  match objs vm !! o with
  | Some (mkCell _ (OFunc f)) => Some f
  | _ => None
  end.

Definition funcvalue (vm : SpnVMachine) (v : SpnValue) : option SpnFunction :=
  match v with VFunc o => func_at vm o | _ => None end.

Definition symstubvalue (vm : SpnVMachine) (v : SpnValue) : option string :=
  match v with
  | VSymStub o =>
      match objs vm !! o with
      | Some (mkCell _ (OSymStub name)) => Some name
      | _ => None
      end
  | _ => None
  end.

Definition stringvalue (vm : SpnVMachine) (v : SpnValue) : option string :=
  match v with
  | VString o =>
      match objs vm !! o with
      | Some (mkCell _ (OString s)) => Some s
      | _ => None
      end
  | _ => None
  end.

(** A fresh object with reference count one. *)
Definition alloc (o : SpnObject) (vm : SpnVMachine) : addr * SpnVMachine :=
  let a := fresh (dom (objs vm)) in
  (a, set_objs (<[a := mkCell 1 o]> (objs vm)) vm).

(** *** Arrays used as symbol tables *)

(** Modelled from the spec: spn_array_get_intkey, spn_array_set_intkey,
    spn_array_get_strkey and spn_array_set_strkey of array.h, which is not
    part of vm.c.  A getter yields nil for an absent key and does not retain;
    a setter retains the stored value ("retain into the global table"),
    releases the value it replaces, and removes the key when the value is
    nil. *)
Definition spn_array_get_intkey (vm : SpnVMachine) (a : addr) (k : Z) : option SpnValue :=
  match objs vm !! a with
  | Some (mkCell _ (OArray ints _)) => Some (default VNil (ints !! k))
  | _ => None
  end.

Definition spn_array_get_strkey (vm : SpnVMachine) (a : addr) (k : string) : option SpnValue :=
  match objs vm !! a with
  | Some (mkCell _ (OArray _ strs)) => Some (default VNil (strs !! k))
  | _ => None
  end.

Definition store_int (k : Z) (v : SpnValue) (c : Cell) : Cell :=
  match obj c with
  | OArray ints strs =>
      mkCell (refcnt c) (OArray (if isnil v then delete k ints else <[k := v]> ints) strs)
  | _ => c
  end.

Definition store_str (k : string) (v : SpnValue) (c : Cell) : Cell :=
  match obj c with
  | OArray ints strs =>
      mkCell (refcnt c) (OArray ints (if isnil v then delete k strs else <[k := v]> strs))
  | _ => c
  end.

Definition spn_array_set_intkey (vm : SpnVMachine) (a : addr) (k : Z) (v : SpnValue)
    : option SpnVMachine :=
  old ← spn_array_get_intkey vm a k;
  let vm1 := spn_value_retain v vm in
  let vm2 := spn_value_release old vm1 in
  Some (set_objs (alter (store_int k v) a (objs vm2)) vm2).

Definition spn_array_set_strkey (vm : SpnVMachine) (a : addr) (k : string) (v : SpnValue)
    : option SpnVMachine :=
  old ← spn_array_get_strkey vm a k;
  let vm1 := spn_value_retain v vm in
  let vm2 := spn_value_release old vm1 in
  Some (set_objs (alter (store_str k v) a (objs vm2)) vm2).

(** ** Error messages *)

(** Arguments of a format string: a C string or an integer. *)
Inductive fmtarg : Type :=
| FStr (s : string)
| FNum (n : Z).

Fixpoint fill (n : nat) (c : ascii) (s : string) : string :=
  match n with
  | O => s
  | S n' => String c (fill n' c s)
  end.

Definition pad (zero : bool) (width : nat) (s : string) : string :=
  fill (width - String.length s) (if zero then "0"%char else " "%char) s.

Definition is_digit (c : ascii) : bool :=
  (48 <=? nat_of_ascii c)%nat && (nat_of_ascii c <=? 57)%nat.

Definition decimal (n : Z) : string :=
  DecimalString.NilZero.string_of_int (Z.to_int n).

Definition hexadecimal (n : Z) : string :=
  HexadecimalString.NilZero.string_of_uint (N.to_hex_uint (Z.to_N n)).

Definition convert (c : ascii) (zero : bool) (width : nat) (a : option fmtarg) : string :=
  match a with
  | Some (FStr s) => if Ascii.eqb c "s" then pad false width s else EmptyString
  | Some (FNum n) =>
      if Ascii.eqb c "d" || Ascii.eqb c "i" then pad zero width (decimal n)
      else if Ascii.eqb c "x" then pad zero width (hexadecimal n)
      else EmptyString
  | None => EmptyString
  end.

(** [spec] is [None] in running text and [Some (zero, width)] inside a
    conversion specification. *)
Fixpoint format_go (spec : option (bool * nat)) (fmt : string) (args : list fmtarg)
    {struct fmt} : string :=
  match fmt with
  | EmptyString => EmptyString
  | String c rest =>
      match spec with
      | None =>
          if Ascii.eqb c "%" then format_go (Some (false, O)) rest args
          else String c (format_go None rest args)
      | Some (zero, width) =>
          if Ascii.eqb c "%" then String c (format_go None rest args)
          else if is_digit c then
            if Ascii.eqb c "0" && (width =? 0)%nat
            then format_go (Some (true, O)) rest args
            else format_go (Some (zero, (10 * width + (nat_of_ascii c - 48))%nat)) rest args
          else String.append (convert c zero width (head args))
                             (format_go None rest (tail args))
      end
  end.

(** Modelled from the spec: spn_string_format_cstr of str.h, which is not
    part of vm.c; the spec writes the messages in printf notation
    ("runtime error at address 0x%08x: "), so the conversions vm.c uses (%s,
    %d, %i, %x with an optional zero flag and width) are those of printf. *)
Definition spn_string_format_cstr (fmt : string) (args : list fmtarg) : string :=
  format_go None fmt args.

(** The address of an instruction as runtime_error prints it:
    [unsigned long addr = ip - prog_bc]. *)
Definition prog_addr (vm : SpnVMachine) (ip : Z) : option Z :=
  s ← sp vm;
  h ← frmhdr vm s;
  f ← func_at vm (callee h);
  e ← func_at vm (env f);
  Some (size_wrap (ip - repr_bc e)).

Definition error_prefix (vm : SpnVMachine) (ip : option Z) : option string :=
  match ip with
  | Some i =>
      a ← prog_addr vm i;
      Some (spn_string_format_cstr "runtime error at address 0x%08x: " [FNum a])
  | None => Some (spn_string_format_cstr "runtime error in native code: " [])
  end.

Definition runtime_error (vm : SpnVMachine) (ip : option Z) (fmt : string)
    (args : list fmtarg) : option SpnVMachine :=
  if haserror vm then Some vm
  else
    prefix ← error_prefix vm ip;
    let msg := spn_string_format_cstr fmt args in
    Some (set_haserror true (set_errmsg (Some (String.append prefix msg)) vm)).

Definition spn_vm_geterrmsg (vm : SpnVMachine) : option string := errmsg vm.

Definition spn_vm_seterrmsg (vm : SpnVMachine) (fmt : string) (args : list fmtarg)
    : option SpnVMachine :=
  runtime_error vm None fmt args.

(** ** Stack traces *)

(** The counting loop of spn_vm_stacktrace. *)
Fixpoint count_frames (fuel : nat) (vm : SpnVMachine) (s : Z) (i : Z) : option Z :=
  if 0 <? s then
    match fuel with
    | O => None
    | S fuel' => h ← frmhdr vm s; count_frames fuel' vm (s - frame_size h) (i + 1)
    end
  else Some i.

(** The loop of spn_vm_stacktrace that fills the buffer, from index 0 on. *)
Fixpoint fill_names (fuel : nat) (vm : SpnVMachine) (s : Z) : option (list string) :=
  if 0 <? s then
    match fuel with
    | O => None
    | S fuel' =>
        h ← frmhdr vm s;
        f ← func_at vm (callee h);
        rest ← fill_names fuel' vm (s - frame_size h);
        Some (fn_name f :: rest)
    end
  else Some [].

(** The result is the value stored into [*size] and the returned buffer
    ([None] for [NULL]). *)
Definition spn_vm_stacktrace (fuel : nat) (vm : SpnVMachine)
    : option (Z * option (list string)) :=
  match sp vm with
  | None => Some (0, None)
  | Some s =>
      i ← count_frames fuel vm s 0;
      buf ← fill_names fuel vm s;
      Some (i, Some buf)
  end.

(** ** Instruction words *)

(** Modelled from the spec: the operand macros of vm.h, which is not part of
    vm.c ("each leading word packs an opcode (low 8 bits) and three 8-bit
    operand fields A, B, C; some instructions reinterpret B||C as a 16-bit
    mid field, and some reinterpret B..rest as a longer length"). *)
Definition OPCODE (ins : Z) : Z := Z.land ins 255.
Definition OPA (ins : Z) : Z := Z.land (Z.shiftr ins 8) 255.
Definition OPB (ins : Z) : Z := Z.land (Z.shiftr ins 16) 255.
Definition OPC (ins : Z) : Z := Z.land (Z.shiftr ins 24) 255.
Definition OPMID (ins : Z) : Z := Z.land (Z.shiftr ins 16) 65535.
Definition OPLONG (ins : Z) : Z := Z.land (Z.shiftr ins 8) 16777215.

Definition SPN_WORD_OCTETS : Z := 4.

(** The macro ROUNDUP: the number of units of [w] octets that hold [n]. *)
Definition ROUNDUP (n w : Z) : Z := (n + w - 1) / w.

(** Modelled from the spec: the header layout of vm.h, which is not part of
    vm.c ("function header, fixed small number of words:
    {symtab_offset_or_bodylen, symcount, argc, nregs}"). *)
Definition SPN_FUNCHDR_IDX_BODYLEN : Z := 0.
Definition SPN_FUNCHDR_IDX_SYMCNT : Z := 1.
Definition SPN_FUNCHDR_IDX_ARGC : Z := 2.
Definition SPN_FUNCHDR_IDX_NREGS : Z := 3.
Definition SPN_FUNCHDR_LEN : Z := 4.

Inductive spn_vm_ins : Type :=
| SPN_INS_CALL | SPN_INS_RET | SPN_INS_JMP | SPN_INS_JZE | SPN_INS_JNZ
| SPN_INS_EQ | SPN_INS_NE | SPN_INS_LT | SPN_INS_LE | SPN_INS_GT | SPN_INS_GE
| SPN_INS_ADD | SPN_INS_SUB | SPN_INS_MUL | SPN_INS_DIV | SPN_INS_MOD
| SPN_INS_NEG | SPN_INS_INC | SPN_INS_DEC
| SPN_INS_AND | SPN_INS_OR | SPN_INS_XOR | SPN_INS_SHL | SPN_INS_SHR
| SPN_INS_BITNOT | SPN_INS_LOGNOT | SPN_INS_SIZEOF | SPN_INS_TYPEOF
| SPN_INS_CONCAT | SPN_INS_LDCONST | SPN_INS_LDSYM | SPN_INS_MOV
| SPN_INS_LDARGC | SPN_INS_NEWARR | SPN_INS_ARRGET | SPN_INS_ARRSET
| SPN_INS_NTHARG | SPN_INS_FUNCTION | SPN_INS_GLBVAL | SPN_INS_CLOSURE
| SPN_INS_LDUPVAL.

(** Modelled from the spec: the numbering of enum spn_vm_ins of vm.h, which
    is not part of vm.c; the opcodes are numbered from 0 in the order in which
    the dispatcher lists its cases.  A number outside the table is an illegal
    instruction. *)
Definition opcode_table : list spn_vm_ins :=
  [ SPN_INS_CALL; SPN_INS_RET; SPN_INS_JMP; SPN_INS_JZE; SPN_INS_JNZ;
    SPN_INS_EQ; SPN_INS_NE; SPN_INS_LT; SPN_INS_LE; SPN_INS_GT; SPN_INS_GE;
    SPN_INS_ADD; SPN_INS_SUB; SPN_INS_MUL; SPN_INS_DIV; SPN_INS_MOD;
    SPN_INS_NEG; SPN_INS_INC; SPN_INS_DEC;
    SPN_INS_AND; SPN_INS_OR; SPN_INS_XOR; SPN_INS_SHL; SPN_INS_SHR;
    SPN_INS_BITNOT; SPN_INS_LOGNOT; SPN_INS_SIZEOF; SPN_INS_TYPEOF;
    SPN_INS_CONCAT; SPN_INS_LDCONST; SPN_INS_LDSYM; SPN_INS_MOV;
    SPN_INS_LDARGC; SPN_INS_NEWARR; SPN_INS_ARRGET; SPN_INS_ARRSET;
    SPN_INS_NTHARG; SPN_INS_FUNCTION; SPN_INS_GLBVAL; SPN_INS_CLOSURE;
    SPN_INS_LDUPVAL ].

Definition decode_opcode (n : Z) : option spn_vm_ins := opcode_table !! Z.to_nat n.

#[global] Instance spn_vm_ins_eq_dec : EqDecision spn_vm_ins.
Proof. solve_decision. Defined.

(** The number of an opcode in [opcode_table]. *)
Fixpoint index_of (op : spn_vm_ins) (l : list spn_vm_ins) (i : Z) : Z :=
  match l with
  | [] => i
  | x :: l' => if bool_decide (x = op) then i else index_of op l' (i + 1)
  end.

Definition opcode_num (op : spn_vm_ins) : Z := index_of op opcode_table 0.

(** Assembling an instruction word from its fields. *)
Definition mkins (op : spn_vm_ins) (a b c : Z) : Z :=
  opcode_num op + a * 256 + b * 65536 + c * 16777216.

Definition mkins_mid (op : spn_vm_ins) (a mid : Z) : Z :=
  opcode_num op + a * 256 + mid * 65536.

Inductive spn_const_kind : Type :=
| SPN_CONST_NIL | SPN_CONST_TRUE | SPN_CONST_FALSE | SPN_CONST_INT | SPN_CONST_FLOAT.

Definition decode_const_kind (n : Z) : option spn_const_kind :=
  [SPN_CONST_NIL; SPN_CONST_TRUE; SPN_CONST_FALSE; SPN_CONST_INT; SPN_CONST_FLOAT]
    !! Z.to_nat n.

Inductive spn_upval_type : Type := SPN_UPVAL_LOCAL | SPN_UPVAL_OUTER.

Definition decode_upval_type (n : Z) : option spn_upval_type :=
  [SPN_UPVAL_LOCAL; SPN_UPVAL_OUTER] !! Z.to_nat n.

Inductive spn_local_symbol : Type :=
| SPN_LOCSYM_STRCONST | SPN_LOCSYM_SYMSTUB | SPN_LOCSYM_FUNCDEF.

Definition decode_local_symbol (n : Z) : option spn_local_symbol :=
  [SPN_LOCSYM_STRCONST; SPN_LOCSYM_SYMSTUB; SPN_LOCSYM_FUNCDEF] !! Z.to_nat n.

(** [spn_sword offset = *ip]: a word read as a signed number. *)
Definition sword (w : Z) : Z := if w <? 2 ^ 31 then w else w - 2 ^ 32.

(** A binary64 from its bit pattern ([memcpy(&num, ip, sizeof num)]). *)
Definition double_of_bits (b : Z) : float :=
  let sign := Z.testbit b 63 in
  let e := Z.land (Z.shiftr b 52) 2047 in
  let m := Z.land b (2 ^ 52 - 1) in
  if e =? 2047 then
    if m =? 0 then (if sign then neg_infinity else infinity) else nan
  else if e =? 0 then
    if m =? 0 then (if sign then neg_zero else zero)
    else SF2Prim (S754_finite sign (Z.to_pos m) (-1074))
  else SF2Prim (S754_finite sign (Z.to_pos (m + 2 ^ 52)) (e - 1075)).

(** ** The arithmetic and logic unit *)

Definition intvalue (v : SpnValue) : Z := match v with VInt i => i | _ => 0 end.
Definition floatvalue (v : SpnValue) : float := match v with VFloat f => f | _ => zero end.
Definition boolvalue (v : SpnValue) : bool := match v with VBool b => b | _ => false end.

(** [a / b] on [long]: truncating, undefined for a zero divisor and for
    [LONG_MIN / -1]. *)
Definition long_div (a b : Z) : option Z :=
  if (b =? 0) || ((a =? LONG_MIN) && (b =? -1)) then None
  else Some (long_wrap (Z.quot a b)).

(** [a % b] on [long], undefined where [a / b] is. *)
Definition long_rem (a b : Z) : option Z :=
  if (b =? 0) || ((a =? LONG_MIN) && (b =? -1)) then None
  else Some (long_wrap (Z.rem a b)).

Definition arith_op (lhs rhs : SpnValue) (op : spn_vm_ins) : option SpnValue :=
  if negb (isnum lhs && isnum rhs) then None
  else if isfloat lhs || isfloat rhs then
    let a := if isfloat lhs then floatvalue lhs else long_to_double (intvalue lhs) in
    let b := if isfloat rhs then floatvalue rhs else long_to_double (intvalue rhs) in
    y ← match op with
        | SPN_INS_ADD => Some (PrimFloat.add a b)
        | SPN_INS_SUB => Some (PrimFloat.sub a b)
        | SPN_INS_MUL => Some (PrimFloat.mul a b)
        | SPN_INS_DIV => Some (PrimFloat.div a b)
        | _ => None
        end;
    Some (makefloat y)
  else
    let a := intvalue lhs in
    let b := intvalue rhs in
    y ← match op with
        | SPN_INS_ADD => Some (long_wrap (a + b))
        | SPN_INS_SUB => Some (long_wrap (a - b))
        | SPN_INS_MUL => Some (long_wrap (a * b))
        | SPN_INS_DIV => long_div a b
        | _ => None
        end;
    Some (makeint y).

(** Shifts are undefined for a count outside [0, 64). *)
Definition bitwise_op (lhs rhs : SpnValue) (op : spn_vm_ins) : option Z :=
  if negb (isint lhs && isint rhs) then None
  else
    let a := intvalue lhs in
    let b := intvalue rhs in
    match op with
    | SPN_INS_AND => Some (Z.land a b)
    | SPN_INS_OR => Some (Z.lor a b)
    | SPN_INS_XOR => Some (Z.lxor a b)
    | SPN_INS_SHL => if (0 <=? b) && (b <? 64) then Some (long_wrap (Z.shiftl a b)) else None
    | SPN_INS_SHR => if (0 <=? b) && (b <? 64) then Some (Z.shiftr a b) else None
    | _ => None
    end.

Definition cmp2bool (res : Z) (op : spn_vm_ins) : option bool :=
  match op with
  | SPN_INS_LT => Some (res <? 0)
  | SPN_INS_LE => Some (res <=? 0)
  | SPN_INS_GT => Some (0 <? res)
  | SPN_INS_GE => Some (0 <=? res)
  | _ => None
  end.

(** ** The object library and the host *)

(** The operations of the object library that vm.c calls on values of any
    type and that this development does not fix: deep equality, ordering,
    type names, and arrays indexed by arbitrary values. *)
Class ObjectLibrary : Type := {
  spn_value_equal : SpnVMachine → SpnValue → SpnValue → bool;
  spn_value_noteq : SpnVMachine → SpnValue → SpnValue → bool;
  spn_values_comparable : SpnValue → SpnValue → bool;
  spn_value_compare : SpnVMachine → SpnValue → SpnValue → Z;
  spn_type_name : SpnValue → string;
  spn_array_get : SpnVMachine → addr → SpnValue → SpnValue;
  spn_array_set : SpnVMachine → addr → SpnValue → SpnValue → SpnVMachine;
  spn_array_count : SpnVMachine → addr → Z
}.

(** A native callback [int fn(SpnValue *ret, int argc, SpnValue *argv, void
    *ctx)]: from the arguments and the machine (which it can reach through
    [ctx]) to the status, the value left in [*ret] (nil when the callback
    stores none) and the machine. *)
Definition NativeFn : Type := list SpnValue → SpnVMachine → Z * SpnValue * SpnVMachine.

(** struct args_copy_descriptor: the tag [caller_is_native] and the union
    [env] are the two constructors. *)
Inductive args_copy_descriptor : Type :=
| native_env (argv : list SpnValue)
| script_env (ip : Z) (retaddr : Z) (calleroff : Z) (retidx : Z).

Definition caller_is_native (d : args_copy_descriptor) : bool :=
  match d with native_env _ => true | script_env _ _ _ _ => false end.

(** What an iteration of the dispatcher does: go on at [ip] ([break] out of
    the switch) or return [code]; [out] is the value stored through the
    host's out-pointer, if one was stored. *)
Inductive outcome : Type :=
| Next (ip : Z) (vm : SpnVMachine)
| Exit (code : Z) (vm : SpnVMachine) (out : option SpnValue).

(** [for (i = from; cond(i); i++) body(i);] *)
Fixpoint for_loop (fuel : nat) (i : Z) (cond : Z → bool)
    (body : Z → SpnVMachine → option SpnVMachine) (vm : SpnVMachine)
    : option SpnVMachine :=
  if cond i then
    match fuel with
    | O => None
    | S fuel' => vm' ← body i vm; for_loop fuel' (i + 1) cond body vm'
    end
  else Some vm.

(** [spn_value_release(&vm->stack[i].v); vm->stack[i].v = v;] *)
Definition replace_at (vm : SpnVMachine) (i : Z) (v : SpnValue) : option SpnVMachine :=
  old ← val_at vm i;
  slot_set (spn_value_release old vm) i (SlotV v).

(** [spn_value_retain(&v); spn_value_release(&vm->stack[i].v);
    vm->stack[i].v = v;] *)
Definition assign_at (vm : SpnVMachine) (i : Z) (v : SpnValue) : option SpnVMachine :=
  replace_at (spn_value_retain v vm) i v.

Definition nth_vararg (vm : SpnVMachine) (s idx : Z) : option Z :=
  hdr ← frmhdr vm s;
  let vararg_off := frame_size hdr - EXTRA_SLOTS - extra_argc hdr in
  if (0 <=? idx) && (idx <? extra_argc hdr)
  then SLOTPTR vm s (vararg_off + idx)
  else None.

Definition update_func (o : addr) (f : SpnFunction) (vm : SpnVMachine) : SpnVMachine :=
  set_objs (alter (λ c, mkCell (refcnt c) (OFunc f)) o (objs vm)) vm.

(** Modelled from the spec: the constructors of the object library
    (makestring_nocopy, make_symstub, makescriptfunc, makearray,
    spn_string_concat, spn_func_new_closure), which are not part of vm.c;
    each yields a fresh object with reference count one. *)
Definition makestring_nocopy (s : string) (vm : SpnVMachine) : SpnValue * SpnVMachine :=
  let '(a, vm') := alloc (OString s) vm in (VString a, vm').

Definition make_symstub (name : string) (vm : SpnVMachine) : SpnValue * SpnVMachine :=
  let '(a, vm') := alloc (OSymStub name) vm in (VSymStub a, vm').

Definition makearray (vm : SpnVMachine) : SpnValue * SpnVMachine :=
  let '(a, vm') := alloc (OArray ∅ ∅) vm in (VArray a, vm').

Definition makescriptfunc (name : string) (entry : Z) (program : addr) (tab : addr)
    (vm : SpnVMachine) : SpnValue * SpnVMachine :=
  let '(a, vm') :=
    alloc (OFunc (mkFunction name false false false entry O tab program None)) vm in
  (VFunc a, vm').

Definition spn_func_new_closure (prototype : SpnFunction) (vm : SpnVMachine)
    : addr * addr * SpnVMachine :=
  let '(up, vm1) := alloc (OArray ∅ ∅) vm in
  let '(c, vm2) :=
    alloc (OFunc (mkFunction (fn_name prototype) (native prototype) false
                    (readsymtab prototype) (repr_bc prototype) (repr_fn prototype)
                    (symtab prototype) (env prototype) (Some up))) vm1 in
  (c, up, vm2).

(** ** The call protocol and the dispatcher *)

Section Dispatcher.

(** The code memory, the native callbacks (by the number a native function
    object carries in [repr_fn]) and the object library. *)
Context (bc : list Z) (natives : nat → NativeFn) {lib : ObjectLibrary}.

Definition fetch (a : Z) : option Z :=
  if 0 <=? a then bc !! Z.to_nat a else None.

(** The [k]th octet of the words that start at [a] (least significant
    octet first). *)
Definition byte_at (a k : Z) : option Z :=
  w ← fetch (a + k / SPN_WORD_OCTETS);
  Some (Z.land (Z.shiftr w (8 * (k mod SPN_WORD_OCTETS))) 255).

(** Modelled from the spec: the macro nth_arg_idx of vm.h, which is not part
    of vm.c (CALL is "followed by words of 8-bit register indices naming
    the arguments"). *)
Definition nth_arg_idx (ip idx : Z) : option Z := byte_at ip idx.

Fixpoint cstr_bytes (n : nat) (a k : Z) : option string :=
  match n with
  | O => Some EmptyString
  | S n' =>
      b ← byte_at a k;
      if b =? 0 then None
      else rest ← cstr_bytes n' a (k + 1);
           Some (String (ascii_of_N (Z.to_N b)) rest)
  end.

(** The NUL-terminated string at [a] whose length the bytecode records as
    [len] (the assertion [len == strlen(cstr)] included). *)
Definition cstr_at (a len : Z) : option string :=
  s ← cstr_bytes (Z.to_nat len) a 0;
  b ← byte_at a len;
  if b =? 0 then Some s else None.

Definition nth_call_arg (vm : SpnVMachine) (s ip idx : Z) : option Z :=
  regidx ← nth_arg_idx ip idx;
  SLOTPTR vm s regidx.

(** *** The local symbol table *)

Definition read_symbol (program : addr) (i stp : Z) (vm : SpnVMachine)
    : option (Z * SpnVMachine) :=
  prog ← func_at vm program;
  ins ← fetch stp;
  let stp := stp + 1 in
  sym ← decode_local_symbol (OPCODE ins);
  match sym with
  | SPN_LOCSYM_STRCONST =>
      let len := OPLONG ins in
      let nwords := ROUNDUP (len + 1) SPN_WORD_OCTETS in
      cstr ← cstr_at stp len;
      let '(strval, vm1) := makestring_nocopy cstr vm in
      vm2 ← spn_array_set_intkey vm1 (symtab prog) i strval;
      Some (stp + nwords, spn_value_release strval vm2)
  | SPN_LOCSYM_SYMSTUB =>
      let len := OPLONG ins in
      let nwords := ROUNDUP (len + 1) SPN_WORD_OCTETS in
      symname ← cstr_at stp len;
      let '(symval, vm1) := make_symstub symname vm in
      vm2 ← spn_array_set_intkey vm1 (symtab prog) i symval;
      Some (stp + nwords, spn_value_release symval vm2)
  | SPN_LOCSYM_FUNCDEF =>
      hdroff ← fetch stp;
      let stp := stp + 1 in
      let entry := repr_bc prog + hdroff in
      namelen ← fetch stp;
      let stp := stp + 1 in
      let nwords := ROUNDUP (namelen + 1) SPN_WORD_OCTETS in
      name ← cstr_at stp namelen;
      let '(fnval, vm1) := makescriptfunc name entry program (symtab prog) vm in
      vm2 ← spn_array_set_intkey vm1 (symtab prog) i fnval;
      Some (stp + nwords, spn_value_release fnval vm2)
  end.

Fixpoint read_symbols (n : nat) (program : addr) (i stp : Z) (vm : SpnVMachine)
    : option SpnVMachine :=
  match n with
  | O => Some vm
  | S n' =>
      '(stp', vm') ← read_symbol program i stp vm;
      read_symbols n' program (i + 1) stp' vm'
  end.

Definition read_local_symtab (vm : SpnVMachine) (program : addr) : option SpnVMachine :=
  prog ← func_at vm program;
  offset ← fetch (repr_bc prog + SPN_FUNCHDR_IDX_BODYLEN);
  symcount ← fetch (repr_bc prog + SPN_FUNCHDR_IDX_SYMCNT);
  let stp := repr_bc prog + SPN_FUNCHDR_LEN + offset in
  if negb (topprg prog) then None
  else if readsymtab prog then Some vm
  else
    let prog' := mkFunction (fn_name prog) (native prog) (topprg prog) true
                   (repr_bc prog) (repr_fn prog) (symtab prog) (env prog)
                   (upvalues prog) in
    read_symbols (Z.to_nat symcount) program 0 stp (update_func program prog' vm).

(** *** Binding the arguments of a call *)

(** The source of the [i]th call argument: the host's array, or the
    caller's register named by the [i]th octet after the CALL word. *)
Definition arg_src (vm : SpnVMachine) (desc : args_copy_descriptor) (i : Z)
    : option SpnValue :=
  match desc with
  | native_env argv => if 0 <=? i then argv !! Z.to_nat i else None
  | script_env ip _ calleroff _ =>
      p ← nth_call_arg vm calleroff ip i; val_at vm p
  end.

(** The body of the first loop of push_and_copy_args. *)
Definition copy_named_arg (desc : args_copy_descriptor) (i : Z) (vm : SpnVMachine)
    : option SpnVMachine :=
  s ← sp vm;
  dst ← SLOTPTR vm s i;
  src ← arg_src vm desc i;
  slot_set (spn_value_retain src vm) dst (SlotV src).

(** The body of the second loop of push_and_copy_args. *)
Definition copy_extra_arg (desc : args_copy_descriptor) (decl_argc : Z) (i : Z)
    (vm : SpnVMachine) : option SpnVMachine :=
  s ← sp vm;
  let dstidx := i - decl_argc in
  dst ← nth_vararg vm s dstidx;
  src ← arg_src vm desc i;
  slot_set (spn_value_retain src vm) dst (SlotV src).

Definition push_and_copy_args (vm : SpnVMachine) (fn : SpnValue)
    (desc : args_copy_descriptor) (argc : Z) : option SpnVMachine :=
  match fn with
  | VFunc fa =>
      fnobj ← func_at vm fa;
      if native fnobj then None
      else
        let fnhdr := repr_bc fnobj in
        decl_argc ← fetch (fnhdr + SPN_FUNCHDR_IDX_ARGC);
        nregs ← fetch (fnhdr + SPN_FUNCHDR_IDX_NREGS);
        let extra_argc := if decl_argc <? argc then argc - decl_argc else 0 in
        if nregs <? decl_argc then None
        else
          vm1 ← push_frame vm nregs decl_argc extra_argc argc
                  (match desc with
                   | native_env _ => None
                   | script_env _ retaddr _ _ => Some retaddr
                   end)
                  (match desc with
                   | native_env _ => -1
                   | script_env _ _ _ retidx => retidx
                   end)
                  fa;
          vm2 ← for_loop (Z.to_nat argc) 0
                  (λ i, (i <? decl_argc) && (i <? argc))
                  (copy_named_arg desc) vm1;
          for_loop (Z.to_nat argc) decl_argc
            (λ i, i <? argc)
            (copy_extra_arg desc decl_argc) vm2
  | _ => None
  end.

(** *** The symbol resolver *)

(** The result is the status, the value left in [*symp] and the machine. *)
Definition resolve_symbol (vm : SpnVMachine) (ip : Z) (symp : SpnValue)
    : option (Z * SpnValue * SpnVMachine) :=
  name ← symstubvalue vm symp;
  res ← spn_array_get_strkey vm (glbsymtab vm) name;
  if isnil res then
    vm' ← runtime_error vm (Some ip) "global `%s' does not exist or it is nil" [FStr name];
    Some (-1, symp, vm')
  else Some (0, res, vm).

(** *** Reflection *)

Definition sizeof_value (vm : SpnVMachine) (val : SpnValue) : option SpnValue :=
  match val with
  | VString _ => s ← stringvalue vm val; Some (makeint (Z.of_nat (String.length s)))
  | VArray o => Some (makeint (spn_array_count vm o))
  | _ => None
  end.

Definition typeof_value (vm : SpnVMachine) (val : SpnValue) : SpnValue * SpnVMachine :=
  makestring_nocopy (spn_type_name val) vm.

(** *** One iteration of dispatch_loop *)

(** [runtime_error(vm, ip, fmt, args); return -1;] *)
Definition raise (vm : SpnVMachine) (ip : Z) (fmt : string) (args : list fmtarg)
    : option outcome :=
  vm' ← runtime_error vm (Some ip) fmt args;
  Some (Exit (-1) vm' None).

Fixpoint gather_args (n : nat) (i : Z) (vm : SpnVMachine) (s ip : Z)
    : option (list SpnValue) :=
  match n with
  | O => Some []
  | S n' =>
      p ← nth_call_arg vm s ip i;
      v ← val_at vm p;
      rest ← gather_args n' (i + 1) vm s ip;
      Some (v :: rest)
  end.

(** The loop of CLOSURE over the upvalue descriptors; the result is the
    instruction pointer after the descriptors and the machine. *)
Fixpoint closure_upvals (n : nat) (i ip s : Z) (enclosing_fn : SpnFunction)
    (ups : addr) (vm : SpnVMachine) : option (Z * SpnVMachine) :=
  match n with
  | O => Some (ip, vm)
  | S n' =>
      upval_desc ← fetch ip;
      let ip := ip + 1 in
      upval_type ← decode_upval_type (OPCODE upval_desc);
      let upval_index := OPA upval_desc in
      vm' ← match upval_type with
            | SPN_UPVAL_LOCAL =>
                upval ← reg_get vm s upval_index;
                spn_array_set_intkey vm ups i upval
            | SPN_UPVAL_OUTER =>
                outer ← upvalues enclosing_fn;
                upval ← spn_array_get_intkey vm outer upval_index;
                spn_array_set_intkey vm ups i upval
            end;
      closure_upvals n' (i + 1) ip s enclosing_fn ups vm'
  end.

Definition call_native (vm : SpnVMachine) (s ip retidx : Z) (fa : addr)
    (fnobj : SpnFunction) (argc narggroups : Z) : option outcome :=
  argv ← gather_args (Z.to_nat argc) 0 vm s ip;
  vm1 ← push_native_pseudoframe vm fa;
  let '(err, tmpret, vm2) := natives (repr_fn fnobj) argv vm1 in
  vm3 ← replace_at vm2 retidx tmpret;
  if negb (err =? 0) then
    vm4 ← spn_vm_seterrmsg vm3 "error in function `%s' (code: %i)"
            [FStr (fn_name fnobj); FNum err];
    Some (Exit err vm4 None)
  else if haserror vm3 then None
  else
    vm4 ← pop_frame vm3;
    Some (Next (ip + narggroups) vm4).

Definition call_script (vm : SpnVMachine) (s ip retidx : Z) (func : SpnValue)
    (fa : addr) (fnobj : SpnFunction) (argc narggroups : Z) : option outcome :=
  let retaddr := ip + narggroups in
  let fnhdr := repr_bc fnobj in
  let entry := fnhdr + SPN_FUNCHDR_LEN in
  let calleroff := s in
  vm1 ← (if topprg fnobj then read_local_symtab vm fa else Some vm);
  vm2 ← push_and_copy_args vm1 func (script_env ip retaddr calleroff retidx) argc;
  Some (Next entry vm2).

Definition ins_call (vm : SpnVMachine) (ins ip : Z) : option outcome :=
  s ← sp vm;
  retidx ← SLOTPTR vm s (OPA ins);
  funcslot ← SLOTPTR vm s (OPB ins);
  func ← val_at vm funcslot;
  let argc := OPC ins in
  let narggroups := ROUNDUP argc SPN_WORD_OCTETS in
  match func with
  | VFunc fa =>
      fnobj ← func_at vm fa;
      if native fnobj
      then call_native vm s ip retidx fa fnobj argc narggroups
      else call_script vm s ip retidx func fa fnobj argc narggroups
  | _ => raise vm (ip - 1) "attempt to call non-function value" []
  end.

(** [retvalptr] says whether the host's out-pointer is non-NULL. *)
Definition ins_ret (vm : SpnVMachine) (ins : Z) (retvalptr : bool) : option outcome :=
  s ← sp vm;
  callee ← frmhdr vm s;
  p ← SLOTPTR vm s (OPA ins);
  res ← val_at vm p;
  '(vm1, out) ←
    (if retidx callee <? 0 then
       if retvalptr then Some (spn_value_retain res vm, Some res)
       else Some (vm, None)
     else
       let vm1 := spn_value_retain res vm in
       old ← val_at vm1 (retidx callee);
       vm2 ← slot_set (spn_value_release old vm1) (retidx callee) (SlotV res);
       Some (vm2, None));
  vm2 ← pop_frame vm1;
  callee' ← frmhdr vm2 s;
  match retaddr callee' with
  | None => Some (Exit 0 vm2 out)
  | Some a => Some (Next a vm2)
  end.

Definition ins_jump_if (vm : SpnVMachine) (opcode : spn_vm_ins) (ins ip : Z)
    : option outcome :=
  s ← sp vm;
  reg ← reg_get vm s (OPA ins);
  w ← fetch ip;
  let offset := sword w in
  let ip := ip + 1 in
  if negb (isbool reg) then
    raise vm (ip - 2)
      ("register does not contain Boolean value in conditional jump " +:+
       "(are you trying to use non-Booleans with logical operators " +:+
       "or in the condition of an `if`, `while` or `for` statement?)") []
  else if (bool_decide (opcode = SPN_INS_JZE) && negb (boolvalue reg))
          || (bool_decide (opcode = SPN_INS_JNZ) && boolvalue reg)
  then Some (Next (ip + offset) vm)
  else Some (Next ip vm).

Definition ins_equal (vm : SpnVMachine) (opcode : spn_vm_ins) (ins ip : Z)
    : option outcome :=
  s ← sp vm;
  a ← SLOTPTR vm s (OPA ins);
  b ← reg_get vm s (OPB ins);
  c ← reg_get vm s (OPC ins);
  let res := if bool_decide (opcode = SPN_INS_EQ)
             then spn_value_equal vm b c
             else spn_value_noteq vm b c in
  vm' ← replace_at vm a (makebool res);
  Some (Next ip vm').

Definition ins_compare (vm : SpnVMachine) (opcode : spn_vm_ins) (ins ip : Z)
    : option outcome :=
  s ← sp vm;
  a ← SLOTPTR vm s (OPA ins);
  b ← reg_get vm s (OPB ins);
  c ← reg_get vm s (OPC ins);
  if negb (spn_values_comparable b c) then
    raise vm (ip - 1) "ordered comparison of uncomparable values of type %s and %s"
      [FStr (spn_type_name b); FStr (spn_type_name c)]
  else
    let cmpres := spn_value_compare vm b c in
    r ← cmp2bool cmpres opcode;
    vm' ← replace_at vm a (makebool r);
    Some (Next ip vm').

Definition ins_arith (vm : SpnVMachine) (opcode : spn_vm_ins) (ins ip : Z)
    : option outcome :=
  s ← sp vm;
  a ← SLOTPTR vm s (OPA ins);
  b ← reg_get vm s (OPB ins);
  c ← reg_get vm s (OPC ins);
  if negb (isnum b) || negb (isnum c) then
    raise vm (ip - 1) "arithmetic on non-numbers" []
  else
    res ← arith_op b c opcode;
    vm' ← replace_at vm a res;
    Some (Next ip vm').

Definition ins_mod (vm : SpnVMachine) (ins ip : Z) : option outcome :=
  s ← sp vm;
  a ← SLOTPTR vm s (OPA ins);
  b ← reg_get vm s (OPB ins);
  c ← reg_get vm s (OPC ins);
  if negb (isint b) || negb (isint c) then
    raise vm (ip - 1) "modulo division on non-integers" []
  else
    res ← long_rem (intvalue b) (intvalue c);
    vm' ← replace_at vm a (makeint res);
    Some (Next ip vm').

Definition ins_neg (vm : SpnVMachine) (ins ip : Z) : option outcome :=
  s ← sp vm;
  a ← SLOTPTR vm s (OPA ins);
  b ← reg_get vm s (OPB ins);
  if negb (isnum b) then raise vm (ip - 1) "negation of non-number" []
  else
    let res := if isfloat b then makefloat (PrimFloat.opp (floatvalue b))
               else makeint (long_wrap (- intvalue b)) in
    vm' ← replace_at vm a res;
    Some (Next ip vm').

Definition ins_incdec (vm : SpnVMachine) (opcode : spn_vm_ins) (ins ip : Z)
    : option outcome :=
  s ← sp vm;
  p ← SLOTPTR vm s (OPA ins);
  val ← val_at vm p;
  if negb (isnum val) then
    raise vm (ip - 1) "incrementing or decrementing non-number" []
  else
    let val' :=
      if isfloat val then
        if bool_decide (opcode = SPN_INS_INC)
        then makefloat (PrimFloat.add (floatvalue val) one)
        else makefloat (PrimFloat.sub (floatvalue val) one)
      else
        if bool_decide (opcode = SPN_INS_INC)
        then makeint (long_wrap (intvalue val + 1))
        else makeint (long_wrap (intvalue val - 1)) in
    vm' ← slot_set vm p (SlotV val');
    Some (Next ip vm').

Definition ins_bitwise (vm : SpnVMachine) (opcode : spn_vm_ins) (ins ip : Z)
    : option outcome :=
  s ← sp vm;
  a ← SLOTPTR vm s (OPA ins);
  b ← reg_get vm s (OPB ins);
  c ← reg_get vm s (OPC ins);
  if negb (isint b) || negb (isint c) then
    raise vm (ip - 1) "bitwise operation on non-integers" []
  else
    res ← bitwise_op b c opcode;
    vm' ← replace_at vm a (makeint res);
    Some (Next ip vm').

Definition ins_bitnot (vm : SpnVMachine) (ins ip : Z) : option outcome :=
  s ← sp vm;
  a ← SLOTPTR vm s (OPA ins);
  b ← reg_get vm s (OPB ins);
  if negb (isint b) then raise vm (ip - 1) "bitwise NOT on non-integer" []
  else
    vm' ← replace_at vm a (makeint (Z.lnot (intvalue b)));
    Some (Next ip vm').

Definition ins_lognot (vm : SpnVMachine) (ins ip : Z) : option outcome :=
  s ← sp vm;
  a ← SLOTPTR vm s (OPA ins);
  b ← reg_get vm s (OPB ins);
  if negb (isbool b) then raise vm (ip - 1) "logical negation of non-Boolean value" []
  else
    vm' ← replace_at vm a (makebool (negb (boolvalue b)));
    Some (Next ip vm').

Definition ins_sizeof (vm : SpnVMachine) (ins ip : Z) : option outcome :=
  s ← sp vm;
  a ← SLOTPTR vm s (OPA ins);
  b ← reg_get vm s (OPB ins);
  if negb (isarray b) && negb (isstring b) then
    raise vm (ip - 1) "sizeof applied to a %s value" [FStr (spn_type_name b)]
  else
    res ← sizeof_value vm b;
    vm' ← replace_at vm a res;
    Some (Next ip vm').

Definition ins_typeof (vm : SpnVMachine) (ins ip : Z) : option outcome :=
  s ← sp vm;
  a ← SLOTPTR vm s (OPA ins);
  b ← reg_get vm s (OPB ins);
  let '(res, vm1) := typeof_value vm b in
  vm' ← replace_at vm1 a res;
  Some (Next ip vm').

Definition ins_concat (vm : SpnVMachine) (ins ip : Z) : option outcome :=
  s ← sp vm;
  a ← SLOTPTR vm s (OPA ins);
  b ← reg_get vm s (OPB ins);
  c ← reg_get vm s (OPC ins);
  if negb (isstring b) || negb (isstring c) then
    raise vm (ip - 1) "concatenation of non-string values" []
  else
    sb ← stringvalue vm b;
    sc ← stringvalue vm c;
    let '(res, vm1) := makestring_nocopy (sb +:+ sc) vm in
    vm' ← replace_at vm1 a res;
    Some (Next ip vm').

Definition ins_ldconst (vm : SpnVMachine) (ins ip : Z) : option outcome :=
  s ← sp vm;
  dst ← SLOTPTR vm s (OPA ins);
  old ← val_at vm dst;
  let vm1 := spn_value_release old vm in
  type ← decode_const_kind (OPB ins);
  match type with
  | SPN_CONST_NIL => vm' ← slot_set vm1 dst (SlotV makenil); Some (Next ip vm')
  | SPN_CONST_TRUE => vm' ← slot_set vm1 dst (SlotV (makebool true)); Some (Next ip vm')
  | SPN_CONST_FALSE => vm' ← slot_set vm1 dst (SlotV (makebool false)); Some (Next ip vm')
  | SPN_CONST_INT =>
      lo ← fetch ip;
      hi ← fetch (ip + 1);
      let num := long_wrap (lo + hi * 2 ^ 32) in
      vm' ← slot_set vm1 dst (SlotV (makeint num));
      Some (Next (ip + ROUNDUP 8 SPN_WORD_OCTETS) vm')
  | SPN_CONST_FLOAT =>
      lo ← fetch ip;
      hi ← fetch (ip + 1);
      let num := double_of_bits (lo + hi * 2 ^ 32) in
      vm' ← slot_set vm1 dst (SlotV (makefloat num));
      Some (Next (ip + ROUNDUP 8 SPN_WORD_OCTETS) vm')
  end.

Definition ins_ldsym (vm : SpnVMachine) (ins ip : Z) : option outcome :=
  s ← sp vm;
  dst ← SLOTPTR vm s (OPA ins);
  let symidx := OPMID ins in
  frmhdr ← frmhdr vm s;
  fn ← func_at vm (callee frmhdr);
  let symtab := symtab fn in
  sym ← spn_array_get_intkey vm symtab symidx;
  if isnil sym then None
  else if is_symstub sym then
    '(err, sym', vm1) ← resolve_symbol vm (ip - 1) sym;
    if negb (err =? 0) then Some (Exit (-1) vm1 None)
    else
      vm2 ← spn_array_set_intkey vm1 symtab symidx sym';
      vm3 ← assign_at vm2 dst sym';
      Some (Next ip vm3)
  else
    vm1 ← assign_at vm dst sym;
    Some (Next ip vm1).

Definition ins_mov (vm : SpnVMachine) (ins ip : Z) : option outcome :=
  s ← sp vm;
  a ← SLOTPTR vm s (OPA ins);
  b ← reg_get vm s (OPB ins);
  vm' ← assign_at vm a b;
  Some (Next ip vm').

Definition ins_ldargc (vm : SpnVMachine) (ins ip : Z) : option outcome :=
  s ← sp vm;
  a ← SLOTPTR vm s (OPA ins);
  h ← frmhdr vm s;
  vm' ← replace_at vm a (makeint (real_argc h));
  Some (Next ip vm').

Definition ins_newarr (vm : SpnVMachine) (ins ip : Z) : option outcome :=
  s ← sp vm;
  dst ← SLOTPTR vm s (OPA ins);
  old ← val_at vm dst;
  let '(arr, vm1) := makearray (spn_value_release old vm) in
  vm' ← slot_set vm1 dst (SlotV arr);
  Some (Next ip vm').

Definition ins_arrget (vm : SpnVMachine) (ins ip : Z) : option outcome :=
  s ← sp vm;
  a ← SLOTPTR vm s (OPA ins);
  b ← reg_get vm s (OPB ins);
  c ← reg_get vm s (OPC ins);
  match b with
  | VArray o =>
      let val := spn_array_get vm o c in
      vm' ← assign_at vm a val;
      Some (Next ip vm')
  | VString _ =>
      str ← stringvalue vm b;
      let len := Z.of_nat (String.length str) in
      if negb (isint c) then
        raise vm (ip - 1) "indexing string with non-integer value" []
      else
        let idx := intvalue c in
        let idx := if idx <? 0 then long_wrap (len + idx) else idx in
        if (idx <? 0) || (len <=? idx) then
          raise vm (ip - 1)
            ("character at normalized index %d is " +:+
             "out of bounds for string of length %d") [FNum idx; FNum len]
        else
          ch ← String.get (Z.to_nat idx) str;
          vm' ← replace_at vm a (makeint (Z.of_nat (nat_of_ascii ch)));
          Some (Next ip vm')
  | _ => raise vm (ip - 1) "first operand of [] operator must be an array or a string" []
  end.

Definition ins_arrset (vm : SpnVMachine) (ins ip : Z) : option outcome :=
  s ← sp vm;
  a ← reg_get vm s (OPA ins);
  b ← reg_get vm s (OPB ins);
  c ← reg_get vm s (OPC ins);
  match a with
  | VArray o =>
      if isfloat b && negb (PrimFloat.eqb (floatvalue b) (floatvalue b)) then
        raise vm (ip - 1) "array index cannot be NaN" []
      else Some (Next ip (spn_array_set vm o b c))
  | _ => raise vm (ip - 1) "assignment to member of non-array value" []
  end.

Definition ins_ntharg (vm : SpnVMachine) (ins ip : Z) : option outcome :=
  s ← sp vm;
  a ← SLOTPTR vm s (OPA ins);
  b ← reg_get vm s (OPB ins);
  hdr ← frmhdr vm s;
  if negb (isint b) then
    raise vm (ip - 1) "non-integer argument to `#' operator" []
  else
    let argidx := intvalue b in
    if argidx <? 0 then
      raise vm (ip - 1) "negative argument to `#' operator" []
    else if argidx <? extra_argc hdr then
      argp ← nth_vararg vm s argidx;
      arg ← val_at vm argp;
      vm' ← assign_at vm a arg;
      Some (Next ip vm')
    else
      raise vm (ip - 1) "argument `%d' of `#' operator is out-of bounds" [FNum argidx].

Definition ins_function (vm : SpnVMachine) (ip : Z) : option outcome :=
  let hdr := ip in
  bodylen ← fetch (hdr + SPN_FUNCHDR_IDX_BODYLEN);
  argc ← fetch (hdr + SPN_FUNCHDR_IDX_ARGC);
  nregs ← fetch (hdr + SPN_FUNCHDR_IDX_NREGS);
  if nregs <? argc then None
  else Some (Next (ip + (SPN_FUNCHDR_LEN + bodylen)) vm).

Definition ins_glbval (vm : SpnVMachine) (ins ip : Z) : option outcome :=
  s ← sp vm;
  src ← reg_get vm s (OPA ins);
  let namelen := OPMID ins in
  let nwords := ROUNDUP (namelen + 1) SPN_WORD_OCTETS in
  symname ← cstr_at ip namelen;
  let ip := ip + nwords in
  auxval ← spn_array_get_strkey vm (glbsymtab vm) symname;
  if negb (isnil auxval) then
    raise vm (ip - nwords - 1) "re-definition of global `%s'" [FStr symname]
  else
    vm' ← spn_array_set_strkey vm (glbsymtab vm) symname src;
    Some (Next ip vm').

Definition ins_closure (vm : SpnVMachine) (ins ip : Z) : option outcome :=
  s ← sp vm;
  let reg_index := OPA ins in
  let n_upvals := OPB ins in
  h ← frmhdr vm s;
  enclosing_fn ← func_at vm (callee h);
  p ← SLOTPTR vm s reg_index;
  prototype_val ← val_at vm p;
  prototype ← funcvalue vm prototype_val;
  let '(closure, ups, vm1) := spn_func_new_closure prototype vm in
  '(ip', vm2) ← closure_upvals (Z.to_nat n_upvals) 0 ip s enclosing_fn ups vm1;
  vm3 ← slot_set (spn_value_release prototype_val vm2) p (SlotV (VFunc closure));
  Some (Next ip' vm3).

Definition ins_ldupval (vm : SpnVMachine) (ins ip : Z) : option outcome :=
  s ← sp vm;
  let reg_index := OPA ins in
  let upval_index := OPB ins in
  h ← frmhdr vm s;
  current_fn ← func_at vm (callee h);
  p ← SLOTPTR vm s reg_index;
  old ← val_at vm p;
  let vm1 := spn_value_release old vm in
  ups ← upvalues current_fn;
  v ← spn_array_get_intkey vm1 ups upval_index;
  vm2 ← slot_set vm1 p (SlotV v);
  Some (Next ip (spn_value_retain v vm2)).

(** The body of the [while (1)] of dispatch_loop: [ip] is the address of
    the instruction word. *)
Definition dispatch_step (vm : SpnVMachine) (ip : Z) (retvalptr : bool)
    : option outcome :=
  ins ← fetch ip;
  let ip := ip + 1 in
  match decode_opcode (OPCODE ins) with
  | Some SPN_INS_CALL => ins_call vm ins ip
  | Some SPN_INS_RET => ins_ret vm ins retvalptr
  | Some SPN_INS_JMP => w ← fetch ip; Some (Next (ip + 1 + sword w) vm)
  | Some (SPN_INS_JZE as op) | Some (SPN_INS_JNZ as op) => ins_jump_if vm op ins ip
  | Some (SPN_INS_EQ as op) | Some (SPN_INS_NE as op) => ins_equal vm op ins ip
  | Some (SPN_INS_LT as op) | Some (SPN_INS_LE as op)
  | Some (SPN_INS_GT as op) | Some (SPN_INS_GE as op) => ins_compare vm op ins ip
  | Some (SPN_INS_ADD as op) | Some (SPN_INS_SUB as op)
  | Some (SPN_INS_MUL as op) | Some (SPN_INS_DIV as op) => ins_arith vm op ins ip
  | Some SPN_INS_MOD => ins_mod vm ins ip
  | Some SPN_INS_NEG => ins_neg vm ins ip
  | Some (SPN_INS_INC as op) | Some (SPN_INS_DEC as op) => ins_incdec vm op ins ip
  | Some (SPN_INS_AND as op) | Some (SPN_INS_OR as op) | Some (SPN_INS_XOR as op)
  | Some (SPN_INS_SHL as op) | Some (SPN_INS_SHR as op) => ins_bitwise vm op ins ip
  | Some SPN_INS_BITNOT => ins_bitnot vm ins ip
  | Some SPN_INS_LOGNOT => ins_lognot vm ins ip
  | Some SPN_INS_SIZEOF => ins_sizeof vm ins ip
  | Some SPN_INS_TYPEOF => ins_typeof vm ins ip
  | Some SPN_INS_CONCAT => ins_concat vm ins ip
  | Some SPN_INS_LDCONST => ins_ldconst vm ins ip
  | Some SPN_INS_LDSYM => ins_ldsym vm ins ip
  | Some SPN_INS_MOV => ins_mov vm ins ip
  | Some SPN_INS_LDARGC => ins_ldargc vm ins ip
  | Some SPN_INS_NEWARR => ins_newarr vm ins ip
  | Some SPN_INS_ARRGET => ins_arrget vm ins ip
  | Some SPN_INS_ARRSET => ins_arrset vm ins ip
  | Some SPN_INS_NTHARG => ins_ntharg vm ins ip
  | Some SPN_INS_FUNCTION => ins_function vm ip
  | Some SPN_INS_GLBVAL => ins_glbval vm ins ip
  | Some SPN_INS_CLOSURE => ins_closure vm ins ip
  | Some SPN_INS_LDUPVAL => ins_ldupval vm ins ip
  | None => raise vm (ip - 1) "illegal instruction 0x%02x" [FNum (OPCODE ins)]
  end.

(** dispatch_loop: the status, the machine and the value stored through
    the out-pointer; [None] also when the fuel runs out. *)
Fixpoint dispatch_loop (fuel : nat) (vm : SpnVMachine) (ip : Z) (retvalptr : bool)
    : option (Z * SpnVMachine * option SpnValue) :=
  match fuel with
  | O => None
  | S fuel' =>
      o ← dispatch_step vm ip retvalptr;
      match o with
      | Next ip' vm' => dispatch_loop fuel' vm' ip' retvalptr
      | Exit code vm' out => Some (code, vm', out)
      end
  end.

(** spn_vm_callfunc: the status, the machine and the value of [*retval]
    when the call stored one. *)
Definition spn_vm_callfunc (fuel : nat) (vm : SpnVMachine) (fn : SpnValue)
    (retvalptr : bool) (argc : Z) (argv : list SpnValue)
    : option (Z * SpnVMachine * option SpnValue) :=
  vm ← clean_vm_if_needed fuel vm;
  match fn with
  | VFunc fa =>
      fnobj ← func_at vm fa;
      if native fnobj then
        vm1 ← push_native_pseudoframe vm fa;
        if negb retvalptr then None
        else
          let '(err, retval, vm2) := natives (repr_fn fnobj) argv vm1 in
          if negb (err =? 0) then
            vm3 ← spn_vm_seterrmsg vm2 "error in function `%s' (code: %i)"
                    [FStr (fn_name fnobj); FNum err];
            Some (err, vm3, Some retval)
          else
            vm3 ← pop_frame vm2;
            Some (err, vm3, Some retval)
      else
        vm1 ← (if topprg fnobj then read_local_symtab vm fa else Some vm);
        let fnhdr := repr_bc fnobj in
        let entry := fnhdr + SPN_FUNCHDR_LEN in
        vm2 ← push_and_copy_args vm1 fn (native_env argv) argc;
        dispatch_loop fuel vm2 entry retvalptr
  | _ =>
      vm' ← spn_vm_seterrmsg vm "attempt to call non-function value" [];
      Some (-1, vm', None)
  end.

End Dispatcher.

(** * Notions used by the properties *)

(** ** Well-formed machines *)

(** The storage has [stackallsz] slots, and the stack pointer is NULL when
    nothing was allocated and inside the storage otherwise. *)
Definition stack_ok (vm : SpnVMachine) : Prop :=
  Z.of_nat (length (stack vm)) = stackallsz vm ∧
  match sp vm with
  | None => stackallsz vm = 0
  | Some s => 0 < stackallsz vm ∧ 0 <= s <= stackallsz vm
  end.

(** The fields of the machine a stack operation leaves alone. *)
Definition same_rest (vm vm' : SpnVMachine) : Prop :=
  glbsymtab vm' = glbsymtab vm ∧ errmsg vm' = errmsg vm ∧
  haserror vm' = haserror vm ∧ ctx vm' = ctx vm ∧ objs vm' = objs vm.

(** The same, the heap apart. *)
Definition same_rest_but_objs (vm vm' : SpnVMachine) : Prop :=
  glbsymtab vm' = glbsymtab vm ∧ errmsg vm' = errmsg vm ∧
  haserror vm' = haserror vm ∧ ctx vm' = ctx vm.

(** [live_frames vm s fs]: walking down from the stack offset [s] by the
    [size] fields of the headers meets the headers [fs], innermost first,
    and ends at the base of the stack. *)
Inductive live_frames (vm : SpnVMachine) : Z → list TFrame → Prop :=
| live_base : live_frames vm 0 []
| live_frame s h fs :
    frmhdr vm s = Some h →
    0 < frame_size h <= s →
    live_frames vm (s - frame_size h) fs →
    live_frames vm s (h :: fs).

(** The names of the callees of the frames [fs]. *)
Definition callee_names (vm : SpnVMachine) (fs : list TFrame) : option (list string) :=
  mapM (λ h, fn_name <$> func_at vm (callee h)) fs.

(** The effect of retain and of release on the heap alone. *)
Definition retain_in (v : SpnValue) (h : gmap positive Cell) : gmap positive Cell :=
  match objptr v with Some o => alter (bump 1) o h | None => h end.

Definition release_in (v : SpnValue) (h : gmap positive Cell) : gmap positive Cell :=
  match objptr v with Some o => alter (bump (-1)) o h | None => h end.

(** The register an argument is bound to: a formal parameter, or a slot of
    the variadic overflow region that follows the [nregs] registers. *)
Definition arg_reg (nregs decl i : Z) : Z :=
  if i <? decl then i else nregs + (i - decl).

(** The callee's frame (pushed on the machine [vm0], whose stack had [s0]
    slots in use, and now ending at [S]) when the arguments before the [j]th
    have been bound. *)
Definition bound_upto (vm0 : SpnVMachine) (args : list SpnValue)
    (s0 S nregs decl extra : Z) (hdr : TFrame) (j : Z) (vm : SpnVMachine) : Prop :=
  sp vm = Some S ∧
  Z.of_nat (length (stack vm)) = stackallsz vm ∧
  same_rest_but_objs vm0 vm ∧
  objs vm = foldl (λ h v, retain_in v h) (objs vm0) (take (Z.to_nat j) args) ∧
  frmhdr vm S = Some hdr ∧
  (∀ k, 0 <= k < s0 → stack vm !! Z.to_nat k = stack vm0 !! Z.to_nat k) ∧
  (∀ i, 0 <= i < j → val_at vm (S - arg_reg nregs decl i - 2) = args !! Z.to_nat i) ∧
  (∀ r, 0 <= r < nregs + extra → (∀ i, 0 <= i < j → arg_reg nregs decl i ≠ r) →
        val_at vm (S - r - 2) = Some VNil).

(** The return address and the return slot a descriptor stands for. *)
Definition desc_retaddr (desc : args_copy_descriptor) : option Z :=
  match desc with native_env _ => None | script_env _ retaddr _ _ => Some retaddr end.

Definition desc_retidx (desc : args_copy_descriptor) : Z :=
  match desc with native_env _ => -1 | script_env _ _ _ retidx => retidx end.

(** The caller's frame, from which a script caller's arguments are read,
    lies within the part of the stack in use. *)
Definition caller_below (desc : args_copy_descriptor) (s0 : Z) : Prop :=
  match desc with native_env _ => True | script_env _ _ calleroff _ => calleroff <= s0 end.

(** ** Example machines *)

(** A script function [f] with two formal parameters and three registers,
    whose header is at address 0 of the code memory, a string, and the
    global symbol table at address 2. *)
Definition ex_fn : SpnFunction :=
  mkFunction "f" false false false 0 O 2%positive 1%positive None.

Definition ex_heap : gmap positive Cell :=
  <[1%positive := mkCell 1 (OFunc ex_fn)]>
    (<[2%positive := mkCell 1 (OArray ∅ ∅)]>
      (<[3%positive := mkCell 1 (OString "s")]> ∅)).

Definition ex_bc : list Z := [0; 0; 2; 3].

Definition ex_vm : SpnVMachine := spn_vm_new 2%positive ex_heap.

(** The function [f] running in a frame whose register 1 holds the integer
    10 and whose register 2 holds the string at address 3; the word at
    address 5 of the code memory names the registers 1, 2 and 1 as the
    arguments of a call. *)
Definition caller_bc : list Z := [0; 0; 2; 3; 0; 1 + 2 * 2 ^ 8 + 1 * 2 ^ 16].

Definition caller_vm : SpnVMachine :=
  mkVM [SlotV (VString 3%positive); SlotV (VInt 10); SlotV VNil;
        SlotH (mkFrame 4 2 0 2 None (-1) 1%positive)]
       (Some 4) 4 2%positive None false 0 ex_heap.

(** The values in the [n] slots from [from] on. *)
Fixpoint slot_values (vm : SpnVMachine) (n : nat) (from : Z) : option (list SpnValue) :=
  match n with
  | O => Some []
  | S n' => v ← val_at vm from; rest ← slot_values vm n' (from + 1); Some (v :: rest)
  end.

(** The registers and variadic slots of the frame with header [h] that ends
    at [s], from the lowest stack index on. *)
Definition frame_values (vm : SpnVMachine) (s : Z) (h : TFrame) : option (list SpnValue) :=
  slot_values vm (Z.to_nat (frame_size h - EXTRA_SLOTS)) (s - frame_size h).

Definition release_all (vals : list SpnValue) (h : gmap positive Cell) : gmap positive Cell :=
  foldl (λ h v, release_in v h) h vals.

(** An object library and native callbacks for the examples: the callbacks
    all fail with status 1 and store no value. *)
Definition ex_lib : ObjectLibrary :=
  {| spn_value_equal := λ _ _ _, false;
     spn_value_noteq := λ _ _ _, true;
     spn_values_comparable := λ _ _, false;
     spn_value_compare := λ _ _ _, 0;
     spn_type_name := λ _, "value";
     spn_array_get := λ _ _ _, VNil;
     spn_array_set := λ vm _ _ _, vm;
     spn_array_count := λ _ _, 0 |}.

Definition ex_natives : nat → NativeFn := λ _ _ vm, (1, VNil, vm).

(** The function [f] called by the host with the string at address 3 as its
    only argument, about to execute [RET 0]: the string is referenced by the
    host and by register 0. *)
Definition ret_bc : list Z := [0; 0; 2; 3; mkins SPN_INS_RET 0 0 0].

Definition ret_heap : gmap positive Cell :=
  <[3%positive := mkCell 2 (OString "s")]> ex_heap.

Definition ret_vm : SpnVMachine :=
  mkVM [SlotV VNil; SlotV VNil; SlotV (VString 3%positive);
        SlotH (mkFrame 4 2 0 1 None (-1) 1%positive)]
       (Some 4) 4 2%positive None false 0 ret_heap.

(** ** Arithmetic and error texts *)

(** The arithmetic of the specification: wrap-around on integers, binary64 on
    promoted operands. *)
Definition int_arith (op : spn_vm_ins) (i j : Z) : Z :=
  long_wrap (match op with
             | SPN_INS_ADD => i + j
             | SPN_INS_SUB => i - j
             | SPN_INS_MUL => i * j
             | _ => Z.quot i j
             end).

Definition float_arith (op : spn_vm_ins) (x y : float) : float :=
  match op with
  | SPN_INS_ADD => PrimFloat.add x y
  | SPN_INS_SUB => PrimFloat.sub x y
  | SPN_INS_MUL => PrimFloat.mul x y
  | _ => PrimFloat.div x y
  end.

(** Promotion of a number to double. *)
Definition to_double (v : SpnValue) : float :=
  match v with
  | VFloat f => f
  | VInt i => long_to_double i
  | _ => zero
  end.

Definition is_arith (op : spn_vm_ins) : Prop :=
  op = SPN_INS_ADD ∨ op = SPN_INS_SUB ∨ op = SPN_INS_MUL ∨ op = SPN_INS_DIV.

(** The operands for which the integer quotient is defined. *)
Definition div_defined (i j : Z) : Prop := j ≠ 0 ∧ ¬ (i = LONG_MIN ∧ j = -1).

(** The message runtime_error builds for an error at the bytecode address
    [ip]: the prefix with the address relative to the program's bytecode
    as eight hexadecimal digits, then the formatted text. *)
Definition error_at (a : Z) (text : string) : string :=
  ("runtime error at address 0x" +:+ pad true 8 (hexadecimal a) +:+ ": ") +:+ text.

(** The machine after an error was recorded: only the message and the flag
    change, and they change only when no error was pending. *)
Definition with_error (msg : string) (vm : SpnVMachine) : SpnVMachine :=
  if haserror vm then vm else set_haserror true (set_errmsg (Some msg) vm).

(** A frame of [f] with register 0 holding nil, register 1 holding [b] and
    register 2 holding [c], and the instruction [op 0 1 2] at address 4. *)
Definition arith_vm (b c : SpnValue) : SpnVMachine :=
  mkVM [SlotV c; SlotV b; SlotV VNil; SlotH (mkFrame 4 2 0 2 None (-1) 1%positive)]
       (Some 4) 4 2%positive None false 0 ex_heap.

Definition arith_bc (op : spn_vm_ins) : list Z := [0; 0; 2; 3; mkins op 0 1 2].

(** A frame of [f] called with four arguments, two of them variadic (the
    string at address 3 and the integer 30); register 1 holds [b], and the
    instruction [NTHARG 0 1] is at address 4. *)
Definition vararg_vm (b : SpnValue) : SpnVMachine :=
  mkVM [SlotV (VInt 30); SlotV (VString 3%positive); SlotV VNil; SlotV b; SlotV VNil;
        SlotH (mkFrame 6 2 2 4 None (-1) 1%positive)]
       (Some 6) 8 2%positive None false 0 ex_heap.

Definition vararg_bc : list Z := [0; 0; 2; 3; mkins SPN_INS_NTHARG 0 1 0].

(** The object at an address, whatever its reference count. *)
Definition obj_at (h : gmap positive Cell) (o : addr) : option SpnObject :=
  obj <$> h !! o.

(** A frame of [f] whose register 0 holds 42, about to execute GLBVAL for the
    name "x" (the octets 120, 0 in the word after the instruction word); [g]
    is the string-keyed content of the global symbol table. *)
Definition glbval_bc : list Z := [0; 0; 2; 3; mkins_mid SPN_INS_GLBVAL 0 1; 120].

Definition glbval_vm (g : gmap string SpnValue) : SpnVMachine :=
  mkVM [SlotV VNil; SlotV VNil; SlotV (VInt 42);
        SlotH (mkFrame 4 2 0 1 None (-1) 1%positive)]
       (Some 4) 4 2%positive None false 0
       (<[2%positive := mkCell 1 (OArray ∅ g)]> ex_heap).

(** A function [g_user] whose local symbol table (at address 4) holds at
    index 0 a stub for the global "g", in a frame about to execute
    [LDSYM 0 0]; [g] is the string-keyed content of the global symbol
    table. *)
Definition ldsym_bc : list Z := [0; 0; 2; 3; mkins_mid SPN_INS_LDSYM 0 0].

Definition ldsym_fn : SpnFunction :=
  mkFunction "g_user" false false true 0 O 4%positive 1%positive None.

Definition ldsym_vm (g : gmap string SpnValue) : SpnVMachine :=
  mkVM [SlotV VNil; SlotV VNil; SlotV VNil;
        SlotH (mkFrame 4 2 0 0 None (-1) 1%positive)]
       (Some 4) 4 2%positive None false 0
       (<[1%positive := mkCell 1 (OFunc ldsym_fn)]>
         (<[2%positive := mkCell 1 (OArray ∅ g)]>
           (<[4%positive := mkCell 1 (OArray {[0 := VSymStub 5%positive]} ∅)]>
             (<[5%positive := mkCell 1 (OSymStub "g")]> ∅)))).

(** A native function [nat] (callback 0) at address 6, and a frame of [f]
    whose register 0 holds the string at address 3 and whose register 1
    holds [nat], about to execute [CALL 0 1] with no argument. *)
Definition call_bc : list Z := [0; 0; 2; 3; mkins SPN_INS_CALL 0 1 0].

Definition call_vm : SpnVMachine :=
  mkVM [SlotV VNil; SlotV (VFunc 6%positive); SlotV (VString 3%positive);
        SlotH (mkFrame 4 2 0 0 None (-1) 1%positive);
        SlotUninit; SlotUninit; SlotUninit; SlotUninit]
       (Some 4) 8 2%positive None false 0
       (<[6%positive := mkCell 1 (OFunc (mkFunction "nat" true false false 0 O
                                           2%positive 6%positive None))]> ret_heap).

(** An exit of the dispatcher on an error of the virtual machine itself:
    runtime_error was called with the address [ip], and -1 is returned. *)
Definition vm_error (vm : SpnVMachine) (ip code : Z) (vm' : SpnVMachine)
    (out : option SpnValue) : Prop :=
  code = -1 ∧ out = None ∧
  ∃ fmt args, runtime_error vm (Some ip) fmt args = Some vm'.

(** An exit of the dispatcher on the failure of a native callee: the
    pseudo-frame was pushed, the callee ran and returned [code], its
    out-value replaced the destination register, the error was recorded, and
    nothing was popped. *)
Definition native_error (natives : nat → NativeFn) (vm : SpnVMachine) (code : Z)
    (vm' : SpnVMachine) (out : option SpnValue) : Prop :=
  out = None ∧
  ∃ fa fnobj argv vm1 tmpret vm2 retidx vm3,
    func_at vm fa = Some fnobj ∧ native fnobj = true ∧
    push_native_pseudoframe vm fa = Some vm1 ∧
    natives (repr_fn fnobj) argv vm1 = (code, tmpret, vm2) ∧
    replace_at vm2 retidx tmpret = Some vm3 ∧
    spn_vm_seterrmsg vm3 "error in function `%s' (code: %i)"
      [FStr (fn_name fnobj); FNum code] = Some vm'.

(** [frames_hold vm s fs]: the frames met by walking down from [s], with the
    values held by the registers and variadic slots of each. *)
Inductive frames_hold (vm : SpnVMachine) : Z → list (TFrame * list SpnValue) → Prop :=
| hold_base : frames_hold vm 0 []
| hold_frame s h vals fs :
    frmhdr vm s = Some h →
    0 < frame_size h <= s →
    frame_values vm s h = Some vals →
    frames_hold vm (s - frame_size h) fs →
    frames_hold vm s ((h, vals) :: fs).

(** The heap after every value held by the frames was released. *)
Definition release_frames (fs : list (TFrame * list SpnValue)) (h : gmap positive Cell)
    : gmap positive Cell :=
  foldl (λ m f, release_all f.2 m) h fs.

(** The machine an iteration of the dispatcher leaves. *)
Definition outcome_vm (o : outcome) : SpnVMachine :=
  match o with Next _ vm => vm | Exit _ vm _ => vm end.

(** An iteration that raised no error: it goes on, or returns 0, with the
    flag clear. *)
Definition quiet (o : outcome) : Prop :=
  match o with
  | Next _ vm' => haserror vm' = false
  | Exit code vm' _ => code = 0 → haserror vm' = false
  end.

(** The object library has no access to the error state of the machine. *)
Definition library_keeps_flag (lib : ObjectLibrary) : Prop :=
  ∀ vm o k v, haserror (spn_array_set vm o k v) = haserror vm.

(** A program whose bytecode starts at address 1 of the code memory: its
    header declares two parameters and three registers, and its body is
    [ADD 0 0 1; RET 0].  The program is its own environment. *)
Definition err_fn : SpnFunction :=
  mkFunction "f" false false false 1 O 2%positive 1%positive None.

Definition err_heap : gmap positive Cell :=
  <[1%positive := mkCell 1 (OFunc err_fn)]>
    (<[2%positive := mkCell 1 (OArray ∅ ∅)]>
      (<[3%positive := mkCell 1 (OString "s")]> ∅)).

Definition err_bc : list Z :=
  [0; 0; 0; 2; 3; mkins SPN_INS_ADD 0 0 1; mkins SPN_INS_RET 0 0 0].

Definition err_vm : SpnVMachine := spn_vm_new 2%positive err_heap.

(** The frame of the program called with the string at address 3 and the
    integer 1. *)
Definition err_frame : SpnVMachine :=
  mkVM [SlotV VNil; SlotV (VInt 1); SlotV (VString 3%positive);
        SlotH (mkFrame 4 2 0 2 None (-1) 1%positive);
        SlotUninit; SlotUninit; SlotUninit; SlotUninit]
       (Some 4) 8 2%positive None false 0
       (<[3%positive := mkCell 2 (OString "s")]> err_heap).

(** The machine [call_vm] while the native function [nat] runs: its
    pseudo-frame is on top of the frame of [f]. *)
Definition trace_vm : SpnVMachine :=
  mkVM [SlotV VNil; SlotV (VFunc 6%positive); SlotV (VString 3%positive);
        SlotH (mkFrame 4 2 0 0 None (-1) 1%positive);
        SlotH (mkFrame 1 0 0 0 None (-1) 6%positive);
        SlotUninit; SlotUninit; SlotUninit]
       (Some 5) 8 2%positive None false 0 (objs call_vm).

(** ** The rest of the host interface *)

(** spn_vm_getglobals, spn_vm_getcontext and spn_vm_setcontext. *)
Definition spn_vm_getglobals (vm : SpnVMachine) : addr := glbsymtab vm.

Definition spn_vm_getcontext (vm : SpnVMachine) : Z := ctx vm.

Definition spn_vm_setcontext (vm : SpnVMachine) (c : Z) : SpnVMachine :=
  mkVM (stack vm) (sp vm) (stackallsz vm) (glbsymtab vm) (errmsg vm) (haserror vm) c (objs vm).

(** spn_vm_free: the frames are unwound, the global symbol table is
    released, and the storage of the stack, the message and the machine are
    freed; what is left is the heap.  (spn_object_release lowers the
    reference count of the object, as spn_value_release does for the value
    that points to it.) *)
Definition spn_vm_free (fuel : nat) (vm : SpnVMachine) : option (gmap positive Cell) :=
  vm1 ← free_frames fuel vm;
  Some (alter (bump (-1)) (glbsymtab vm1) (objs vm1)).

(** The number of values of a list that point to the object at [o]. *)
Fixpoint references (o : addr) (vals : list SpnValue) : Z :=
  match vals with
  | [] => 0
  | v :: vals' => (if bool_decide (objptr v = Some o) then 1 else 0) + references o vals'
  end.

(** The reference count of the object at [o] in a heap. *)
Definition refcount_in (h : gmap positive Cell) (o : addr) : Z :=
  match h !! o with Some c => refcnt c | None => 0 end.

(** Native callbacks for the examples: callback 0 fails with status 1,
    callback 1 succeeds and yields 7. *)
Definition two_natives : nat → NativeFn :=
  λ n _ vm, match n with O => (1, VNil, vm) | _ => (0, VInt 7, vm) end.

(** A machine with no frame whose heap holds the native functions [nat]
    (callback 0, at address 6) and [seven] (callback 1, at address 7). *)
Definition host_vm : SpnVMachine :=
  spn_vm_new 2%positive
    (<[7%positive := mkCell 1 (OFunc (mkFunction "seven" true false false 0 1
                                        2%positive 7%positive None))]> (objs call_vm)).

(** Whether a conditional jump is taken on the Boolean [b]: JZE jumps on
    false, JNZ on true. *)
Definition jump_taken (op : spn_vm_ins) (b : bool) : bool :=
  match op with SPN_INS_JZE => negb b | _ => b end.

(** The answer of an ordered comparison whose operands compare as [res]
    (negative, zero or positive). *)
Definition ordered (op : spn_vm_ins) (res : Z) : bool :=
  match op with
  | SPN_INS_LT => res <? 0
  | SPN_INS_LE => res <=? 0
  | SPN_INS_GT => 0 <? res
  | _ => 0 <=? res
  end.

Definition is_comparison (op : spn_vm_ins) : Prop :=
  op = SPN_INS_LT ∨ op = SPN_INS_LE ∨ op = SPN_INS_GT ∨ op = SPN_INS_GE.

(** The frame of [arith_vm] with a word [w] after the instruction [ins]. *)
Definition code_of (ins w : Z) : list Z := [0; 0; 2; 3; ins; w].

(** An object library that orders integers and nothing else. *)
Definition int_lib : ObjectLibrary :=
  {| spn_value_equal := λ _ x y, bool_decide (intvalue x = intvalue y);
     spn_value_noteq := λ _ x y, negb (bool_decide (intvalue x = intvalue y));
     spn_values_comparable := λ x y, isint x && isint y;
     spn_value_compare := λ _ x y, intvalue x - intvalue y;
     spn_type_name := λ v, if isint v then "int" else "other";
     spn_array_get := λ _ _ _, VNil;
     spn_array_set := λ vm _ _ _, vm;
     spn_array_count := λ _ _, 0 |}.

(** A value of the range of [long]. *)
Definition in_long (i : Z) : Prop := LONG_MIN <= i <= LONG_MAX.




(** The frame of [arith_vm] with register 0 holding [v], and the
    instructions [INC 0] at address 4 and [DEC 0] at address 5. *)
Definition counter_vm (v : SpnValue) : SpnVMachine :=
  mkVM [SlotV VNil; SlotV VNil; SlotV v; SlotH (mkFrame 4 2 0 2 None (-1) 1%positive)]
       (Some 4) 4 2%positive None false 0 ex_heap.

Definition counter_bc : list Z :=
  [0; 0; 2; 3; mkins SPN_INS_INC 0 0 0; mkins SPN_INS_DEC 0 0 0].

(** The object a value points to is in the heap (primitives point to
    none). *)
Definition points_into (h : gmap positive Cell) (v : SpnValue) : Prop :=
  ∀ o, objptr v = Some o → is_Some (h !! o).

(** Whether a value points to the object at [o], as a number. *)
Definition points_to (v : SpnValue) (o : addr) : Z :=
  if bool_decide (objptr v = Some o) then 1 else 0.

(** The frame of [arith_vm] with two words after the instruction [ins]. *)
Definition code_with (ins w1 w2 : Z) : list Z := [0; 0; 2; 3; ins; w1; w2].

(** The registers of a frame right after the arguments [args] of a call were
    bound, from register 0 on: the formal parameters that received an
    argument, nil for the other registers, and the variadic arguments. *)
Definition bound_registers (args : list SpnValue) (decl nregs : Z) : list SpnValue :=
  let m := Z.min decl (Z.of_nat (length args)) in
  take (Z.to_nat m) args ++ replicate (Z.to_nat (nregs - m)) VNil ++ drop (Z.to_nat decl) args.

(** The function [f] of the examples with the instruction [ins] as its
    body. *)
Definition body_of (ins : Z) : list Z := [0; 0; 2; 3; ins].

(** The array spn_vm_addlib_cfuncs and spn_vm_addlib_values store into (the
    block both functions start with): the global symbol table for a NULL
    library name; otherwise the array bound to the name in the global symbol
    table, which is created, bound and released by its creator when the name
    is unbound.  [arrayvalue] of a value that is not an array is undefined. *)
Definition library_storage (vm : SpnVMachine) (libname : option string)
    : option (addr * SpnVMachine) :=
  match libname with
  | Some name =>
      libval ← spn_array_get_strkey vm (glbsymtab vm) name;
      '(libval, vm) ←
        (if isnil libval then
           let '(arr, vm1) := makearray vm in
           vm2 ← spn_array_set_strkey vm1 (glbsymtab vm1) name arr;
           Some (arr, spn_value_release arr vm2)
         else Some (libval, vm));
      match libval with
      | VArray a => Some (a, vm)
      | _ => None
      end
  | None => Some (glbsymtab vm, vm)
  end.

(** The loop of spn_vm_addlib_values; an SpnExtValue is a name and a
    value. *)
Fixpoint add_values (storage : addr) (vals : list (string * SpnValue)) (vm : SpnVMachine)
    : option SpnVMachine :=
  match vals with
  | [] => Some vm
  | (name, v) :: rest =>
      vm1 ← spn_array_set_strkey vm storage name v;
      add_values storage rest vm1
  end.

Definition spn_vm_addlib_values (vm : SpnVMachine) (libname : option string)
    (vals : list (string * SpnValue)) : option SpnVMachine :=
  '(storage, vm1) ← library_storage vm libname;
  add_values storage vals vm1.

(** A function object with the flag [readsymtab] set. *)
Definition symtab_read (f : SpnFunction) : SpnFunction :=
  mkFunction (fn_name f) (native f) (topprg f) true (repr_bc f) (repr_fn f)
    (symtab f) (env f) (upvalues f).

(** The string-keyed part of an array after the pairs of a list were stored
    one after the other. *)
Definition put_all (strs : gmap string SpnValue) (vals : list (string * SpnValue))
    : gmap string SpnValue :=
  foldl (λ m kv, if isnil kv.2 then delete kv.1 m else <[kv.1 := kv.2]> m) strs vals.

(** A top-level program [main] at address 1 whose body is one word and whose
    symbol table holds the string constant "hi": the header, the body, the
    symbol word (kind 0, length 2) and the word with the characters. *)
Definition symtab_bc : list Z := [1; 1; 0; 1; mkins SPN_INS_RET 0 0 0; 512; 26984].

Definition symtab_vm : SpnVMachine :=
  spn_vm_new 2%positive
    (<[1%positive := mkCell 1 (OFunc (mkFunction "main" false true false 0 O
                                        4%positive 1%positive None))]>
      (<[2%positive := mkCell 1 (OArray ∅ ∅)]>
        (<[4%positive := mkCell 1 (OArray ∅ ∅)]> ∅))).

(** * Properties *)

(** ** Slots *)

Lemma slot_set_Some vm i s :
  0 <= i < Z.of_nat (length (stack vm)) →
  slot_set vm i s = Some (set_stack (<[Z.to_nat i := s]> (stack vm)) vm).
Proof.
  intros [H0 H1]. unfold slot_set.
  destruct (Z.leb_spec 0 i); [|lia].
  destruct (Z.ltb_spec i (Z.of_nat (length (stack vm)))); [|lia].
  reflexivity.
Qed.

Lemma slot_set_inv vm i s vm' :
  slot_set vm i s = Some vm' →
  0 <= i < Z.of_nat (length (stack vm)) ∧
  vm' = set_stack (<[Z.to_nat i := s]> (stack vm)) vm.
Proof.
  unfold slot_set.
  destruct (Z.leb_spec 0 i); simpl; [|discriminate].
  destruct (Z.ltb_spec i (Z.of_nat (length (stack vm)))); [|discriminate].
  intros [= <-]. split; [lia|reflexivity].
Qed.

Lemma lookup_insert_Z (l : list TSlot) (i j : Z) (x : TSlot) :
  0 <= i → 0 <= j →
  <[Z.to_nat i := x]> l !! Z.to_nat j =
  if (i =? j) && (i <? Z.of_nat (length l)) then Some x else l !! Z.to_nat j.
Proof.
  intros Hi Hj.
  destruct (Z.eqb_spec i j) as [->|Hne]; simpl.
  - destruct (Z.ltb_spec j (Z.of_nat (length l))).
    + apply list_lookup_insert_eq. lia.
    + rewrite list_insert_ge by lia. reflexivity.
  - apply list_lookup_insert_ne. lia.
Qed.

(** ** Growing the stack *)

Lemma size_wrap_small z : 0 <= z < 2 ^ 64 → size_wrap z = z.
Proof. intros H. unfold size_wrap, SIZE_MOD. apply Z.mod_small. lia. Qed.

Lemma double_until_spec fuel : ∀ a n,
  0 < a → n <= 2 ^ 63 → n <= a * 2 ^ Z.of_nat fuel →
  ∃ k, 0 <= k <= Z.of_nat fuel ∧
       double_until fuel a n = Some (a * 2 ^ k) ∧
       n <= a * 2 ^ k ∧
       ∀ j, 0 <= j < k → a * 2 ^ j < n.
Proof.
  induction fuel as [|fuel IH]; intros a n Ha Hn Hfuel.
  - exists 0. simpl in *. rewrite Z.mul_1_r in *.
    destruct (Z.ltb_spec a n); [lia|].
    repeat split; try lia.
  - cbn [double_until].
    destruct (Z.ltb_spec a n) as [Hlt|Hge].
    + rewrite size_wrap_small by lia.
      destruct (IH (a * 2) n) as (k & Hk & Heq & Hle & Hmin); [lia|lia| |].
      { rewrite Nat2Z.inj_succ, Z.pow_succ_r in Hfuel by lia. lia. }
      exists (k + 1). rewrite Z.pow_add_r by lia.
      replace (a * (2 ^ k * 2 ^ 1)) with (a * 2 * 2 ^ k) by lia.
      repeat split; try lia; try assumption.
      intros j Hj. destruct (Z.eq_dec j 0) as [->|Hj0].
      * rewrite Z.mul_1_r. assumption.
      * specialize (Hmin (j - 1) ltac:(lia)).
        replace j with (j - 1 + 1) by lia. rewrite Z.pow_add_r by lia. lia.
    + exists 0. rewrite Z.mul_1_r. repeat split; try lia.
Qed.

Lemma length_spn_realloc l n :
  Z.of_nat (length l) <= n → Z.of_nat (length (spn_realloc l n)) = n.
Proof.
  intros H. unfold spn_realloc.
  rewrite length_app, length_take, length_replicate. lia.
Qed.

Lemma lookup_spn_realloc l n i :
  Z.of_nat (length l) <= n → (i < length l)%nat →
  spn_realloc l n !! i = l !! i.
Proof.
  intros H Hi. unfold spn_realloc.
  rewrite lookup_app_l by (rewrite length_take; lia).
  apply lookup_take_lt. lia.
Qed.

Lemma init_regs_spec n : ∀ from vm,
  0 <= from → from + Z.of_nat n <= Z.of_nat (length (stack vm)) →
  ∃ l, init_regs n from vm = Some (set_stack l vm) ∧
       length l = length (stack vm) ∧
       ∀ i, 0 <= i →
         l !! Z.to_nat i =
         if (from <=? i) && (i <? from + Z.of_nat n)
         then Some (SlotV VNil) else stack vm !! Z.to_nat i.
Proof.
  induction n as [|n IH]; intros from vm Hfrom Hlen.
  - exists (stack vm). repeat split.
    + destruct vm; reflexivity.
    + intros i Hi. destruct (Z.leb_spec from i); simpl; [|reflexivity].
      destruct (Z.ltb_spec i (from + Z.of_nat 0)); [lia|reflexivity].
  - cbn [init_regs]. rewrite slot_set_Some by lia. simpl.
    destruct (IH (from + 1) (set_stack (<[Z.to_nat from := SlotV makenil]> (stack vm)) vm))
      as (l & Heq & Hl & Hlook).
    { lia. }
    { simpl. rewrite length_insert. lia. }
    exists l. split; [exact Heq|]. split.
    { rewrite Hl. simpl. apply length_insert. }
    intros i Hi. rewrite Hlook by assumption. simpl.
    rewrite lookup_insert_Z by lia.
    destruct (Z.leb_spec (from + 1) i), (Z.ltb_spec i (from + 1 + Z.of_nat n)),
             (Z.leb_spec from i), (Z.ltb_spec i (from + Z.of_nat (S n))),
             (Z.eqb_spec from i), (Z.ltb_spec from (Z.of_nat (length (stack vm))));
      simpl; try reflexivity; lia.
Qed.

Lemma stacksize_bounds vm :
  stack_ok vm → 0 <= stacksize vm <= stackallsz vm.
Proof.
  intros [Hlen Hsp]. unfold stacksize.
  destruct (Z.eqb_spec (stackallsz vm) 0) as [->|Hne]; [lia|].
  destruct (sp vm); simpl; lia.
Qed.

(** What expand_stack does when the doubling does not wrap around. *)
Lemma expand_stack_spec vm n :
  stack_ok vm → 0 <= n → stacksize vm + n <= 2 ^ 63 →
  let base := if stackallsz vm =? 0 then 8 else stackallsz vm in
  ∃ k, 0 <= k ∧
    expand_stack vm n =
      Some (set_sp (Some (stacksize vm))
             (set_stack (spn_realloc (stack vm) (base * 2 ^ k))
               (set_stackallsz (base * 2 ^ k) vm))) ∧
    stacksize vm + n <= base * 2 ^ k ∧
    ∀ j, 0 <= j < k → base * 2 ^ j < stacksize vm + n.
Proof.
  intros Hok Hn Hreq base.
  pose proof (stacksize_bounds vm Hok) as Hss.
  assert (Hbase : 0 < base).
  { subst base. destruct Hok as [_ Hsp].
    destruct (Z.eqb_spec (stackallsz vm) 0); [lia|].
    destruct (sp vm); lia. }
  destruct (double_until_spec 64 base (stacksize vm + n)) as (k & Hk & Heq & Hle & Hmin).
  { assumption. } { assumption. }
  { change (2 ^ Z.of_nat 64) with (2 * 2 ^ 63). nia. }
  exists k. split; [lia|]. split; [|split; assumption].
  unfold expand_stack. rewrite size_wrap_small by lia.
  fold base. rewrite Heq. reflexivity.
Qed.

Lemma push_frame_prepare vm n :
  stack_ok vm → 1 <= n → stacksize vm + n <= 2 ^ 63 →
  let base := if stackallsz vm =? 0 then 8 else stackallsz vm in
  ∃ vm1,
    (if (stackallsz vm =? 0) || (stackallsz vm <? size_wrap (stacksize vm + n))
     then expand_stack vm n else Some vm) = Some vm1 ∧
    sp vm1 = Some (stacksize vm) ∧
    Z.of_nat (length (stack vm1)) = stackallsz vm1 ∧
    stacksize vm + n <= stackallsz vm1 ∧
    same_rest vm vm1 ∧
    (∀ i, (i < length (stack vm))%nat → stack vm1 !! i = stack vm !! i) ∧
    (stackallsz vm < stacksize vm + n →
       ∃ k, 0 <= k ∧ stackallsz vm1 = base * 2 ^ k ∧
            ∀ j, 0 <= j < k → base * 2 ^ j < stacksize vm + n) ∧
    (stacksize vm + n <= stackallsz vm → vm1 = vm).
Proof.
  intros Hok Hn Hreq base.
  pose proof (stacksize_bounds vm Hok) as Hss.
  rewrite size_wrap_small by lia.
  destruct ((stackallsz vm =? 0) || (stackallsz vm <? stacksize vm + n)) eqn:Hc.
  - destruct (expand_stack_spec vm n Hok ltac:(lia) Hreq) as (k & Hk & Heq & Hle & Hmin).
    fold base in Heq, Hle, Hmin.
    eexists. split; [exact Heq|]. simpl.
    destruct Hok as [Hlen Hsp].
    assert (Hbase : stackallsz vm <= base).
    { subst base. destruct (Z.eqb_spec (stackallsz vm) 0); lia. }
    assert (Hpow : 1 <= 2 ^ k) by (pose proof (Z.pow_pos_nonneg 2 k); lia).
    assert (Hgrow : stackallsz vm <= base * 2 ^ k) by nia.
    split; [reflexivity|]. split; [apply length_spn_realloc; lia|].
    split; [lia|]. split; [repeat split|]. split.
    { intros i Hi. apply lookup_spn_realloc; lia. }
    split.
    { intros _. exists k. auto. }
    intros Hfit. apply orb_true_iff in Hc as [Hc|Hc].
    + apply Z.eqb_eq in Hc. lia.
    + apply Z.ltb_lt in Hc. lia.
  - apply orb_false_iff in Hc as [Hz Hl].
    apply Z.eqb_neq in Hz. apply Z.ltb_ge in Hl.
    exists vm. split; [reflexivity|].
    destruct Hok as [Hlen Hsp].
    split.
    { unfold stacksize. destruct (Z.eqb_spec (stackallsz vm) 0); [lia|].
      destruct (sp vm); [reflexivity|lia]. }
    split; [assumption|]. split; [lia|]. split; [repeat split|].
    split; [reflexivity|]. split; [lia|reflexivity].
Qed.

Lemma push_frame_spec vm nregs da ea ra rad ri cal :
  stack_ok vm → 0 <= nregs → 0 <= ea →
  stacksize vm + (nregs + ea + EXTRA_SLOTS) <= 2 ^ 63 →
  let n := nregs + ea + EXTRA_SLOTS in
  let s0 := stacksize vm in
  let base := if stackallsz vm =? 0 then 8 else stackallsz vm in
  ∃ vm', push_frame vm nregs da ea ra rad ri cal = Some vm' ∧
    sp vm' = Some (s0 + n) ∧
    stack_ok vm' ∧
    same_rest vm vm' ∧
    (∀ i, 0 <= i < s0 → stack vm' !! Z.to_nat i = stack vm !! Z.to_nat i) ∧
    (∀ i, s0 <= i < s0 + n - 1 → stack vm' !! Z.to_nat i = Some (SlotV VNil)) ∧
    stack vm' !! Z.to_nat (s0 + n - 1) = Some (SlotH (mkFrame n da ea ra rad ri cal)) ∧
    (stackallsz vm < s0 + n →
       ∃ k, 0 <= k ∧ stackallsz vm' = base * 2 ^ k ∧ s0 + n <= stackallsz vm' ∧
            ∀ j, 0 <= j < k → base * 2 ^ j < s0 + n) ∧
    (s0 + n <= stackallsz vm →
       stackallsz vm' = stackallsz vm ∧ length (stack vm') = length (stack vm)).
Proof.
  intros Hok Hnregs Hea Hreq n s0 base.
  pose proof (stacksize_bounds vm Hok) as Hss. fold s0 in Hss.
  assert (Hn : 1 <= n) by (unfold n, EXTRA_SLOTS; lia).
  destruct (push_frame_prepare vm n Hok Hn Hreq)
    as (vm1 & Hprep & Hsp1 & Hlen1 & Hcap1 & Hrest1 & Hold1 & Hgrow1 & Hfit1).
  fold s0 in Hsp1, Hcap1, Hgrow1, Hfit1. fold base in Hgrow1.
  unfold push_frame. fold n.
  destruct (Z.ltb_spec ea 0); [lia|].
  rewrite Hprep. simpl. rewrite Hsp1. simpl.
  replace (n - EXTRA_SLOTS) with (nregs + ea) by (unfold n; lia).
  replace (s0 + n - n) with s0 by lia.
  destruct (init_regs_spec (Z.to_nat (nregs + ea)) s0 (set_sp (Some (s0 + n)) vm1))
    as (l & Hinit & Hl & Hlook).
  { lia. } { simpl. unfold n, EXTRA_SLOTS in Hcap1. lia. }
  rewrite Hinit. simpl. simpl in Hl.
  rewrite slot_set_Some by (simpl; unfold IDX_FRMHDR; lia).
  eexists. split; [reflexivity|]. simpl.
  assert (Hlen_old : s0 <= Z.of_nat (length (stack vm))).
  { destruct Hok as [Hlen _]. lia. }
  split; [reflexivity|]. split.
  { split; simpl.
    - rewrite length_insert. lia.
    - unfold n, EXTRA_SLOTS in *. lia. }
  split.
  { destruct Hrest1 as (?&?&?&?&?). repeat split; assumption. }
  split.
  { intros i Hi. rewrite lookup_insert_Z by (unfold IDX_FRMHDR; lia).
    destruct (Z.eqb_spec (s0 + n + IDX_FRMHDR) i); [unfold IDX_FRMHDR in *; lia|]. simpl.
    rewrite Hlook by lia. simpl.
    destruct (Z.leb_spec s0 i); [lia|]. simpl.
    apply Hold1. lia. }
  split.
  { intros i Hi. rewrite lookup_insert_Z by (unfold IDX_FRMHDR; lia).
    destruct (Z.eqb_spec (s0 + n + IDX_FRMHDR) i); [unfold IDX_FRMHDR in *; lia|]. simpl.
    rewrite Hlook by lia.
    destruct (Z.leb_spec s0 i); [|lia].
    destruct (Z.ltb_spec i (s0 + Z.of_nat (Z.to_nat (nregs + ea)))); [reflexivity|].
    unfold n, EXTRA_SLOTS in *. lia. }
  split.
  { replace (s0 + n + IDX_FRMHDR) with (s0 + n - 1) by (unfold IDX_FRMHDR; lia).
    apply list_lookup_insert_eq. unfold n, EXTRA_SLOTS in *. lia. }
  split.
  { intros Hlt. destruct (Hgrow1 Hlt) as (k & Hk & Hsz & Hmin).
    exists k. simpl. repeat split; try assumption; lia. }
  intros Hfit. rewrite (Hfit1 Hfit) in *. simpl in *.
  split; [reflexivity|]. rewrite length_insert. exact Hl.
Qed.

Lemma least_doubling_unique base req k1 k2 :
  0 < base → 0 <= k1 → 0 <= k2 →
  req <= base * 2 ^ k1 → (∀ j, 0 <= j < k1 → base * 2 ^ j < req) →
  req <= base * 2 ^ k2 → (∀ j, 0 <= j < k2 → base * 2 ^ j < req) →
  k1 = k2.
Proof.
  intros Hb H1 H2 Hle1 Hmin1 Hle2 Hmin2.
  destruct (Z.lt_trichotomy k1 k2) as [Hlt|[Heq|Hgt]]; [|assumption|].
  - specialize (Hmin2 k1 ltac:(lia)). lia.
  - specialize (Hmin1 k2 ltac:(lia)). lia.
Qed.

(** C8: a push that needs more slots than the capacity doubles the capacity,
    from 8 when nothing was allocated yet and from the current capacity
    otherwise, as many times as it takes and no more, the old contents are
    kept and expand_stack sets the stack pointer back to its old offset in
    the reallocated array; a push that fits leaves capacity and storage
    size alone. *)
Theorem push_frame_doubles_capacity vm nregs da ea ra rad ri cal :
  stack_ok vm → 0 <= nregs → 0 <= ea →
  stacksize vm + (nregs + ea + EXTRA_SLOTS) <= 2 ^ 63 →
  let n := nregs + ea + EXTRA_SLOTS in
  let required := stacksize vm + n in
  let base := if stackallsz vm =? 0 then 8 else stackallsz vm in
  ∃ vm', push_frame vm nregs da ea ra rad ri cal = Some vm' ∧
    sp vm' = Some required ∧
    (∀ i, 0 <= i < stacksize vm → stack vm' !! Z.to_nat i = stack vm !! Z.to_nat i) ∧
    (stackallsz vm < required →
       ∃ k vme, 0 <= k ∧
         stackallsz vm' = base * 2 ^ k ∧
         required <= base * 2 ^ k ∧
         (∀ j, 0 <= j < k → base * 2 ^ j < required) ∧
         Z.of_nat (length (stack vm')) = base * 2 ^ k ∧
         expand_stack vm n = Some vme ∧
         stackallsz vme = base * 2 ^ k ∧
         sp vme = Some (stacksize vm)) ∧
    (required <= stackallsz vm →
       stackallsz vm' = stackallsz vm ∧ length (stack vm') = length (stack vm)).
Proof.
  intros Hok Hnregs Hea Hreq n required base.
  destruct (push_frame_spec vm nregs da ea ra rad ri cal Hok Hnregs Hea Hreq)
    as (vm' & Hpush & Hsp & Hok' & _ & Hold & _ & _ & Hgrow & Hfit).
  fold n required base in Hsp, Hgrow, Hfit.
  exists vm'. split; [exact Hpush|]. split; [exact Hsp|]. split; [exact Hold|].
  split; [|exact Hfit].
  intros Hlt. destruct (Hgrow Hlt) as (k & Hk & Hsz & Hle & Hmin).
  destruct (expand_stack_spec vm n Hok ltac:(unfold n, EXTRA_SLOTS; lia) Hreq)
    as (k' & Hk' & Hexp & Hle' & Hmin').
  fold base required in Hexp, Hle', Hmin'.
  assert (Hbase : 0 < base).
  { subst base. destruct Hok as [_ Hs].
    destruct (Z.eqb_spec (stackallsz vm) 0); [lia|]. destruct (sp vm); lia. }
  assert (k' = k) as ->.
  { rewrite Hsz in Hle. eapply (least_doubling_unique base required); eauto. }
  eexists k, _. split; [exact Hk|]. split; [exact Hsz|].
  split; [lia|]. split; [exact Hmin|]. split.
  { destruct Hok' as [Hl _]. lia. }
  split; [exact Hexp|]. split; reflexivity.
Qed.

Lemma push_frame_doubles_capacity_witness :
  ∃ vm', push_frame (spn_vm_new 1%positive ∅) 10 0 0 0 None (-1) 1%positive = Some vm' ∧
         stackallsz vm' = 16.
Proof.
  destruct (push_frame_doubles_capacity (spn_vm_new 1%positive ∅) 10 0 0 0 None (-1) 1%positive)
    as (vm' & Hpush & _ & _ & Hgrow & _).
  - split; reflexivity.
  - lia.
  - lia.
  - vm_compute. discriminate.
  - exists vm'. split; [exact Hpush|].
    destruct Hgrow as (k & vme & Hk & Hsz & Hle & Hmin & _); [vm_compute; reflexivity|].
    change (11 <= 8 * 2 ^ k) in Hle.
    assert (k = 1) as ->.
    { destruct (Z.eq_dec k 0) as [->|Hk0]; [simpl in Hle; lia|].
      destruct (Z.le_gt_cases 2 k) as [Hk2|Hk2]; [|lia].
      specialize (Hmin 1 ltac:(lia)). vm_compute in Hmin. discriminate Hmin. }
    exact Hsz.
Defined.

(** ** Frames *)

Lemma live_frames_nonneg vm s fs : live_frames vm s fs → 0 <= s.
Proof. destruct 1; lia. Qed.

Lemma frmhdr_agree vm vm' s :
  0 < s →
  stack vm' !! Z.to_nat (s - 1) = stack vm !! Z.to_nat (s - 1) →
  frmhdr vm' s = frmhdr vm s.
Proof.
  intros Hs H. unfold frmhdr, slot_get, IDX_FRMHDR.
  replace (s + -1) with (s - 1) by lia.
  destruct (Z.leb_spec 0 (s - 1)); [|lia]. rewrite H. reflexivity.
Qed.

Lemma live_frames_agree vm vm' s fs :
  live_frames vm s fs →
  (∀ i, 0 <= i < s → stack vm' !! Z.to_nat i = stack vm !! Z.to_nat i) →
  live_frames vm' s fs.
Proof.
  induction 1 as [|s h fs Hh Hsz Hfs IH]; intros Hagree.
  - constructor.
  - econstructor; [|exact Hsz|].
    + rewrite (frmhdr_agree vm vm') by (try apply Hagree; lia). exact Hh.
    + apply IH. intros i Hi. apply Hagree. lia.
Qed.

Lemma count_frames_live vm s fs :
  live_frames vm s fs →
  ∀ fuel i, (length fs <= fuel)%nat →
    count_frames fuel vm s i = Some (i + Z.of_nat (length fs)).
Proof.
  induction 1 as [|s h fs Hh Hsz Hfs IH]; intros fuel i Hfuel.
  - destruct fuel; simpl; f_equal; lia.
  - destruct fuel as [|fuel]; [simpl in Hfuel; lia|].
    cbn [count_frames]. destruct (Z.ltb_spec 0 s); [|lia].
    rewrite Hh. simpl. rewrite IH by (simpl in Hfuel; lia).
    f_equal. rewrite Nat2Z.inj_succ. lia.
Qed.

Lemma fill_names_live vm s fs :
  live_frames vm s fs →
  ∀ fuel names, (length fs <= fuel)%nat →
    callee_names vm fs = Some names →
    fill_names fuel vm s = Some names.
Proof.
  induction 1 as [|s h fs Hh Hsz Hfs IH]; intros fuel names Hfuel Hnames.
  - unfold callee_names in Hnames. simpl in Hnames. injection Hnames as <-.
    destruct fuel; reflexivity.
  - destruct fuel as [|fuel]; [simpl in Hfuel; lia|].
    cbn [fill_names]. destruct (Z.ltb_spec 0 s); [|lia].
    rewrite Hh. simpl.
    unfold callee_names in Hnames. cbn [mapM] in Hnames.
    destruct (func_at vm (callee h)) as [f|] eqn:Hf; [|discriminate]. simpl in Hnames.
    destruct (mapM (λ h, fn_name <$> func_at vm (callee h)) fs) as [rest|] eqn:Hrest;
      [|discriminate].
    simpl in Hnames. injection Hnames as <-.
    simpl. rewrite (IH fuel rest) by (simpl in Hfuel; solve [lia | assumption]).
    reflexivity.
Qed.

(** C9: on a machine whose stack was never allocated spn_vm_stacktrace
    stores 0 and returns NULL; otherwise, when the walk from the stack
    pointer down by the headers' size fields meets the frames [fs] (innermost
    first) before it reaches the base, the trace holds the name of the callee
    of each of these frames, one per frame and in that order. *)
Theorem stacktrace_innermost_first vm :
  (sp vm = None → ∀ fuel, spn_vm_stacktrace fuel vm = Some (0, None)) ∧
  (∀ s fs names fuel,
     sp vm = Some s →
     live_frames vm s fs →
     callee_names vm fs = Some names →
     (length fs <= fuel)%nat →
     spn_vm_stacktrace fuel vm = Some (Z.of_nat (length fs), Some names) ∧
     length names = length fs).
Proof.
  split.
  - intros Hsp fuel. unfold spn_vm_stacktrace. rewrite Hsp. reflexivity.
  - intros s fs names fuel Hsp Hlive Hnames Hfuel.
    unfold spn_vm_stacktrace. rewrite Hsp.
    rewrite (count_frames_live vm s fs Hlive) by assumption. simpl.
    rewrite (fill_names_live vm s fs Hlive fuel names) by assumption. simpl.
    split; [reflexivity|].
    unfold callee_names in Hnames. apply length_mapM in Hnames. lia.
Qed.

(** ** Reference counts *)

Lemma retain_fields v vm :
  stack (spn_value_retain v vm) = stack vm ∧ sp (spn_value_retain v vm) = sp vm ∧
  stackallsz (spn_value_retain v vm) = stackallsz vm ∧
  glbsymtab (spn_value_retain v vm) = glbsymtab vm ∧
  errmsg (spn_value_retain v vm) = errmsg vm ∧
  haserror (spn_value_retain v vm) = haserror vm ∧
  ctx (spn_value_retain v vm) = ctx vm.
Proof. unfold spn_value_retain. destruct (objptr v); repeat split. Qed.

Lemma release_fields v vm :
  stack (spn_value_release v vm) = stack vm ∧ sp (spn_value_release v vm) = sp vm ∧
  stackallsz (spn_value_release v vm) = stackallsz vm ∧
  glbsymtab (spn_value_release v vm) = glbsymtab vm ∧
  errmsg (spn_value_release v vm) = errmsg vm ∧
  haserror (spn_value_release v vm) = haserror vm ∧
  ctx (spn_value_release v vm) = ctx vm.
Proof. unfold spn_value_release. destruct (objptr v); repeat split. Qed.

Lemma objs_retain v vm : objs (spn_value_retain v vm) = retain_in v (objs vm).
Proof. unfold spn_value_retain, retain_in. destruct (objptr v); reflexivity. Qed.

Lemma objs_release v vm : objs (spn_value_release v vm) = release_in v (objs vm).
Proof. unfold spn_value_release, release_in. destruct (objptr v); reflexivity. Qed.

Lemma slot_get_retain v vm i : slot_get (spn_value_retain v vm) i = slot_get vm i.
Proof. unfold slot_get. destruct (retain_fields v vm) as (-> & _). reflexivity. Qed.

Lemma slot_get_release v vm i : slot_get (spn_value_release v vm) i = slot_get vm i.
Proof. unfold slot_get. destruct (release_fields v vm) as (-> & _). reflexivity. Qed.

Lemma slot_get_slot_set vm i x vm' k :
  slot_set vm i x = Some vm' →
  slot_get vm' k = if i =? k then Some x else slot_get vm k.
Proof.
  intros H. apply slot_set_inv in H as [Hi ->].
  unfold slot_get. simpl.
  destruct (Z.leb_spec 0 k).
  - rewrite lookup_insert_Z by lia.
    destruct (Z.eqb_spec i k); simpl; [|reflexivity].
    destruct (Z.ltb_spec i (Z.of_nat (length (stack vm)))); [reflexivity|lia].
  - destruct (Z.eqb_spec i k); [lia|reflexivity].
Qed.

Lemma slot_set_fields vm i x vm' :
  slot_set vm i x = Some vm' →
  length (stack vm') = length (stack vm) ∧ sp vm' = sp vm ∧
  stackallsz vm' = stackallsz vm ∧ glbsymtab vm' = glbsymtab vm ∧
  errmsg vm' = errmsg vm ∧ haserror vm' = haserror vm ∧ ctx vm' = ctx vm ∧
  objs vm' = objs vm.
Proof.
  intros H. apply slot_set_inv in H as [Hi ->]. simpl.
  rewrite length_insert. repeat split.
Qed.

Lemma slot_get_stack vm i :
  0 <= i → slot_get vm i = stack vm !! Z.to_nat i.
Proof. intros H. unfold slot_get. destruct (Z.leb_spec 0 i); [reflexivity|lia]. Qed.

Lemma SLOTPTR_hdr vm s h r :
  frmhdr vm s = Some h → 0 <= r < frame_size h - 1 →
  SLOTPTR vm s r = Some (s - r - 2).
Proof.
  intros Hh Hr. unfold SLOTPTR. rewrite Hh. simpl. unfold EXTRA_SLOTS, REG_OFFSET.
  destruct (Z.leb_spec 0 r); [|lia].
  destruct (Z.ltb_spec r (frame_size h - 1)); [|lia].
  simpl. f_equal. lia.
Qed.

Lemma SLOTPTR_inv vm s r p :
  SLOTPTR vm s r = Some p →
  ∃ h, frmhdr vm s = Some h ∧ 0 <= r < frame_size h - 1 ∧ p = s - r - 2.
Proof.
  unfold SLOTPTR. destruct (frmhdr vm s) as [h|]; [|discriminate]. simpl.
  unfold EXTRA_SLOTS, REG_OFFSET.
  destruct (Z.leb_spec 0 r); [|discriminate].
  destruct (Z.ltb_spec r (frame_size h - 1)); [|discriminate].
  simpl. intros [= <-]. exists h. split; [reflexivity|]. lia.
Qed.

Lemma frmhdr_inv vm s h :
  frmhdr vm s = Some h → 0 < s ∧ stack vm !! Z.to_nat (s - 1) = Some (SlotH h).
Proof.
  unfold frmhdr, slot_get, IDX_FRMHDR.
  destruct (Z.leb_spec 0 (s + -1)); [|discriminate].
  replace (s + -1) with (s - 1) by lia.
  destruct (stack vm !! Z.to_nat (s - 1)) as [[]|]; try discriminate.
  intros [= ->]. split; [lia|reflexivity].
Qed.

Lemma frmhdr_intro vm s h :
  0 < s → stack vm !! Z.to_nat (s - 1) = Some (SlotH h) → frmhdr vm s = Some h.
Proof.
  intros Hs H. unfold frmhdr, slot_get, IDX_FRMHDR.
  replace (s + -1) with (s - 1) by lia.
  destruct (Z.leb_spec 0 (s - 1)); [|lia]. rewrite H. reflexivity.
Qed.

(** The source of an argument lies in the caller's frame or in the host's
    array: it does not change while the callee's frame is filled. *)
Lemma arg_src_agree bc vm vm' desc i :
  (∀ k, 0 <= k → match desc with
                | native_env _ => False
                | script_env _ _ calleroff _ => k < calleroff
                end → stack vm' !! Z.to_nat k = stack vm !! Z.to_nat k) →
  arg_src bc vm' desc i = arg_src bc vm desc i.
Proof.
  intros Hagree. destruct desc as [argv|ip ra calleroff ri]; [reflexivity|].
  unfold arg_src, nth_call_arg.
  destruct (nth_arg_idx bc ip i) as [r|]; [|reflexivity]. simpl.
  assert (Hh : frmhdr vm' calleroff = frmhdr vm calleroff).
  { unfold frmhdr, IDX_FRMHDR.
    unfold slot_get. destruct (Z.leb_spec 0 (calleroff + -1)); [|reflexivity].
    rewrite Hagree by lia. reflexivity. }
  unfold SLOTPTR. rewrite Hh.
  destruct (frmhdr vm calleroff) as [h|]; [|reflexivity]. simpl.
  destruct ((0 <=? r) && (r <? frame_size h - EXTRA_SLOTS)) eqn:Hr; [|reflexivity].
  simpl. apply andb_true_iff in Hr as [Hr0 Hr1]. apply Z.leb_le in Hr0.
  unfold val_at, slot_get, REG_OFFSET.
  destruct (Z.leb_spec 0 (calleroff + (- r + -2))); [|reflexivity].
  rewrite Hagree by lia. reflexivity.
Qed.

Lemma arg_reg_inj nregs decl i j :
  0 <= decl <= nregs → 0 <= i → 0 <= j →
  arg_reg nregs decl i = arg_reg nregs decl j → i = j.
Proof.
  unfold arg_reg. intros.
  destruct (Z.ltb_spec i decl), (Z.ltb_spec j decl); lia.
Qed.

Lemma val_at_slot_set vm i v vm' k :
  slot_set vm i (SlotV v) = Some vm' →
  val_at vm' k = if i =? k then Some v else val_at vm k.
Proof.
  intros H. unfold val_at. rewrite (slot_get_slot_set _ _ _ _ k H).
  destruct (i =? k); reflexivity.
Qed.

Lemma frmhdr_slot_set vm i v vm' s :
  slot_set vm i (SlotV v) = Some vm' → i ≠ s - 1 →
  frmhdr vm' s = frmhdr vm s.
Proof.
  intros H Hne. unfold frmhdr, IDX_FRMHDR. rewrite (slot_get_slot_set _ _ _ _ _ H).
  destruct (Z.eqb_spec i (s + -1)); [lia|reflexivity].
Qed.

Lemma val_at_retain v vm k : val_at (spn_value_retain v vm) k = val_at vm k.
Proof. unfold val_at. rewrite slot_get_retain. reflexivity. Qed.

Lemma frmhdr_retain v vm s : frmhdr (spn_value_retain v vm) s = frmhdr vm s.
Proof. unfold frmhdr. rewrite slot_get_retain. reflexivity. Qed.

(** Binding one more argument. *)
Lemma bind_step vm0 args s0 S nregs decl extra hdr j vm a :
  0 <= s0 → S = s0 + nregs + extra + 1 → 0 <= decl <= nregs → 0 <= extra →
  0 <= j → 0 <= arg_reg nregs decl j < nregs + extra →
  args !! Z.to_nat j = Some a →
  bound_upto vm0 args s0 S nregs decl extra hdr j vm →
  ∃ vm', slot_set (spn_value_retain a vm) (S - arg_reg nregs decl j - 2) (SlotV a) = Some vm' ∧
         bound_upto vm0 args s0 S nregs decl extra hdr (j + 1) vm'.
Proof.
  intros Hs0 HS Hdecl Hextra Hj Hr Ha (Hsp & Hlen & Hrest & Hobjs & Hhdr & Hlow & Hargs & Hnil).
  set (r := arg_reg nregs decl j) in *.
  destruct (retain_fields a vm) as (Est & Esp & Eall & Eg & Ee & Eh & Ec).
  apply frmhdr_inv in Hhdr as Hhdr'. destruct Hhdr' as [HSpos Hslot].
  assert (HSlen : S <= Z.of_nat (length (stack vm))).
  { apply lookup_lt_Some in Hslot. lia. }
  assert (Hset : slot_set (spn_value_retain a vm) (S - r - 2) (SlotV a) =
                 Some (set_stack (<[Z.to_nat (S - r - 2) := SlotV a]> (stack (spn_value_retain a vm)))
                        (spn_value_retain a vm))).
  { apply slot_set_Some. rewrite Est. lia. }
  eexists. split; [exact Hset|].
  destruct (slot_set_fields _ _ _ _ Hset) as (Fl & Fsp & Fall & Fg & Fe & Fh & Fc & Fo).
  split; [rewrite Fsp, Esp; exact Hsp|].
  split; [rewrite Fl, Fall, Est, Eall; exact Hlen|].
  split.
  { destruct Hrest as (?&?&?&?). unfold same_rest_but_objs.
    rewrite Fg, Fe, Fh, Fc, Eg, Ee, Eh, Ec. repeat split; assumption. }
  split.
  { rewrite Fo, objs_retain, Hobjs.
    replace (Z.to_nat (j + 1)) with (Datatypes.S (Z.to_nat j)) by lia.
    rewrite (take_S_r _ _ _ Ha), foldl_app. reflexivity. }
  split.
  { rewrite (frmhdr_slot_set _ _ _ _ _ Hset) by lia.
    rewrite frmhdr_retain. exact Hhdr. }
  split.
  { intros k Hk. rewrite <- Hlow by assumption.
    rewrite <- !slot_get_stack by lia.
    rewrite (slot_get_slot_set _ _ _ _ _ Hset).
    destruct (Z.eqb_spec (S - r - 2) k); [lia|]. apply slot_get_retain. }
  split.
  { intros i Hi. rewrite (val_at_slot_set _ _ _ _ _ Hset), val_at_retain.
    destruct (Z.eqb_spec (S - r - 2) (S - arg_reg nregs decl i - 2)) as [Heq|Hne].
    - assert (i = j) as ->; [|symmetry; exact Ha].
      apply (arg_reg_inj nregs decl); [lia..|]. unfold r in Heq. lia.
    - apply Hargs. destruct (Z.eq_dec i j) as [->|]; [unfold r in Hne; lia|lia]. }
  intros r' Hr' Hfresh. rewrite (val_at_slot_set _ _ _ _ _ Hset), val_at_retain.
  destruct (Z.eqb_spec (S - r - 2) (S - r' - 2)) as [Heq|Hne].
  - exfalso. apply (Hfresh j); [lia|]. unfold r in Heq. lia.
  - apply Hnil; [assumption|]. intros i Hi. apply Hfresh. lia.
Qed.

Lemma nth_vararg_hdr vm s h idx :
  frmhdr vm s = Some h → 0 <= idx < extra_argc h →
  0 <= frame_size h - 1 - extra_argc h →
  nth_vararg vm s idx = Some (s - (frame_size h - 1 - extra_argc h + idx) - 2).
Proof.
  intros Hh Hidx Hoff. unfold nth_vararg. rewrite Hh. simpl.
  destruct (Z.leb_spec 0 idx); [|lia].
  destruct (Z.ltb_spec idx (extra_argc h)); [|lia]. simpl.
  unfold EXTRA_SLOTS. apply (SLOTPTR_hdr vm s h); [assumption|lia].
Qed.

Section BindLoop.

Variables (vm0 : SpnVMachine) (args : list SpnValue).
Variables (s0 S nregs decl extra : Z) (hdr : TFrame).
Variables (cond : Z → bool) (body : Z → SpnVMachine → option SpnVMachine).
Variables (lo hi : Z).

Hypothesis Hs0 : 0 <= s0.
Hypothesis HS : S = s0 + nregs + extra + 1.
Hypothesis Hdecl : 0 <= decl <= nregs.
Hypothesis Hextra : 0 <= extra.
Hypothesis Hlo : 0 <= lo.
Hypothesis Hcond : ∀ i, lo <= i → cond i = true ↔ i < hi.
Hypothesis Hreg : ∀ i, lo <= i < hi → 0 <= arg_reg nregs decl i < nregs + extra.
Hypothesis Hargs : ∀ i, lo <= i < hi → is_Some (args !! Z.to_nat i).
Hypothesis Hbody : ∀ j vm a,
  lo <= j < hi → args !! Z.to_nat j = Some a →
  bound_upto vm0 args s0 S nregs decl extra hdr j vm →
  body j vm = slot_set (spn_value_retain a vm) (S - arg_reg nregs decl j - 2) (SlotV a).

Lemma bind_loop fuel : ∀ k j vm,
  lo <= j → Z.of_nat k = hi - j → (k <= fuel)%nat →
  bound_upto vm0 args s0 S nregs decl extra hdr j vm →
  ∃ vm', for_loop fuel j cond body vm = Some vm' ∧
         bound_upto vm0 args s0 S nregs decl extra hdr hi vm'.
Proof.
  induction fuel as [|fuel IH]; intros k j vm Hj Hk Hfuel Hb.
  - assert (k = O) by lia. subst k. assert (j = hi) by lia. subst j.
    exists vm. split; [|exact Hb]. simpl.
    destruct (cond hi) eqn:Hc; [|reflexivity].
    apply Hcond in Hc; lia.
  - cbn [for_loop]. destruct (cond j) eqn:Hc.
    + apply Hcond in Hc; [|assumption].
      destruct (Hargs j ltac:(lia)) as [a Ha].
      rewrite (Hbody j vm a ltac:(lia) Ha Hb).
      destruct (bind_step vm0 args s0 S nregs decl extra hdr j vm a)
        as (vm1 & Hset & Hb1); try assumption; try lia.
      { apply Hreg. lia. }
      rewrite Hset. simpl.
      destruct k as [|k]; [lia|].
      apply (IH k (j + 1) vm1); [lia|lia|lia|exact Hb1].
    + exists vm. split; [reflexivity|].
      assert (¬ j < hi) by (intros Hlt; apply Hcond in Hlt; [congruence|assumption]).
      assert (j = hi) by lia. subst j. exact Hb.
Qed.

End BindLoop.

Lemma push_and_copy_args_bound bc vm fa fnobj desc argc args decl nregs :
  stack_ok vm →
  func_at vm fa = Some fnobj → native fnobj = false →
  fetch bc (repr_bc fnobj + SPN_FUNCHDR_IDX_ARGC) = Some decl →
  fetch bc (repr_bc fnobj + SPN_FUNCHDR_IDX_NREGS) = Some nregs →
  0 <= decl <= nregs → 0 <= argc →
  length args = Z.to_nat argc →
  (∀ i, 0 <= i < argc → arg_src bc vm desc i = args !! Z.to_nat i) →
  caller_below desc (stacksize vm) →
  let extra := Z.max 0 (argc - decl) in
  let s0 := stacksize vm in
  let S := s0 + nregs + extra + 1 in
  let hdr := mkFrame (nregs + extra + 1) decl extra argc
               (desc_retaddr desc) (desc_retidx desc) fa in
  S <= 2 ^ 63 →
  ∃ vm', push_and_copy_args bc vm (VFunc fa) desc argc = Some vm' ∧
         bound_upto vm args s0 S nregs decl extra hdr argc vm'.
Proof.
  intros Hok Hfn Hnat Hdecl Hnregs Hdn Hargc Hlen Hsrc Hcaller extra s0 S hdr HS.
  pose proof (stacksize_bounds vm Hok) as Hss. fold s0 in Hss.
  assert (Hextra : 0 <= extra) by (unfold extra; lia).
  unfold push_and_copy_args. rewrite Hfn. simpl. rewrite Hnat, Hdecl. simpl.
  rewrite Hnregs. simpl.
  destruct (Z.ltb_spec nregs decl); [lia|].
  assert (Hex : (if decl <? argc then argc - decl else 0) = extra).
  { unfold extra. destruct (Z.ltb_spec decl argc); lia. }
  rewrite Hex.
  destruct (push_frame_spec vm nregs decl extra argc (desc_retaddr desc) (desc_retidx desc) fa)
    as (vm1 & Hpush & Hsp1 & Hok1 & Hrest1 & Hlow1 & Hnil1 & Hhdr1 & Hgrow1 & Hfit1);
    try assumption; try lia.
  { unfold EXTRA_SLOTS. fold s0. lia. }
  fold s0 in Hsp1, Hlow1, Hnil1, Hhdr1, Hgrow1, Hfit1.
  unfold EXTRA_SLOTS in *.
  replace (s0 + (nregs + extra + 1)) with S in * by (unfold S; lia).
  fold hdr in Hhdr1.
  unfold desc_retaddr, desc_retidx in Hpush. rewrite Hpush. simpl.
  assert (Hb0 : bound_upto vm args s0 S nregs decl extra hdr 0 vm1).
  { destruct Hrest1 as (Hg & He & Hh & Hc & Ho).
    split; [exact Hsp1|]. split; [apply Hok1|].
    split; [repeat split; assumption|]. split; [exact Ho|].
    split; [apply frmhdr_intro; [unfold S; lia|exact Hhdr1]|].
    split; [exact Hlow1|]. split; [intros i Hi; lia|].
    intros r Hr _. unfold val_at. rewrite slot_get_stack by (unfold S; lia).
    rewrite Hnil1 by (unfold S; lia). reflexivity. }
  assert (Hbody_src : ∀ j vmj, 0 <= j < argc →
            bound_upto vm args s0 S nregs decl extra hdr j vmj →
            arg_src bc vmj desc j = args !! Z.to_nat j).
  { intros j vmj Hj (_ & _ & _ & _ & _ & Hlow & _). rewrite <- Hsrc by assumption.
    apply arg_src_agree. intros k Hk Hd. apply Hlow.
    destruct desc; unfold caller_below in Hcaller; fold s0 in Hcaller; [tauto|lia]. }
  (* the formal parameters *)
  destruct (bind_loop vm args s0 S nregs decl extra hdr
              (λ i, (i <? decl) && (i <? argc)) (copy_named_arg bc desc)
              0 (Z.min decl argc)) with (fuel := Z.to_nat argc)
              (k := Z.to_nat (Z.min decl argc)) (j := 0) (vm := vm1)
    as (vm2 & Hloop1 & Hb1); try assumption; try lia.
  { intros i Hi. unfold arg_reg. destruct (Z.ltb_spec i decl); lia. }
  { intros i Hi. apply lookup_lt_is_Some. lia. }
  { intros j vmj a Hj Ha Hb. unfold copy_named_arg.
    pose proof Hb as (Hspj & _ & _ & _ & Hhdrj & _).
    rewrite Hspj. simpl.
    rewrite (SLOTPTR_hdr vmj S hdr j Hhdrj) by (simpl; lia). simpl.
    rewrite (Hbody_src j vmj ltac:(lia) Hb), Ha. simpl.
    unfold arg_reg. destruct (Z.ltb_spec j decl); [reflexivity|lia]. }
  rewrite Hloop1. simpl.
  (* the variadic arguments *)
  destruct (Z.le_gt_cases argc decl) as [Hfew|Hmany].
  - exists vm2. replace (Z.min decl argc) with argc in Hb1 by lia.
    split; [|exact Hb1].
    destruct (Z.to_nat argc); simpl; destruct (Z.ltb_spec decl argc); (lia || reflexivity).
  - replace (Z.min decl argc) with decl in Hb1 by lia.
    assert (Hextra' : extra = argc - decl) by (unfold extra; lia).
    destruct (bind_loop vm args s0 S nregs decl extra hdr
                (λ i, i <? argc) (copy_extra_arg bc desc decl)
                decl argc) with (fuel := Z.to_nat argc)
                (k := Z.to_nat (argc - decl)) (j := decl) (vm := vm2)
      as (vm3 & Hloop2 & Hb2); try assumption; try lia.
    { intros i Hi. unfold arg_reg. destruct (Z.ltb_spec i decl); lia. }
    { intros i Hi. apply lookup_lt_is_Some. lia. }
    { intros j vmj a Hj Ha Hb. unfold copy_extra_arg.
      pose proof Hb as (Hspj & _ & _ & _ & Hhdrj & _).
      rewrite Hspj. simpl.
      rewrite (nth_vararg_hdr vmj S hdr (j - decl) Hhdrj) by (simpl; lia). simpl.
      rewrite (Hbody_src j vmj ltac:(lia) Hb), Ha. simpl.
      unfold arg_reg. destruct (Z.ltb_spec j decl); [lia|].
      f_equal. lia. }
    exists vm3. split; [exact Hloop2|exact Hb2].
Qed.

(** C1: push_and_copy_args pushes a frame whose header records
    [extra_argc = max 0 (argc - decl_argc)]; each of the first
    [min decl_argc argc] arguments is in the callee's register of the same
    index; each argument with index in [decl_argc, argc) is in the variadic
    slot [index - decl_argc], which lies after the [nregs] registers; the
    formal parameters with index in [argc, decl_argc), like the other
    registers no argument was bound to, hold nil; and every argument was
    retained exactly once.  The [i]th argument is the [i]th element of the
    host's array for a host caller; for a script caller it is the value of
    the caller's register whose index is the [i]th octet (least significant
    first) of the words after the CALL instruction. *)
Theorem push_and_copy_args_binds bc vm fa fnobj desc argc args decl nregs :
  stack_ok vm →
  func_at vm fa = Some fnobj → native fnobj = false →
  fetch bc (repr_bc fnobj + SPN_FUNCHDR_IDX_ARGC) = Some decl →
  fetch bc (repr_bc fnobj + SPN_FUNCHDR_IDX_NREGS) = Some nregs →
  0 <= decl <= nregs → 0 <= argc →
  length args = Z.to_nat argc →
  match desc with
  | native_env argv => ∀ i, 0 <= i < argc → argv !! Z.to_nat i = args !! Z.to_nat i
  | script_env ip _ calleroff _ =>
      calleroff <= stacksize vm ∧
      ∀ i, 0 <= i < argc →
        ∃ w, fetch bc (ip + i / 4) = Some w ∧
          reg_get vm calleroff (Z.land (Z.shiftr w (8 * (i mod 4))) 255)
            = args !! Z.to_nat i
  end →
  let extra := Z.max 0 (argc - decl) in
  let S := stacksize vm + nregs + extra + 1 in
  S <= 2 ^ 63 →
  ∃ vm', push_and_copy_args bc vm (VFunc fa) desc argc = Some vm' ∧
    sp vm' = Some S ∧
    frmhdr vm' S = Some (mkFrame (nregs + extra + 1) decl extra argc
                           (desc_retaddr desc) (desc_retidx desc) fa) ∧
    (∀ i, 0 <= i < Z.min decl argc → reg_get vm' S i = args !! Z.to_nat i) ∧
    (∀ i, decl <= i < argc →
       0 <= i - decl < extra ∧
       nth_vararg vm' S (i - decl) = Some (S - (nregs + (i - decl)) - 2) ∧
       val_at vm' (S - (nregs + (i - decl)) - 2) = args !! Z.to_nat i) ∧
    (∀ i, argc <= i < decl → reg_get vm' S i = Some VNil) ∧
    (∀ i, Z.min decl argc <= i < nregs → reg_get vm' S i = Some VNil) ∧
    objs vm' = foldl (λ h v, retain_in v h) (objs vm) args ∧
    (∀ k, 0 <= k < stacksize vm → stack vm' !! Z.to_nat k = stack vm !! Z.to_nat k).
Proof.
  intros Hok Hfn Hnat Hdecl Hnregs Hdn Hargc Hlen Hfrom extra S HS.
  assert (Hsrc : ∀ i, 0 <= i < argc → arg_src bc vm desc i = args !! Z.to_nat i).
  { intros i Hi. destruct desc as [argv|ip ra calleroff ri].
    - unfold arg_src. destruct (Z.leb_spec 0 i); [apply Hfrom; exact Hi|lia].
    - destruct Hfrom as [_ Hregs]. destruct (Hregs i Hi) as (w & Hw & Hreg).
      unfold arg_src, nth_call_arg, nth_arg_idx, byte_at.
      change SPN_WORD_OCTETS with 4. rewrite Hw. exact Hreg. }
  assert (Hcaller : caller_below desc (stacksize vm)).
  { destruct desc as [argv|ip ra calleroff ri]; [exact I|apply Hfrom]. }
  destruct (push_and_copy_args_bound bc vm fa fnobj desc argc args decl nregs)
    as (vm' & Hrun & Hsp & Hl & Hrest & Hobjs & Hhdr & Hlow & Hargs & Hnil);
    try assumption.
  fold extra S in Hsp, Hhdr, Hlow, Hargs, Hnil.
  assert (Hextra : 0 <= extra) by (unfold extra; lia).
  assert (Hlocals : ∀ i, Z.min decl argc <= i < nregs → reg_get vm' S i = Some VNil).
  { intros i Hi. unfold reg_get.
    rewrite (SLOTPTR_hdr vm' S _ i Hhdr) by (simpl; lia). simpl.
    apply Hnil; [lia|]. intros i' Hi'. unfold arg_reg.
    destruct (Z.ltb_spec i' decl); lia. }
  exists vm'. split; [exact Hrun|]. split; [exact Hsp|]. split; [exact Hhdr|].
  split.
  { intros i Hi. unfold reg_get.
    rewrite (SLOTPTR_hdr vm' S _ i Hhdr) by (simpl; lia). simpl.
    rewrite <- (Hargs i) by lia. unfold arg_reg.
    destruct (Z.ltb_spec i decl); [reflexivity|lia]. }
  split.
  { intros i Hi. split; [unfold extra; lia|]. split.
    - rewrite (nth_vararg_hdr vm' S _ (i - decl) Hhdr) by (simpl; unfold extra; lia).
      simpl. f_equal. lia.
    - rewrite <- (Hargs i) by lia. unfold arg_reg.
      destruct (Z.ltb_spec i decl); [lia|reflexivity]. }
  split; [intros i Hi; apply Hlocals; lia|].
  split; [exact Hlocals|].
  split; [|exact Hlow].
  rewrite Hobjs. f_equal. apply take_ge. lia.
Qed.

Lemma push_and_copy_args_binds_witness :
  (∃ vm', push_and_copy_args ex_bc ex_vm (VFunc 1%positive)
            (native_env [VInt 10; VString 3%positive; VInt 30]) 3 = Some vm' ∧
          sp vm' = Some 5 ∧
          reg_get vm' 5 0 = Some (VInt 10) ∧
          reg_get vm' 5 1 = Some (VString 3%positive) ∧
          reg_get vm' 5 2 = Some VNil ∧
          val_at vm' 0 = Some (VInt 30) ∧
          refcount vm' 3%positive = 2) ∧
  (∃ vm', push_and_copy_args caller_bc caller_vm (VFunc 1%positive)
            (script_env 5 6 4 2) 3 = Some vm' ∧
          sp vm' = Some 9 ∧
          frmhdr vm' 9 = Some (mkFrame 5 2 1 3 (Some 6) 2 1%positive) ∧
          reg_get vm' 9 0 = Some (VInt 10) ∧
          reg_get vm' 9 1 = Some (VString 3%positive) ∧
          reg_get vm' 9 2 = Some VNil ∧
          val_at vm' 4 = Some (VInt 10) ∧
          refcount vm' 3%positive = 2).
Proof.
  split.
  - destruct (push_and_copy_args_binds ex_bc ex_vm 1%positive ex_fn
                (native_env [VInt 10; VString 3%positive; VInt 30]) 3
                [VInt 10; VString 3%positive; VInt 30] 2 3)
      as (vm' & Hrun & Hsp & Hhdr & Hnamed & Hextra & _ & Hnil & Hobjs & _).
    + split; reflexivity.
    + reflexivity.
    + reflexivity.
    + reflexivity.
    + reflexivity.
    + lia.
    + lia.
    + reflexivity.
    + intros i Hi. reflexivity.
    + vm_compute. discriminate.
    + exists vm'. split; [exact Hrun|]. split; [exact Hsp|].
      split; [exact (Hnamed 0 ltac:(lia))|].
      split; [exact (Hnamed 1 ltac:(lia))|].
      split; [exact (Hnil 2 ltac:(lia))|].
      split; [exact (proj2 (proj2 (Hextra 2 ltac:(lia))))|].
      unfold refcount. rewrite Hobjs. reflexivity.
  - destruct (push_and_copy_args_binds caller_bc caller_vm 1%positive ex_fn
                (script_env 5 6 4 2) 3
                [VInt 10; VString 3%positive; VInt 10] 2 3)
      as (vm' & Hrun & Hsp & Hhdr & Hnamed & Hextra & _ & Hnil & Hobjs & _).
    + split; [reflexivity|]. simpl. lia.
    + reflexivity.
    + reflexivity.
    + reflexivity.
    + reflexivity.
    + lia.
    + lia.
    + reflexivity.
    + split; [vm_compute; discriminate|].
      intros i Hi. exists (1 + 2 * 2 ^ 8 + 1 * 2 ^ 16).
      assert (Hcases : i = 0 ∨ i = 1 ∨ i = 2) by lia.
      destruct Hcases as [->|[->| ->]]; split; reflexivity.
    + vm_compute. discriminate.
    + exists vm'. split; [exact Hrun|]. split; [exact Hsp|]. split; [exact Hhdr|].
      split; [exact (Hnamed 0 ltac:(lia))|].
      split; [exact (Hnamed 1 ltac:(lia))|].
      split; [exact (Hnil 2 ltac:(lia))|].
      split; [exact (proj2 (proj2 (Hextra 2 ltac:(lia))))|].
      unfold refcount. rewrite Hobjs. reflexivity.
Defined.

(** A frame pushed by push_frame is the innermost live frame. *)
Lemma live_frames_push vm s fs nregs da ea ra rad ri cal vm' :
  stack_ok vm → sp vm = Some s → live_frames vm s fs →
  0 <= nregs → 0 <= ea → s + (nregs + ea + EXTRA_SLOTS) <= 2 ^ 63 →
  push_frame vm nregs da ea ra rad ri cal = Some vm' →
  sp vm' = Some (s + (nregs + ea + EXTRA_SLOTS)) ∧
  live_frames vm' (s + (nregs + ea + EXTRA_SLOTS))
    (mkFrame (nregs + ea + EXTRA_SLOTS) da ea ra rad ri cal :: fs).
Proof.
  intros Hok Hsp Hlive Hnregs Hea Hbound Hpush.
  assert (Hss : stacksize vm = s).
  { destruct Hok as [_ Hs]. rewrite Hsp in Hs. unfold stacksize. rewrite Hsp.
    destruct (Z.eqb_spec (stackallsz vm) 0); [lia|reflexivity]. }
  pose proof (live_frames_nonneg _ _ _ Hlive) as Hs0.
  destruct (push_frame_spec vm nregs da ea ra rad ri cal Hok Hnregs Hea)
    as (vm1 & Hpush1 & Hsp1 & _ & _ & Hlow & _ & Hhdr & _).
  { rewrite Hss. exact Hbound. }
  rewrite Hpush in Hpush1. injection Hpush1 as <-. rewrite Hss in *.
  split; [exact Hsp1|].
  unfold EXTRA_SLOTS in *.
  econstructor.
  - apply frmhdr_intro; [lia|exact Hhdr].
  - simpl. lia.
  - simpl. replace (s + (nregs + ea + 1) - (nregs + ea + 1)) with s by lia.
    apply (live_frames_agree vm); [exact Hlive|exact Hlow].
Qed.

(** ** Popping a frame *)

Lemma slot_values_set_objs vm o n : ∀ from,
  slot_values (set_objs o vm) n from = slot_values vm n from.
Proof. induction n as [|n IH]; intros from; simpl; [reflexivity|]. rewrite IH. reflexivity. Qed.

Lemma release_eq v vm : spn_value_release v vm = set_objs (release_in v (objs vm)) vm.
Proof.
  unfold spn_value_release, release_in. destruct (objptr v); [reflexivity|].
  destruct vm; reflexivity.
Qed.

Lemma retain_eq v vm : spn_value_retain v vm = set_objs (retain_in v (objs vm)) vm.
Proof.
  unfold spn_value_retain, retain_in. destruct (objptr v); [reflexivity|].
  destruct vm; reflexivity.
Qed.

Lemma release_regs_spec n : ∀ from vm vals,
  slot_values vm n from = Some vals →
  release_regs n from vm = Some (set_objs (release_all vals (objs vm)) vm).
Proof.
  induction n as [|n IH]; intros from vm vals Hv; simpl in *.
  - injection Hv as <-. destruct vm; reflexivity.
  - destruct (val_at vm from) as [v|]; [|discriminate]. simpl in *.
    destruct (slot_values vm n (from + 1)) as [rest|] eqn:Hrest; [|discriminate].
    simpl in Hv. injection Hv as <-.
    rewrite (IH (from + 1) (spn_value_release v vm) rest).
    + rewrite release_eq. reflexivity.
    + rewrite release_eq, slot_values_set_objs. exact Hrest.
Qed.

Lemma pop_frame_spec vm s h vals :
  sp vm = Some s → frmhdr vm s = Some h → frame_values vm s h = Some vals →
  pop_frame vm =
    Some (set_sp (Some (s - frame_size h)) (set_objs (release_all vals (objs vm)) vm)).
Proof.
  intros Hsp Hh Hv. unfold pop_frame. rewrite Hsp. simpl. rewrite Hh. simpl.
  unfold frame_values in Hv. rewrite (release_regs_spec _ _ _ _ Hv). reflexivity.
Qed.

Lemma slot_values_agree vm vm' n : ∀ from,
  (∀ k, from <= k < from + Z.of_nat n → slot_get vm' k = slot_get vm k) →
  slot_values vm' n from = slot_values vm n from.
Proof.
  induction n as [|n IH]; intros from H; simpl; [reflexivity|].
  assert (Hv : val_at vm' from = val_at vm from).
  { unfold val_at. rewrite H by lia. reflexivity. }
  rewrite Hv, IH; [reflexivity|]. intros k Hk. apply H. lia.
Qed.

Lemma reg_get_inv vm s r v :
  reg_get vm s r = Some v →
  ∃ h, frmhdr vm s = Some h ∧ 0 <= r < frame_size h - 1 ∧ val_at vm (s - r - 2) = Some v.
Proof.
  unfold reg_get. destruct (SLOTPTR vm s r) as [p|] eqn:Hp; [|discriminate]. simpl.
  apply SLOTPTR_inv in Hp as (h & Hh & Hr & ->). eauto.
Qed.

Section Return.

Context (bc : list Z) (natives : nat → NativeFn) {lib : ObjectLibrary}.

(** C2, as the code has it: RET retains the value of register A and stores
    it through the host's out-pointer when the return slot is the host
    sentinel and the out-pointer is not NULL (with a NULL out-pointer the
    value is neither retained nor stored), or, when the return slot is a
    stack index, into that slot of the caller after the slot's previous
    content is released; the frame is then popped, all its registers being
    released; and the dispatcher returns 0 when the return address is the
    host sentinel and goes on at the return address otherwise. *)
Theorem ret_transfers_and_pops (vm : SpnVMachine) (ip ins : Z) (retvalptr : bool)
    (s : Z) (h : TFrame) (res : SpnValue) (vals : list SpnValue) :
  fetch bc ip = Some ins →
  decode_opcode (OPCODE ins) = Some SPN_INS_RET →
  sp vm = Some s → frmhdr vm s = Some h →
  reg_get vm s (OPA ins) = Some res →
  frame_values vm s h = Some vals →
  (retidx h < 0 →
     let vm1 := if retvalptr then spn_value_retain res vm else vm in
     let vm2 := set_sp (Some (s - frame_size h))
                  (set_objs (release_all vals (objs vm1)) vm1) in
     pop_frame vm1 = Some vm2 ∧
     dispatch_step bc natives vm ip retvalptr =
       Some (match retaddr h with
             | None => Exit 0 vm2 (if retvalptr then Some res else None)
             | Some a => Next a vm2
             end)) ∧
  (∀ old, 0 <= retidx h < s - frame_size h →
     val_at vm (retidx h) = Some old →
     ∃ vm1,
       slot_set (spn_value_release old (spn_value_retain res vm)) (retidx h) (SlotV res)
         = Some vm1 ∧
       objs vm1 = release_in old (retain_in res (objs vm)) ∧
       let vm2 := set_sp (Some (s - frame_size h))
                    (set_objs (release_all vals (objs vm1)) vm1) in
       pop_frame vm1 = Some vm2 ∧
       val_at vm2 (retidx h) = Some res ∧
       dispatch_step bc natives vm ip retvalptr =
         Some (match retaddr h with
               | None => Exit 0 vm2 None
               | Some a => Next a vm2
               end)).
Proof.
  intros Hins Hop Hsp Hh Hres Hvals.
  assert (Hstep : dispatch_step bc natives vm ip retvalptr = ins_ret vm ins retvalptr).
  { unfold dispatch_step. rewrite Hins. simpl. rewrite Hop. reflexivity. }
  destruct (reg_get_inv _ _ _ _ Hres) as (h' & Hh' & Hr & Hval).
  rewrite Hh in Hh'. injection Hh' as <-.
  assert (Hret : ∀ vm1 out,
            (if retidx h <? 0
             then if retvalptr then Some (spn_value_retain res vm, Some res)
                  else Some (vm, None)
             else old ← val_at (spn_value_retain res vm) (retidx h);
                  vm2 ← slot_set (spn_value_release old (spn_value_retain res vm))
                          (retidx h) (SlotV res);
                  Some (vm2, None)) = Some (vm1, out) →
            ∀ vm2, pop_frame vm1 = Some vm2 → frmhdr vm2 s = Some h →
            dispatch_step bc natives vm ip retvalptr =
              Some (match retaddr h with
                    | None => Exit 0 vm2 out
                    | Some a => Next a vm2
                    end)).
  { intros vm1 out Hxfer vm2 Hpop Hh2. rewrite Hstep. unfold ins_ret.
    rewrite Hsp. simpl. rewrite Hh. simpl.
    rewrite (SLOTPTR_hdr vm s h _ Hh Hr). simpl. rewrite Hval. simpl.
    destruct (retidx h <? 0).
    - destruct retvalptr; injection Hxfer as <- <-; simpl;
        rewrite Hpop; simpl; rewrite Hh2; simpl; destruct (retaddr h); reflexivity.
    - destruct (val_at (spn_value_retain res vm) (retidx h)) as [old|];
        [|discriminate]. simpl in *.
      destruct (slot_set (spn_value_release old (spn_value_retain res vm))
                  (retidx h) (SlotV res)) as [vm1'|]; [|discriminate].
      simpl in *. injection Hxfer as <- <-.
      rewrite Hpop. simpl. rewrite Hh2. simpl. destruct (retaddr h); reflexivity. }
  split.
  - intros Hhost vm1 vm2.
    assert (Hpop : pop_frame vm1 = Some vm2).
    { apply pop_frame_spec.
      - subst vm1. destruct retvalptr; [|exact Hsp].
        destruct (retain_fields res vm) as (_ & -> & _). exact Hsp.
      - subst vm1. destruct retvalptr; [|exact Hh]. rewrite frmhdr_retain. exact Hh.
      - subst vm1. destruct retvalptr; [|exact Hvals].
        unfold frame_values. rewrite retain_eq, slot_values_set_objs. exact Hvals. }
    split; [exact Hpop|].
    apply (Hret vm1); [|exact Hpop|].
    + destruct (Z.ltb_spec (retidx h) 0); [|lia]. subst vm1.
      destruct retvalptr; reflexivity.
    + subst vm2 vm1. destruct retvalptr; [|exact Hh]. rewrite retain_eq. exact Hh.
  - intros old Hidx Hold.
    apply frmhdr_inv in Hh as Hslot. destruct Hslot as [Hspos Hslot].
    assert (Hlen : s <= Z.of_nat (length (stack vm))).
    { apply lookup_lt_Some in Hslot. lia. }
    assert (Hset : slot_set (spn_value_release old (spn_value_retain res vm)) (retidx h)
                     (SlotV res) =
                   Some (set_stack (<[Z.to_nat (retidx h) := SlotV res]>
                           (stack (spn_value_release old (spn_value_retain res vm))))
                         (spn_value_release old (spn_value_retain res vm)))).
    { apply slot_set_Some.
      destruct (release_fields old (spn_value_retain res vm)) as (-> & _).
      destruct (retain_fields res vm) as (-> & _). lia. }
    eexists. split; [exact Hset|].
    set (vm1 := set_stack _ _) in *.
    assert (Hobjs1 : objs vm1 = release_in old (retain_in res (objs vm))).
    { subst vm1. simpl. rewrite objs_release, objs_retain. reflexivity. }
    split; [exact Hobjs1|]. intros vm2.
    assert (Hget : ∀ k, k ≠ retidx h → slot_get vm1 k = slot_get vm k).
    { intros k Hk. rewrite (slot_get_slot_set _ _ _ _ k Hset).
      destruct (Z.eqb_spec (retidx h) k); [congruence|].
      rewrite slot_get_release, slot_get_retain. reflexivity. }
    assert (Hh1 : frmhdr vm1 s = Some h).
    { unfold frmhdr. rewrite Hget by (unfold IDX_FRMHDR; lia). exact Hh. }
    assert (Hpop : pop_frame vm1 = Some vm2).
    { apply pop_frame_spec.
      - destruct (slot_set_fields _ _ _ _ Hset) as (_ & -> & _).
        destruct (release_fields old (spn_value_retain res vm)) as (_ & -> & _).
        destruct (retain_fields res vm) as (_ & -> & _). exact Hsp.
      - exact Hh1.
      - unfold frame_values in *. rewrite <- Hvals.
        apply slot_values_agree. intros k Hk. apply Hget. lia. }
    split; [exact Hpop|]. split.
    { subst vm2. unfold val_at, slot_get. simpl.
      destruct (Z.leb_spec 0 (retidx h)); [|lia].
      destruct (release_fields old (spn_value_retain res vm)) as (-> & _).
      destruct (retain_fields res vm) as (-> & _).
      rewrite list_lookup_insert_eq by lia. reflexivity. }
    apply (Hret vm1); [|exact Hpop|exact Hh1].
    destruct (Z.ltb_spec (retidx h) 0); [lia|].
    rewrite val_at_retain, Hold. simpl. rewrite Hset. reflexivity.
Qed.

End Return.

Lemma ret_transfers_and_pops_witness :
  let vm1 := spn_value_retain (VString 3%positive) ret_vm in
  let vm2 := set_sp (Some 0)
               (set_objs (release_all [VNil; VNil; VString 3%positive] (objs vm1)) vm1) in
  pop_frame vm1 = Some vm2 ∧
  dispatch_step ret_bc ex_natives (lib := ex_lib) ret_vm 4 true
    = Some (Exit 0 vm2 (Some (VString 3%positive))).
Proof.
  refine (proj1 (ret_transfers_and_pops ret_bc ex_natives (lib := ex_lib) ret_vm 4
                   (mkins SPN_INS_RET 0 0 0) true 4
                   (mkFrame 4 2 0 1 None (-1) 1%positive) (VString 3%positive)
                   [VNil; VNil; VString 3%positive] _ _ _ _ _ _) _);
    try reflexivity; simpl; lia.
Defined.

(** C2 as stated fails: when the host passes a NULL out-pointer, RET neither
    retains the value of register A nor stores it anywhere; the only change to
    its reference count is the release done by popping the frame. *)
Lemma ret_null_out_pointer_not_retained :
  ∃ vm', dispatch_step ret_bc ex_natives (lib := ex_lib) ret_vm 4 false
           = Some (Exit 0 vm' None) ∧
         reg_get ret_vm 4 0 = Some (VString 3%positive) ∧
         refcount ret_vm 3%positive = 2 ∧
         refcount vm' 3%positive = 1.
Proof. eexists. repeat split; reflexivity. Qed.

(** ** Writing registers and raising errors *)

Lemma val_at_lt vm i v : val_at vm i = Some v → 0 <= i < Z.of_nat (length (stack vm)).
Proof.
  unfold val_at, slot_get. destruct (Z.leb_spec 0 i); [|discriminate].
  destruct (stack vm !! Z.to_nat i) eqn:Hlook; [|discriminate].
  intros _. apply lookup_lt_Some in Hlook. lia.
Qed.

Lemma replace_at_spec vm i old v :
  val_at vm i = Some old →
  ∃ vm', replace_at vm i v = Some vm' ∧
    val_at vm' i = Some v ∧
    (∀ k, k ≠ i → slot_get vm' k = slot_get vm k) ∧
    objs vm' = release_in old (objs vm) ∧
    sp vm' = sp vm ∧ length (stack vm') = length (stack vm) ∧
    stackallsz vm' = stackallsz vm ∧ glbsymtab vm' = glbsymtab vm ∧
    errmsg vm' = errmsg vm ∧ haserror vm' = haserror vm ∧ ctx vm' = ctx vm.
Proof.
  intros Hold. pose proof (val_at_lt _ _ _ Hold) as Hi.
  destruct (release_fields old vm) as (Est & Esp & Eall & Eg & Ee & Eh & Ec).
  assert (Hset : slot_set (spn_value_release old vm) i (SlotV v) =
                 Some (set_stack (<[Z.to_nat i := SlotV v]> (stack (spn_value_release old vm)))
                        (spn_value_release old vm))).
  { apply slot_set_Some. rewrite Est. exact Hi. }
  exists (set_stack (<[Z.to_nat i := SlotV v]> (stack (spn_value_release old vm)))
            (spn_value_release old vm)).
  split; [unfold replace_at; rewrite Hold; exact Hset|].
  destruct (slot_set_fields _ _ _ _ Hset) as (Fl & Fsp & Fall & Fg & Fe & Fh & Fc & Fo).
  split.
  { rewrite (val_at_slot_set _ _ _ _ i Hset). rewrite Z.eqb_refl. reflexivity. }
  split.
  { intros k Hk. rewrite (slot_get_slot_set _ _ _ _ k Hset).
    destruct (Z.eqb_spec i k); [congruence|]. apply slot_get_release. }
  split; [rewrite Fo; apply objs_release|].
  rewrite Fsp, Fl, Fall, Fg, Fe, Fh, Fc, Esp, Est, Eall, Eg, Ee, Eh, Ec.
  repeat split.
Qed.

Lemma assign_at_spec vm i old v :
  val_at vm i = Some old →
  ∃ vm', assign_at vm i v = Some vm' ∧
    val_at vm' i = Some v ∧
    (∀ k, k ≠ i → slot_get vm' k = slot_get vm k) ∧
    objs vm' = release_in old (retain_in v (objs vm)) ∧
    sp vm' = sp vm ∧ length (stack vm') = length (stack vm) ∧
    stackallsz vm' = stackallsz vm ∧ glbsymtab vm' = glbsymtab vm ∧
    errmsg vm' = errmsg vm ∧ haserror vm' = haserror vm ∧ ctx vm' = ctx vm.
Proof.
  intros Hold. unfold assign_at.
  destruct (retain_fields v vm) as (Est & Esp & Eall & Eg & Ee & Eh & Ec).
  destruct (replace_at_spec (spn_value_retain v vm) i old v)
    as (vm' & Hrep & Hv & Hk & Ho & Hsp & Hl & Hall & Hg & He & Hh & Hc).
  { rewrite val_at_retain. exact Hold. }
  exists vm'. split; [exact Hrep|]. split; [exact Hv|].
  split; [intros k Hne; rewrite Hk by assumption; apply slot_get_retain|].
  split; [rewrite Ho, objs_retain; reflexivity|].
  rewrite Hsp, Hl, Hall, Hg, He, Hh, Hc, Esp, Est, Eall, Eg, Ee, Eh, Ec.
  repeat split.
Qed.

Lemma address_prefix (a : Z) :
  spn_string_format_cstr "runtime error at address 0x%08x: " [FNum a] =
  "runtime error at address 0x" +:+ pad true 8 (hexadecimal a) +:+ ": ".
Proof.
  lazy -[pad hexadecimal]. reflexivity.
Qed.

Lemma runtime_error_at vm ip a fmt args text :
  prog_addr vm ip = Some a →
  spn_string_format_cstr fmt args = text →
  runtime_error vm (Some ip) fmt args = Some (with_error (error_at a text) vm).
Proof.
  intros Ha <-. unfold runtime_error, with_error, error_prefix, error_at.
  destruct (haserror vm); [reflexivity|]. rewrite Ha.
  cbv [mbind option_bind]. rewrite address_prefix. reflexivity.
Qed.

(** The texts of the messages whose format has a conversion. *)
Lemma format_global_missing (name : string) :
  spn_string_format_cstr "global `%s' does not exist or it is nil" [FStr name] =
  "global `" +:+ name +:+ "' does not exist or it is nil".
Proof.
  lazy -[String.append]. reflexivity.
Qed.

Lemma format_redefinition (name : string) :
  spn_string_format_cstr "re-definition of global `%s'" [FStr name] =
  "re-definition of global `" +:+ name +:+ "'".
Proof.
  lazy -[String.append]. reflexivity.
Qed.

Lemma format_out_of_bounds (n : Z) :
  spn_string_format_cstr "argument `%d' of `#' operator is out-of bounds" [FNum n] =
  "argument `" +:+ decimal n +:+ "' of `#' operator is out-of bounds".
Proof.
  lazy -[String.append decimal]. reflexivity.
Qed.

Lemma runtime_error_native vm fmt args :
  runtime_error vm None fmt args =
    Some (with_error (String.append "runtime error in native code: "
                        (spn_string_format_cstr fmt args)) vm).
Proof.
  unfold runtime_error, with_error, error_prefix.
  destruct (haserror vm); [reflexivity|].
  cbv [mbind option_bind].
  generalize (spn_string_format_cstr fmt args). intros msg.
  reflexivity.
Qed.

Lemma raise_at vm ip a fmt args text :
  prog_addr vm ip = Some a →
  spn_string_format_cstr fmt args = text →
  raise vm ip fmt args = Some (Exit (-1) (with_error (error_at a text) vm) None).
Proof.
  intros Ha Ht. unfold raise. rewrite (runtime_error_at vm ip a fmt args text Ha Ht).
  cbv [mbind option_bind]. reflexivity.
Qed.

(** ** Arithmetic *)

Section Arithmetic.

Context (bc : list Z) (natives : nat → NativeFn) {lib : ObjectLibrary}.

Lemma dispatch_arith (vm : SpnVMachine) (ip ins : Z) (op : spn_vm_ins) (rv : bool) :
  fetch bc ip = Some ins → decode_opcode (OPCODE ins) = Some op → is_arith op →
  dispatch_step bc natives vm ip rv = ins_arith vm op ins (ip + 1).
Proof.
  intros Hins Hop Hop'. unfold dispatch_step. rewrite Hins. simpl. rewrite Hop.
  destruct Hop' as [-> | [-> | [-> | ->]]]; reflexivity.
Qed.

(** C4, as the code has it: ADD, SUB, MUL and DIV raise "arithmetic on
    non-numbers" and return -1 when an operand is not a number; on two
    integers they store the integer result of the wrap-around operation
    (for DIV, when the quotient is defined: a nonzero divisor, and not
    LONG_MIN / -1); when an operand is a float, both are promoted to double
    and a float is stored. *)
Theorem arith_ins_semantics (vm : SpnVMachine) (ip ins : Z) (op : spn_vm_ins)
    (rv : bool) (s a : Z) (b c : SpnValue) :
  fetch bc ip = Some ins → decode_opcode (OPCODE ins) = Some op → is_arith op →
  sp vm = Some s →
  SLOTPTR vm s (OPA ins) = Some a → is_Some (val_at vm a) →
  reg_get vm s (OPB ins) = Some b →
  reg_get vm s (OPC ins) = Some c →
  (isnum b && isnum c = false →
     ∀ addr, prog_addr vm ip = Some addr →
       dispatch_step bc natives vm ip rv =
         Some (Exit (-1) (with_error (error_at addr "arithmetic on non-numbers") vm)
                 None)) ∧
  (∀ i j, b = VInt i → c = VInt j → (op = SPN_INS_DIV → div_defined i j) →
     ∃ vm', replace_at vm a (VInt (int_arith op i j)) = Some vm' ∧
       dispatch_step bc natives vm ip rv = Some (Next (ip + 1) vm') ∧
       val_at vm' a = Some (VInt (int_arith op i j))) ∧
  (isnum b = true → isnum c = true → isfloat b || isfloat c = true →
     ∃ vm', replace_at vm a (VFloat (float_arith op (to_double b) (to_double c)))
              = Some vm' ∧
       dispatch_step bc natives vm ip rv = Some (Next (ip + 1) vm') ∧
       val_at vm' a = Some (VFloat (float_arith op (to_double b) (to_double c)))).
Proof.
  intros Hins Hop Hop' Hsp Ha [old Hold] Hb Hc.
  rewrite (dispatch_arith vm ip ins op rv Hins Hop Hop').
  unfold ins_arith. rewrite Hsp. simpl. rewrite Ha. simpl. rewrite Hb. simpl.
  rewrite Hc. simpl.
  replace (ip + 1 - 1) with ip by lia.
  split; [|split].
  - intros Hnum addr Haddr.
    assert (negb (isnum b) || negb (isnum c) = true) as ->.
    { destruct (isnum b), (isnum c); simpl in *; congruence. }
    apply raise_at; [exact Haddr|reflexivity].
  - intros i j -> -> Hdiv. simpl.
    destruct (replace_at_spec vm a old (VInt (int_arith op i j)) Hold)
      as (vm' & Hrep & Hv & _).
    exists vm'. split; [exact Hrep|]. split; [|exact Hv].
    assert (arith_op (VInt i) (VInt j) op = Some (VInt (int_arith op i j))) as ->.
    { unfold arith_op, int_arith. simpl.
      destruct Hop' as [-> | [-> | [-> | ->]]]; simpl; try reflexivity.
      unfold long_div. destruct (Hdiv eq_refl) as [Hj Hmin].
      destruct (Z.eqb_spec j 0); [contradiction|]. simpl.
      destruct (Z.eqb_spec i LONG_MIN), (Z.eqb_spec j (-1)); simpl;
        try reflexivity. exfalso. apply Hmin. split; assumption. }
    simpl. rewrite Hrep. reflexivity.
  - intros Hnb Hnc Hfl. rewrite Hnb, Hnc. simpl.
    destruct (replace_at_spec vm a old
                (VFloat (float_arith op (to_double b) (to_double c))) Hold)
      as (vm' & Hrep & Hv & _).
    exists vm'. split; [exact Hrep|]. split; [|exact Hv].
    assert (arith_op b c op = Some (VFloat (float_arith op (to_double b) (to_double c)))) as ->.
    { unfold arith_op. rewrite Hnb, Hnc, Hfl. simpl.
      assert (Hb' : (if isfloat b then floatvalue b else long_to_double (intvalue b))
                    = to_double b).
      { destruct b; simpl in *; try discriminate; reflexivity. }
      assert (Hc' : (if isfloat c then floatvalue c else long_to_double (intvalue c))
                    = to_double c).
      { destruct c; simpl in *; try discriminate; reflexivity. }
      rewrite Hb', Hc'.
      destruct Hop' as [-> | [-> | [-> | ->]]]; reflexivity. }
    simpl. rewrite Hrep. reflexivity.
Qed.

End Arithmetic.

Lemma arith_ins_semantics_witness :
  ∃ vm', replace_at (arith_vm (VInt LONG_MAX) (VInt 1)) 2
           (VInt (int_arith SPN_INS_ADD LONG_MAX 1)) = Some vm' ∧
         dispatch_step (arith_bc SPN_INS_ADD) ex_natives (lib := ex_lib)
           (arith_vm (VInt LONG_MAX) (VInt 1)) 4 true = Some (Next (4 + 1) vm') ∧
         val_at vm' 2 = Some (VInt (int_arith SPN_INS_ADD LONG_MAX 1)).
Proof.
  refine (proj1 (proj2 (arith_ins_semantics (arith_bc SPN_INS_ADD) ex_natives (lib := ex_lib)
                   (arith_vm (VInt LONG_MAX) (VInt 1)) 4 (mkins SPN_INS_ADD 0 1 2)
                   SPN_INS_ADD true 4 2 (VInt LONG_MAX) (VInt 1) _ _ _ _ _ _ _ _))
                LONG_MAX 1 eq_refl eq_refl _).
  - reflexivity.
  - reflexivity.
  - left. reflexivity.
  - reflexivity.
  - reflexivity.
  - eexists. reflexivity.
  - reflexivity.
  - reflexivity.
  - discriminate.
Defined.

(** C4 as stated fails for DIV: with two integer operands and a zero divisor,
    or with LONG_MIN divided by -1, the quotient the code computes is
    undefined, and no integer result is stored. *)
Lemma div_without_quotient :
  reg_get (arith_vm (VInt 7) (VInt 0)) 4 1 = Some (VInt 7) ∧
  reg_get (arith_vm (VInt 7) (VInt 0)) 4 2 = Some (VInt 0) ∧
  arith_op (VInt 7) (VInt 0) SPN_INS_DIV = None ∧
  dispatch_step (arith_bc SPN_INS_DIV) ex_natives (lib := ex_lib)
    (arith_vm (VInt 7) (VInt 0)) 4 true = None ∧
  arith_op (VInt LONG_MIN) (VInt (-1)) SPN_INS_DIV = None ∧
  dispatch_step (arith_bc SPN_INS_DIV) ex_natives (lib := ex_lib)
    (arith_vm (VInt LONG_MIN) (VInt (-1))) 4 true = None.
Proof. repeat split; reflexivity. Qed.

(** ** The [#] operator *)

Section NthArg.

Context (bc : list Z) (natives : nat → NativeFn) {lib : ObjectLibrary}.

(** C7, as the code has it: NTHARG raises an error and returns -1 when
    register B is not an integer, when it is negative, and when it is not
    less than the frame's extra_argc, the message of the last case being
    "argument `<n>' of `#' operator is out-of bounds"; otherwise register A
    receives the B-th variadic argument, counted from 0 in the region after
    the frame's registers, retained, after the previous content of
    register A is released. *)
Theorem ntharg_semantics (vm : SpnVMachine) (ip ins : Z) (rv : bool)
    (s a : Z) (b old : SpnValue) (h : TFrame) (addr : Z) :
  fetch bc ip = Some ins → decode_opcode (OPCODE ins) = Some SPN_INS_NTHARG →
  sp vm = Some s → frmhdr vm s = Some h →
  SLOTPTR vm s (OPA ins) = Some a → val_at vm a = Some old →
  reg_get vm s (OPB ins) = Some b →
  prog_addr vm ip = Some addr →
  (isint b = false →
     dispatch_step bc natives vm ip rv =
       Some (Exit (-1)
               (with_error (error_at addr "non-integer argument to `#' operator") vm)
               None)) ∧
  (∀ n, b = VInt n → n < 0 →
     dispatch_step bc natives vm ip rv =
       Some (Exit (-1)
               (with_error (error_at addr "negative argument to `#' operator") vm)
               None)) ∧
  (∀ n, b = VInt n → 0 <= n → extra_argc h <= n →
     dispatch_step bc natives vm ip rv =
       Some (Exit (-1)
               (with_error
                  (error_at addr
                     ("argument `" +:+ decimal n +:+
                      "' of `#' operator is out-of bounds")) vm)
               None)) ∧
  (∀ n arg, b = VInt n → 0 <= n < extra_argc h →
     let nregs := frame_size h - 1 - extra_argc h in
     0 <= nregs →
     val_at vm (s - (nregs + n) - 2) = Some arg →
     ∃ vm', assign_at vm a arg = Some vm' ∧
       dispatch_step bc natives vm ip rv = Some (Next (ip + 1) vm') ∧
       val_at vm' a = Some arg ∧
       objs vm' = release_in old (retain_in arg (objs vm))).
Proof.
  intros Hins Hop Hsp Hh Ha Hold Hb Haddr.
  assert (Hstep : dispatch_step bc natives vm ip rv = ins_ntharg vm ins (ip + 1)).
  { unfold dispatch_step. rewrite Hins. simpl. rewrite Hop. reflexivity. }
  rewrite Hstep. unfold ins_ntharg. rewrite Hsp. simpl. rewrite Ha. simpl.
  rewrite Hb. simpl. rewrite Hh. simpl.
  replace (ip + 1 - 1) with ip by lia.
  split; [|split; [|split]].
  - intros Hint. rewrite Hint. simpl. apply raise_at; [exact Haddr|reflexivity].
  - intros n -> Hn. simpl. destruct (Z.ltb_spec n 0); [|lia].
    apply raise_at; [exact Haddr|reflexivity].
  - intros n -> Hn Hex. simpl. destruct (Z.ltb_spec n 0); [lia|].
    destruct (Z.ltb_spec n (extra_argc h)); [lia|].
    apply raise_at; [exact Haddr|apply format_out_of_bounds].
  - intros n arg -> Hn Hnregs Harg. simpl.
    destruct (Z.ltb_spec n 0); [lia|].
    destruct (Z.ltb_spec n (extra_argc h)); [|lia].
    rewrite (nth_vararg_hdr vm s h n Hh) by lia.
    simpl. rewrite Harg. simpl.
    destruct (assign_at_spec vm a old arg Hold) as (vm' & Hassign & Hv & _ & Ho & _).
    exists vm'. split; [exact Hassign|]. rewrite Hassign. simpl.
    split; [reflexivity|]. split; [exact Hv|exact Ho].
Qed.

End NthArg.

Lemma ntharg_semantics_witness :
  ∃ vm', assign_at (vararg_vm (VInt 0)) 4 (VString 3%positive) = Some vm' ∧
         dispatch_step vararg_bc ex_natives (lib := ex_lib) (vararg_vm (VInt 0)) 4 true
           = Some (Next (4 + 1) vm') ∧
         val_at vm' 4 = Some (VString 3%positive) ∧
         objs vm' = release_in VNil (retain_in (VString 3%positive) (objs (vararg_vm (VInt 0)))).
Proof.
  refine (proj2 (proj2 (proj2 (ntharg_semantics vararg_bc ex_natives (lib := ex_lib)
            (vararg_vm (VInt 0)) 4 (mkins SPN_INS_NTHARG 0 1 0) true 6 4 (VInt 0) VNil
            (mkFrame 6 2 2 4 None (-1) 1%positive) 4 _ _ _ _ _ _ _ _)))
            0 (VString 3%positive) eq_refl _ _ _);
    try reflexivity; simpl; lia.
Defined.

(** C7 as stated fails in the text of the message: the name is closed by an
    apostrophe, not by a backquote. *)
Lemma ntharg_out_of_bounds_message :
  ∃ vm', dispatch_step vararg_bc ex_natives (lib := ex_lib) (vararg_vm (VInt 5)) 4 true
           = Some (Exit (-1) vm' None) ∧
         errmsg vm' = Some ("runtime error at address 0x00000004: " +:+
                            "argument `5' of `#' operator is out-of bounds") ∧
         errmsg vm' ≠ Some ("runtime error at address 0x00000004: " +:+
                            "argument `5` of `#` operator is out-of bounds").
Proof.
  eexists. split; [reflexivity|]. split; [reflexivity|]. discriminate.
Qed.

(** ** The heap seen through its objects *)

Lemma obj_at_bump d o' h o : obj_at (alter (bump d) o' h) o = obj_at h o.
Proof.
  unfold obj_at. destruct (decide (o' = o)) as [->|Hne].
  - rewrite lookup_alter_eq. destruct (h !! o); reflexivity.
  - rewrite lookup_alter_ne by assumption. reflexivity.
Qed.

Lemma obj_at_retain_in v h o : obj_at (retain_in v h) o = obj_at h o.
Proof. unfold retain_in. destruct (objptr v); [apply obj_at_bump|reflexivity]. Qed.

Lemma obj_at_release_in v h o : obj_at (release_in v h) o = obj_at h o.
Proof. unfold release_in. destruct (objptr v); [apply obj_at_bump|reflexivity]. Qed.

Lemma func_at_obj vm o :
  func_at vm o = match obj_at (objs vm) o with Some (OFunc f) => Some f | _ => None end.
Proof. unfold func_at, obj_at. destruct (objs vm !! o) as [[rc ob]|]; reflexivity. Qed.

Lemma get_intkey_obj vm a k :
  spn_array_get_intkey vm a k =
    match obj_at (objs vm) a with
    | Some (OArray ints _) => Some (default VNil (ints !! k))
    | _ => None
    end.
Proof. unfold spn_array_get_intkey, obj_at. destruct (objs vm !! a) as [[rc ob]|]; reflexivity. Qed.

Lemma get_strkey_obj vm a k :
  spn_array_get_strkey vm a k =
    match obj_at (objs vm) a with
    | Some (OArray _ strs) => Some (default VNil (strs !! k))
    | _ => None
    end.
Proof. unfold spn_array_get_strkey, obj_at. destruct (objs vm !! a) as [[rc ob]|]; reflexivity. Qed.

Lemma obj_at_store_int k v a h o :
  obj_at (alter (store_int k v) a h) o =
    if decide (a = o) then
      match obj_at h o with
      | Some (OArray ints strs) =>
          Some (OArray (if isnil v then delete k ints else <[k := v]> ints) strs)
      | other => other
      end
    else obj_at h o.
Proof.
  unfold obj_at. destruct (decide (a = o)) as [->|Hne].
  - rewrite lookup_alter_eq. destruct (h !! o) as [[rc ob]|]; [|reflexivity].
    destruct ob; reflexivity.
  - rewrite lookup_alter_ne by assumption. reflexivity.
Qed.

Lemma obj_at_store_str k v a h o :
  obj_at (alter (store_str k v) a h) o =
    if decide (a = o) then
      match obj_at h o with
      | Some (OArray ints strs) =>
          Some (OArray ints (if isnil v then delete k strs else <[k := v]> strs))
      | other => other
      end
    else obj_at h o.
Proof.
  unfold obj_at. destruct (decide (a = o)) as [->|Hne].
  - rewrite lookup_alter_eq. destruct (h !! o) as [[rc ob]|]; [|reflexivity].
    destruct ob; reflexivity.
  - rewrite lookup_alter_ne by assumption. reflexivity.
Qed.

Lemma set_intkey_spec vm a k v old :
  spn_array_get_intkey vm a k = Some old →
  spn_array_set_intkey vm a k v =
    Some (set_objs (alter (store_int k v) a (release_in old (retain_in v (objs vm)))) vm).
Proof.
  intros Hold. unfold spn_array_set_intkey. rewrite Hold. simpl.
  rewrite release_eq, retain_eq. reflexivity.
Qed.

Lemma set_strkey_spec vm a k v old :
  spn_array_get_strkey vm a k = Some old →
  spn_array_set_strkey vm a k v =
    Some (set_objs (alter (store_str k v) a (release_in old (retain_in v (objs vm)))) vm).
Proof.
  intros Hold. unfold spn_array_set_strkey. rewrite Hold. simpl.
  rewrite release_eq, retain_eq. reflexivity.
Qed.

Lemma default_insert_lookup {K} `{Countable K} (m : gmap K SpnValue) k v :
  default VNil ((if isnil v then delete k m else <[k := v]> m) !! k) = v.
Proof.
  destruct v; simpl; rewrite ?lookup_delete_eq, ?lookup_insert_eq; reflexivity.
Qed.

Lemma with_error_fields msg vm :
  stack (with_error msg vm) = stack vm ∧ sp (with_error msg vm) = sp vm ∧
  stackallsz (with_error msg vm) = stackallsz vm ∧
  glbsymtab (with_error msg vm) = glbsymtab vm ∧
  ctx (with_error msg vm) = ctx vm ∧ objs (with_error msg vm) = objs vm ∧
  haserror (with_error msg vm) = true ∧
  errmsg (with_error msg vm) = if haserror vm then errmsg vm else Some msg.
Proof.
  unfold with_error. destruct (haserror vm) eqn:He; simpl; repeat split; assumption.
Qed.

(** ** Global values *)

Section GlobalValue.

Context (bc : list Z) (natives : nat → NativeFn) {lib : ObjectLibrary}.

(** C6, as the code has it: when the name that follows the GLBVAL word is
    bound to a non-nil value in the global symbol table, the error
    "re-definition of global `<name>'" is raised and the dispatcher returns
    -1 with the heap, and so the global symbol table, unchanged; otherwise
    the value of register A is retained and stored in the global symbol
    table under that name, and execution goes on after the name. *)
Theorem glbval_semantics (vm : SpnVMachine) (ip ins : Z) (rv : bool)
    (s : Z) (src aux : SpnValue) (name : string) :
  fetch bc ip = Some ins → decode_opcode (OPCODE ins) = Some SPN_INS_GLBVAL →
  sp vm = Some s →
  reg_get vm s (OPA ins) = Some src →
  cstr_at bc (ip + 1) (OPMID ins) = Some name →
  spn_array_get_strkey vm (glbsymtab vm) name = Some aux →
  (isnil aux = false →
     ∀ addr, prog_addr vm ip = Some addr →
       let vm' := with_error
                    (error_at addr ("re-definition of global `" +:+ name +:+ "'")) vm in
       dispatch_step bc natives vm ip rv = Some (Exit (-1) vm' None) ∧
       objs vm' = objs vm ∧
       spn_array_get_strkey vm' (glbsymtab vm') name = Some aux) ∧
  (isnil aux = true →
     ∃ vm', spn_array_set_strkey vm (glbsymtab vm) name src = Some vm' ∧
       dispatch_step bc natives vm ip rv =
         Some (Next (ip + 1 + ROUNDUP (OPMID ins + 1) SPN_WORD_OCTETS) vm') ∧
       spn_array_get_strkey vm' (glbsymtab vm') name = Some src ∧
       objs vm' = alter (store_str name src) (glbsymtab vm) (retain_in src (objs vm))).
Proof.
  intros Hins Hop Hsp Hsrc Hname Haux.
  assert (Hstep : dispatch_step bc natives vm ip rv = ins_glbval bc vm ins (ip + 1)).
  { unfold dispatch_step. rewrite Hins. simpl. rewrite Hop. reflexivity. }
  split.
  - intros Hnil addr Haddr vm'.
    destruct (with_error_fields
                (error_at addr ("re-definition of global `" +:+ name +:+ "'")) vm)
      as (_ & _ & _ & Hg & _ & Ho & _).
    fold vm' in Hg, Ho.
    split; [|split; [exact Ho|]].
    + rewrite Hstep. unfold ins_glbval. rewrite Hsp. simpl. rewrite Hsrc. simpl.
      rewrite Hname. simpl. rewrite Haux. simpl. rewrite Hnil. simpl.
      replace (ip + 1 + ROUNDUP (OPMID ins + 1) SPN_WORD_OCTETS
               - ROUNDUP (OPMID ins + 1) SPN_WORD_OCTETS - 1) with ip by lia.
      apply raise_at; [exact Haddr|apply format_redefinition].
    + rewrite get_strkey_obj, Hg, Ho, <- get_strkey_obj. exact Haux.
  - intros Hnil. assert (aux = VNil) as -> by (destruct aux; simpl in Hnil; congruence).
    rewrite (set_strkey_spec vm _ name src VNil Haux).
    eexists. split; [reflexivity|].
    split.
    { rewrite Hstep. unfold ins_glbval. rewrite Hsp. simpl. rewrite Hsrc. simpl.
      rewrite Hname. simpl. rewrite Haux. simpl.
      rewrite (set_strkey_spec vm _ name src VNil Haux). reflexivity. }
    split; [|reflexivity].
    rewrite get_strkey_obj. simpl.
    rewrite obj_at_store_str. destruct (decide (glbsymtab vm = glbsymtab vm)); [|congruence].
    change (release_in VNil (retain_in src (objs vm))) with (retain_in src (objs vm)).
    rewrite obj_at_retain_in.
    rewrite get_strkey_obj in Haux.
    destruct (obj_at (objs vm) (glbsymtab vm)) as [[| ints strs | | |]|]; try discriminate.
    rewrite default_insert_lookup. reflexivity.
Qed.

End GlobalValue.

Lemma glbval_semantics_witness :
  ∃ vm', spn_array_set_strkey (glbval_vm ∅) 2%positive "x" (VInt 42) = Some vm' ∧
         dispatch_step glbval_bc ex_natives (lib := ex_lib) (glbval_vm ∅) 4 true
           = Some (Next 6 vm') ∧
         spn_array_get_strkey vm' (glbsymtab vm') "x" = Some (VInt 42) ∧
         objs vm' = alter (store_str "x" (VInt 42)) 2%positive
                      (retain_in (VInt 42) (objs (glbval_vm ∅))).
Proof.
  refine (proj2 (glbval_semantics glbval_bc ex_natives (lib := ex_lib) (glbval_vm ∅) 4
                   (mkins_mid SPN_INS_GLBVAL 0 1) true 4 (VInt 42) VNil "x"
                   _ _ _ _ _ _) _); reflexivity.
Defined.

(** C6 as stated fails in the text of the message: the name is closed by an
    apostrophe, not by a backquote. *)
Lemma glbval_redefinition_message :
  ∃ vm', dispatch_step glbval_bc ex_natives (lib := ex_lib)
           (glbval_vm {["x" := VInt 1]}) 4 true = Some (Exit (-1) vm' None) ∧
         errmsg vm' = Some ("runtime error at address 0x00000004: " +:+
                            "re-definition of global `x'") ∧
         errmsg vm' ≠ Some ("runtime error at address 0x00000004: " +:+
                            "re-definition of global `x`").
Proof.
  eexists. split; [reflexivity|]. split; [reflexivity|]. discriminate.
Qed.

(** ** Symbols *)

Section Symbols.

Context (bc : list Z) (natives : nat → NativeFn) {lib : ObjectLibrary}.

Lemma dispatch_ldsym (vm : SpnVMachine) (ip ins : Z) (rv : bool) :
  fetch bc ip = Some ins → decode_opcode (OPCODE ins) = Some SPN_INS_LDSYM →
  dispatch_step bc natives vm ip rv = ins_ldsym vm ins (ip + 1).
Proof.
  intros Hins Hop. unfold dispatch_step. rewrite Hins. simpl. rewrite Hop. reflexivity.
Qed.

(** A load of an entry that is neither nil nor a stub copies the entry,
    retained, into register A; the global symbol table plays no part. *)
Lemma ldsym_resolved (vm : SpnVMachine) (ip ins : Z) (rv : bool)
    (s dst : Z) (h : TFrame) (fn : SpnFunction) (old v : SpnValue) :
  fetch bc ip = Some ins → decode_opcode (OPCODE ins) = Some SPN_INS_LDSYM →
  sp vm = Some s → frmhdr vm s = Some h →
  SLOTPTR vm s (OPA ins) = Some dst → val_at vm dst = Some old →
  func_at vm (callee h) = Some fn →
  spn_array_get_intkey vm (symtab fn) (OPMID ins) = Some v →
  isnil v = false → is_symstub v = false →
  ∃ vm', assign_at vm dst v = Some vm' ∧
    dispatch_step bc natives vm ip rv = Some (Next (ip + 1) vm') ∧
    val_at vm' dst = Some v ∧
    objs vm' = release_in old (retain_in v (objs vm)).
Proof.
  intros Hins Hop Hsp Hh Hdst Hold Hfn Hsym Hnil Hstub.
  destruct (assign_at_spec vm dst old v Hold) as (vm' & Hassign & Hv & _ & Ho & _).
  exists vm'. split; [exact Hassign|]. split; [|split; [exact Hv|exact Ho]].
  rewrite (dispatch_ldsym vm ip ins rv Hins Hop).
  unfold ins_ldsym. rewrite Hsp. simpl. rewrite Hdst. simpl. rewrite Hh. simpl.
  rewrite Hfn. simpl. rewrite Hsym. simpl. rewrite Hnil, Hstub, Hassign. reflexivity.
Qed.

(** C5, as the code has it.  The first load of an entry that is a stub
    looks the stub's name up in the global symbol table.  When the name is
    absent or bound to nil, the error "global `<name>' does not exist or it
    is nil" is raised and the dispatcher returns -1.  Otherwise the value
    found replaces the stub in the local symbol table and goes, retained,
    into register A; and after the name is removed from the global symbol
    table, a load at the same index still succeeds and yields the same
    value. *)
Theorem ldsym_memoizes (vm : SpnVMachine) (ip ins : Z) (rv : bool)
    (s dst : Z) (h : TFrame) (fn : SpnFunction) (old : SpnValue)
    (so : addr) (name : string) (v : SpnValue) :
  fetch bc ip = Some ins → decode_opcode (OPCODE ins) = Some SPN_INS_LDSYM →
  sp vm = Some s → frmhdr vm s = Some h →
  SLOTPTR vm s (OPA ins) = Some dst → val_at vm dst = Some old →
  func_at vm (callee h) = Some fn →
  spn_array_get_intkey vm (symtab fn) (OPMID ins) = Some (VSymStub so) →
  symstubvalue vm (VSymStub so) = Some name →
  spn_array_get_strkey vm (glbsymtab vm) name = Some v →
  (isnil v = true →
     ∀ addr, prog_addr vm ip = Some addr →
       dispatch_step bc natives vm ip rv =
         Some (Exit (-1)
                 (with_error
                    (error_at addr
                       ("global `" +:+ name +:+ "' does not exist or it is nil")) vm)
                 None)) ∧
  (isnil v = false → is_symstub v = false →
     ∃ vm2 vm3,
       spn_array_set_intkey vm (symtab fn) (OPMID ins) v = Some vm2 ∧
       assign_at vm2 dst v = Some vm3 ∧
       dispatch_step bc natives vm ip rv = Some (Next (ip + 1) vm3) ∧
       spn_array_get_intkey vm3 (symtab fn) (OPMID ins) = Some v ∧
       val_at vm3 dst = Some v ∧
       ∃ vm4 vm5,
         spn_array_set_strkey vm3 (glbsymtab vm3) name VNil = Some vm4 ∧
         spn_array_get_strkey vm4 (glbsymtab vm4) name = Some VNil ∧
         dispatch_step bc natives vm4 ip rv = Some (Next (ip + 1) vm5) ∧
         val_at vm5 dst = Some v ∧
         spn_array_get_intkey vm5 (symtab fn) (OPMID ins) = Some v).
Proof.
  intros Hins Hop Hsp Hh Hdst Hold Hfn Hsym Hname Hglb.
  pose proof (dispatch_ldsym vm ip ins rv Hins Hop) as Hstep.
  split.
  - intros Hnil addr Haddr. rewrite Hstep. unfold ins_ldsym.
    rewrite Hsp. simpl. rewrite Hdst. simpl. rewrite Hh. simpl.
    rewrite Hfn. simpl. rewrite Hsym. simpl.
    unfold resolve_symbol. rewrite Hname. simpl. rewrite Hglb. simpl. rewrite Hnil.
    replace (ip + 1 - 1) with ip by lia.
    rewrite (runtime_error_at vm ip addr _ _ _ Haddr (format_global_missing name)).
    reflexivity.
  - intros Hnil Hstub.
    (* the first load *)
    pose proof (set_intkey_spec vm (symtab fn) (OPMID ins) v _ Hsym) as Hset.
    set (vm2 := set_objs _ vm) in Hset.
    assert (Hold2 : val_at vm2 dst = Some old) by exact Hold.
    destruct (assign_at_spec vm2 dst old v Hold2)
      as (vm3 & Hassign & Hv3 & Hslots3 & Ho3 & Hsp3 & _ & _ & Hg3 & _).
    assert (Harr : ∃ ints strs, obj_at (objs vm) (symtab fn) = Some (OArray ints strs)).
    { rewrite get_intkey_obj in Hsym.
      destruct (obj_at (objs vm) (symtab fn)) as [[| ints strs | | |]|];
        try discriminate. eauto. }
    destruct Harr as (ints & strs & Harr).
    assert (Hobj2 : ∀ o, obj_at (objs vm2) o =
              if decide (symtab fn = o)
              then Some (OArray (<[OPMID ins := v]> ints) strs)
              else obj_at (objs vm) o).
    { intros o. subst vm2. simpl. rewrite obj_at_store_int.
      rewrite obj_at_release_in, obj_at_retain_in.
      destruct (decide (symtab fn = o)) as [<-|]; [|reflexivity].
      rewrite Harr, Hnil. reflexivity. }
    assert (Hobj3 : ∀ o, obj_at (objs vm3) o = obj_at (objs vm2) o).
    { intros o. rewrite Ho3, obj_at_release_in, obj_at_retain_in. reflexivity. }
    assert (Hmemo3 : spn_array_get_intkey vm3 (symtab fn) (OPMID ins) = Some v).
    { rewrite get_intkey_obj, Hobj3, Hobj2.
      destruct (decide (symtab fn = symtab fn)); [|congruence].
      rewrite lookup_insert_eq. reflexivity. }
    exists vm2, vm3. split; [exact Hset|]. split; [exact Hassign|].
    split.
    { rewrite Hstep. unfold ins_ldsym.
      rewrite Hsp. simpl. rewrite Hdst. simpl. rewrite Hh. simpl.
      rewrite Hfn. simpl. rewrite Hsym. simpl.
      unfold resolve_symbol. rewrite Hname. simpl. rewrite Hglb. simpl. rewrite Hnil.
      simpl. rewrite Hset. simpl. rewrite Hassign. reflexivity. }
    split; [exact Hmemo3|]. split; [exact Hv3|].
    (* the global is removed, and the entry is loaded again *)
    assert (Hglb3 : spn_array_get_strkey vm3 (glbsymtab vm3) name = Some v).
    { rewrite get_strkey_obj, Hg3, Hobj3, Hobj2.
      change (glbsymtab vm2) with (glbsymtab vm).
      rewrite get_strkey_obj in Hglb.
      destruct (decide (symtab fn = glbsymtab vm)) as [Heq|Hne]; [|exact Hglb].
      rewrite <- Heq, Harr in Hglb. exact Hglb. }
    pose proof (set_strkey_spec vm3 (glbsymtab vm3) name VNil v Hglb3) as Hrm.
    set (vm4 := set_objs _ vm3) in Hrm.
    assert (Hobj4 : ∀ o, obj_at (objs vm4) o =
              if decide (glbsymtab vm3 = o)
              then match obj_at (objs vm3) o with
                   | Some (OArray ints' strs') => Some (OArray ints' (delete name strs'))
                   | other => other
                   end
              else obj_at (objs vm3) o).
    { intros o. subst vm4. simpl. rewrite obj_at_store_str.
      rewrite obj_at_release_in, obj_at_retain_in. reflexivity. }
    assert (Hfn4 : func_at vm4 (callee h) = Some fn).
    { rewrite func_at_obj, Hobj4, Hobj3, Hobj2.
      rewrite func_at_obj in Hfn.
      destruct (decide (symtab fn = callee h)) as [Heq|Hne].
      - rewrite <- Heq, Harr in Hfn. discriminate.
      - destruct (decide (glbsymtab vm3 = callee h)); [|exact Hfn].
        destruct (obj_at (objs vm) (callee h)) as [[]|]; try discriminate. exact Hfn. }
    assert (Hmemo4 : spn_array_get_intkey vm4 (symtab fn) (OPMID ins) = Some v).
    { rewrite get_intkey_obj, Hobj4, Hobj3, Hobj2.
      destruct (decide (symtab fn = symtab fn)); [|congruence].
      destruct (decide (glbsymtab vm3 = symtab fn)); rewrite lookup_insert_eq; reflexivity. }
    assert (Hgone : spn_array_get_strkey vm4 (glbsymtab vm4) name = Some VNil).
    { change (glbsymtab vm4) with (glbsymtab vm3).
      rewrite get_strkey_obj, Hobj4.
      destruct (decide (glbsymtab vm3 = glbsymtab vm3)); [|congruence].
      rewrite get_strkey_obj in Hglb3.
      destruct (obj_at (objs vm3) (glbsymtab vm3)) as [[| ints' strs' | | |]|];
        try discriminate.
      rewrite lookup_delete_eq. reflexivity. }
    assert (Hsp4 : sp vm4 = Some s) by (change (sp vm4) with (sp vm3); rewrite Hsp3; exact Hsp).
    assert (Hh4 : frmhdr vm4 s = Some h).
    { change (frmhdr vm4 s) with (frmhdr vm3 s).
      apply SLOTPTR_inv in Hdst as (h' & Hh' & Hr & ->).
      rewrite <- Hh. unfold frmhdr. rewrite Hslots3 by (unfold IDX_FRMHDR; lia).
      reflexivity. }
    assert (Hdst4 : SLOTPTR vm4 s (OPA ins) = Some dst).
    { apply SLOTPTR_inv in Hdst as (h' & Hh' & Hr & ->).
      rewrite Hh in Hh'. injection Hh' as <-.
      apply (SLOTPTR_hdr vm4 s h); assumption. }
    assert (Hv4 : val_at vm4 dst = Some v) by exact Hv3.
    destruct (ldsym_resolved vm4 ip ins rv s dst h fn v v)
      as (vm5 & Hassign5 & Hstep5 & Hv5 & Ho5); try assumption.
    exists vm4, vm5. split; [exact Hrm|]. split; [exact Hgone|].
    split; [exact Hstep5|]. split; [exact Hv5|].
    rewrite get_intkey_obj, Ho5, obj_at_release_in, obj_at_retain_in, <- get_intkey_obj.
    exact Hmemo4.
Qed.

End Symbols.

Lemma ldsym_memoizes_witness :
  ∃ vm2 vm3,
    spn_array_set_intkey (ldsym_vm {["g" := VInt 7]}) 4%positive 0 (VInt 7) = Some vm2 ∧
    assign_at vm2 2 (VInt 7) = Some vm3 ∧
    dispatch_step ldsym_bc ex_natives (lib := ex_lib) (ldsym_vm {["g" := VInt 7]}) 4 true
      = Some (Next (4 + 1) vm3) ∧
    spn_array_get_intkey vm3 4%positive 0 = Some (VInt 7) ∧
    val_at vm3 2 = Some (VInt 7) ∧
    ∃ vm4 vm5,
      spn_array_set_strkey vm3 (glbsymtab vm3) "g" VNil = Some vm4 ∧
      spn_array_get_strkey vm4 (glbsymtab vm4) "g" = Some VNil ∧
      dispatch_step ldsym_bc ex_natives (lib := ex_lib) vm4 4 true = Some (Next (4 + 1) vm5) ∧
      val_at vm5 2 = Some (VInt 7) ∧
      spn_array_get_intkey vm5 4%positive 0 = Some (VInt 7).
Proof.
  refine (proj2 (ldsym_memoizes ldsym_bc ex_natives (lib := ex_lib)
                   (ldsym_vm {["g" := VInt 7]}) 4 (mkins_mid SPN_INS_LDSYM 0 0) true 4 2
                   (mkFrame 4 2 0 0 None (-1) 1%positive) ldsym_fn VNil 5%positive "g"
                   (VInt 7) _ _ _ _ _ _ _ _ _ _) _ _); reflexivity.
Defined.

(** C5 as stated fails in the text of the message: the name is closed by an
    apostrophe, not by a backquote. *)
Lemma ldsym_unresolved_message :
  ∃ vm', dispatch_step ldsym_bc ex_natives (lib := ex_lib) (ldsym_vm ∅) 4 true
           = Some (Exit (-1) vm' None) ∧
         errmsg vm' = Some ("runtime error at address 0x00000004: " +:+
                            "global `g' does not exist or it is nil") ∧
         errmsg vm' ≠ Some ("runtime error at address 0x00000004: " +:+
                            "global `g` does not exist or it is nil").
Proof.
  eexists. split; [reflexivity|]. split; [reflexivity|]. discriminate.
Qed.

(** ** Native calls *)

Lemma stacksize_sp vm s : stack_ok vm → sp vm = Some s → stacksize vm = s.
Proof.
  intros [_ Hok] Hsp. rewrite Hsp in Hok. unfold stacksize. rewrite Hsp.
  destruct (Z.eqb_spec (stackallsz vm) 0); [lia|reflexivity].
Qed.

Lemma push_native_pseudoframe_spec vm s fa :
  stack_ok vm → sp vm = Some s → s + 1 <= 2 ^ 63 →
  ∃ vm1, push_native_pseudoframe vm fa = Some vm1 ∧
    sp vm1 = Some (s + 1) ∧
    frmhdr vm1 (s + 1) = Some (mkFrame 1 0 0 0 None (-1) fa) ∧
    stack_ok vm1 ∧ same_rest vm vm1 ∧
    (∀ i, 0 <= i < s → stack vm1 !! Z.to_nat i = stack vm !! Z.to_nat i).
Proof.
  intros Hok Hsp Hs.
  pose proof (stacksize_sp vm s Hok Hsp) as Hss.
  pose proof (stacksize_bounds vm Hok) as Hb.
  destruct (push_frame_spec vm 0 0 0 0 None (-1) fa Hok)
    as (vm1 & Hpush & Hsp1 & Hok1 & Hrest & Hlow & _ & Hhdr & _); try lia.
  { rewrite Hss. unfold EXTRA_SLOTS. lia. }
  rewrite Hss in *. unfold EXTRA_SLOTS in *.
  exists vm1. split; [exact Hpush|].
  replace (s + (0 + 0 + 1)) with (s + 1) in * by lia.
  split; [exact Hsp1|]. split.
  { apply frmhdr_intro; [lia|]. replace (s + 1 - 1) with (s + 1 - 1) by lia. exact Hhdr. }
  split; [exact Hok1|]. split; [exact Hrest|exact Hlow].
Qed.

Section NativeCall.

Context (bc : list Z) (natives : nat → NativeFn) {lib : ObjectLibrary}.

(** C10: when the native function called by CALL returns a nonzero status,
    the dispatcher has by then released the destination register and
    stored the callee's out-value in it; it records the error (unless one
    is pending), does not pop the pseudo-frame it pushed, and returns the
    callee's status. *)
Theorem call_native_error (vm : SpnVMachine) (ip ins : Z) (rv : bool)
    (s retidx : Z) (fa : addr) (fnobj : SpnFunction) (argv : list SpnValue) :
  fetch bc ip = Some ins → decode_opcode (OPCODE ins) = Some SPN_INS_CALL →
  stack_ok vm → sp vm = Some s → s + 1 <= 2 ^ 63 →
  SLOTPTR vm s (OPA ins) = Some retidx →
  reg_get vm s (OPB ins) = Some (VFunc fa) →
  func_at vm fa = Some fnobj → native fnobj = true →
  gather_args bc (Z.to_nat (OPC ins)) 0 vm s (ip + 1) = Some argv →
  ∃ vm1, push_native_pseudoframe vm fa = Some vm1 ∧
    sp vm1 = Some (s + 1) ∧
    frmhdr vm1 (s + 1) = Some (mkFrame 1 0 0 0 None (-1) fa) ∧
    ∀ err tmpret vm2 old,
      natives (repr_fn fnobj) argv vm1 = (err, tmpret, vm2) →
      err ≠ 0 →
      val_at vm2 retidx = Some old →
      ∃ vm3, replace_at vm2 retidx tmpret = Some vm3 ∧
        let vm4 :=
          with_error
            ("runtime error in native code: " +:+
             spn_string_format_cstr "error in function `%s' (code: %i)"
               [FStr (fn_name fnobj); FNum err]) vm3 in
        dispatch_step bc natives vm ip rv = Some (Exit err vm4 None) ∧
        val_at vm4 retidx = Some tmpret ∧
        objs vm4 = release_in old (objs vm2) ∧
        haserror vm4 = true ∧
        sp vm4 = sp vm2 ∧
        (∀ k, k ≠ retidx → slot_get vm4 k = slot_get vm2 k) ∧
        (sp vm2 = Some (s + 1) →
         frmhdr vm2 (s + 1) = Some (mkFrame 1 0 0 0 None (-1) fa) →
         frmhdr vm4 (s + 1) = Some (mkFrame 1 0 0 0 None (-1) fa)).
Proof.
  intros Hins Hop Hok Hsp Hs Hret Hfun Hfn Hnat Hargs.
  destruct (push_native_pseudoframe_spec vm s fa Hok Hsp Hs)
    as (vm1 & Hpush & Hsp1 & Hhdr1 & _).
  exists vm1. split; [exact Hpush|]. split; [exact Hsp1|]. split; [exact Hhdr1|].
  intros err tmpret vm2 old Hcall Herr Hold.
  destruct (replace_at_spec vm2 retidx old tmpret Hold)
    as (vm3 & Hrep & Hv3 & Hslots3 & Ho3 & Hsp3 & _).
  exists vm3. split; [exact Hrep|]. intros vm4.
  destruct (with_error_fields
              ("runtime error in native code: " +:+
               spn_string_format_cstr "error in function `%s' (code: %i)"
                 [FStr (fn_name fnobj); FNum err]) vm3)
    as (Hst4 & Hsp4 & _ & _ & _ & Ho4 & Hh4 & _).
  fold vm4 in Hst4, Hsp4, Ho4, Hh4.
  assert (Hget4 : ∀ k, slot_get vm4 k = slot_get vm3 k).
  { intros k. unfold slot_get. rewrite Hst4. reflexivity. }
  split.
  { unfold dispatch_step. rewrite Hins. simpl. rewrite Hop.
    unfold ins_call. rewrite Hsp. simpl. rewrite Hret. simpl.
    destruct (reg_get_inv _ _ _ _ Hfun) as (h & Hh & Hr & Hval).
    rewrite (SLOTPTR_hdr vm s h _ Hh Hr). simpl. rewrite Hval. simpl.
    rewrite Hfn. simpl. rewrite Hnat.
    unfold call_native. rewrite Hargs. simpl. rewrite Hpush. simpl.
    rewrite Hcall. rewrite Hrep. simpl.
    destruct (Z.eqb_spec err 0); [contradiction|]. simpl.
    unfold spn_vm_seterrmsg. rewrite runtime_error_native. reflexivity. }
  split; [unfold val_at; rewrite Hget4; exact Hv3|].
  split; [rewrite Ho4; exact Ho3|]. split; [exact Hh4|].
  split; [rewrite Hsp4; exact Hsp3|].
  split; [intros k Hk; rewrite Hget4; apply Hslots3; exact Hk|].
  intros Hsp2 Hhdr2. unfold frmhdr. rewrite Hget4, Hslots3; [exact Hhdr2|].
  apply SLOTPTR_inv in Hret as (h & _ & Hr & ->). unfold IDX_FRMHDR. lia.
Qed.

End NativeCall.

Lemma call_native_error_witness :
  ∃ vm1 vm3,
    push_native_pseudoframe call_vm 6%positive = Some vm1 ∧
    replace_at vm1 2 VNil = Some vm3 ∧
    let vm4 := with_error
                 ("runtime error in native code: " +:+ "error in function `nat' (code: 1)")
                 vm3 in
    dispatch_step call_bc ex_natives (lib := ex_lib) call_vm 4 true
      = Some (Exit 1 vm4 None) ∧
    val_at vm4 2 = Some VNil ∧
    refcount vm4 3%positive = refcount call_vm 3%positive - 1 ∧
    sp vm4 = Some 5 ∧
    frmhdr vm4 5 = Some (mkFrame 1 0 0 0 None (-1) 6%positive).
Proof.
  destruct (call_native_error call_bc ex_natives (lib := ex_lib) call_vm 4
              (mkins SPN_INS_CALL 0 1 0) true 4 2 6%positive
              (mkFunction "nat" true false false 0 O 2%positive 6%positive None) [])
    as (vm1 & Hpush & Hsp1 & Hhdr1 & Hcall); try reflexivity.
  { split; [reflexivity|]. simpl. lia. }
  { lia. }
  assert (Hval : val_at vm1 2 = Some (VString 3%positive)).
  { vm_compute in Hpush. injection Hpush as <-. reflexivity. }
  destruct (Hcall 1 VNil vm1 (VString 3%positive) eq_refl ltac:(lia) Hval)
    as (vm3 & Hrep & Hstep & Hv & Ho & _ & Hsp4 & _ & Hhdr4).
  exists vm1, vm3. split; [exact Hpush|]. split; [exact Hrep|].
  split; [exact Hstep|]. split; [exact Hv|].
  split.
  { clear Hstep Hv Hhdr4 Hsp4 Ho Hcall Hval Hhdr1 Hsp1.
    vm_compute in Hpush. injection Hpush as <-.
    vm_compute in Hrep. injection Hrep as <-. reflexivity. }
  split; [exact (eq_trans Hsp4 Hsp1)|].
  exact (Hhdr4 Hsp1 Hhdr1).
Defined.

(** ** Runtime errors *)

Lemma raise_inv vm ip fmt args o :
  raise vm ip fmt args = Some o →
  ∃ vm', o = Exit (-1) vm' None ∧ runtime_error vm (Some ip) fmt args = Some vm'.
Proof.
  unfold raise. destruct (runtime_error vm (Some ip) fmt args) as [vm'|]; [|discriminate].
  simpl. intros [= <-]. eauto.
Qed.

Lemma raise_vm_error vm ip ip' fmt args code vm' out :
  raise vm ip' fmt args = Some (Exit code vm' out) → ip' = ip →
  vm_error vm ip code vm' out.
Proof.
  intros H ->. apply raise_inv in H as (vm0 & [= -> -> ->] & Herr).
  split; [reflexivity|]. split; [reflexivity|]. eauto.
Qed.

(** Takes a step of the dispatcher apart. *)
Ltac step_inv :=
  repeat
    match goal with
    | H : raise _ _ _ _ = Some (Exit _ _ _) |- _ =>
        apply (raise_vm_error _ _ _ _ _ _ _ _ H); lia
    | H : raise _ _ _ _ = Some (Next _ _) |- _ =>
        apply raise_inv in H as (? & ? & _); discriminate
    | H : Some _ = Some _ |- _ => injection H as H
    | H : Exit _ _ _ = Exit _ _ _ |- _ => injection H as ? ? ?; subst
    | H : Next _ _ = Exit _ _ _ |- _ => discriminate H
    | H : None = Some _ |- _ => discriminate H
    | H : mbind _ ?x = Some _ |- _ =>
        let E := fresh "E" in
        destruct x eqn:E; cbv beta iota delta [mbind option_bind] in H; [|discriminate H]
    | H : (if ?c then _ else _) = Some _ |- _ =>
        let E := fresh "E" in destruct c eqn:E
    | H : match ?x with _ => _ end = Some _ |- _ =>
        let E := fresh "E" in destruct x eqn:E
    | H : (let '(_, _) := ?x in _) = Some _ |- _ =>
        let E := fresh "E" in destruct x eqn:E
    end.

Section ErrorExits.

Context (bc : list Z) (natives : nat → NativeFn) {lib : ObjectLibrary}.

Lemma ins_jump_if_exit (vm : SpnVMachine) (op : spn_vm_ins) (ins ip code : Z) (vm' : SpnVMachine)
    (out : option SpnValue) :
  ins_jump_if bc vm op ins (ip + 1) = Some (Exit code vm' out) →
  vm_error vm ip code vm' out.
Proof. unfold ins_jump_if. intros H. step_inv. Qed.

Lemma ins_equal_exit (vm : SpnVMachine) (op : spn_vm_ins) (ins ip code : Z) (vm' : SpnVMachine)
    (out : option SpnValue) :
  ins_equal vm op ins (ip + 1) = Some (Exit code vm' out) →
  vm_error vm ip code vm' out.
Proof. unfold ins_equal. intros H. step_inv. Qed.

Lemma ins_compare_exit (vm : SpnVMachine) (op : spn_vm_ins) (ins ip code : Z) (vm' : SpnVMachine)
    (out : option SpnValue) :
  ins_compare vm op ins (ip + 1) = Some (Exit code vm' out) →
  vm_error vm ip code vm' out.
Proof. unfold ins_compare. intros H. step_inv. Qed.

Lemma ins_arith_exit (vm : SpnVMachine) (op : spn_vm_ins) (ins ip code : Z) (vm' : SpnVMachine)
    (out : option SpnValue) :
  ins_arith vm op ins (ip + 1) = Some (Exit code vm' out) →
  vm_error vm ip code vm' out.
Proof. unfold ins_arith. intros H. step_inv. Qed.

Lemma ins_mod_exit (vm : SpnVMachine) (ins ip code : Z) (vm' : SpnVMachine)
    (out : option SpnValue) :
  ins_mod vm ins (ip + 1) = Some (Exit code vm' out) →
  vm_error vm ip code vm' out.
Proof. unfold ins_mod. intros H. step_inv. Qed.

Lemma ins_neg_exit (vm : SpnVMachine) (ins ip code : Z) (vm' : SpnVMachine)
    (out : option SpnValue) :
  ins_neg vm ins (ip + 1) = Some (Exit code vm' out) →
  vm_error vm ip code vm' out.
Proof. unfold ins_neg. intros H. step_inv. Qed.

Lemma ins_incdec_exit (vm : SpnVMachine) (op : spn_vm_ins) (ins ip code : Z) (vm' : SpnVMachine)
    (out : option SpnValue) :
  ins_incdec vm op ins (ip + 1) = Some (Exit code vm' out) →
  vm_error vm ip code vm' out.
Proof. unfold ins_incdec. intros H. step_inv. Qed.

Lemma ins_bitwise_exit (vm : SpnVMachine) (op : spn_vm_ins) (ins ip code : Z) (vm' : SpnVMachine)
    (out : option SpnValue) :
  ins_bitwise vm op ins (ip + 1) = Some (Exit code vm' out) →
  vm_error vm ip code vm' out.
Proof. unfold ins_bitwise. intros H. step_inv. Qed.

Lemma ins_bitnot_exit (vm : SpnVMachine) (ins ip code : Z) (vm' : SpnVMachine)
    (out : option SpnValue) :
  ins_bitnot vm ins (ip + 1) = Some (Exit code vm' out) →
  vm_error vm ip code vm' out.
Proof. unfold ins_bitnot. intros H. step_inv. Qed.

Lemma ins_lognot_exit (vm : SpnVMachine) (ins ip code : Z) (vm' : SpnVMachine)
    (out : option SpnValue) :
  ins_lognot vm ins (ip + 1) = Some (Exit code vm' out) →
  vm_error vm ip code vm' out.
Proof. unfold ins_lognot. intros H. step_inv. Qed.

Lemma ins_sizeof_exit (vm : SpnVMachine) (ins ip code : Z) (vm' : SpnVMachine)
    (out : option SpnValue) :
  ins_sizeof vm ins (ip + 1) = Some (Exit code vm' out) →
  vm_error vm ip code vm' out.
Proof. unfold ins_sizeof. intros H. step_inv. Qed.

Lemma ins_typeof_exit (vm : SpnVMachine) (ins ip code : Z) (vm' : SpnVMachine)
    (out : option SpnValue) :
  ins_typeof vm ins (ip + 1) = Some (Exit code vm' out) →
  vm_error vm ip code vm' out.
Proof. unfold ins_typeof. intros H. step_inv. Qed.

Lemma ins_concat_exit (vm : SpnVMachine) (ins ip code : Z) (vm' : SpnVMachine)
    (out : option SpnValue) :
  ins_concat vm ins (ip + 1) = Some (Exit code vm' out) →
  vm_error vm ip code vm' out.
Proof. unfold ins_concat. intros H. step_inv. Qed.

Lemma ins_ldconst_exit (vm : SpnVMachine) (ins ip code : Z) (vm' : SpnVMachine)
    (out : option SpnValue) :
  ins_ldconst bc vm ins (ip + 1) = Some (Exit code vm' out) →
  vm_error vm ip code vm' out.
Proof. unfold ins_ldconst. intros H. step_inv. Qed.

Lemma ins_mov_exit (vm : SpnVMachine) (ins ip code : Z) (vm' : SpnVMachine)
    (out : option SpnValue) :
  ins_mov vm ins (ip + 1) = Some (Exit code vm' out) →
  vm_error vm ip code vm' out.
Proof. unfold ins_mov. intros H. step_inv. Qed.

Lemma ins_ldargc_exit (vm : SpnVMachine) (ins ip code : Z) (vm' : SpnVMachine)
    (out : option SpnValue) :
  ins_ldargc vm ins (ip + 1) = Some (Exit code vm' out) →
  vm_error vm ip code vm' out.
Proof. unfold ins_ldargc. intros H. step_inv. Qed.

Lemma ins_newarr_exit (vm : SpnVMachine) (ins ip code : Z) (vm' : SpnVMachine)
    (out : option SpnValue) :
  ins_newarr vm ins (ip + 1) = Some (Exit code vm' out) →
  vm_error vm ip code vm' out.
Proof. unfold ins_newarr. intros H. step_inv. Qed.

Lemma ins_arrget_exit (vm : SpnVMachine) (ins ip code : Z) (vm' : SpnVMachine)
    (out : option SpnValue) :
  ins_arrget vm ins (ip + 1) = Some (Exit code vm' out) →
  vm_error vm ip code vm' out.
Proof. unfold ins_arrget. intros H. step_inv. Qed.

Lemma ins_arrset_exit (vm : SpnVMachine) (ins ip code : Z) (vm' : SpnVMachine)
    (out : option SpnValue) :
  ins_arrset vm ins (ip + 1) = Some (Exit code vm' out) →
  vm_error vm ip code vm' out.
Proof. unfold ins_arrset. intros H. step_inv. Qed.

Lemma ins_ntharg_exit (vm : SpnVMachine) (ins ip code : Z) (vm' : SpnVMachine)
    (out : option SpnValue) :
  ins_ntharg vm ins (ip + 1) = Some (Exit code vm' out) →
  vm_error vm ip code vm' out.
Proof. unfold ins_ntharg. intros H. step_inv. Qed.

Lemma ins_function_exit (vm : SpnVMachine) (ip code : Z) (vm' : SpnVMachine)
    (out : option SpnValue) :
  ins_function bc vm (ip + 1) = Some (Exit code vm' out) →
  vm_error vm ip code vm' out.
Proof. unfold ins_function. intros H. step_inv. Qed.

Lemma ins_glbval_exit (vm : SpnVMachine) (ins ip code : Z) (vm' : SpnVMachine)
    (out : option SpnValue) :
  ins_glbval bc vm ins (ip + 1) = Some (Exit code vm' out) →
  vm_error vm ip code vm' out.
Proof. unfold ins_glbval. intros H. step_inv. Qed.

Lemma ins_closure_exit (vm : SpnVMachine) (ins ip code : Z) (vm' : SpnVMachine)
    (out : option SpnValue) :
  ins_closure bc vm ins (ip + 1) = Some (Exit code vm' out) →
  vm_error vm ip code vm' out.
Proof. unfold ins_closure. intros H. step_inv. Qed.

Lemma ins_ldupval_exit (vm : SpnVMachine) (ins ip code : Z) (vm' : SpnVMachine)
    (out : option SpnValue) :
  ins_ldupval vm ins (ip + 1) = Some (Exit code vm' out) →
  vm_error vm ip code vm' out.
Proof. unfold ins_ldupval. intros H. step_inv. Qed.

Lemma ins_ldsym_exit (vm : SpnVMachine) (ins ip code : Z) (vm' : SpnVMachine)
    (out : option SpnValue) :
  ins_ldsym vm ins (ip + 1) = Some (Exit code vm' out) →
  vm_error vm ip code vm' out.
Proof.
  unfold ins_ldsym, resolve_symbol. intros H. step_inv; simplify_eq.
  all: split; [reflexivity|]; split; [reflexivity|].
  all: replace (ip + 1 - 1) with ip in * by lia; eauto.
Qed.

Lemma ins_ret_exit (vm : SpnVMachine) (ins code : Z) (rv : bool) (vm' : SpnVMachine)
    (out : option SpnValue) :
  ins_ret vm ins rv = Some (Exit code vm' out) → code = 0.
Proof. unfold ins_ret. intros H. step_inv; congruence. Qed.

Lemma ins_call_exit (vm : SpnVMachine) (ins ip code : Z) (vm' : SpnVMachine)
    (out : option SpnValue) :
  ins_call bc natives vm ins (ip + 1) = Some (Exit code vm' out) →
  vm_error vm ip code vm' out ∨ native_error natives vm code vm' out.
Proof.
  unfold ins_call, call_native, call_script. intros H. step_inv;
    try (left; step_inv; fail).
  right. subst. split; [reflexivity|]. repeat eexists; eassumption.
Qed.

End ErrorExits.

(** ** Unwinding *)

Lemma frames_hold_same_stack vm vm' s fs :
  stack vm' = stack vm → frames_hold vm s fs → frames_hold vm' s fs.
Proof.
  intros Hst. induction 1 as [|s h vals fs Hh Hsz Hv Hfs IH]; [constructor|].
  econstructor; [| exact Hsz | | exact IH].
  - unfold frmhdr, slot_get. rewrite Hst. exact Hh.
  - unfold frame_values in *. rewrite <- Hv. apply slot_values_agree.
    intros k _. unfold slot_get. rewrite Hst. reflexivity.
Qed.

Lemma pop_all_spec fs : ∀ vm s fuel,
  frames_hold vm s fs → sp vm = Some s → (length fs <= fuel)%nat →
  pop_all fuel vm =
    Some (set_sp (Some 0) (set_objs (release_frames fs (objs vm)) vm)).
Proof.
  induction fs as [|[h vals] fs IH]; intros vm s fuel Hhold Hsp Hfuel.
  - inversion Hhold; subst. destruct fuel; simpl; rewrite Hsp; simpl;
      destruct vm; simpl in *; subst; reflexivity.
  - inversion Hhold as [|s' h' vals' fs' Hh Hsz Hv Hfs]; subst.
    destruct fuel as [|fuel]; [simpl in Hfuel; lia|].
    cbn [pop_all]. rewrite Hsp. destruct (Z.ltb_spec 0 s); [|lia].
    rewrite (pop_frame_spec vm s h vals Hsp Hh Hv). simpl.
    rewrite (IH _ (s - frame_size h) fuel).
    + reflexivity.
    + apply (frames_hold_same_stack vm); [reflexivity|exact Hfs].
    + reflexivity.
    + simpl in Hfuel. lia.
Qed.

Lemma runtime_error_inv vm ip fmt args vm' :
  runtime_error vm ip fmt args = Some vm' →
  haserror vm' = true ∧ stack vm' = stack vm ∧ sp vm' = sp vm ∧
  stackallsz vm' = stackallsz vm ∧ objs vm' = objs vm ∧
  (haserror vm = true → vm' = vm).
Proof.
  unfold runtime_error. destruct (haserror vm) eqn:He.
  - intros [= <-]. repeat split; try assumption; reflexivity.
  - destruct (error_prefix vm ip) as [p|]; [|discriminate]. simpl.
    intros [= <-]. repeat split. discriminate.
Qed.

(** ** The error flag *)

Lemma retain_flag v vm : haserror (spn_value_retain v vm) = haserror vm.
Proof. apply retain_fields. Qed.

Lemma release_flag v vm : haserror (spn_value_release v vm) = haserror vm.
Proof. apply release_fields. Qed.

Lemma slot_set_flag vm i x vm' :
  slot_set vm i x = Some vm' → haserror vm' = haserror vm.
Proof. intros H. apply (slot_set_fields _ _ _ _ H). Qed.

Lemma replace_at_flag vm i v vm' :
  replace_at vm i v = Some vm' → haserror vm' = haserror vm.
Proof.
  unfold replace_at. destruct (val_at vm i); [|discriminate].
  cbv beta iota delta [mbind option_bind]. intros H.
  rewrite (slot_set_flag _ _ _ _ H). apply release_flag.
Qed.

Lemma assign_at_flag vm i v vm' :
  assign_at vm i v = Some vm' → haserror vm' = haserror vm.
Proof.
  unfold assign_at. intros H. rewrite (replace_at_flag _ _ _ _ H). apply retain_flag.
Qed.

Lemma set_intkey_flag vm a k v vm' :
  spn_array_set_intkey vm a k v = Some vm' → haserror vm' = haserror vm.
Proof.
  unfold spn_array_set_intkey. destruct (spn_array_get_intkey vm a k); [|discriminate].
  cbv beta iota zeta delta [mbind option_bind]. intros [= <-].
  change (haserror (spn_value_release s (spn_value_retain v vm)) = haserror vm).
  rewrite release_flag. apply retain_flag.
Qed.

Lemma set_strkey_flag vm a k v vm' :
  spn_array_set_strkey vm a k v = Some vm' → haserror vm' = haserror vm.
Proof.
  unfold spn_array_set_strkey. destruct (spn_array_get_strkey vm a k); [|discriminate].
  cbv beta iota zeta delta [mbind option_bind]. intros [= <-].
  change (haserror (spn_value_release s (spn_value_retain v vm)) = haserror vm).
  rewrite release_flag. apply retain_flag.
Qed.

Lemma makestring_flag s vm r vm' :
  makestring_nocopy s vm = (r, vm') → haserror vm' = haserror vm.
Proof. intros [= _ <-]. reflexivity. Qed.

Lemma make_symstub_flag s vm r vm' :
  make_symstub s vm = (r, vm') → haserror vm' = haserror vm.
Proof. intros [= _ <-]. reflexivity. Qed.

Lemma makescriptfunc_flag n e p t vm r vm' :
  makescriptfunc n e p t vm = (r, vm') → haserror vm' = haserror vm.
Proof. intros [= _ <-]. reflexivity. Qed.

Lemma makearray_flag vm r vm' :
  makearray vm = (r, vm') → haserror vm' = haserror vm.
Proof. intros [= _ <-]. reflexivity. Qed.

Lemma new_closure_flag p vm c u vm' :
  spn_func_new_closure p vm = (c, u, vm') → haserror vm' = haserror vm.
Proof. intros [= _ _ <-]. reflexivity. Qed.

Lemma init_regs_flag n : ∀ from vm vm',
  init_regs n from vm = Some vm' → haserror vm' = haserror vm.
Proof.
  induction n as [|n IH]; intros from vm vm'; simpl.
  - intros [= <-]. reflexivity.
  - destruct (slot_set vm from (SlotV makenil)) as [vm1|] eqn:E; [|discriminate].
    cbv beta iota delta [mbind option_bind]. intros H.
    rewrite (IH _ _ _ H). exact (slot_set_flag _ _ _ _ E).
Qed.

Lemma release_regs_flag n : ∀ from vm vm',
  release_regs n from vm = Some vm' → haserror vm' = haserror vm.
Proof.
  induction n as [|n IH]; intros from vm vm'; simpl.
  - intros [= <-]. reflexivity.
  - destruct (val_at vm from) as [v|]; [|discriminate].
    cbv beta iota delta [mbind option_bind]. intros H.
    rewrite (IH _ _ _ H). apply release_flag.
Qed.

Lemma expand_stack_flag vm n vm' :
  expand_stack vm n = Some vm' → haserror vm' = haserror vm.
Proof.
  unfold expand_stack.
  destruct (double_until _ _ _); [|discriminate].
  cbv beta iota zeta delta [mbind option_bind]. intros [= <-]. reflexivity.
Qed.

Lemma push_frame_flag vm nregs da ea ra rad ri cal vm' :
  push_frame vm nregs da ea ra rad ri cal = Some vm' → haserror vm' = haserror vm.
Proof.
  unfold push_frame. destruct (ea <? 0); [discriminate|].
  destruct (if _ : bool then expand_stack vm _ else Some vm) as [vm1|] eqn:E1; [|discriminate].
  cbv beta iota zeta delta [mbind option_bind].
  destruct (sp vm1) as [s0|]; [|discriminate].
  destruct (init_regs _ _ _) as [vm3|] eqn:E3; [|discriminate].
  intros H. rewrite (slot_set_flag _ _ _ _ H), (init_regs_flag _ _ _ _ E3).
  change (haserror vm1 = haserror vm).
  destruct (_ || _) in E1.
  - exact (expand_stack_flag _ _ _ E1).
  - injection E1 as <-. reflexivity.
Qed.

Lemma pop_frame_flag vm vm' :
  pop_frame vm = Some vm' → haserror vm' = haserror vm.
Proof.
  unfold pop_frame. destruct (sp vm) as [s|]; [|discriminate].
  cbv beta iota zeta delta [mbind option_bind].
  destruct (frmhdr vm s) as [h|]; [|discriminate].
  destruct (release_regs _ _ _) as [vm1|] eqn:E; [|discriminate].
  intros [= <-]. exact (release_regs_flag _ _ _ _ E).
Qed.

Lemma for_loop_flag cond body :
  (∀ i vm vm', body i vm = Some vm' → haserror vm' = haserror vm) →
  ∀ fuel i vm vm', for_loop fuel i cond body vm = Some vm' → haserror vm' = haserror vm.
Proof.
  intros Hbody. induction fuel as [|fuel IH]; intros i vm vm'; simpl.
  - destruct (cond i); [discriminate|]. intros [= <-]. reflexivity.
  - destruct (cond i); [|intros [= <-]; reflexivity].
    destruct (body i vm) as [vm1|] eqn:E; [|discriminate].
    cbv beta iota delta [mbind option_bind]. intros H.
    rewrite (IH _ _ _ H). exact (Hbody _ _ _ E).
Qed.

Section Flag.

Context (bc : list Z) (natives : nat → NativeFn) {lib : ObjectLibrary}.

Lemma copy_named_arg_flag desc i vm vm' :
copy_named_arg bc desc i vm = Some vm' → haserror vm' = haserror vm.
Proof.
unfold copy_named_arg. destruct (sp vm) as [s|]; [|discriminate].
cbv beta iota delta [mbind option_bind].
destruct (SLOTPTR vm s i); [|discriminate].
destruct (arg_src bc vm desc i); [|discriminate].
intros H. rewrite (slot_set_flag _ _ _ _ H). apply retain_flag.
Qed.

Lemma copy_extra_arg_flag desc decl i vm vm' :
copy_extra_arg bc desc decl i vm = Some vm' → haserror vm' = haserror vm.
Proof.
unfold copy_extra_arg. destruct (sp vm) as [s|]; [|discriminate].
cbv beta iota zeta delta [mbind option_bind].
destruct (nth_vararg vm s (i - decl)); [|discriminate].
destruct (arg_src bc vm desc i); [|discriminate].
intros H. rewrite (slot_set_flag _ _ _ _ H). apply retain_flag.
Qed.

Lemma push_and_copy_args_flag vm fn desc argc vm' :
push_and_copy_args bc vm fn desc argc = Some vm' → haserror vm' = haserror vm.
Proof.
unfold push_and_copy_args. destruct fn; try discriminate.
destruct (func_at vm o) as [fnobj|]; [|discriminate].
cbv beta iota zeta delta [mbind option_bind].
destruct (native fnobj); [discriminate|].
destruct (fetch bc _) as [decl|]; [|discriminate].
destruct (fetch bc _) as [nregs|]; [|discriminate].
destruct (nregs <? decl); [discriminate|].
destruct (push_frame _ _ _ _ _ _ _ _) as [vm1|] eqn:E1; [|discriminate].
destruct (for_loop _ 0 _ _ vm1) as [vm2|] eqn:E2; [|discriminate].
intros H.
rewrite (for_loop_flag _ _ (copy_extra_arg_flag desc decl) _ _ _ _ H).
rewrite (for_loop_flag _ _ (copy_named_arg_flag desc) _ _ _ _ E2).
exact (push_frame_flag _ _ _ _ _ _ _ _ _ E1).
Qed.

Lemma read_symbol_flag program i stp vm stp' vm' :
read_symbol bc program i stp vm = Some (stp', vm') → haserror vm' = haserror vm.
Proof.
unfold read_symbol. destruct (func_at vm program) as [prog|]; [|discriminate].
cbv beta iota zeta delta [mbind option_bind].
destruct (fetch bc stp) as [ins|]; [|discriminate].
destruct (decode_local_symbol _) as [[]|]; [| | |discriminate].
- destruct (cstr_at bc _ _) as [cstr|]; [|discriminate].
  destruct (makestring_nocopy cstr vm) as [v vm1] eqn:E1.
  destruct (spn_array_set_intkey _ _ _ _) as [vm2|] eqn:E2; [|discriminate].
  intros [= _ <-]. rewrite release_flag, (set_intkey_flag _ _ _ _ _ E2).
  exact (makestring_flag _ _ _ _ E1).
- destruct (cstr_at bc _ _) as [cstr|]; [|discriminate].
  destruct (make_symstub cstr vm) as [v vm1] eqn:E1.
  destruct (spn_array_set_intkey _ _ _ _) as [vm2|] eqn:E2; [|discriminate].
  intros [= _ <-]. rewrite release_flag, (set_intkey_flag _ _ _ _ _ E2).
  exact (make_symstub_flag _ _ _ _ E1).
- destruct (fetch bc _) as [hdroff|]; [|discriminate].
  destruct (fetch bc _) as [namelen|]; [|discriminate].
  destruct (cstr_at bc _ _) as [name|]; [|discriminate].
  destruct (makescriptfunc _ _ _ _ vm) as [v vm1] eqn:E1.
  destruct (spn_array_set_intkey _ _ _ _) as [vm2|] eqn:E2; [|discriminate].
  intros [= _ <-]. rewrite release_flag, (set_intkey_flag _ _ _ _ _ E2).
  exact (makescriptfunc_flag _ _ _ _ _ _ _ E1).
Qed.

Lemma read_symbols_flag n : ∀ program i stp vm vm',
read_symbols bc n program i stp vm = Some vm' → haserror vm' = haserror vm.
Proof.
induction n as [|n IH]; intros program i stp vm vm'; simpl.
- intros [= <-]. reflexivity.
- destruct (read_symbol bc program i stp vm) as [[stp1 vm1]|] eqn:E; [|discriminate].
  cbv beta iota delta [mbind option_bind]. intros H.
  rewrite (IH _ _ _ _ _ H). exact (read_symbol_flag _ _ _ _ _ _ E).
Qed.

Lemma read_local_symtab_flag vm program vm' :
read_local_symtab bc vm program = Some vm' → haserror vm' = haserror vm.
Proof.
unfold read_local_symtab. destruct (func_at vm program) as [prog|]; [|discriminate].
cbv beta iota zeta delta [mbind option_bind].
destruct (fetch bc _) as [offset|]; [|discriminate].
destruct (fetch bc _) as [symcount|]; [|discriminate].
destruct (negb (topprg prog)); [discriminate|].
destruct (readsymtab prog); [intros [= <-]; reflexivity|].
intros H. rewrite (read_symbols_flag _ _ _ _ _ _ H). reflexivity.
Qed.

Lemma closure_upvals_flag n : ∀ i ip s fn ups vm ip' vm',
closure_upvals bc n i ip s fn ups vm = Some (ip', vm') → haserror vm' = haserror vm.
Proof.
induction n as [|n IH]; intros i ip s fn ups vm ip' vm'; simpl.
- intros [= _ <-]. reflexivity.
- destruct (fetch bc ip) as [d|]; [|discriminate].
  cbv beta iota zeta delta [mbind option_bind].
  destruct (decode_upval_type _) as [[]|]; [| |discriminate].
  + destruct (reg_get vm s (OPA d)) as [u|]; [|discriminate].
    destruct (spn_array_set_intkey vm ups i u) as [vm1|] eqn:E; [|discriminate].
    intros H. rewrite (IH _ _ _ _ _ _ _ _ H). exact (set_intkey_flag _ _ _ _ _ E).
  + destruct (upvalues fn) as [outer|]; [|discriminate].
    destruct (spn_array_get_intkey vm outer (OPA d)) as [u|]; [|discriminate].
    destruct (spn_array_set_intkey vm ups i u) as [vm1|] eqn:E; [|discriminate].
    intros H. rewrite (IH _ _ _ _ _ _ _ _ H). exact (set_intkey_flag _ _ _ _ _ E).
Qed.

End Flag.

Lemma resolve_symbol_flag vm ip symp err sym vm' :
  resolve_symbol vm ip symp = Some (err, sym, vm') → err = 0 → vm' = vm.
Proof.
  unfold resolve_symbol. destruct (symstubvalue vm symp) as [name|]; [|discriminate].
  cbv beta iota delta [mbind option_bind].
  destruct (spn_array_get_strkey vm (glbsymtab vm) name) as [res|]; [|discriminate].
  destruct (isnil res).
  - destruct (runtime_error _ _ _ _); [|discriminate].
    intros [= <- _ _]. discriminate.
  - intros [= _ _ <-]. reflexivity.
Qed.

(** Takes an instruction apart and follows the flag through its steps. *)
Ltac flag_inv :=
  repeat
    match goal with
    | H : raise _ _ _ _ = Some _ |- _ =>
        let Hc := fresh in
        apply raise_inv in H as (? & -> & _); cbn [quiet]; intros Hc; discriminate Hc
    | H : Some _ = Some _ |- _ => injection H as H
    | H : Next _ _ = ?o |- _ => is_var o; subst o
    | H : Exit _ _ _ = ?o |- _ => is_var o; subst o
    | H : (_, _) = (_, _) |- _ => injection H as ? ?
    | H : None = Some _ |- _ => discriminate H
    | H : mbind _ ?x = Some _ |- _ =>
        destruct x eqn:?; cbv beta iota delta [mbind option_bind] in H; [|discriminate H]
    | H : (if ?c then _ else _) = Some _ |- _ => destruct c eqn:?
    | H : match ?x with _ => _ end = Some _ |- _ => destruct x eqn:?
    end.

Ltac flag_facts :=
  repeat
    match goal with
    | H : slot_set _ _ _ = Some _ |- _ => apply slot_set_flag in H
    | H : replace_at _ _ _ = Some _ |- _ => apply replace_at_flag in H
    | H : assign_at _ _ _ = Some _ |- _ => apply assign_at_flag in H
    | H : spn_array_set_intkey _ _ _ _ = Some _ |- _ => apply set_intkey_flag in H
    | H : spn_array_set_strkey _ _ _ _ = Some _ |- _ => apply set_strkey_flag in H
    | H : pop_frame _ = Some _ |- _ => apply pop_frame_flag in H
    | H : push_frame _ _ _ _ _ _ _ _ = Some _ |- _ => apply push_frame_flag in H
    | H : push_native_pseudoframe _ _ = Some _ |- _ => apply push_frame_flag in H
    | H : push_and_copy_args _ _ _ _ _ = Some _ |- _ => apply push_and_copy_args_flag in H
    | H : read_local_symtab _ _ _ = Some _ |- _ => apply read_local_symtab_flag in H
    | H : closure_upvals _ _ _ _ _ _ _ _ = Some _ |- _ => apply closure_upvals_flag in H
    | H : makestring_nocopy _ _ = (_, _) |- _ => apply makestring_flag in H
    | H : typeof_value _ _ = (_, _) |- _ => apply makestring_flag in H
    | H : makearray _ = (_, _) |- _ => apply makearray_flag in H
    | H : spn_func_new_closure _ _ = (_, _, _) |- _ => apply new_closure_flag in H
    end;
  cbn [quiet]; try (intros _); subst;
  repeat (rewrite ?retain_flag, ?release_flag in * );
  congruence.

Section FlagSteps.

Context (bc : list Z) (natives : nat → NativeFn) {lib : ObjectLibrary}.

Lemma ins_call_flag vm ins ip o :
haserror vm = false → ins_call bc natives vm ins ip = Some o → quiet o.
Proof.
unfold ins_call, call_native, call_script. intros Hflag H. flag_inv.
all: try (flag_facts; fail).
cbn [quiet]. intros ->. discriminate.
Qed.

Lemma ins_ret_flag vm ins rv o :
haserror vm = false → ins_ret vm ins rv = Some o → quiet o.
Proof. unfold ins_ret. intros Hflag H. flag_inv; flag_facts. Qed.

Lemma ins_jump_if_flag vm op ins ip o :
haserror vm = false → ins_jump_if bc vm op ins ip = Some o → quiet o.
Proof. unfold ins_jump_if. intros Hflag H. flag_inv; flag_facts. Qed.

Lemma ins_equal_flag vm op ins ip o :
haserror vm = false → ins_equal vm op ins ip = Some o → quiet o.
Proof. unfold ins_equal. intros Hflag H. flag_inv; flag_facts. Qed.

Lemma ins_compare_flag vm op ins ip o :
haserror vm = false → ins_compare vm op ins ip = Some o → quiet o.
Proof. unfold ins_compare. intros Hflag H. flag_inv; flag_facts. Qed.

Lemma ins_arith_flag vm op ins ip o :
haserror vm = false → ins_arith vm op ins ip = Some o → quiet o.
Proof. unfold ins_arith. intros Hflag H. flag_inv; flag_facts. Qed.

Lemma ins_mod_flag vm ins ip o :
haserror vm = false → ins_mod vm ins ip = Some o → quiet o.
Proof. unfold ins_mod. intros Hflag H. flag_inv; flag_facts. Qed.

Lemma ins_neg_flag vm ins ip o :
haserror vm = false → ins_neg vm ins ip = Some o → quiet o.
Proof. unfold ins_neg. intros Hflag H. flag_inv; flag_facts. Qed.

Lemma ins_incdec_flag vm op ins ip o :
haserror vm = false → ins_incdec vm op ins ip = Some o → quiet o.
Proof. unfold ins_incdec. intros Hflag H. flag_inv; flag_facts. Qed.

Lemma ins_bitwise_flag vm op ins ip o :
haserror vm = false → ins_bitwise vm op ins ip = Some o → quiet o.
Proof. unfold ins_bitwise. intros Hflag H. flag_inv; flag_facts. Qed.

Lemma ins_bitnot_flag vm ins ip o :
haserror vm = false → ins_bitnot vm ins ip = Some o → quiet o.
Proof. unfold ins_bitnot. intros Hflag H. flag_inv; flag_facts. Qed.

Lemma ins_lognot_flag vm ins ip o :
haserror vm = false → ins_lognot vm ins ip = Some o → quiet o.
Proof. unfold ins_lognot. intros Hflag H. flag_inv; flag_facts. Qed.

Lemma ins_sizeof_flag vm ins ip o :
haserror vm = false → ins_sizeof vm ins ip = Some o → quiet o.
Proof. unfold ins_sizeof. intros Hflag H. flag_inv; flag_facts. Qed.

Lemma ins_typeof_flag vm ins ip o :
haserror vm = false → ins_typeof vm ins ip = Some o → quiet o.
Proof. unfold ins_typeof. intros Hflag H. flag_inv; flag_facts. Qed.

Lemma ins_concat_flag vm ins ip o :
haserror vm = false → ins_concat vm ins ip = Some o → quiet o.
Proof. unfold ins_concat. intros Hflag H. flag_inv; flag_facts. Qed.

Lemma ins_ldconst_flag vm ins ip o :
haserror vm = false → ins_ldconst bc vm ins ip = Some o → quiet o.
Proof. unfold ins_ldconst. intros Hflag H. flag_inv; flag_facts. Qed.

Lemma ins_ldsym_flag vm ins ip o :
haserror vm = false → ins_ldsym vm ins ip = Some o → quiet o.
Proof.
unfold ins_ldsym. intros Hflag H. flag_inv.
all: try (flag_facts; fail).
all: try (cbn [quiet]; intros Hc; discriminate Hc).
match goal with
| E : resolve_symbol _ _ _ = Some (?e, _, _), N : negb (?e =? 0) = false |- _ =>
    apply negb_false_iff, Z.eqb_eq in N; apply resolve_symbol_flag in E; [subst|exact N]
end.
flag_facts.
Qed.

Lemma ins_mov_flag vm ins ip o :
haserror vm = false → ins_mov vm ins ip = Some o → quiet o.
Proof. unfold ins_mov. intros Hflag H. flag_inv; flag_facts. Qed.

Lemma ins_ldargc_flag vm ins ip o :
haserror vm = false → ins_ldargc vm ins ip = Some o → quiet o.
Proof. unfold ins_ldargc. intros Hflag H. flag_inv; flag_facts. Qed.

Lemma ins_newarr_flag vm ins ip o :
haserror vm = false → ins_newarr vm ins ip = Some o → quiet o.
Proof. unfold ins_newarr. intros Hflag H. flag_inv; flag_facts. Qed.

Lemma ins_arrget_flag vm ins ip o :
haserror vm = false → ins_arrget vm ins ip = Some o → quiet o.
Proof. unfold ins_arrget. intros Hflag H. flag_inv; flag_facts. Qed.

Lemma ins_arrset_flag vm ins ip o :
library_keeps_flag lib →
haserror vm = false → ins_arrset vm ins ip = Some o → quiet o.
Proof.
unfold ins_arrset. intros Hlib Hflag H. flag_inv.
all: try (flag_facts; fail).
all: cbn [quiet]; rewrite Hlib; exact Hflag.
Qed.

Lemma ins_ntharg_flag vm ins ip o :
haserror vm = false → ins_ntharg vm ins ip = Some o → quiet o.
Proof. unfold ins_ntharg. intros Hflag H. flag_inv; flag_facts. Qed.

Lemma ins_function_flag vm ip o :
haserror vm = false → ins_function bc vm ip = Some o → quiet o.
Proof. unfold ins_function. intros Hflag H. flag_inv; flag_facts. Qed.

Lemma ins_glbval_flag vm ins ip o :
haserror vm = false → ins_glbval bc vm ins ip = Some o → quiet o.
Proof. unfold ins_glbval. intros Hflag H. flag_inv; flag_facts. Qed.

Lemma ins_closure_flag vm ins ip o :
haserror vm = false → ins_closure bc vm ins ip = Some o → quiet o.
Proof. unfold ins_closure. intros Hflag H. flag_inv; flag_facts. Qed.

Lemma ins_ldupval_flag vm ins ip o :
haserror vm = false → ins_ldupval vm ins ip = Some o → quiet o.
Proof. unfold ins_ldupval. intros Hflag H. flag_inv; flag_facts. Qed.

(** An iteration of the dispatcher that starts with the flag clear and
  raises no error leaves it clear. *)
Lemma dispatch_step_flag vm ip rv o :
library_keeps_flag lib →
haserror vm = false → dispatch_step bc natives vm ip rv = Some o → quiet o.
Proof.
unfold dispatch_step. intros Hlib Hflag H.
destruct (fetch bc ip) as [ins|]; [|discriminate].
cbv beta iota zeta delta [mbind option_bind] in H.
destruct (decode_opcode (OPCODE ins)) as [[]|].
all: first
       [ exact (ins_call_flag _ _ _ _ Hflag H)
       | exact (ins_ret_flag _ _ _ _ Hflag H)
       | exact (ins_jump_if_flag _ _ _ _ _ Hflag H)
       | exact (ins_equal_flag _ _ _ _ _ Hflag H)
       | exact (ins_compare_flag _ _ _ _ _ Hflag H)
       | exact (ins_arith_flag _ _ _ _ _ Hflag H)
       | exact (ins_mod_flag _ _ _ _ Hflag H)
       | exact (ins_neg_flag _ _ _ _ Hflag H)
       | exact (ins_incdec_flag _ _ _ _ _ Hflag H)
       | exact (ins_bitwise_flag _ _ _ _ _ Hflag H)
       | exact (ins_bitnot_flag _ _ _ _ Hflag H)
       | exact (ins_lognot_flag _ _ _ _ Hflag H)
       | exact (ins_sizeof_flag _ _ _ _ Hflag H)
       | exact (ins_typeof_flag _ _ _ _ Hflag H)
       | exact (ins_concat_flag _ _ _ _ Hflag H)
       | exact (ins_ldconst_flag _ _ _ _ Hflag H)
       | exact (ins_ldsym_flag _ _ _ _ Hflag H)
       | exact (ins_mov_flag _ _ _ _ Hflag H)
       | exact (ins_ldargc_flag _ _ _ _ Hflag H)
       | exact (ins_newarr_flag _ _ _ _ Hflag H)
       | exact (ins_arrget_flag _ _ _ _ Hflag H)
       | exact (ins_arrset_flag _ _ _ _ Hlib Hflag H)
       | exact (ins_ntharg_flag _ _ _ _ Hflag H)
       | exact (ins_function_flag _ _ _ Hflag H)
       | exact (ins_glbval_flag _ _ _ _ Hflag H)
       | exact (ins_closure_flag _ _ _ _ Hflag H)
       | exact (ins_ldupval_flag _ _ _ _ Hflag H)
       | idtac ].
- flag_inv; flag_facts.
- flag_inv.
Qed.

End FlagSteps.

Section Protocol.

Context (bc : list Z) (natives : nat → NativeFn) {lib : ObjectLibrary}.

Lemma dispatch_step_exit (vm : SpnVMachine) (ip : Z) (rv : bool) (code : Z)
    (vm' : SpnVMachine) (out : option SpnValue) :
  dispatch_step bc natives vm ip rv = Some (Exit code vm' out) → code ≠ 0 →
  vm_error vm ip code vm' out ∨ native_error natives vm code vm' out.
Proof.
  unfold dispatch_step. intros H Hcode.
  destruct (fetch bc ip) as [ins|]; [|discriminate].
  cbv beta iota delta [mbind option_bind] in H.
  destruct (decode_opcode (OPCODE ins)) as [[]|].
  all: try (left;
            first
          [ exact (ins_jump_if_exit bc _ _ _ _ _ _ _ H)
          | exact (ins_equal_exit _ _ _ _ _ _ _ H)
          | exact (ins_compare_exit _ _ _ _ _ _ _ H)
          | exact (ins_arith_exit _ _ _ _ _ _ _ H)
          | exact (ins_mod_exit _ _ _ _ _ _ H)
          | exact (ins_neg_exit _ _ _ _ _ _ H)
          | exact (ins_incdec_exit _ _ _ _ _ _ _ H)
          | exact (ins_bitwise_exit _ _ _ _ _ _ _ H)
          | exact (ins_bitnot_exit _ _ _ _ _ _ H)
          | exact (ins_lognot_exit _ _ _ _ _ _ H)
          | exact (ins_sizeof_exit _ _ _ _ _ _ H)
          | exact (ins_typeof_exit _ _ _ _ _ _ H)
          | exact (ins_concat_exit _ _ _ _ _ _ H)
          | exact (ins_ldconst_exit bc _ _ _ _ _ _ H)
          | exact (ins_ldsym_exit _ _ _ _ _ _ H)
          | exact (ins_mov_exit _ _ _ _ _ _ H)
          | exact (ins_ldargc_exit _ _ _ _ _ _ H)
          | exact (ins_newarr_exit _ _ _ _ _ _ H)
          | exact (ins_arrget_exit _ _ _ _ _ _ H)
          | exact (ins_arrset_exit _ _ _ _ _ _ H)
          | exact (ins_ntharg_exit _ _ _ _ _ _ H)
          | exact (ins_function_exit bc _ _ _ _ _ H)
          | exact (ins_glbval_exit bc _ _ _ _ _ _ H)
          | exact (ins_closure_exit bc _ _ _ _ _ _ H)
          | exact (ins_ldupval_exit _ _ _ _ _ _ H) ]; fail).
  - exact (ins_call_exit bc natives _ _ _ _ _ _ H).
  - apply ins_ret_exit in H. contradiction.
  - destruct (fetch bc (ip + 1)); [|discriminate].
    cbv beta iota delta [mbind option_bind] in H. discriminate.
  - left. apply (raise_vm_error _ _ _ _ _ _ _ _ H). lia.
Qed.

(** A run of the dispatcher that starts with the flag clear returns a
  nonzero status exactly when it leaves the flag set. *)
Lemma dispatch_loop_flag (fuel : nat) : ∀ vm ip rv code vm' out,
library_keeps_flag lib → haserror vm = false →
dispatch_loop bc natives fuel vm ip rv = Some (code, vm', out) →
(haserror vm' = true ↔ code ≠ 0) ∧ (code ≠ 0 → out = None).
Proof.
induction fuel as [|fuel IH]; intros vm ip rv code vm' out Hlib Hflag; [discriminate|].
cbn [dispatch_loop].
destruct (dispatch_step bc natives vm ip rv) as [[ip1 vm1|c vm1 o1]|] eqn:Hstep;
  [| |discriminate]; cbv beta iota delta [mbind option_bind].
- apply IH; [exact Hlib|]. exact (dispatch_step_flag _ _ _ _ _ _ Hlib Hflag Hstep).
- intros [= -> -> ->].
  pose proof (dispatch_step_flag _ _ _ _ _ _ Hlib Hflag Hstep) as Hq. cbn [quiet] in Hq.
  destruct (decide (code = 0)) as [->|Hcode].
  + rewrite (Hq eq_refl). split; [split; [discriminate|intros Hc; contradiction]|].
    intros Hc. contradiction.
  + destruct (dispatch_step_exit vm ip rv code vm' out Hstep Hcode)
      as [(_ & -> & fmt & args & Herr)|(-> & ? & ? & ? & ? & ? & ? & ? & ? &
                                         _ & _ & _ & _ & _ & Hmsg)].
    * destruct (runtime_error_inv _ _ _ _ _ Herr) as (Hh & _). tauto.
    * destruct (runtime_error_inv _ _ _ _ _ Hmsg) as (Hh & _). tauto.
Qed.

(** C3: runtime_error records the message, prefixed with the address of the
  instruction (its offset from the start of the bytecode of the program
  that owns the running function, as an unsigned long) or with "runtime
  error in native code: " when there is no instruction pointer, and sets
  the flag, without touching the stack or the heap; while the flag is set
  it changes nothing, so the first message stays.  An iteration of the
  dispatcher that raises an error (it starts with the flag clear and
  leaves it set) returns a nonzero status, which ends the run of the
  dispatcher with that status, and pops no frame: either runtime_error
  was called for the address of the instruction and -1 is returned with
  stack, stack pointer and heap as they were, or a native callee failed
  and its pseudo-frame is left where the callee left the stack pointer.
  A whole run that starts with the flag clear returns a nonzero status
  exactly when it leaves the flag set.  The frames are released and the
  flag is cleared by clean_vm_if_needed at the start of the next call of
  spn_vm_callfunc, which then runs on the unwound machine: called on a
  value that is not a function, for one, it returns -1 and records its own
  message in place of the old one. *)
Theorem runtime_error_protocol :
(∀ vm fmt args,
   haserror vm = false →
   (∃ vm', runtime_error vm None fmt args = Some vm' ∧
      errmsg vm' = Some ("runtime error in native code: " +:+
                         spn_string_format_cstr fmt args) ∧
      haserror vm' = true ∧
      stack vm' = stack vm ∧ sp vm' = sp vm ∧ objs vm' = objs vm) ∧
   (∀ i s h f e,
      sp vm = Some s → frmhdr vm s = Some h →
      func_at vm (callee h) = Some f → func_at vm (env f) = Some e →
      ∃ vm', runtime_error vm (Some i) fmt args = Some vm' ∧
        errmsg vm' = Some (error_at ((i - repr_bc e) mod 2 ^ 64)
                             (spn_string_format_cstr fmt args)) ∧
        haserror vm' = true ∧
        stack vm' = stack vm ∧ sp vm' = sp vm ∧ objs vm' = objs vm)) ∧
(∀ vm ip fmt args, haserror vm = true → runtime_error vm ip fmt args = Some vm) ∧
(∀ vm ip rv o,
   library_keeps_flag lib → haserror vm = false →
   dispatch_step bc natives vm ip rv = Some o →
   haserror (outcome_vm o) = true →
   ∃ code vm', o = Exit code vm' None ∧ code ≠ 0 ∧
     (∀ fuel, dispatch_loop bc natives (S fuel) vm ip rv = Some (code, vm', None)) ∧
     ((code = -1 ∧
       (∃ s h f e text,
          sp vm = Some s ∧ frmhdr vm s = Some h ∧
          func_at vm (callee h) = Some f ∧ func_at vm (env f) = Some e ∧
          errmsg vm' = Some (error_at ((ip - repr_bc e) mod 2 ^ 64) text)) ∧
       stack vm' = stack vm ∧ sp vm' = sp vm ∧ objs vm' = objs vm) ∨
      (∃ fa fnobj argv vm1 tmpret vm2,
         push_native_pseudoframe vm fa = Some vm1 ∧
         natives (repr_fn fnobj) argv vm1 = (code, tmpret, vm2) ∧
         sp vm' = sp vm2 ∧ length (stack vm') = length (stack vm2)))) ∧
(∀ vm ip rv code vm' out,
   dispatch_step bc natives vm ip rv = Some (Exit code vm' out) → code ≠ 0 →
   haserror vm' = true ∧ out = None ∧
   ((code = -1 ∧
     (∃ fmt args, runtime_error vm (Some ip) fmt args = Some vm') ∧
     stack vm' = stack vm ∧ sp vm' = sp vm ∧ objs vm' = objs vm) ∨
    (∃ fa fnobj argv vm1 tmpret vm2,
       push_native_pseudoframe vm fa = Some vm1 ∧
       natives (repr_fn fnobj) argv vm1 = (code, tmpret, vm2) ∧
       sp vm' = sp vm2 ∧ length (stack vm') = length (stack vm2)))) ∧
(∀ fuel vm ip rv code vm' out,
   library_keeps_flag lib → haserror vm = false →
   dispatch_loop bc natives fuel vm ip rv = Some (code, vm', out) →
   (haserror vm' = true ↔ code ≠ 0) ∧ (code ≠ 0 → out = None)) ∧
(∀ fuel vm s fs,
   haserror vm = true → sp vm = Some s → frames_hold vm s fs →
   (length fs <= fuel)%nat →
   clean_vm_if_needed fuel vm =
     Some (set_haserror false
             (set_sp (Some 0) (set_objs (release_frames fs (objs vm)) vm)))) ∧
(∀ fuel vm, haserror vm = false → clean_vm_if_needed fuel vm = Some vm) ∧
(∀ fuel vm s fs fn rv argc argv,
   haserror vm = true → sp vm = Some s → frames_hold vm s fs →
   (length fs <= fuel)%nat →
   let vm0 := set_haserror false
                (set_sp (Some 0) (set_objs (release_frames fs (objs vm)) vm)) in
   spn_vm_callfunc bc natives fuel vm fn rv argc argv =
     spn_vm_callfunc bc natives fuel vm0 fn rv argc argv ∧
   (isfunc fn = false →
      spn_vm_callfunc bc natives fuel vm fn rv argc argv =
        Some (-1,
              set_haserror true
                (set_errmsg
                   (Some "runtime error in native code: attempt to call non-function value")
                   vm0),
              None))).
Proof.
assert (Hexit : ∀ vm ip rv code vm' out,
   dispatch_step bc natives vm ip rv = Some (Exit code vm' out) → code ≠ 0 →
   haserror vm' = true ∧ out = None ∧
   ((code = -1 ∧
     (∃ fmt args, runtime_error vm (Some ip) fmt args = Some vm') ∧
     stack vm' = stack vm ∧ sp vm' = sp vm ∧ objs vm' = objs vm) ∨
    (∃ fa fnobj argv vm1 tmpret vm2,
       push_native_pseudoframe vm fa = Some vm1 ∧
       natives (repr_fn fnobj) argv vm1 = (code, tmpret, vm2) ∧
       sp vm' = sp vm2 ∧ length (stack vm') = length (stack vm2)))).
{ intros vm ip rv code vm' out Hstep Hcode.
  destruct (dispatch_step_exit vm ip rv code vm' out Hstep Hcode)
    as [(-> & -> & fmt & args & Herr)
       |(-> & fa & fnobj & argv & vm1 & tmpret & vm2 & retidx & vm3 &
         Hfn & Hnat & Hpush & Hcall & Hrep & Hmsg)].
  + destruct (runtime_error_inv _ _ _ _ _ Herr) as (Hh & Hst & Hsp & _ & Ho & _).
    split; [exact Hh|]. split; [reflexivity|]. left.
    split; [reflexivity|]. split; [eauto|]. repeat split; assumption.
  + unfold spn_vm_seterrmsg in Hmsg.
    destruct (runtime_error_inv _ _ _ _ _ Hmsg) as (Hh & Hst & Hsp & _ & _ & _).
    split; [exact Hh|]. split; [reflexivity|]. right.
    exists fa, fnobj, argv, vm1, tmpret, vm2.
    split; [exact Hpush|]. split; [exact Hcall|].
    unfold replace_at in Hrep.
    destruct (val_at vm2 retidx) as [old|]; [|discriminate].
    cbv beta iota delta [mbind option_bind] in Hrep.
    destruct (slot_set_fields _ _ _ _ Hrep) as (Hl & Hsp3 & _).
    destruct (release_fields old vm2) as (Est & Esp & _).
    split; [rewrite Hsp, Hsp3, Esp; reflexivity|].
    rewrite Hst, Hl, Est. reflexivity. }
assert (Hclean : ∀ fuel vm s fs,
   haserror vm = true → sp vm = Some s → frames_hold vm s fs →
   (length fs <= fuel)%nat →
   clean_vm_if_needed fuel vm =
     Some (set_haserror false
             (set_sp (Some 0) (set_objs (release_frames fs (objs vm)) vm)))).
{ intros fuel vm s fs Herr Hsp Hhold Hfuel.
  unfold clean_vm_if_needed, free_frames. rewrite Herr, Hsp.
  rewrite (pop_all_spec fs vm s fuel Hhold Hsp Hfuel). reflexivity. }
split; [|split; [|split; [|split; [|split; [|split; [|split]]]]]].
- intros vm fmt args Hflag. split.
  + eexists. split.
    * unfold runtime_error. rewrite Hflag.
      cbv beta iota delta [mbind option_bind error_prefix]. reflexivity.
    * repeat split.
  + intros i s h f e Hsp Hh Hf He. eexists. split.
    * unfold runtime_error. rewrite Hflag. unfold error_prefix, prog_addr.
      rewrite Hsp. cbv beta iota delta [mbind option_bind].
      rewrite Hh, Hf, He. reflexivity.
    * split; [|repeat split]. cbn [errmsg set_haserror set_errmsg].
      unfold error_at. rewrite address_prefix. reflexivity.
- intros vm ip fmt args Hflag. unfold runtime_error. rewrite Hflag. reflexivity.
- intros vm ip rv o Hlib Hflag Hstep Hset.
  pose proof (dispatch_step_flag _ _ _ _ _ _ Hlib Hflag Hstep) as Hq.
  destruct o as [ip1 vm1|code vm' out]; cbn [quiet outcome_vm] in Hq, Hset.
  { rewrite Hq in Hset. discriminate. }
  assert (Hcode : code ≠ 0).
  { intros ->. rewrite (Hq eq_refl) in Hset. discriminate. }
  destruct (Hexit _ _ _ _ _ _ Hstep Hcode) as (_ & -> & Hkind).
  exists code, vm'. split; [reflexivity|]. split; [exact Hcode|]. split.
  { intros fuel. cbn [dispatch_loop]. rewrite Hstep. reflexivity. }
  destruct Hkind as [(-> & (fmt & args & Herr) & Hst & Hsp & Ho)|Hnative];
    [left|right; exact Hnative].
  split; [reflexivity|]. split; [|repeat split; assumption].
  unfold runtime_error in Herr. rewrite Hflag in Herr.
  unfold error_prefix, prog_addr in Herr.
  destruct (sp vm) as [s|] eqn:Es; [|discriminate].
  cbv beta iota delta [mbind option_bind] in Herr.
  destruct (frmhdr vm s) as [h|] eqn:Eh; [|discriminate].
  destruct (func_at vm (callee h)) as [f|] eqn:Ef; [|discriminate].
  destruct (func_at vm (env f)) as [e|] eqn:Ee; [|discriminate].
  injection Herr as <-.
  exists s, h, f, e, (spn_string_format_cstr fmt args).
  split; [reflexivity|]. split; [exact Eh|]. split; [exact Ef|]. split; [exact Ee|].
  cbn [errmsg set_haserror set_errmsg].
  unfold error_at. rewrite address_prefix. reflexivity.
- exact Hexit.
- intros fuel vm ip rv code vm' out. apply dispatch_loop_flag.
- exact Hclean.
- intros fuel vm Hok. unfold clean_vm_if_needed. rewrite Hok. reflexivity.
- intros fuel vm s fs fn rv argc argv Herr Hsp Hhold Hfuel vm0.
  assert (Hrun : ∀ fn', spn_vm_callfunc bc natives fuel vm fn' rv argc argv =
                        spn_vm_callfunc bc natives fuel vm0 fn' rv argc argv).
  { intros fn'. unfold spn_vm_callfunc.
    rewrite (Hclean fuel vm s fs Herr Hsp Hhold Hfuel). fold vm0.
    unfold clean_vm_if_needed.
    change (haserror vm0) with false. reflexivity. }
  split; [apply Hrun|].
  intros Hfn. rewrite Hrun. unfold spn_vm_callfunc, clean_vm_if_needed.
  change (haserror vm0) with false. cbv beta iota delta [mbind option_bind].
  destruct fn; try discriminate; reflexivity.
Qed.

End Protocol.

Lemma runtime_error_protocol_witness :
  ∃ vm1 vm2,
    spn_vm_callfunc err_bc ex_natives (lib := ex_lib) 3 err_vm (VFunc 1%positive) true 2
      [VString 3%positive; VInt 1] = Some (-1, vm1, None) ∧
    errmsg vm1 = Some "runtime error at address 0x00000004: arithmetic on non-numbers" ∧
    haserror vm1 = true ∧ sp vm1 = Some 4 ∧ refcount vm1 3%positive = 2 ∧
    spn_vm_callfunc err_bc ex_natives (lib := ex_lib) 3 vm1 (VFunc 1%positive) true 2
      [VInt 1; VInt 2] = Some (0, vm2, Some (VInt 3)) ∧
    haserror vm2 = false ∧ sp vm2 = Some 0 ∧ refcount vm2 3%positive = 1.
Proof.
  pose proof (runtime_error_protocol err_bc ex_natives (lib := ex_lib))
    as (_ & _ & Hraise & _ & _ & _ & _ & Hnext).
  destruct (Hraise err_frame 5 true
              (Exit (-1)
                 (with_error "runtime error at address 0x00000004: arithmetic on non-numbers"
                    err_frame) None))
    as (code & vm1 & Ho & Hcode & Hloop & _).
  { intros vm o k v. reflexivity. }
  { reflexivity. }
  { reflexivity. }
  { reflexivity. }
  injection Ho as <- <-.
  destruct (Hnext 3%nat
              (with_error "runtime error at address 0x00000004: arithmetic on non-numbers"
                 err_frame)
              4 [(mkFrame 4 2 0 2 None (-1) 1%positive,
                  [VNil; VInt 1; VString 3%positive])]
              (VFunc 1%positive) true 2 [VInt 1; VInt 2])
    as (Hcall & _).
  { reflexivity. }
  { reflexivity. }
  { econstructor; [reflexivity|simpl; lia|reflexivity|constructor]. }
  { simpl. lia. }
  eexists _, _. split.
  { unfold spn_vm_callfunc.
    change (clean_vm_if_needed 3 err_vm) with (Some err_vm).
    cbv beta iota delta [mbind option_bind].
    change (func_at err_vm 1%positive) with (Some err_fn).
    cbv beta iota delta [mbind option_bind]. cbn [native err_fn topprg].
    change (push_and_copy_args err_bc err_vm (VFunc 1%positive)
              (native_env [VString 3%positive; VInt 1]) 2) with (Some err_frame).
    cbv beta iota delta [mbind option_bind].
    exact (Hloop 2%nat). }
  split; [reflexivity|]. split; [reflexivity|]. split; [reflexivity|].
  split; [reflexivity|].
  split.
  { rewrite Hcall. vm_compute. reflexivity. }
  split; [reflexivity|]. split; reflexivity.
Defined.

Lemma stacktrace_innermost_first_witness :
  spn_vm_stacktrace 2 trace_vm = Some (2, Some ["nat"; "f"]) ∧
  length ["nat"; "f"] = 2%nat.
Proof.
  refine (proj2 (stacktrace_innermost_first trace_vm) 5
            [mkFrame 1 0 0 0 None (-1) 6%positive; mkFrame 4 2 0 0 None (-1) 1%positive]
            ["nat"; "f"] 2%nat _ _ _ _).
  - reflexivity.
  - econstructor; [reflexivity|simpl; lia|].
    econstructor; [reflexivity|simpl; lia|]. constructor.
  - reflexivity.
  - simpl. lia.
Defined.

(** * Further properties of the engine *)

(** ** Frames: pushing, popping, tearing down *)

Lemma slot_values_nil vm n : ∀ from,
  (∀ i, from <= i < from + Z.of_nat n → val_at vm i = Some VNil) →
  slot_values vm n from = Some (replicate n VNil).
Proof.
  induction n as [|n IH]; intros from H; simpl; [reflexivity|].
  rewrite H by lia. simpl. rewrite IH by (intros i Hi; apply H; lia). reflexivity.
Qed.

Lemma release_all_nil n h : release_all (replicate n VNil) h = h.
Proof. induction n as [|n IH]; simpl; [reflexivity|exact IH]. Qed.

Lemma val_at_stack vm i : 0 <= i →
  val_at vm i = match stack vm !! Z.to_nat i with Some (SlotV v) => Some v | _ => None end.
Proof. intros H. unfold val_at. rewrite slot_get_stack by assumption. reflexivity. Qed.

Lemma refcount_objs vm o : refcount vm o = refcount_in (objs vm) o.
Proof. reflexivity. Qed.

Lemma refcount_in_bump d o' h o :
  is_Some (h !! o) →
  refcount_in (alter (bump d) o' h) o = refcount_in h o + (if bool_decide (o' = o) then d else 0).
Proof.
  intros [c Hc]. unfold refcount_in. destruct (decide (o' = o)) as [->|Hne].
  - rewrite lookup_alter_eq, Hc. simpl. rewrite bool_decide_eq_true_2 by reflexivity.
    reflexivity.
  - rewrite lookup_alter_ne by assumption. rewrite Hc.
    rewrite bool_decide_eq_false_2 by assumption. lia.
Qed.

Lemma is_Some_bump d o' (h : gmap positive Cell) o :
  is_Some (alter (bump d) o' h !! o) ↔ is_Some (h !! o).
Proof.
  destruct (decide (o' = o)) as [->|Hne].
  - rewrite lookup_alter_eq. rewrite fmap_is_Some. reflexivity.
  - rewrite lookup_alter_ne by assumption. reflexivity.
Qed.

Lemma is_Some_release_in v (h : gmap positive Cell) o :
  is_Some (release_in v h !! o) ↔ is_Some (h !! o).
Proof. unfold release_in. destruct (objptr v); [apply is_Some_bump|reflexivity]. Qed.

Lemma is_Some_retain_in v (h : gmap positive Cell) o :
  is_Some (retain_in v h !! o) ↔ is_Some (h !! o).
Proof. unfold retain_in. destruct (objptr v); [apply is_Some_bump|reflexivity]. Qed.

Lemma refcount_in_release v h o :
  is_Some (h !! o) →
  refcount_in (release_in v h) o =
    refcount_in h o - (if bool_decide (objptr v = Some o) then 1 else 0).
Proof.
  intros Ho. unfold release_in. destruct (objptr v) as [o'|].
  - rewrite refcount_in_bump by assumption.
    destruct (decide (o' = o)) as [->|Hne].
    + rewrite !bool_decide_eq_true_2 by reflexivity. lia.
    + rewrite !bool_decide_eq_false_2 by congruence. lia.
  - rewrite bool_decide_eq_false_2 by discriminate. lia.
Qed.

Lemma refcount_in_retain v h o :
  is_Some (h !! o) →
  refcount_in (retain_in v h) o =
    refcount_in h o + (if bool_decide (objptr v = Some o) then 1 else 0).
Proof.
  intros Ho. unfold retain_in. destruct (objptr v) as [o'|].
  - rewrite refcount_in_bump by assumption.
    destruct (decide (o' = o)) as [->|Hne].
    + rewrite !bool_decide_eq_true_2 by reflexivity. lia.
    + rewrite !bool_decide_eq_false_2 by congruence. lia.
  - rewrite bool_decide_eq_false_2 by discriminate. lia.
Qed.

Lemma is_Some_release_all vals : ∀ (h : gmap positive Cell) o,
  is_Some (release_all vals h !! o) ↔ is_Some (h !! o).
Proof.
  induction vals as [|v vals IH]; intros h o; [reflexivity|].
  change (release_all (v :: vals) h) with (release_all vals (release_in v h)).
  rewrite IH. apply is_Some_release_in.
Qed.

Lemma refcount_in_release_all vals : ∀ h o,
  is_Some (h !! o) →
  refcount_in (release_all vals h) o = refcount_in h o - references o vals.
Proof.
  induction vals as [|v vals IH]; intros h o Ho; [simpl; lia|].
  change (release_all (v :: vals) h) with (release_all vals (release_in v h)).
  rewrite IH by (apply is_Some_release_in; exact Ho).
  rewrite refcount_in_release by assumption. simpl. lia.
Qed.

Lemma obj_at_release_all vals : ∀ h o, obj_at (release_all vals h) o = obj_at h o.
Proof.
  induction vals as [|v vals IH]; intros h o; [reflexivity|].
  change (release_all (v :: vals) h) with (release_all vals (release_in v h)).
  rewrite IH. apply obj_at_release_in.
Qed.

(** X1: on a well-formed machine push_frame yields a frame whose header
    holds the arguments of the call and the size [nregs + extra_argc + 1],
    whose [nregs + extra_argc] registers all hold nil and are the only
    registers the frame admits; the slots in use before, the heap and the
    other members of the machine are left as they were. *)
Theorem push_frame_fresh_frame vm nregs da ea ra rad ri cal :
  stack_ok vm → 0 <= nregs → 0 <= ea →
  stacksize vm + (nregs + ea + EXTRA_SLOTS) <= 2 ^ 63 →
  let n := nregs + ea + EXTRA_SLOTS in
  let S := stacksize vm + n in
  ∃ vm', push_frame vm nregs da ea ra rad ri cal = Some vm' ∧
    sp vm' = Some S ∧
    frmhdr vm' S = Some (mkFrame n da ea ra rad ri cal) ∧
    (∀ r, 0 <= r < nregs + ea → reg_get vm' S r = Some VNil) ∧
    (∀ r, r < 0 ∨ nregs + ea <= r → SLOTPTR vm' S r = None) ∧
    (∀ i, 0 <= i < stacksize vm → slot_get vm' i = slot_get vm i) ∧
    same_rest vm vm' ∧ stack_ok vm'.
Proof.
  intros Hok Hnregs Hea Hreq n S.
  pose proof (stacksize_bounds vm Hok) as Hss.
  destruct (push_frame_spec vm nregs da ea ra rad ri cal Hok Hnregs Hea Hreq)
    as (vm' & Hpush & Hsp & Hok' & Hrest & Hlow & Hnil & Hhdr & _).
  fold n in Hsp, Hnil, Hhdr. fold S in Hsp.
  assert (Hn : n = nregs + ea + 1) by reflexivity.
  assert (Hh : frmhdr vm' S = Some (mkFrame n da ea ra rad ri cal)).
  { apply frmhdr_intro; [unfold S; lia|].
    replace (S - 1) with (stacksize vm + n - 1) by (unfold S; lia). exact Hhdr. }
  exists vm'. split; [exact Hpush|]. split; [exact Hsp|]. split; [exact Hh|].
  split.
  { intros r Hr. unfold reg_get.
    rewrite (SLOTPTR_hdr vm' S _ r Hh) by (simpl; lia). simpl.
    rewrite val_at_stack by (unfold S; lia).
    rewrite Hnil by (unfold S; lia). reflexivity. }
  split.
  { intros r Hr. unfold SLOTPTR. rewrite Hh. simpl. unfold EXTRA_SLOTS.
    destruct (Z.leb_spec 0 r); simpl; [|reflexivity].
    destruct (Z.ltb_spec r (n - 1)); [lia|reflexivity]. }
  split.
  { intros i Hi. rewrite !slot_get_stack by lia. apply Hlow. exact Hi. }
  split; assumption.
Qed.

Lemma push_frame_fresh_frame_witness :
  ∃ vm', push_frame ex_vm 2 1 1 2 None (-1) 1%positive = Some vm' ∧
    sp vm' = Some 4 ∧
    frmhdr vm' 4 = Some (mkFrame 4 1 1 2 None (-1) 1%positive) ∧
    reg_get vm' 4 0 = Some VNil ∧ reg_get vm' 4 2 = Some VNil ∧
    SLOTPTR vm' 4 3 = None.
Proof.
  destruct (push_frame_fresh_frame ex_vm 2 1 1 2 None (-1) 1%positive)
    as (vm' & Hpush & Hsp & Hh & Hnil & Hout & _).
  - split; reflexivity.
  - lia.
  - lia.
  - vm_compute. discriminate.
  - exists vm'. split; [exact Hpush|]. split; [exact Hsp|]. split; [exact Hh|].
    split; [apply Hnil; lia|]. split; [apply Hnil; lia|]. apply Hout. right. lia.
Defined.

(** X2: a frame pushed by push_frame and popped by pop_frame right away
    leaves the stack with the size it had, the heap untouched (the registers
    held nil, so nothing is released) and the slots in use before as they
    were; the storage is not given back: the capacity is the one the push
    left, which is not below the one before, and the stack pointer is no
    longer NULL. *)
Theorem push_pop_round_trip vm nregs da ea ra rad ri cal :
  stack_ok vm → 0 <= nregs → 0 <= ea →
  stacksize vm + (nregs + ea + EXTRA_SLOTS) <= 2 ^ 63 →
  ∃ vm1 vm2, push_frame vm nregs da ea ra rad ri cal = Some vm1 ∧
    pop_frame vm1 = Some vm2 ∧
    sp vm2 = Some (stacksize vm) ∧
    objs vm2 = objs vm ∧
    stack vm2 = stack vm1 ∧
    stackallsz vm2 = stackallsz vm1 ∧ stackallsz vm <= stackallsz vm2 ∧
    (∀ i, 0 <= i < stacksize vm → slot_get vm2 i = slot_get vm i) ∧
    same_rest vm vm2.
Proof.
  intros Hok Hnregs Hea Hreq.
  pose proof (stacksize_bounds vm Hok) as Hss.
  destruct (push_frame_spec vm nregs da ea ra rad ri cal Hok Hnregs Hea Hreq)
    as (vm1 & Hpush & Hsp & Hok1 & Hrest & Hlow & Hnil & Hhdr & Hgrow & Hfit).
  set (n := nregs + ea + EXTRA_SLOTS) in *.
  set (s0 := stacksize vm) in *.
  assert (Hn : n = nregs + ea + 1) by reflexivity.
  assert (Hh : frmhdr vm1 (s0 + n) = Some (mkFrame n da ea ra rad ri cal)).
  { apply frmhdr_intro; [lia|]. exact Hhdr. }
  assert (Hvals : frame_values vm1 (s0 + n) (mkFrame n da ea ra rad ri cal)
                  = Some (replicate (Z.to_nat (nregs + ea)) VNil)).
  { unfold frame_values. simpl. unfold EXTRA_SLOTS.
    replace (n - 1) with (nregs + ea) by lia.
    replace (s0 + n - n) with s0 by lia.
    apply slot_values_nil. intros i Hi.
    rewrite val_at_stack by lia. rewrite Hnil by lia. reflexivity. }
  exists vm1. eexists. split; [exact Hpush|].
  split; [exact (pop_frame_spec vm1 (s0 + n) _ _ Hsp Hh Hvals)|].
  simpl. rewrite release_all_nil.
  destruct Hrest as (Hg & He & Hhe & Hc & Ho).
  split; [f_equal; lia|]. split; [exact Ho|]. split; [reflexivity|].
  split; [reflexivity|]. split.
  { destruct (Z.lt_ge_cases (stackallsz vm) (s0 + n)) as [Hlt|Hge].
    - destruct (Hgrow Hlt) as (k & Hk & -> & _).
      destruct (Z.eqb_spec (stackallsz vm) 0) as [->|Hne]; [lia|].
      assert (0 < 2 ^ k) by (apply Z.pow_pos_nonneg; lia).
      destruct Hok as [_ Hs]. destruct (sp vm); nia.
    - destruct (Hfit Hge) as [-> _]. lia. }
  split.
  { intros i Hi. rewrite !slot_get_stack by lia. simpl. apply Hlow. exact Hi. }
  repeat split; assumption.
Qed.

Lemma push_pop_round_trip_witness :
  ∃ vm1 vm2, push_frame ex_vm 2 1 1 2 None (-1) 1%positive = Some vm1 ∧
    pop_frame vm1 = Some vm2 ∧
    sp ex_vm = None ∧ sp vm2 = Some 0 ∧ objs vm2 = objs ex_vm ∧
    stackallsz ex_vm = 0 ∧ stackallsz vm2 = 8.
Proof.
  destruct (push_pop_round_trip ex_vm 2 1 1 2 None (-1) 1%positive)
    as (vm1 & vm2 & Hpush & Hpop & Hsp & Ho & _ & Hall & _).
  - split; reflexivity.
  - lia.
  - lia.
  - vm_compute. discriminate.
  - exists vm1, vm2. split; [exact Hpush|]. split; [exact Hpop|].
    split; [reflexivity|]. split; [exact Hsp|]. split; [exact Ho|].
    split; [reflexivity|]. rewrite Hall.
    vm_compute in Hpush. injection Hpush as <-. reflexivity.
Defined.

(** X3: pop_frame lowers the stack pointer by the size recorded in the
    header and releases every register and variadic slot of the frame once:
    the reference count of an object falls by the number of slots of the
    frame that point to it.  No object is changed otherwise, and neither the
    slots nor the capacity of the stack are touched (the popped values stay
    in the storage). *)
Theorem pop_frame_releases_registers vm s h vals :
  sp vm = Some s → frmhdr vm s = Some h → frame_values vm s h = Some vals →
  ∃ vm', pop_frame vm = Some vm' ∧
    sp vm' = Some (s - frame_size h) ∧
    stack vm' = stack vm ∧ stackallsz vm' = stackallsz vm ∧
    same_rest_but_objs vm vm' ∧
    (∀ o, is_Some (objs vm !! o) → refcount vm' o = refcount vm o - references o vals) ∧
    (∀ o, obj_at (objs vm') o = obj_at (objs vm) o).
Proof.
  intros Hsp Hh Hv. eexists. split; [exact (pop_frame_spec vm s h vals Hsp Hh Hv)|].
  simpl. split; [reflexivity|]. split; [reflexivity|]. split; [reflexivity|].
  split; [repeat split|]. split.
  - intros o Ho. rewrite !refcount_objs. simpl. apply refcount_in_release_all. exact Ho.
  - intros o. apply obj_at_release_all.
Qed.

Lemma pop_frame_releases_registers_witness :
  ∃ vm', pop_frame ret_vm = Some vm' ∧
    sp vm' = Some 0 ∧ stack vm' = stack ret_vm ∧
    refcount ret_vm 3%positive = 2 ∧ refcount vm' 3%positive = 1 ∧
    refcount vm' 1%positive = 1.
Proof.
  destruct (pop_frame_releases_registers ret_vm 4
              (mkFrame 4 2 0 1 None (-1) 1%positive)
              [VNil; VNil; VString 3%positive] eq_refl eq_refl eq_refl)
    as (vm' & Hpop & Hsp & Hst & _ & _ & Hrc & _).
  exists vm'. split; [exact Hpop|]. split; [exact Hsp|]. split; [exact Hst|].
  split; [reflexivity|]. split.
  - rewrite (Hrc 3%positive) by (eexists; reflexivity). reflexivity.
  - rewrite (Hrc 1%positive) by (eexists; reflexivity). reflexivity.
Defined.

Lemma refcount_in_release_frames fs : ∀ h o,
  is_Some (h !! o) →
  refcount_in (release_frames fs h) o =
    refcount_in h o - references o (concat (map snd fs)).
Proof.
  induction fs as [|[hd vals] fs IH]; intros h o Ho; [simpl; lia|].
  change (release_frames ((hd, vals) :: fs) h) with (release_frames fs (release_all vals h)).
  rewrite IH by (apply is_Some_release_all; exact Ho).
  rewrite refcount_in_release_all by assumption. simpl.
  assert (Happ : ∀ l1 l2, references o (l1 ++ l2) = references o l1 + references o l2).
  { induction l1 as [|x l1 IH1]; intros l2; simpl; [lia|]. rewrite IH1. lia. }
  rewrite Happ. lia.
Qed.

Lemma is_Some_release_frames fs : ∀ (h : gmap positive Cell) o,
  is_Some (release_frames fs h !! o) ↔ is_Some (h !! o).
Proof.
  induction fs as [|[hd vals] fs IH]; intros h o; [reflexivity|].
  change (release_frames ((hd, vals) :: fs) h) with (release_frames fs (release_all vals h)).
  rewrite IH. apply is_Some_release_all.
Qed.

(** X4: spn_vm_free unwinds the whole stack and then releases the global
    symbol table: on a machine whose stack was never allocated only the
    table is released; otherwise every value held by a register or variadic
    slot of a live frame is released once, and the table once more. *)
Theorem spn_vm_free_releases vm :
  (sp vm = None →
     ∀ fuel, spn_vm_free fuel vm = Some (alter (bump (-1)) (glbsymtab vm) (objs vm))) ∧
  (∀ s fs fuel,
     sp vm = Some s → frames_hold vm s fs → (length fs <= fuel)%nat →
     ∃ h', spn_vm_free fuel vm = Some h' ∧
       h' = alter (bump (-1)) (glbsymtab vm) (release_frames fs (objs vm)) ∧
       ∀ o, is_Some (objs vm !! o) →
         refcount_in h' o =
           refcount vm o - references o (concat (map snd fs))
           - (if bool_decide (glbsymtab vm = o) then 1 else 0)).
Proof.
  split.
  - intros Hsp fuel. unfold spn_vm_free, free_frames. rewrite Hsp. reflexivity.
  - intros s fs fuel Hsp Hhold Hfuel. eexists. split.
    + unfold spn_vm_free, free_frames. rewrite Hsp.
      rewrite (pop_all_spec fs vm s fuel Hhold Hsp Hfuel). reflexivity.
    + simpl. split; [reflexivity|]. intros o Ho.
      rewrite refcount_in_bump by (apply is_Some_release_frames; exact Ho).
      rewrite refcount_in_release_frames by assumption.
      rewrite refcount_objs. destruct (bool_decide (glbsymtab vm = o)); lia.
Qed.

Lemma spn_vm_free_releases_witness :
  ∃ h', spn_vm_free 1 ret_vm = Some h' ∧
    refcount ret_vm 3%positive = 2 ∧ refcount_in h' 3%positive = 1 ∧
    refcount ret_vm 2%positive = 1 ∧ refcount_in h' 2%positive = 0.
Proof.
  destruct (proj2 (spn_vm_free_releases ret_vm) 4
              [(mkFrame 4 2 0 1 None (-1) 1%positive, [VNil; VNil; VString 3%positive])]
              1%nat eq_refl)
    as (h' & Hfree & _ & Hrc).
  - econstructor; [reflexivity|simpl; lia|reflexivity|constructor].
  - simpl. lia.
  - exists h'. split; [exact Hfree|]. split; [reflexivity|]. split.
    + rewrite (Hrc 3%positive) by (eexists; reflexivity). reflexivity.
    + split; [reflexivity|].
      rewrite (Hrc 2%positive) by (eexists; reflexivity). reflexivity.
Defined.

(** ** Calls from the host *)

Lemma clean_clears_flag fuel vm vm0 :
  clean_vm_if_needed fuel vm = Some vm0 → haserror vm0 = false.
Proof.
  unfold clean_vm_if_needed. destruct (haserror vm) eqn:He.
  - destruct (free_frames fuel vm); [|discriminate].
    cbv beta iota delta [mbind option_bind]. intros [= <-]. reflexivity.
  - intros [= <-]. exact He.
Qed.

Lemma clean_no_error fuel vm : haserror vm = false → clean_vm_if_needed fuel vm = Some vm.
Proof. intros He. unfold clean_vm_if_needed. rewrite He. reflexivity. Qed.

Lemma format_native_failure (name : string) (code : Z) :
  spn_string_format_cstr "error in function `%s' (code: %i)" [FStr name; FNum code] =
  "error in function `" +:+ name +:+ "' (code: " +:+ decimal code +:+ ")".
Proof.
  lazy -[String.append decimal]. reflexivity.
Qed.

Lemma callee_names_objs vm vm' fs :
  objs vm' = objs vm → callee_names vm' fs = callee_names vm fs.
Proof. intros Ho. unfold callee_names, func_at. rewrite Ho. reflexivity. Qed.

Lemma func_at_objs vm vm' o : objs vm' = objs vm → func_at vm' o = func_at vm o.
Proof. intros Ho. unfold func_at. rewrite Ho. reflexivity. Qed.

(** The pseudo-frame of a native function, pushed on a machine whose stack
    pointer may still be NULL. *)
Lemma pseudoframe_pushed vm fa :
  stack_ok vm → stacksize vm + 1 <= 2 ^ 63 →
  ∃ vm1, push_native_pseudoframe vm fa = Some vm1 ∧
    sp vm1 = Some (stacksize vm + 1) ∧
    frmhdr vm1 (stacksize vm + 1) = Some (mkFrame 1 0 0 0 None (-1) fa) ∧
    stack_ok vm1 ∧ same_rest vm vm1 ∧
    (∀ i, 0 <= i < stacksize vm → stack vm1 !! Z.to_nat i = stack vm !! Z.to_nat i).
Proof.
  intros Hok Hs.
  pose proof (stacksize_bounds vm Hok) as Hb.
  destruct (push_frame_spec vm 0 0 0 0 None (-1) fa Hok)
    as (vm1 & Hpush & Hsp1 & Hok1 & Hrest & Hlow & _ & Hhdr & _); try lia.
  { unfold EXTRA_SLOTS. lia. }
  unfold EXTRA_SLOTS in *.
  replace (stacksize vm + (0 + 0 + 1)) with (stacksize vm + 1) in * by lia.
  exists vm1. split; [exact Hpush|]. split; [exact Hsp1|]. split.
  { apply frmhdr_intro; [lia|]. exact Hhdr. }
  split; [exact Hok1|]. split; [exact Hrest|exact Hlow].
Qed.

Section HostCalls.

Context (bc : list Z) (natives : nat → NativeFn) {lib : ObjectLibrary}.

(** X5: spn_vm_callfunc on a value that is not a function returns -1 and
    records "attempt to call non-function value" as an error in native
    code; the message is always recorded, since the pending error, if any,
    was cleared before; no frame is pushed, nothing is retained or
    released, and nothing is stored through the out-pointer. *)
Theorem callfunc_non_function (fuel : nat) (vm vm0 : SpnVMachine) (fn : SpnValue)
    (rv : bool) (argc : Z) (argv : list SpnValue) :
  clean_vm_if_needed fuel vm = Some vm0 → isfunc fn = false →
  ∃ vm', spn_vm_callfunc bc natives fuel vm fn rv argc argv = Some (-1, vm', None) ∧
    haserror vm' = true ∧
    spn_vm_geterrmsg vm' =
      Some "runtime error in native code: attempt to call non-function value" ∧
    stack vm' = stack vm0 ∧ sp vm' = sp vm0 ∧ objs vm' = objs vm0.
Proof.
  intros Hclean Hfn.
  pose proof (clean_clears_flag _ _ _ Hclean) as Hflag.
  exists (with_error "runtime error in native code: attempt to call non-function value" vm0).
  split.
  - unfold spn_vm_callfunc. rewrite Hclean.
    cbv beta iota delta [mbind option_bind].
    destruct fn; try discriminate Hfn;
      unfold spn_vm_seterrmsg; rewrite runtime_error_native; reflexivity.
  - unfold with_error, spn_vm_geterrmsg. rewrite Hflag. simpl. repeat split.
Qed.

(** X6: spn_vm_callfunc on a native function runs the callback with the
    pseudo-frame of the function on top of the stack.  A NULL out-pointer
    is not supported (nil is stored through it before the callback runs).
    When the callback returns 0 and has left the stack as it found it, the
    pseudo-frame is popped, which releases nothing, and 0 is returned with
    the callback's value; when it returns another status, that status is
    returned, the pseudo-frame stays on the stack, and the error "error in
    function `<name>' (code: <status>)" is recorded unless the callback
    recorded one itself. *)
Theorem callfunc_native (fuel : nat) (vm vm1 vm2 : SpnVMachine) (fa : addr)
    (fnobj : SpnFunction) (argc err : Z) (argv : list SpnValue) (ret : SpnValue) :
  haserror vm = false → stack_ok vm → stacksize vm + 1 <= 2 ^ 63 →
  func_at vm fa = Some fnobj → native fnobj = true →
  push_native_pseudoframe vm fa = Some vm1 →
  natives (repr_fn fnobj) argv vm1 = (err, ret, vm2) →
  spn_vm_callfunc bc natives fuel vm (VFunc fa) false argc argv = None ∧
  frmhdr vm1 (stacksize vm + 1) = Some (mkFrame 1 0 0 0 None (-1) fa) ∧
  (err = 0 → stack vm2 = stack vm1 → sp vm2 = sp vm1 →
     ∃ vm3, spn_vm_callfunc bc natives fuel vm (VFunc fa) true argc argv
              = Some (0, vm3, Some ret) ∧
       sp vm3 = Some (stacksize vm) ∧ objs vm3 = objs vm2 ∧
       haserror vm3 = haserror vm2) ∧
  (err ≠ 0 →
     ∃ vm3, spn_vm_callfunc bc natives fuel vm (VFunc fa) true argc argv
              = Some (err, vm3, Some ret) ∧
       haserror vm3 = true ∧
       spn_vm_geterrmsg vm3 =
         (if haserror vm2 then errmsg vm2
          else Some ("runtime error in native code: " +:+
                     ("error in function `" +:+ fn_name fnobj +:+ "' (code: " +:+
                      decimal err +:+ ")"))) ∧
       sp vm3 = sp vm2 ∧ stack vm3 = stack vm2 ∧ objs vm3 = objs vm2).
Proof.
  intros Hflag Hok Hs Hfn Hnat Hpush Hcall.
  destruct (pseudoframe_pushed vm fa Hok Hs)
    as (vm1' & Hpush' & Hsp1 & Hh1 & Hok1 & Hrest1 & Hlow1).
  rewrite Hpush in Hpush'. injection Hpush' as <-.
  assert (Hrun : ∀ rv, spn_vm_callfunc bc natives fuel vm (VFunc fa) rv argc argv =
            if negb rv then None
            else if negb (err =? 0) then
              vm3 ← spn_vm_seterrmsg vm2 "error in function `%s' (code: %i)"
                      [FStr (fn_name fnobj); FNum err];
              Some (err, vm3, Some ret)
            else vm3 ← pop_frame vm2; Some (err, vm3, Some ret)).
  { intros rv. unfold spn_vm_callfunc. rewrite (clean_no_error fuel vm Hflag).
    cbv beta iota delta [mbind option_bind]. rewrite Hfn, Hnat, Hpush.
    destruct rv; [|reflexivity]. cbv beta iota delta [negb]. rewrite Hcall.
    reflexivity. }
  split; [rewrite Hrun; reflexivity|]. split; [exact Hh1|]. split.
  - intros -> Hst Hsp. rewrite Hrun. cbv beta iota delta [negb Z.eqb].
    assert (Hh2 : frmhdr vm2 (stacksize vm + 1) = Some (mkFrame 1 0 0 0 None (-1) fa)).
    { unfold frmhdr, slot_get. rewrite Hst. exact Hh1. }
    rewrite (pop_frame_spec vm2 (stacksize vm + 1) _ [] (eq_trans Hsp Hsp1) Hh2 eq_refl).
    eexists. split; [reflexivity|]. simpl.
    split; [f_equal; lia|]. split; reflexivity.
  - intros Herr. rewrite Hrun. cbv beta iota delta [negb].
    destruct (Z.eqb_spec err 0) as [->|_]; [congruence|].
    unfold spn_vm_seterrmsg. rewrite runtime_error_native.
    cbv beta iota delta [mbind option_bind].
    eexists. split; [reflexivity|].
    destruct (with_error_fields
                ("runtime error in native code: " +:+
                 spn_string_format_cstr "error in function `%s' (code: %i)"
                   [FStr (fn_name fnobj); FNum err]) vm2)
      as (Est & Esp & _ & _ & _ & Eo & Eh & Em).
    split; [exact Eh|]. split.
    { unfold spn_vm_geterrmsg. rewrite Em, format_native_failure. reflexivity. }
    split; [exact Esp|]. split; [exact Est|exact Eo].
Qed.

End HostCalls.

Lemma callfunc_non_function_witness :
  ∃ vm', spn_vm_callfunc [] two_natives (lib := ex_lib) 0 host_vm (VInt 3) true 0 []
           = Some (-1, vm', None) ∧
    spn_vm_geterrmsg vm' =
      Some "runtime error in native code: attempt to call non-function value" ∧
    sp vm' = None.
Proof.
  destruct (callfunc_non_function [] two_natives (lib := ex_lib) 0 host_vm host_vm
              (VInt 3) true 0 [] eq_refl eq_refl)
    as (vm' & Hrun & _ & Hmsg & _ & Hsp & _).
  exists vm'. split; [exact Hrun|]. split; [exact Hmsg|exact Hsp].
Defined.

Lemma callfunc_native_witness :
  (∃ vm3, spn_vm_callfunc [] two_natives (lib := ex_lib) 0 host_vm (VFunc 7%positive)
            true 0 [] = Some (0, vm3, Some (VInt 7)) ∧ sp vm3 = Some 0) ∧
  (∃ vm3, spn_vm_callfunc [] two_natives (lib := ex_lib) 0 host_vm (VFunc 6%positive)
            true 0 [] = Some (1, vm3, Some VNil) ∧
          spn_vm_geterrmsg vm3 =
            Some "runtime error in native code: error in function `nat' (code: 1)" ∧
          sp vm3 = Some 1).
Proof.
  split.
  - destruct (pseudoframe_pushed host_vm 7%positive) as (vm1 & Hpush & Hsp1 & _).
    { split; reflexivity. } { vm_compute. discriminate. }
    destruct (proj1 (proj2 (proj2
                (callfunc_native [] two_natives (lib := ex_lib) 0 host_vm vm1 vm1 7%positive
                   (mkFunction "seven" true false false 0 1 2%positive 7%positive None)
                   0 0 [] (VInt 7) eq_refl ltac:(split; reflexivity)
                   ltac:(vm_compute; discriminate) eq_refl eq_refl Hpush eq_refl)))
                eq_refl eq_refl eq_refl)
      as (vm3 & Hrun & Hsp & _).
    exists vm3. split; [exact Hrun|exact Hsp].
  - destruct (pseudoframe_pushed host_vm 6%positive) as (vm1 & Hpush & Hsp1 & _ & _ & Hrest & _).
    { split; reflexivity. } { vm_compute. discriminate. }
    destruct (proj2 (proj2 (proj2
                (callfunc_native [] two_natives (lib := ex_lib) 0 host_vm vm1 vm1 6%positive
                   (mkFunction "nat" true false false 0 O 2%positive 6%positive None)
                   0 1 [] VNil eq_refl ltac:(split; reflexivity)
                   ltac:(vm_compute; discriminate) eq_refl eq_refl Hpush eq_refl)))
                ltac:(discriminate))
      as (vm3 & Hrun & _ & Hmsg & Hsp & _).
    exists vm3. split; [exact Hrun|]. split.
    + rewrite Hmsg. destruct Hrest as (_ & _ & -> & _). reflexivity.
    + rewrite Hsp. exact Hsp1.
Defined.

(** ** Native functions in the stack trace *)

(** X7: while a native function runs, the stack trace names it first: the
    pseudo-frame pushed for a native function makes spn_vm_stacktrace report
    one frame more, whose name is that of the function, before the names of
    the frames that were live. *)
Theorem native_frame_in_stacktrace (vm : SpnVMachine) (fa : addr) (f : SpnFunction)
    (fs : list TFrame) (names : list string) (fuel : nat) :
  stack_ok vm → live_frames vm (stacksize vm) fs → callee_names vm fs = Some names →
  func_at vm fa = Some f → stacksize vm + 1 <= 2 ^ 63 → (length fs < fuel)%nat →
  ∃ vm1, push_native_pseudoframe vm fa = Some vm1 ∧
    spn_vm_stacktrace fuel vm1 =
      Some (Z.of_nat (length fs) + 1, Some (fn_name f :: names)).
Proof.
  intros Hok Hlive Hnames Hf Hs Hfuel.
  pose proof (stacksize_bounds vm Hok) as Hb.
  destruct (pseudoframe_pushed vm fa Hok Hs)
    as (vm1 & Hpush & Hsp1 & Hh1 & Hok1 & Hrest & Hlow).
  destruct Hrest as (_ & _ & _ & _ & Ho).
  exists vm1. split; [exact Hpush|].
  assert (Hlive1 : live_frames vm1 (stacksize vm + 1) (mkFrame 1 0 0 0 None (-1) fa :: fs)).
  { econstructor; [exact Hh1|simpl; lia|]. simpl.
    replace (stacksize vm + 1 - 1) with (stacksize vm) by lia.
    apply (live_frames_agree vm); [exact Hlive|exact Hlow]. }
  assert (Hnames1 : callee_names vm1 (mkFrame 1 0 0 0 None (-1) fa :: fs)
                    = Some (fn_name f :: names)).
  { unfold callee_names. cbn [mapM]. simpl callee.
    rewrite (func_at_objs vm vm1 fa Ho), Hf. simpl.
    fold (callee_names vm1 fs). rewrite (callee_names_objs vm vm1 fs Ho), Hnames.
    reflexivity. }
  unfold spn_vm_stacktrace. rewrite Hsp1.
  rewrite (count_frames_live vm1 _ _ Hlive1 fuel 0) by (simpl; lia).
  rewrite (fill_names_live vm1 _ _ Hlive1 fuel _ ltac:(simpl; lia) Hnames1).
  simpl. do 2 f_equal. lia.
Qed.

Lemma native_frame_in_stacktrace_witness :
  ∃ vm1, push_native_pseudoframe call_vm 6%positive = Some vm1 ∧
    spn_vm_stacktrace 2 vm1 = Some (2, Some ["nat"; "f"]).
Proof.
  destruct (native_frame_in_stacktrace call_vm 6%positive
              (mkFunction "nat" true false false 0 O 2%positive 6%positive None)
              [mkFrame 4 2 0 0 None (-1) 1%positive] ["f"] 2)
    as (vm1 & Hpush & Htrace).
  - split; [reflexivity|]. unfold call_vm. simpl. lia.
  - change (stacksize call_vm) with 4.
    apply (live_frame call_vm 4 _ []); [reflexivity|simpl; lia|apply live_base].
  - reflexivity.
  - reflexivity.
  - vm_compute. discriminate.
  - simpl. lia.
  - exists vm1. split; [exact Hpush|exact Htrace].
Defined.

(** ** Control flow *)

(** Reduces the binds of the option monad whose argument is known. *)
Ltac binds := cbv beta iota delta [mbind option_bind].

Lemma append_empty (s : string) : (s +:+ "")%string = s.
Proof.
  induction s as [|ch s IH]; [reflexivity|].
  change (String ch (s +:+ "") = String ch s). rewrite IH. reflexivity.
Qed.

Lemma format_illegal (n : Z) :
  spn_string_format_cstr "illegal instruction 0x%02x" [FNum n] =
  "illegal instruction 0x" +:+ pad true 2 (hexadecimal n).
Proof.
  lazy -[pad hexadecimal String.append]. rewrite append_empty. reflexivity.
Qed.

Lemma format_uncomparable (t1 t2 : string) :
  spn_string_format_cstr "ordered comparison of uncomparable values of type %s and %s"
    [FStr t1; FStr t2] =
  "ordered comparison of uncomparable values of type " +:+ t1 +:+ " and " +:+ t2.
Proof.
  lazy -[String.append]. rewrite append_empty. reflexivity.
Qed.

Section ControlFlow.

Context (bc : list Z) (natives : nat → NativeFn) {lib : ObjectLibrary}.

(** X8: an instruction word whose opcode, its low octet, is none of the
    opcodes the dispatcher has a case for makes the dispatcher record
    "illegal instruction 0x<opcode as two hexadecimal digits>" for the
    address of the word and return -1; the operands of the word are not
    looked at, and the stack, the stack pointer and the heap are left as
    they were. *)
Theorem illegal_instruction (vm : SpnVMachine) (ip ins : Z) (rv : bool) (addr : Z) :
  fetch bc ip = Some ins → decode_opcode (OPCODE ins) = None →
  prog_addr vm ip = Some addr →
  ∃ vm', dispatch_step bc natives vm ip rv = Some (Exit (-1) vm' None) ∧
    vm' = with_error
            (error_at addr
               ("illegal instruction 0x" +:+ pad true 2 (hexadecimal (Z.land ins 255))))
            vm ∧
    haserror vm' = true ∧
    stack vm' = stack vm ∧ sp vm' = sp vm ∧ objs vm' = objs vm.
Proof.
  intros Hins Hop Haddr. eexists. split; [|split; [reflexivity|]].
  - unfold dispatch_step. rewrite Hins. binds. rewrite Hop.
    replace (ip + 1 - 1) with ip by lia.
    apply raise_at; [exact Haddr|apply format_illegal].
  - unfold with_error. destruct (haserror vm) eqn:He; repeat split; assumption || reflexivity.
Qed.

(** X9: JZE and JNZ read the offset word that follows them and test
    register A: on a Boolean they leave the machine as it is and go on at
    the word after the offset, moved by the signed offset when the jump is
    taken (JZE on false, JNZ on true), so that on the same register exactly
    one of the two jumps; on any other value they record an error for the
    address of the instruction word and return -1. *)
Theorem conditional_jump (vm : SpnVMachine) (ip ins : Z) (op : spn_vm_ins) (rv : bool)
    (s : Z) (reg : SpnValue) (w : Z) :
  fetch bc ip = Some ins → decode_opcode (OPCODE ins) = Some op →
  op = SPN_INS_JZE ∨ op = SPN_INS_JNZ →
  sp vm = Some s → reg_get vm s (OPA ins) = Some reg → fetch bc (ip + 1) = Some w →
  (∀ b, reg = VBool b →
     dispatch_step bc natives vm ip rv =
       Some (Next (if jump_taken op b then ip + 2 + sword w else ip + 2) vm)) ∧
  (isbool reg = false →
     ∀ addr, prog_addr vm ip = Some addr →
       dispatch_step bc natives vm ip rv =
         Some (Exit (-1)
                 (with_error
                    (error_at addr
                       ("register does not contain Boolean value in conditional jump " +:+
                        "(are you trying to use non-Booleans with logical operators " +:+
                        "or in the condition of an `if`, `while` or `for` statement?)"))
                    vm) None)) ∧
  (∀ b, jump_taken SPN_INS_JZE b = negb (jump_taken SPN_INS_JNZ b)).
Proof.
  intros Hins Hop Hop' Hsp Hreg Hw.
  assert (Hstep : dispatch_step bc natives vm ip rv = ins_jump_if bc vm op ins (ip + 1)).
  { unfold dispatch_step. rewrite Hins. binds. rewrite Hop.
    destruct Hop' as [-> | ->]; reflexivity. }
  rewrite Hstep. unfold ins_jump_if. rewrite Hsp. binds. rewrite Hreg. binds.
  rewrite Hw. binds.
  replace (ip + 1 + 1 - 2) with ip by lia.
  replace (ip + 1 + 1) with (ip + 2) by lia.
  split; [|split].
  - intros b ->. cbn [isbool negb boolvalue].
    destruct Hop' as [-> | ->], b; reflexivity.
  - intros Hb addr Haddr. rewrite Hb. cbn [negb].
    apply raise_at; [exact Haddr|reflexivity].
  - intros b. reflexivity.
Qed.

(** X10: JMP goes on at the word after its offset word, moved by the offset
    read as a signed 32-bit number (an offset word of 2^31 or more jumps
    backwards), and FUNCTION goes on after the header and the body of the
    function it introduces, whose length the first header word gives; both
    leave the machine as it is.  FUNCTION fails its assertion when the
    header declares more arguments than registers. *)
Theorem jmp_and_function_skip (vm : SpnVMachine) (ip ins : Z) (rv : bool) :
  fetch bc ip = Some ins →
  (decode_opcode (OPCODE ins) = Some SPN_INS_JMP →
     ∀ w, fetch bc (ip + 1) = Some w → 0 <= w < 2 ^ 32 →
       dispatch_step bc natives vm ip rv = Some (Next (ip + 2 + sword w) vm) ∧
       - 2 ^ 31 <= sword w < 2 ^ 31 ∧ (sword w - w) mod 2 ^ 32 = 0) ∧
  (decode_opcode (OPCODE ins) = Some SPN_INS_FUNCTION →
     ∀ bodylen argc nregs,
       fetch bc (ip + 1 + SPN_FUNCHDR_IDX_BODYLEN) = Some bodylen →
       fetch bc (ip + 1 + SPN_FUNCHDR_IDX_ARGC) = Some argc →
       fetch bc (ip + 1 + SPN_FUNCHDR_IDX_NREGS) = Some nregs →
       dispatch_step bc natives vm ip rv =
         if nregs <? argc then None
         else Some (Next (ip + 1 + SPN_FUNCHDR_LEN + bodylen) vm)).
Proof.
  intros Hins. split.
  - intros Hop w Hw Hrange. split; [|split].
    + unfold dispatch_step. rewrite Hins. binds. rewrite Hop, Hw. binds.
      do 2 f_equal. lia.
    + unfold sword. destruct (Z.ltb_spec w (2 ^ 31)); lia.
    + unfold sword. destruct (Z.ltb_spec w (2 ^ 31)).
      * replace (w - w) with 0 by lia. reflexivity.
      * replace (w - 2 ^ 32 - w) with (- 1 * 2 ^ 32) by lia. apply Z.mod_mul. lia.
  - intros Hop bodylen argc nregs Hb Ha Hn.
    unfold dispatch_step. rewrite Hins. binds. rewrite Hop.
    unfold ins_function. rewrite Hb. binds. rewrite Ha. binds. rewrite Hn. binds.
    destruct (nregs <? argc); [reflexivity|]. do 2 f_equal. lia.
Qed.

(** X11: LT, LE, GT and GE ask the object library whether the operands in
    registers B and C are comparable: if they are not, an error that names
    the two types is recorded for the address of the instruction and -1 is
    returned; if they are, register A is released and receives the Boolean
    that the sign of the library's comparison gives, and execution goes on
    at the next word.  On the same operands LT and GE give opposite
    answers, and so do LE and GT. *)
Theorem ordered_comparison (vm : SpnVMachine) (ip ins : Z) (op : spn_vm_ins) (rv : bool)
    (s a : Z) (old b c : SpnValue) :
  fetch bc ip = Some ins → decode_opcode (OPCODE ins) = Some op → is_comparison op →
  sp vm = Some s →
  SLOTPTR vm s (OPA ins) = Some a → val_at vm a = Some old →
  reg_get vm s (OPB ins) = Some b →
  reg_get vm s (OPC ins) = Some c →
  (spn_values_comparable b c = false →
     ∀ addr, prog_addr vm ip = Some addr →
       dispatch_step bc natives vm ip rv =
         Some (Exit (-1)
                 (with_error
                    (error_at addr
                       ("ordered comparison of uncomparable values of type " +:+
                        spn_type_name b +:+ " and " +:+ spn_type_name c)) vm) None)) ∧
  (spn_values_comparable b c = true →
     ∃ vm', dispatch_step bc natives vm ip rv = Some (Next (ip + 1) vm') ∧
       val_at vm' a = Some (VBool (ordered op (spn_value_compare vm b c))) ∧
       (∀ k, k ≠ a → slot_get vm' k = slot_get vm k) ∧
       objs vm' = release_in old (objs vm)) ∧
  (∀ res, ordered SPN_INS_LT res = negb (ordered SPN_INS_GE res) ∧
          ordered SPN_INS_LE res = negb (ordered SPN_INS_GT res)).
Proof.
  intros Hins Hop Hop' Hsp Ha Hold Hb Hc.
  assert (Hstep : dispatch_step bc natives vm ip rv = ins_compare vm op ins (ip + 1)).
  { unfold dispatch_step. rewrite Hins. binds. rewrite Hop.
    destruct Hop' as [-> | [-> | [-> | ->]]]; reflexivity. }
  rewrite Hstep. unfold ins_compare. rewrite Hsp. binds. rewrite Ha. binds.
  rewrite Hb. binds. rewrite Hc. binds.
  replace (ip + 1 - 1) with ip by lia.
  split; [|split].
  - intros Hcmp addr Haddr. rewrite Hcmp. cbn [negb].
    apply raise_at; [exact Haddr|apply format_uncomparable].
  - intros Hcmp. rewrite Hcmp. cbn [negb].
    assert (Hr : cmp2bool (spn_value_compare vm b c) op
                 = Some (ordered op (spn_value_compare vm b c))).
    { destruct Hop' as [-> | [-> | [-> | ->]]]; reflexivity. }
    rewrite Hr. binds.
    destruct (replace_at_spec vm a old
                (makebool (ordered op (spn_value_compare vm b c))) Hold)
      as (vm' & Hrep & Hv & Hk & Ho & _).
    rewrite Hrep. binds. exists vm'. repeat split; assumption.
  - intros res. unfold ordered. split.
    + destruct (Z.ltb_spec res 0), (Z.leb_spec 0 res); simpl; try reflexivity; lia.
    + destruct (Z.leb_spec res 0), (Z.ltb_spec 0 res); simpl; try reflexivity; lia.
Qed.

(** X12: EQ and NE never fail on readable registers, whatever the types of
    the operands: register A is released and receives the Boolean answer
    of the object library (spn_value_equal for EQ, spn_value_noteq for NE),
    computed before the release, so that A may be one of the operands. *)
Theorem equality_never_raises (vm : SpnVMachine) (ip ins : Z) (op : spn_vm_ins)
    (rv : bool) (s a : Z) (old b c : SpnValue) :
  fetch bc ip = Some ins → decode_opcode (OPCODE ins) = Some op →
  op = SPN_INS_EQ ∨ op = SPN_INS_NE →
  sp vm = Some s →
  SLOTPTR vm s (OPA ins) = Some a → val_at vm a = Some old →
  reg_get vm s (OPB ins) = Some b →
  reg_get vm s (OPC ins) = Some c →
  ∃ vm', dispatch_step bc natives vm ip rv = Some (Next (ip + 1) vm') ∧
    val_at vm' a =
      Some (VBool (match op with
                   | SPN_INS_EQ => spn_value_equal vm b c
                   | _ => spn_value_noteq vm b c
                   end)) ∧
    (∀ k, k ≠ a → slot_get vm' k = slot_get vm k) ∧
    objs vm' = release_in old (objs vm) ∧
    haserror vm' = haserror vm ∧ errmsg vm' = errmsg vm.
Proof.
  intros Hins Hop Hop' Hsp Ha Hold Hb Hc.
  assert (Hstep : dispatch_step bc natives vm ip rv = ins_equal vm op ins (ip + 1)).
  { unfold dispatch_step. rewrite Hins. binds. rewrite Hop.
    destruct Hop' as [-> | ->]; reflexivity. }
  rewrite Hstep. unfold ins_equal. rewrite Hsp. binds. rewrite Ha. binds.
  rewrite Hb. binds. rewrite Hc. binds.
  set (res := if bool_decide (op = SPN_INS_EQ) then spn_value_equal vm b c
              else spn_value_noteq vm b c).
  assert (Hres : res = match op with
                       | SPN_INS_EQ => spn_value_equal vm b c
                       | _ => spn_value_noteq vm b c
                       end).
  { destruct Hop' as [-> | ->]; reflexivity. }
  destruct (replace_at_spec vm a old (makebool res) Hold)
    as (vm' & Hrep & Hv & Hk & Ho & _ & _ & _ & _ & He & Hh & _).
  rewrite Hrep. binds. exists vm'. rewrite <- Hres.
  repeat split; assumption.
Qed.

End ControlFlow.

Lemma illegal_instruction_witness :
  ∃ vm', dispatch_step (code_of 255 0) ex_natives (lib := ex_lib) (arith_vm VNil VNil) 4 true =
           Some (Exit (-1) vm' None) ∧
    errmsg vm' = Some "runtime error at address 0x00000004: illegal instruction 0xff" ∧
    sp vm' = Some 4.
Proof.
  destruct (illegal_instruction (code_of 255 0) ex_natives (lib := ex_lib)
              (arith_vm VNil VNil) 4 255 true 4 eq_refl eq_refl eq_refl)
    as (vm' & Hstep & -> & _ & _ & Hsp & _).
  eexists. split; [exact Hstep|]. split; [reflexivity|exact Hsp].
Defined.

Lemma conditional_jump_witness :
  dispatch_step (code_of (mkins SPN_INS_JZE 1 0 0) (2 ^ 32 - 2)) ex_natives (lib := ex_lib)
    (arith_vm (VBool false) VNil) 4 true = Some (Next 4 (arith_vm (VBool false) VNil)) ∧
  dispatch_step (code_of (mkins SPN_INS_JNZ 1 0 0) (2 ^ 32 - 2)) ex_natives (lib := ex_lib)
    (arith_vm (VBool false) VNil) 4 true = Some (Next 6 (arith_vm (VBool false) VNil)).
Proof.
  split.
  - exact (proj1 (conditional_jump (code_of (mkins SPN_INS_JZE 1 0 0) (2 ^ 32 - 2))
                    ex_natives (lib := ex_lib) (arith_vm (VBool false) VNil) 4
                    (mkins SPN_INS_JZE 1 0 0) SPN_INS_JZE true 4 (VBool false) (2 ^ 32 - 2)
                    eq_refl eq_refl (or_introl eq_refl) eq_refl eq_refl eq_refl)
             false eq_refl).
  - exact (proj1 (conditional_jump (code_of (mkins SPN_INS_JNZ 1 0 0) (2 ^ 32 - 2))
                    ex_natives (lib := ex_lib) (arith_vm (VBool false) VNil) 4
                    (mkins SPN_INS_JNZ 1 0 0) SPN_INS_JNZ true 4 (VBool false) (2 ^ 32 - 2)
                    eq_refl eq_refl (or_intror eq_refl) eq_refl eq_refl eq_refl)
             false eq_refl).
Defined.

Lemma jmp_and_function_skip_witness :
  dispatch_step (code_of (mkins SPN_INS_JMP 0 0 0) (2 ^ 32 - 2)) ex_natives (lib := ex_lib)
    (arith_vm VNil VNil) 4 true = Some (Next 4 (arith_vm VNil VNil)).
Proof.
  exact (proj1 (proj1 (jmp_and_function_skip (code_of (mkins SPN_INS_JMP 0 0 0) (2 ^ 32 - 2))
                         ex_natives (lib := ex_lib) (arith_vm VNil VNil) 4
                         (mkins SPN_INS_JMP 0 0 0) true eq_refl)
                  eq_refl (2 ^ 32 - 2) eq_refl ltac:(vm_compute; split; [discriminate|reflexivity]))).
Defined.

Lemma ordered_comparison_witness :
  (∃ vm', dispatch_step (arith_bc SPN_INS_LT) ex_natives (lib := int_lib)
            (arith_vm (VInt 1) (VInt 2)) 4 true = Some (Next 5 vm') ∧
          val_at vm' 2 = Some (VBool true)) ∧
  dispatch_step (arith_bc SPN_INS_LT) ex_natives (lib := int_lib)
    (arith_vm (VInt 1) VNil) 4 true =
    Some (Exit (-1)
            (with_error
               ("runtime error at address 0x00000004: " +:+
                "ordered comparison of uncomparable values of type int and other")
               (arith_vm (VInt 1) VNil)) None).
Proof.
  split.
  - destruct (proj1 (proj2 (ordered_comparison (arith_bc SPN_INS_LT) ex_natives
                              (lib := int_lib) (arith_vm (VInt 1) (VInt 2)) 4
                              (mkins SPN_INS_LT 0 1 2) SPN_INS_LT true 4 2 VNil (VInt 1)
                              (VInt 2) eq_refl eq_refl (or_introl eq_refl) eq_refl eq_refl
                              eq_refl eq_refl eq_refl)) eq_refl)
      as (vm' & Hstep & Hv & _).
    exists vm'. split; [exact Hstep|exact Hv].
  - exact (proj1 (ordered_comparison (arith_bc SPN_INS_LT) ex_natives
                    (lib := int_lib) (arith_vm (VInt 1) VNil) 4
                    (mkins SPN_INS_LT 0 1 2) SPN_INS_LT true 4 2 VNil (VInt 1)
                    VNil eq_refl eq_refl (or_introl eq_refl) eq_refl eq_refl
                    eq_refl eq_refl eq_refl) eq_refl 4 eq_refl).
Defined.

Lemma equality_never_raises_witness :
  ∃ vm', dispatch_step (arith_bc SPN_INS_NE) ex_natives (lib := int_lib)
           (arith_vm (VInt 1) (VString 3%positive)) 4 true = Some (Next 5 vm') ∧
         val_at vm' 2 = Some (VBool true).
Proof.
  destruct (equality_never_raises (arith_bc SPN_INS_NE) ex_natives (lib := int_lib)
              (arith_vm (VInt 1) (VString 3%positive)) 4 (mkins SPN_INS_NE 0 1 2)
              SPN_INS_NE true 4 2 VNil (VInt 1) (VString 3%positive)
              eq_refl eq_refl (or_intror eq_refl) eq_refl eq_refl eq_refl eq_refl eq_refl)
    as (vm' & Hstep & Hv & _).
  exists vm'. split; [exact Hstep|exact Hv].
Defined.

(** ** Integer and logical operators *)

Lemma long_wrap_small z : LONG_MIN <= z <= LONG_MAX → long_wrap z = z.
Proof.
  unfold long_wrap, LONG_MIN, LONG_MAX. intros H.
  rewrite Z.mod_small by lia. lia.
Qed.

Lemma quot_in_long i j :
  in_long i → div_defined i j → in_long (Z.quot i j).
Proof.
  unfold in_long, div_defined, LONG_MIN, LONG_MAX. intros Hi [Hj Hmin].
  destruct (Z.eq_dec j 1) as [->|Hj1]; [rewrite Z.quot_1_r; lia|].
  destruct (Z.eq_dec j (-1)) as [->|Hjm1].
  { change (-1) with (- (1)). rewrite Z.quot_opp_r by lia. rewrite Z.quot_1_r. lia. }
  assert (Habs : Z.abs (Z.quot i j) <= 2 ^ 62).
  { rewrite <- Z.quot_abs by assumption.
    rewrite Z.quot_div_nonneg by lia.
    apply Z.div_le_upper_bound; lia. }
  lia.
Qed.

Lemma rem_in_long i j :
  in_long j → j ≠ 0 → in_long (Z.rem i j).
Proof.
  unfold in_long, LONG_MIN, LONG_MAX. intros Hj Hne.
  pose proof (Z.rem_bound_abs i j Hne). lia.
Qed.

Section Operators.

Context (bc : list Z) (natives : nat → NativeFn) {lib : ObjectLibrary}.

(** X13: MOD records "modulo division on non-integers" and returns -1
    unless both operands are integers (floats included).  On integers with
    a nonzero divisor (LONG_MIN and -1 apart) register A is released and
    receives the remainder of the truncating division, which has the sign
    of the dividend and is smaller than the divisor in absolute value, and
    which pairs with the quotient DIV computes: (a / b) * b + a % b = a.
    For a zero divisor, and for LONG_MIN and -1, no check is made and the
    result is undefined. *)
Theorem mod_ins_semantics (vm : SpnVMachine) (ip ins : Z) (rv : bool)
    (s a : Z) (old b c : SpnValue) :
  fetch bc ip = Some ins → decode_opcode (OPCODE ins) = Some SPN_INS_MOD →
  sp vm = Some s →
  SLOTPTR vm s (OPA ins) = Some a → val_at vm a = Some old →
  reg_get vm s (OPB ins) = Some b →
  reg_get vm s (OPC ins) = Some c →
  (isint b && isint c = false →
     ∀ addr, prog_addr vm ip = Some addr →
       dispatch_step bc natives vm ip rv =
         Some (Exit (-1)
                 (with_error (error_at addr "modulo division on non-integers") vm) None)) ∧
  (∀ i j, b = VInt i → c = VInt j → in_long i → in_long j → div_defined i j →
     ∃ vm', dispatch_step bc natives vm ip rv = Some (Next (ip + 1) vm') ∧
       val_at vm' a = Some (VInt (Z.rem i j)) ∧
       objs vm' = release_in old (objs vm) ∧
       arith_op b c SPN_INS_DIV = Some (VInt (Z.quot i j)) ∧
       Z.quot i j * j + Z.rem i j = i ∧
       Z.abs (Z.rem i j) < Z.abs j ∧ 0 <= Z.rem i j * i) ∧
  (∀ i j, b = VInt i → c = VInt j → ¬ div_defined i j →
     dispatch_step bc natives vm ip rv = None).
Proof.
  intros Hins Hop Hsp Ha Hold Hb Hc.
  assert (Hstep : dispatch_step bc natives vm ip rv = ins_mod vm ins (ip + 1)).
  { unfold dispatch_step. rewrite Hins. binds. rewrite Hop. reflexivity. }
  rewrite Hstep. unfold ins_mod. rewrite Hsp. binds. rewrite Ha. binds.
  rewrite Hb. binds. rewrite Hc. binds.
  replace (ip + 1 - 1) with ip by lia.
  split; [|split].
  - intros Hint addr Haddr.
    assert (negb (isint b) || negb (isint c) = true) as ->.
    { destruct (isint b), (isint c); simpl in *; congruence. }
    apply raise_at; [exact Haddr|reflexivity].
  - intros i j -> -> Hi Hj Hdef. cbn [isint negb orb intvalue].
    pose proof Hdef as [Hj0 Hmin].
    assert (Hrem : long_rem i j = Some (Z.rem i j)).
    { unfold long_rem. destruct (Z.eqb_spec j 0); [contradiction|].
      destruct (Z.eqb_spec i LONG_MIN), (Z.eqb_spec j (-1)); simpl;
        try (exfalso; apply Hmin; split; assumption);
        rewrite long_wrap_small by (apply rem_in_long; assumption); reflexivity. }
    rewrite Hrem. binds.
    destruct (replace_at_spec vm a old (makeint (Z.rem i j)) Hold)
      as (vm' & Hrep & Hv & _ & Ho & _).
    rewrite Hrep. binds. exists vm'.
    split; [reflexivity|]. split; [exact Hv|]. split; [exact Ho|]. split.
    { unfold arith_op. cbn [isnum isint isfloat andb orb negb intvalue].
      unfold long_div. destruct (Z.eqb_spec j 0); [contradiction|].
      destruct (Z.eqb_spec i LONG_MIN), (Z.eqb_spec j (-1)); simpl;
        try (exfalso; apply Hmin; split; assumption);
        rewrite long_wrap_small by (apply quot_in_long; assumption); reflexivity. }
    split.
    { pose proof (Z.quot_rem' i j). lia. }
    split; [apply Z.rem_bound_abs; assumption|apply Z.rem_sign_mul; assumption].
  - intros i j -> -> Hundef. cbn [isint negb orb intvalue].
    assert (Hrem : long_rem i j = None).
    { unfold long_rem, div_defined in *.
      destruct (Z.eqb_spec j 0); [reflexivity|].
      destruct (Z.eqb_spec i LONG_MIN), (Z.eqb_spec j (-1)); simpl;
        try reflexivity; exfalso; apply Hundef; split; try assumption;
        intros [? ?]; contradiction. }
    rewrite Hrem. reflexivity.
Qed.

(** X14: NEG records "negation of non-number" and returns -1 when
    register B holds no number; otherwise register A is released and
    receives the negated integer (for every integer whose negation [long]
    can hold) or the negated float. *)
Theorem neg_ins_semantics (vm : SpnVMachine) (ip ins : Z) (rv : bool)
    (s a : Z) (old b : SpnValue) :
  fetch bc ip = Some ins → decode_opcode (OPCODE ins) = Some SPN_INS_NEG →
  sp vm = Some s →
  SLOTPTR vm s (OPA ins) = Some a → val_at vm a = Some old →
  reg_get vm s (OPB ins) = Some b →
  (isnum b = false →
     ∀ addr, prog_addr vm ip = Some addr →
       dispatch_step bc natives vm ip rv =
         Some (Exit (-1) (with_error (error_at addr "negation of non-number") vm) None)) ∧
  (∀ i, b = VInt i → LONG_MIN < i <= LONG_MAX →
     ∃ vm', dispatch_step bc natives vm ip rv = Some (Next (ip + 1) vm') ∧
       val_at vm' a = Some (VInt (- i)) ∧
       objs vm' = release_in old (objs vm)) ∧
  (∀ f, b = VFloat f →
     ∃ vm', dispatch_step bc natives vm ip rv = Some (Next (ip + 1) vm') ∧
       val_at vm' a = Some (VFloat (PrimFloat.opp f)) ∧
       objs vm' = release_in old (objs vm)).
Proof.
  intros Hins Hop Hsp Ha Hold Hb.
  assert (Hstep : dispatch_step bc natives vm ip rv = ins_neg vm ins (ip + 1)).
  { unfold dispatch_step. rewrite Hins. binds. rewrite Hop. reflexivity. }
  rewrite Hstep. unfold ins_neg. rewrite Hsp. binds. rewrite Ha. binds.
  rewrite Hb. binds.
  replace (ip + 1 - 1) with ip by lia.
  split; [|split].
  - intros Hnum addr Haddr. rewrite Hnum. cbn [negb].
    apply raise_at; [exact Haddr|reflexivity].
  - intros i -> Hi. cbn [isnum isint isfloat orb negb intvalue].
    rewrite long_wrap_small by (unfold LONG_MIN, LONG_MAX in *; lia).
    destruct (replace_at_spec vm a old (makeint (- i)) Hold)
      as (vm' & Hrep & Hv & _ & Ho & _).
    rewrite Hrep. binds. exists vm'. repeat split; assumption.
  - intros f ->. cbn [isnum isint isfloat orb negb floatvalue].
    destruct (replace_at_spec vm a old (makefloat (PrimFloat.opp f)) Hold)
      as (vm' & Hrep & Hv & _ & Ho & _).
    rewrite Hrep. binds. exists vm'. repeat split; assumption.
Qed.

(** X15: INC and DEC change register A in place: on a non-number they
    record "incrementing or decrementing non-number" and return -1; on an
    integer they store its successor or predecessor (where [long] can hold
    it), on a float the float one above or below; nothing is retained or
    released and no other slot changes. *)
Theorem incdec_ins_semantics (vm : SpnVMachine) (ip ins : Z) (op : spn_vm_ins)
    (rv : bool) (s p : Z) (val : SpnValue) :
  fetch bc ip = Some ins → decode_opcode (OPCODE ins) = Some op →
  op = SPN_INS_INC ∨ op = SPN_INS_DEC →
  sp vm = Some s →
  SLOTPTR vm s (OPA ins) = Some p → val_at vm p = Some val →
  let d := match op with SPN_INS_INC => 1 | _ => -1 end in
  (isnum val = false →
     ∀ addr, prog_addr vm ip = Some addr →
       dispatch_step bc natives vm ip rv =
         Some (Exit (-1)
                 (with_error (error_at addr "incrementing or decrementing non-number") vm)
                 None)) ∧
  (∀ i, val = VInt i → in_long (i + d) →
     ∃ vm', dispatch_step bc natives vm ip rv = Some (Next (ip + 1) vm') ∧
       val_at vm' p = Some (VInt (i + d)) ∧
       (∀ k, k ≠ p → slot_get vm' k = slot_get vm k) ∧ objs vm' = objs vm) ∧
  (∀ f, val = VFloat f →
     ∃ vm', dispatch_step bc natives vm ip rv = Some (Next (ip + 1) vm') ∧
       val_at vm' p =
         Some (VFloat (match op with
                       | SPN_INS_INC => PrimFloat.add f one
                       | _ => PrimFloat.sub f one
                       end)) ∧
       (∀ k, k ≠ p → slot_get vm' k = slot_get vm k) ∧ objs vm' = objs vm).
Proof.
  intros Hins Hop Hop' Hsp Hp Hval d.
  assert (Hstep : dispatch_step bc natives vm ip rv = ins_incdec vm op ins (ip + 1)).
  { unfold dispatch_step. rewrite Hins. binds. rewrite Hop.
    destruct Hop' as [-> | ->]; reflexivity. }
  rewrite Hstep. unfold ins_incdec. rewrite Hsp. binds. rewrite Hp. binds.
  rewrite Hval. binds.
  replace (ip + 1 - 1) with ip by lia.
  pose proof (val_at_lt _ _ _ Hval) as Hlt.
  assert (Hset : ∀ v, ∃ vm', slot_set vm p (SlotV v) = Some vm' ∧
                   val_at vm' p = Some v ∧
                   (∀ k, k ≠ p → slot_get vm' k = slot_get vm k) ∧ objs vm' = objs vm).
  { intros v. eexists. split; [apply slot_set_Some; exact Hlt|].
    pose proof (slot_set_Some vm p (SlotV v) Hlt) as Hs.
    split; [rewrite (val_at_slot_set _ _ _ _ p Hs), Z.eqb_refl; reflexivity|].
    split; [|reflexivity].
    intros k Hk. rewrite (slot_get_slot_set _ _ _ _ k Hs).
    destruct (Z.eqb_spec p k); [congruence|reflexivity]. }
  split; [|split].
  - intros Hnum addr Haddr. rewrite Hnum. cbn [negb].
    apply raise_at; [exact Haddr|reflexivity].
  - intros i -> Hi. cbn [isnum isint isfloat orb negb intvalue].
    assert (Hv : (if bool_decide (op = SPN_INS_INC)
                  then makeint (long_wrap (i + 1)) else makeint (long_wrap (i - 1)))
                 = VInt (i + d)).
    { unfold d in *. destruct Hop' as [-> | ->]; simpl;
        rewrite long_wrap_small by exact Hi; reflexivity. }
    rewrite Hv. destruct (Hset (VInt (i + d))) as (vm' & Hs & Hget & Hk & Ho).
    rewrite Hs. binds. exists vm'. repeat split; assumption.
  - intros f ->. cbn [isnum isint isfloat orb negb floatvalue].
    assert (Hv : (if bool_decide (op = SPN_INS_INC)
                  then makefloat (PrimFloat.add f one) else makefloat (PrimFloat.sub f one))
                 = VFloat (match op with
                           | SPN_INS_INC => PrimFloat.add f one
                           | _ => PrimFloat.sub f one
                           end)).
    { destruct Hop' as [-> | ->]; reflexivity. }
    rewrite Hv. destruct (Hset (VFloat (match op with
                                        | SPN_INS_INC => PrimFloat.add f one
                                        | _ => PrimFloat.sub f one
                                        end))) as (vm' & Hs & Hget & Hk & Ho).
    rewrite Hs. binds. exists vm'. repeat split; assumption.
Qed.

(** X16: an INC and a DEC of the same register undo each other on an
    integer below LONG_MAX: after the two instructions the machine is the
    one before them. *)
Theorem inc_dec_round_trip (vm : SpnVMachine) (ip1 ip2 ins1 ins2 : Z) (rv : bool)
    (s p i : Z) :
  fetch bc ip1 = Some ins1 → decode_opcode (OPCODE ins1) = Some SPN_INS_INC →
  fetch bc ip2 = Some ins2 → decode_opcode (OPCODE ins2) = Some SPN_INS_DEC →
  OPA ins2 = OPA ins1 →
  sp vm = Some s →
  SLOTPTR vm s (OPA ins1) = Some p → val_at vm p = Some (VInt i) →
  LONG_MIN <= i < LONG_MAX →
  ∃ vm1, dispatch_step bc natives vm ip1 rv = Some (Next (ip1 + 1) vm1) ∧
    val_at vm1 p = Some (VInt (i + 1)) ∧
    dispatch_step bc natives vm1 ip2 rv = Some (Next (ip2 + 1) vm).
Proof.
  intros Hins1 Hop1 Hins2 Hop2 HA Hsp Hp Hval Hi.
  pose proof (val_at_lt _ _ _ Hval) as Hlt.
  pose proof (slot_set_Some vm p (SlotV (VInt (i + 1))) Hlt) as Hs1.
  set (vm1 := set_stack (<[Z.to_nat p := SlotV (VInt (i + 1))]> (stack vm)) vm) in *.
  destruct (SLOTPTR_inv _ _ _ _ Hp) as (h & Hh & Hr & Hpeq).
  assert (Hv1 : val_at vm1 p = Some (VInt (i + 1))).
  { rewrite (val_at_slot_set _ _ _ _ p Hs1), Z.eqb_refl. reflexivity. }
  assert (Hp1 : SLOTPTR vm1 s (OPA ins1) = Some p).
  { unfold SLOTPTR. rewrite (frmhdr_slot_set _ _ _ _ s Hs1) by lia. exact Hp. }
  exists vm1. split; [|split; [exact Hv1|]].
  - unfold dispatch_step. rewrite Hins1. binds. rewrite Hop1.
    unfold ins_incdec. rewrite Hsp. binds. rewrite Hp. binds. rewrite Hval. binds.
    cbn [isnum isint isfloat orb negb intvalue].
    rewrite bool_decide_eq_true_2 by reflexivity.
    rewrite long_wrap_small by (unfold LONG_MIN, LONG_MAX in *; lia).
    unfold makeint. rewrite Hs1. reflexivity.
  - unfold dispatch_step. rewrite Hins2. binds. rewrite Hop2.
    unfold ins_incdec. rewrite HA.
    change (sp vm1) with (sp vm). rewrite Hsp. binds. rewrite Hp1. binds.
    rewrite Hv1. binds.
    cbn [isnum isint isfloat orb negb intvalue].
    rewrite bool_decide_eq_false_2 by discriminate.
    replace (i + 1 - 1) with i by lia.
    rewrite long_wrap_small by (unfold LONG_MIN, LONG_MAX in *; lia).
    unfold makeint.
    rewrite slot_set_Some by (simpl; rewrite length_insert; exact Hlt).
    binds. do 3 f_equal. unfold vm1. simpl.
    rewrite list_insert_insert_eq.
    assert (Hlook : stack vm !! Z.to_nat p = Some (SlotV (VInt i))).
    { unfold val_at in Hval. rewrite slot_get_stack in Hval by lia.
      destruct (stack vm !! Z.to_nat p) as [[| |]|]; try discriminate.
      injection Hval as ->. reflexivity. }
    rewrite (list_insert_id _ _ _ Hlook). destruct vm; reflexivity.
Qed.


(** X18: BITNOT records "bitwise NOT on non-integer" and returns -1 unless
    register B holds an integer [i], for which register A receives
    [-i - 1]; LOGNOT records "logical negation of non-Boolean value" and
    returns -1 unless register B holds a Boolean, whose negation register A
    receives.  In both cases the previous value of A is released. *)
Theorem not_ins_semantics (vm : SpnVMachine) (ip ins : Z) (op : spn_vm_ins)
    (rv : bool) (s a : Z) (old b : SpnValue) :
  fetch bc ip = Some ins → decode_opcode (OPCODE ins) = Some op →
  sp vm = Some s →
  SLOTPTR vm s (OPA ins) = Some a → val_at vm a = Some old →
  reg_get vm s (OPB ins) = Some b →
  (op = SPN_INS_BITNOT →
     (isint b = false →
        ∀ addr, prog_addr vm ip = Some addr →
          dispatch_step bc natives vm ip rv =
            Some (Exit (-1)
                    (with_error (error_at addr "bitwise NOT on non-integer") vm) None)) ∧
     (∀ i, b = VInt i →
        ∃ vm', dispatch_step bc natives vm ip rv = Some (Next (ip + 1) vm') ∧
          val_at vm' a = Some (VInt (- i - 1)) ∧
          objs vm' = release_in old (objs vm))) ∧
  (op = SPN_INS_LOGNOT →
     (isbool b = false →
        ∀ addr, prog_addr vm ip = Some addr →
          dispatch_step bc natives vm ip rv =
            Some (Exit (-1)
                    (with_error (error_at addr "logical negation of non-Boolean value") vm)
                    None)) ∧
     (∀ x, b = VBool x →
        ∃ vm', dispatch_step bc natives vm ip rv = Some (Next (ip + 1) vm') ∧
          val_at vm' a = Some (VBool (negb x)) ∧
          objs vm' = release_in old (objs vm))).
Proof.
  intros Hins Hop Hsp Ha Hold Hb. split; intros ->.
  - assert (Hstep : dispatch_step bc natives vm ip rv = ins_bitnot vm ins (ip + 1)).
    { unfold dispatch_step. rewrite Hins. binds. rewrite Hop. reflexivity. }
    rewrite Hstep. unfold ins_bitnot. rewrite Hsp. binds. rewrite Ha. binds.
    rewrite Hb. binds.
    replace (ip + 1 - 1) with ip by lia.
    split.
    + intros Hint addr Haddr. rewrite Hint. cbn [negb].
      apply raise_at; [exact Haddr|reflexivity].
    + intros i ->. cbn [isint negb intvalue]. rewrite Z.lnot_eq_pred_opp.
      destruct (replace_at_spec vm a old (makeint (- i - 1)) Hold)
        as (vm' & Hrep & Hv & _ & Ho & _).
      rewrite Hrep. binds. exists vm'. repeat split; assumption.
  - assert (Hstep : dispatch_step bc natives vm ip rv = ins_lognot vm ins (ip + 1)).
    { unfold dispatch_step. rewrite Hins. binds. rewrite Hop. reflexivity. }
    rewrite Hstep. unfold ins_lognot. rewrite Hsp. binds. rewrite Ha. binds.
    rewrite Hb. binds.
    replace (ip + 1 - 1) with ip by lia.
    split.
    + intros Hbool addr Haddr. rewrite Hbool. cbn [negb].
      apply raise_at; [exact Haddr|reflexivity].
    + intros x ->. cbn [isbool negb boolvalue].
      destruct (replace_at_spec vm a old (makebool (negb x)) Hold)
        as (vm' & Hrep & Hv & _ & Ho & _).
      rewrite Hrep. binds. exists vm'. repeat split; assumption.
Qed.

End Operators.

Lemma mod_ins_semantics_witness :
  (∃ vm', dispatch_step (arith_bc SPN_INS_MOD) ex_natives (lib := ex_lib)
            (arith_vm (VInt (-7)) (VInt 2)) 4 true = Some (Next 5 vm') ∧
          val_at vm' 2 = Some (VInt (-1))) ∧
  dispatch_step (arith_bc SPN_INS_MOD) ex_natives (lib := ex_lib)
    (arith_vm (VInt 7) (VInt 0)) 4 true = None.
Proof.
  pose proof (λ b c, mod_ins_semantics (arith_bc SPN_INS_MOD) ex_natives (lib := ex_lib)
                (arith_vm b c) 4 (mkins SPN_INS_MOD 0 1 2) true 4 2 VNil b c
                eq_refl eq_refl eq_refl eq_refl eq_refl eq_refl eq_refl) as H.
  split.
  - destruct (proj1 (proj2 (H (VInt (-7)) (VInt 2))) (-7) 2 eq_refl eq_refl)
      as (vm' & Hstep & Hv & _).
    + unfold in_long, LONG_MIN, LONG_MAX. lia.
    + unfold in_long, LONG_MIN, LONG_MAX. lia.
    + split; [lia|]. intros [? ?]. lia.
    + exists vm'. split; [exact Hstep|exact Hv].
  - apply (proj2 (proj2 (H (VInt 7) (VInt 0))) 7 0 eq_refl eq_refl).
    intros [? _]. lia.
Defined.

Lemma neg_ins_semantics_witness :
  ∃ vm', dispatch_step (arith_bc SPN_INS_NEG) ex_natives (lib := ex_lib)
           (arith_vm (VInt 5) VNil) 4 true = Some (Next 5 vm') ∧
         val_at vm' 2 = Some (VInt (-5)).
Proof.
  destruct (proj1 (proj2 (neg_ins_semantics (arith_bc SPN_INS_NEG) ex_natives (lib := ex_lib)
                            (arith_vm (VInt 5) VNil) 4 (mkins SPN_INS_NEG 0 1 2) true 4 2
                            VNil (VInt 5) eq_refl eq_refl eq_refl eq_refl eq_refl eq_refl))
              5 eq_refl)
    as (vm' & Hstep & Hv & _).
  - unfold LONG_MIN, LONG_MAX. lia.
  - exists vm'. split; [exact Hstep|exact Hv].
Defined.

Lemma incdec_ins_semantics_witness :
  ∃ vm', dispatch_step counter_bc ex_natives (lib := ex_lib) (counter_vm (VInt 41)) 4 true
           = Some (Next 5 vm') ∧
         val_at vm' 2 = Some (VInt 42) ∧ objs vm' = ex_heap.
Proof.
  destruct (proj1 (proj2 (incdec_ins_semantics counter_bc ex_natives (lib := ex_lib)
                            (counter_vm (VInt 41)) 4 (mkins SPN_INS_INC 0 0 0) SPN_INS_INC
                            true 4 2 (VInt 41) eq_refl eq_refl (or_introl eq_refl)
                            eq_refl eq_refl eq_refl)) 41 eq_refl)
    as (vm' & Hstep & Hv & _ & Ho).
  - unfold in_long, LONG_MIN, LONG_MAX. lia.
  - exists vm'. split; [exact Hstep|]. split; [exact Hv|exact Ho].
Defined.

Lemma inc_dec_round_trip_witness :
  ∃ vm1, dispatch_step counter_bc ex_natives (lib := ex_lib) (counter_vm (VInt 41)) 4 true
           = Some (Next 5 vm1) ∧
         val_at vm1 2 = Some (VInt 42) ∧
         dispatch_step counter_bc ex_natives (lib := ex_lib) vm1 5 true
           = Some (Next 6 (counter_vm (VInt 41))).
Proof.
  apply (inc_dec_round_trip counter_bc ex_natives (lib := ex_lib) (counter_vm (VInt 41)) 4 5
           (mkins SPN_INS_INC 0 0 0) (mkins SPN_INS_DEC 0 0 0) true 4 2 41
           eq_refl eq_refl eq_refl eq_refl eq_refl eq_refl eq_refl eq_refl).
  unfold LONG_MIN, LONG_MAX. lia.
Defined.


Lemma not_ins_semantics_witness :
  (∃ vm', dispatch_step (arith_bc SPN_INS_BITNOT) ex_natives (lib := ex_lib)
            (arith_vm (VInt 5) VNil) 4 true = Some (Next 5 vm') ∧
          val_at vm' 2 = Some (VInt (-6))) ∧
  dispatch_step (arith_bc SPN_INS_LOGNOT) ex_natives (lib := ex_lib)
    (arith_vm (VInt 5) VNil) 4 true =
    Some (Exit (-1)
            (with_error
               "runtime error at address 0x00000004: logical negation of non-Boolean value"
               (arith_vm (VInt 5) VNil)) None).
Proof.
  split.
  - destruct (proj2 (proj1 (not_ins_semantics (arith_bc SPN_INS_BITNOT) ex_natives
                              (lib := ex_lib) (arith_vm (VInt 5) VNil) 4
                              (mkins SPN_INS_BITNOT 0 1 2) SPN_INS_BITNOT true 4 2 VNil
                              (VInt 5) eq_refl eq_refl eq_refl eq_refl eq_refl eq_refl)
                       eq_refl) 5 eq_refl)
      as (vm' & Hstep & Hv & _).
    exists vm'. split; [exact Hstep|exact Hv].
  - exact (proj1 (proj2 (not_ins_semantics (arith_bc SPN_INS_LOGNOT) ex_natives
                           (lib := ex_lib) (arith_vm (VInt 5) VNil) 4
                           (mkins SPN_INS_LOGNOT 0 1 2) SPN_INS_LOGNOT true 4 2 VNil
                           (VInt 5) eq_refl eq_refl eq_refl eq_refl eq_refl eq_refl)
                    eq_refl) eq_refl 4 eq_refl).
Defined.

(** ** Values and objects *)

Lemma stringvalue_obj vm o :
  stringvalue vm (VString o) =
    match obj_at (objs vm) o with Some (OString s) => Some s | _ => None end.
Proof. unfold stringvalue, obj_at. destruct (objs vm !! o) as [[rc ob]|]; reflexivity. Qed.

Lemma stringvalue_inv vm v str :
  stringvalue vm v = Some str → ∃ o, v = VString o.
Proof. destruct v; try discriminate. eauto. Qed.

Lemma string_length_append (s1 s2 : string) :
  String.length (s1 +:+ s2) = (String.length s1 + String.length s2)%nat.
Proof.
  induction s1 as [|ch s1 IH]; [reflexivity|].
  change (S (String.length (s1 +:+ s2)) = S (String.length s1 + String.length s2)).
  rewrite IH. reflexivity.
Qed.

Lemma string_get_lt (str : string) : ∀ n,
  (n < String.length str)%nat → is_Some (String.get n str).
Proof.
  induction str as [|ch str IH]; intros n Hn; simpl in *; [lia|].
  destruct n as [|n]; [eexists; reflexivity|]. apply IH. lia.
Qed.

Lemma release_retain_cancel v (h : gmap positive Cell) :
  release_in v (retain_in v h) = h.
Proof.
  unfold release_in, retain_in. destruct (objptr v) as [o|]; [|reflexivity].
  rewrite alter_alter_eq. apply map_eq. intros k.
  destruct (decide (o = k)) as [->|Hne].
  - rewrite lookup_alter_eq. destruct (h !! k) as [[rc ob]|]; [|reflexivity].
    simpl. unfold bump. simpl. do 2 f_equal. lia.
  - rewrite lookup_alter_ne by assumption. reflexivity.
Qed.

(** The heap after an object was allocated at the fresh address [t] and the
    value [old] was released. *)
Lemma heap_after_alloc (h : gmap positive Cell) (t : addr) (ob : SpnObject)
    (old : SpnValue) :
  h !! t = None → points_into h old →
  let h' := release_in old (<[t := mkCell 1 ob]> h) in
  obj_at h' t = Some ob ∧ refcount_in h' t = 1 ∧
  (∀ o, is_Some (h !! o) →
     obj_at h' o = obj_at h o ∧ refcount_in h' o = refcount_in h o - points_to old o).
Proof.
  intros Ht Hold h'. unfold h'.
  assert (Hnot : objptr old ≠ Some t).
  { intros Heq. destruct (Hold t Heq) as [x Hx]. congruence. }
  split; [|split].
  - rewrite obj_at_release_in. unfold obj_at. rewrite lookup_insert_eq. reflexivity.
  - rewrite refcount_in_release by (rewrite lookup_insert_eq; eauto).
    rewrite bool_decide_eq_false_2 by exact Hnot.
    unfold refcount_in. rewrite lookup_insert_eq. reflexivity.
  - intros o Ho. assert (Hne : t ≠ o) by (intros ->; destruct Ho; congruence).
    split.
    + rewrite obj_at_release_in. unfold obj_at. rewrite lookup_insert_ne by exact Hne.
      reflexivity.
    + rewrite refcount_in_release by (rewrite lookup_insert_ne by exact Hne; exact Ho).
      unfold refcount_in at 1. rewrite lookup_insert_ne by exact Hne. reflexivity.
Qed.

Lemma fresh_not_in (h : gmap positive Cell) : h !! fresh (dom h) = None.
Proof. apply not_elem_of_dom. apply is_fresh. Qed.

Lemma val_at_set_objs vm h i : val_at (set_objs h vm) i = val_at vm i.
Proof. reflexivity. Qed.

Lemma format_sizeof (t : string) :
  spn_string_format_cstr "sizeof applied to a %s value" [FStr t] =
  "sizeof applied to a " +:+ t +:+ " value".
Proof. lazy -[String.append]. reflexivity. Qed.

Lemma format_string_index (idx len : Z) :
  spn_string_format_cstr
    ("character at normalized index %d is " +:+ "out of bounds for string of length %d")
    [FNum idx; FNum len] =
  "character at normalized index " +:+ decimal idx +:+
  " is out of bounds for string of length " +:+ decimal len.
Proof.
  change ("character at normalized index %d is " +:+ "out of bounds for string of length %d")
    with "character at normalized index %d is out of bounds for string of length %d".
  lazy -[String.append decimal]. rewrite append_empty. reflexivity.
Qed.

Lemma vm_ext (vm vm' : SpnVMachine) :
  stack vm' = stack vm → sp vm' = sp vm → stackallsz vm' = stackallsz vm →
  glbsymtab vm' = glbsymtab vm → errmsg vm' = errmsg vm → haserror vm' = haserror vm →
  ctx vm' = ctx vm → objs vm' = objs vm → vm' = vm.
Proof. destruct vm, vm'; simpl. intros; subst; reflexivity. Qed.

Section Objects.

Context (bc : list Z) (natives : nat → NativeFn) {lib : ObjectLibrary}.

(** X19: SIZEOF records "sizeof applied to a <type> value" and returns -1
    when register B holds neither a string nor an array; for a string
    register A receives its length, for an array the count the object
    library reports; the previous value of A is released. *)
Theorem sizeof_ins_semantics (vm : SpnVMachine) (ip ins : Z) (rv : bool)
    (s a : Z) (old b : SpnValue) :
  fetch bc ip = Some ins → decode_opcode (OPCODE ins) = Some SPN_INS_SIZEOF →
  sp vm = Some s →
  SLOTPTR vm s (OPA ins) = Some a → val_at vm a = Some old →
  reg_get vm s (OPB ins) = Some b →
  (isarray b = false → isstring b = false →
     ∀ addr, prog_addr vm ip = Some addr →
       dispatch_step bc natives vm ip rv =
         Some (Exit (-1)
                 (with_error
                    (error_at addr ("sizeof applied to a " +:+ spn_type_name b +:+ " value"))
                    vm) None)) ∧
  (∀ str, stringvalue vm b = Some str →
     ∃ vm', dispatch_step bc natives vm ip rv = Some (Next (ip + 1) vm') ∧
       val_at vm' a = Some (VInt (Z.of_nat (String.length str))) ∧
       objs vm' = release_in old (objs vm)) ∧
  (∀ o, b = VArray o →
     ∃ vm', dispatch_step bc natives vm ip rv = Some (Next (ip + 1) vm') ∧
       val_at vm' a = Some (VInt (spn_array_count vm o)) ∧
       objs vm' = release_in old (objs vm)).
Proof.
  intros Hins Hop Hsp Ha Hold Hb.
  assert (Hstep : dispatch_step bc natives vm ip rv = ins_sizeof vm ins (ip + 1)).
  { unfold dispatch_step. rewrite Hins. binds. rewrite Hop. reflexivity. }
  rewrite Hstep. unfold ins_sizeof. rewrite Hsp. binds. rewrite Ha. binds.
  rewrite Hb. binds.
  replace (ip + 1 - 1) with ip by lia.
  split; [|split].
  - intros Harr Hstr addr Haddr. rewrite Harr, Hstr. cbn [negb andb].
    apply raise_at; [exact Haddr|apply format_sizeof].
  - intros str Hs. destruct (stringvalue_inv _ _ _ Hs) as [o ->].
    cbn [isarray isstring negb andb sizeof_value]. rewrite Hs. binds.
    destruct (replace_at_spec vm a old (makeint (Z.of_nat (String.length str))) Hold)
      as (vm' & Hrep & Hv & _ & Ho & _).
    rewrite Hrep. binds. exists vm'. repeat split; assumption.
  - intros o ->. cbn [isarray isstring negb andb sizeof_value]. binds.
    destruct (replace_at_spec vm a old (makeint (spn_array_count vm o)) Hold)
      as (vm' & Hrep & Hv & _ & Ho & _).
    rewrite Hrep. binds. exists vm'. repeat split; assumption.
Qed.

(** X20: TYPEOF never raises an error: whatever register B holds, register
    A is released and receives a string object that did not exist before,
    holds the type name the object library gives for the value, and has
    one reference; the reference counts of the other objects change only by
    the release of the previous value of A. *)
Theorem typeof_ins_semantics (vm : SpnVMachine) (ip ins : Z) (rv : bool)
    (s a : Z) (old b : SpnValue) :
  fetch bc ip = Some ins → decode_opcode (OPCODE ins) = Some SPN_INS_TYPEOF →
  sp vm = Some s →
  SLOTPTR vm s (OPA ins) = Some a → val_at vm a = Some old →
  reg_get vm s (OPB ins) = Some b →
  points_into (objs vm) old →
  ∃ vm' t, dispatch_step bc natives vm ip rv = Some (Next (ip + 1) vm') ∧
    objs vm !! t = None ∧
    val_at vm' a = Some (VString t) ∧
    stringvalue vm' (VString t) = Some (spn_type_name b) ∧
    refcount vm' t = 1 ∧
    (∀ o, is_Some (objs vm !! o) →
       obj_at (objs vm') o = obj_at (objs vm) o ∧
       refcount vm' o = refcount vm o - points_to old o) ∧
    haserror vm' = haserror vm.
Proof.
  intros Hins Hop Hsp Ha Hold Hb Hin.
  assert (Hstep : dispatch_step bc natives vm ip rv = ins_typeof vm ins (ip + 1)).
  { unfold dispatch_step. rewrite Hins. binds. rewrite Hop. reflexivity. }
  rewrite Hstep. unfold ins_typeof. rewrite Hsp. binds. rewrite Ha. binds.
  rewrite Hb. binds.
  cbv beta iota zeta delta [typeof_value makestring_nocopy alloc].
  set (t := fresh (dom (objs vm))).
  set (vm1 := set_objs (<[t := mkCell 1 (OString (spn_type_name b))]> (objs vm)) vm).
  destruct (replace_at_spec vm1 a old (VString t) Hold)
    as (vm' & Hrep & Hv & _ & Ho & _ & _ & _ & _ & _ & Hh & _).
  rewrite Hrep. binds. exists vm', t.
  destruct (heap_after_alloc (objs vm) t (OString (spn_type_name b)) old
              (fresh_not_in _) Hin) as (Hobj & Hrc & Hrest).
  change (objs vm1) with (<[t := mkCell 1 (OString (spn_type_name b))]> (objs vm)) in Ho.
  split; [reflexivity|]. split; [apply fresh_not_in|]. split; [exact Hv|].
  split; [rewrite stringvalue_obj, Ho, Hobj; reflexivity|].
  split; [rewrite refcount_objs, Ho; exact Hrc|].
  split; [|exact Hh].
  intros o Hpresent. rewrite !refcount_objs, Ho. apply Hrest. exact Hpresent.
Qed.

(** X21: CONCAT records "concatenation of non-string values" and returns
    -1 unless registers B and C both hold strings; otherwise register A is
    released and receives a string object that did not exist before, with
    one reference, which holds the characters of B followed by those of C,
    so that its size is the sum of the two sizes; the operands are not
    retained, released or changed. *)
Theorem concat_ins_semantics (vm : SpnVMachine) (ip ins : Z) (rv : bool)
    (s a : Z) (old b c : SpnValue) :
  fetch bc ip = Some ins → decode_opcode (OPCODE ins) = Some SPN_INS_CONCAT →
  sp vm = Some s →
  SLOTPTR vm s (OPA ins) = Some a → val_at vm a = Some old →
  reg_get vm s (OPB ins) = Some b →
  reg_get vm s (OPC ins) = Some c →
  (isstring b && isstring c = false →
     ∀ addr, prog_addr vm ip = Some addr →
       dispatch_step bc natives vm ip rv =
         Some (Exit (-1)
                 (with_error (error_at addr "concatenation of non-string values") vm)
                 None)) ∧
  (∀ sb sc, stringvalue vm b = Some sb → stringvalue vm c = Some sc →
     points_into (objs vm) old →
     ∃ vm' t, dispatch_step bc natives vm ip rv = Some (Next (ip + 1) vm') ∧
       objs vm !! t = None ∧
       val_at vm' a = Some (VString t) ∧
       stringvalue vm' (VString t) = Some (sb +:+ sc) ∧
       sizeof_value vm' (VString t) =
         Some (VInt (Z.of_nat (String.length sb) + Z.of_nat (String.length sc))) ∧
       refcount vm' t = 1 ∧
       stringvalue vm' b = Some sb ∧ stringvalue vm' c = Some sc ∧
       (∀ o, is_Some (objs vm !! o) → refcount vm' o = refcount vm o - points_to old o)).
Proof.
  intros Hins Hop Hsp Ha Hold Hb Hc.
  assert (Hstep : dispatch_step bc natives vm ip rv = ins_concat vm ins (ip + 1)).
  { unfold dispatch_step. rewrite Hins. binds. rewrite Hop. reflexivity. }
  rewrite Hstep. unfold ins_concat. rewrite Hsp. binds. rewrite Ha. binds.
  rewrite Hb. binds. rewrite Hc. binds.
  replace (ip + 1 - 1) with ip by lia.
  split.
  - intros Hstr addr Haddr.
    assert (negb (isstring b) || negb (isstring c) = true) as ->.
    { destruct (isstring b), (isstring c); simpl in *; congruence. }
    apply raise_at; [exact Haddr|reflexivity].
  - intros sb sc Hsb Hsc Hin.
    destruct (stringvalue_inv _ _ _ Hsb) as [ob Eb].
    destruct (stringvalue_inv _ _ _ Hsc) as [oc Ec].
    assert (negb (isstring b) || negb (isstring c) = false) as ->
      by (rewrite Eb, Ec; reflexivity).
    rewrite Hsb. binds. rewrite Hsc. binds.
    cbv beta iota zeta delta [makestring_nocopy alloc].
    set (t := fresh (dom (objs vm))).
    set (vm1 := set_objs (<[t := mkCell 1 (OString (sb +:+ sc))]> (objs vm)) vm).
    destruct (replace_at_spec vm1 a old (VString t) Hold)
      as (vm' & Hrep & Hv & _ & Ho & _).
    rewrite Hrep. binds. exists vm', t.
    destruct (heap_after_alloc (objs vm) t (OString (sb +:+ sc)) old
                (fresh_not_in _) Hin) as (Hobj & Hrc & Hrest).
    change (objs vm1) with (<[t := mkCell 1 (OString (sb +:+ sc))]> (objs vm)) in Ho.
    assert (Hsv : stringvalue vm' (VString t) = Some (sb +:+ sc))
      by (rewrite stringvalue_obj, Ho, Hobj; reflexivity).
    assert (Hkeep : ∀ o str, stringvalue vm (VString o) = Some str →
                      stringvalue vm' (VString o) = Some str).
    { intros o str Hstr. rewrite stringvalue_obj in *. rewrite Ho.
      assert (Hpres : is_Some (objs vm !! o)).
      { unfold obj_at in Hstr. destruct (objs vm !! o); [eauto|discriminate]. }
      rewrite (proj1 (Hrest o Hpres)). exact Hstr. }
    split; [reflexivity|]. split; [apply fresh_not_in|]. split; [exact Hv|].
    split; [exact Hsv|]. split.
    { unfold sizeof_value. rewrite Hsv. binds. rewrite string_length_append.
      unfold makeint. do 2 f_equal. lia. }
    split; [rewrite refcount_objs, Ho; exact Hrc|].
    split; [rewrite Eb in *; apply Hkeep; exact Hsb|].
    split; [rewrite Ec in *; apply Hkeep; exact Hsc|].
    intros o Hpresent. rewrite !refcount_objs, Ho. apply Hrest. exact Hpresent.
Qed.

(** X22: LDCONST releases register A and loads the constant whose kind
    operand B names: nil, true or false, after which execution goes on at
    the next word, or the 64-bit integer stored in the two words that
    follow the instruction, low word first, after which execution goes on
    behind these two words: every [long] is loaded back from the two words
    that hold its two's-complement halves.  A kind that is not one of the
    five the dispatcher knows is not handled. *)
Theorem ldconst_ins_semantics (vm : SpnVMachine) (ip ins : Z) (rv : bool)
    (s dst : Z) (old : SpnValue) :
  fetch bc ip = Some ins → decode_opcode (OPCODE ins) = Some SPN_INS_LDCONST →
  sp vm = Some s →
  SLOTPTR vm s (OPA ins) = Some dst → val_at vm dst = Some old →
  (∀ v, (OPB ins = 0 ∧ v = VNil) ∨ (OPB ins = 1 ∧ v = VBool true) ∨
        (OPB ins = 2 ∧ v = VBool false) →
     ∃ vm', dispatch_step bc natives vm ip rv = Some (Next (ip + 1) vm') ∧
       val_at vm' dst = Some v ∧ objs vm' = release_in old (objs vm)) ∧
  (OPB ins = 3 →
     ∀ n, in_long n →
       fetch bc (ip + 1) = Some (n mod 2 ^ 32) →
       fetch bc (ip + 2) = Some ((n / 2 ^ 32) mod 2 ^ 32) →
       ∃ vm', dispatch_step bc natives vm ip rv = Some (Next (ip + 3) vm') ∧
         val_at vm' dst = Some (VInt n) ∧ objs vm' = release_in old (objs vm)) ∧
  (5 <= OPB ins → dispatch_step bc natives vm ip rv = None).
Proof.
  intros Hins Hop Hsp Hdst Hold.
  assert (Hstep : dispatch_step bc natives vm ip rv = ins_ldconst bc vm ins (ip + 1)).
  { unfold dispatch_step. rewrite Hins. binds. rewrite Hop. reflexivity. }
  rewrite Hstep. unfold ins_ldconst. rewrite Hsp. binds. rewrite Hdst. binds.
  rewrite Hold. binds.
  assert (Hset : ∀ v, ∃ vm', slot_set (spn_value_release old vm) dst (SlotV v) = Some vm' ∧
                   val_at vm' dst = Some v ∧ objs vm' = release_in old (objs vm)).
  { intros v. destruct (replace_at_spec vm dst old v Hold) as (vm' & Hrep & Hv & _ & Ho & _).
    unfold replace_at in Hrep. rewrite Hold in Hrep. exists vm'. repeat split; assumption. }
  split; [|split].
  - intros v Hv. destruct (Hset v) as (vm' & Hs & Hget & Ho).
    exists vm'. split; [|split; assumption].
    destruct Hv as [[-> ->] | [[-> ->] | [-> ->]]];
      cbv beta iota delta [decode_const_kind]; simpl lookup; binds;
      unfold makenil, makebool in *; rewrite Hs; reflexivity.
  - intros -> n Hn Hlo Hhi. cbv beta iota delta [decode_const_kind]. simpl lookup. binds.
    replace (ip + 1 + 1) with (ip + 2) by lia.
    rewrite Hlo. binds. rewrite Hhi. binds.
    assert (Hnum : long_wrap (n mod 2 ^ 32 + (n / 2 ^ 32) mod 2 ^ 32 * 2 ^ 32) = n).
    { replace (n mod 2 ^ 32 + (n / 2 ^ 32) mod 2 ^ 32 * 2 ^ 32) with (n mod 2 ^ 64).
      - unfold long_wrap. rewrite Zplus_mod_idemp_l.
        unfold in_long, LONG_MIN, LONG_MAX in Hn. rewrite Z.mod_small by lia. lia.
      - change (2 ^ 64) with (2 ^ 32 * 2 ^ 32). rewrite Z.rem_mul_r by lia. lia. }
    rewrite Hnum. destruct (Hset (VInt n)) as (vm' & Hs & Hget & Ho).
    unfold makeint. rewrite Hs. binds. exists vm'.
    split; [|split; assumption].
    do 2 f_equal. unfold ROUNDUP, SPN_WORD_OCTETS. change ((8 + 4 - 1) / 4) with 2. lia.
  - intros Hkind.
    assert (Hnone : decode_const_kind (OPB ins) = None).
    { unfold decode_const_kind. apply lookup_ge_None_2. simpl. lia. }
    rewrite Hnone. reflexivity.
Qed.

(** X23: MOV retains the value of register B, releases register A and
    stores the value there, whatever its type; a MOV of a register onto
    itself leaves the machine exactly as it was. *)
Theorem mov_ins_semantics (vm : SpnVMachine) (ip ins : Z) (rv : bool)
    (s a : Z) (old b : SpnValue) :
  fetch bc ip = Some ins → decode_opcode (OPCODE ins) = Some SPN_INS_MOV →
  sp vm = Some s →
  SLOTPTR vm s (OPA ins) = Some a → val_at vm a = Some old →
  reg_get vm s (OPB ins) = Some b →
  ∃ vm', dispatch_step bc natives vm ip rv = Some (Next (ip + 1) vm') ∧
    val_at vm' a = Some b ∧
    (∀ k, k ≠ a → slot_get vm' k = slot_get vm k) ∧
    objs vm' = release_in old (retain_in b (objs vm)) ∧
    (OPB ins = OPA ins → vm' = vm).
Proof.
  intros Hins Hop Hsp Ha Hold Hb.
  assert (Hstep : dispatch_step bc natives vm ip rv = ins_mov vm ins (ip + 1)).
  { unfold dispatch_step. rewrite Hins. binds. rewrite Hop. reflexivity. }
  rewrite Hstep. unfold ins_mov. rewrite Hsp. binds. rewrite Ha. binds.
  rewrite Hb. binds.
  destruct (assign_at_spec vm a old b Hold)
    as (vm' & Hassign & Hv & Hk & Ho & Hsp' & Hlen & Hall & Hg & He & Hh & Hc).
  rewrite Hassign. binds. exists vm'.
  split; [reflexivity|]. split; [exact Hv|]. split; [exact Hk|]. split; [exact Ho|].
  intros Hsame. assert (b = old) as ->.
  { unfold reg_get in Hb. rewrite Hsame, Ha in Hb. simpl in Hb. congruence. }
  apply vm_ext; try assumption.
  - apply list_eq. intros i.
    destruct (decide (i = Z.to_nat a)) as [->|Hne].
    + pose proof (val_at_lt _ _ _ Hold) as Hlt.
      unfold val_at in Hv, Hold. rewrite slot_get_stack in Hv, Hold by lia.
      destruct (stack vm' !! Z.to_nat a) as [[| |]|]; try discriminate.
      destruct (stack vm !! Z.to_nat a) as [[| |]|]; try discriminate.
      congruence.
    + pose proof (val_at_lt _ _ _ Hold) as Hlt.
      specialize (Hk (Z.of_nat i) ltac:(lia)).
      rewrite !slot_get_stack in Hk by lia. rewrite Nat2Z.id in Hk. exact Hk.
  - rewrite Ho. apply release_retain_cancel.
Qed.

(** X24: NEWARR releases register A and stores there an array that did not
    exist before, is empty and has one reference. *)
Theorem newarr_ins_semantics (vm : SpnVMachine) (ip ins : Z) (rv : bool)
    (s a : Z) (old : SpnValue) :
  fetch bc ip = Some ins → decode_opcode (OPCODE ins) = Some SPN_INS_NEWARR →
  sp vm = Some s →
  SLOTPTR vm s (OPA ins) = Some a → val_at vm a = Some old →
  ∃ vm' t, dispatch_step bc natives vm ip rv = Some (Next (ip + 1) vm') ∧
    objs vm !! t = None ∧
    val_at vm' a = Some (VArray t) ∧
    obj_at (objs vm') t = Some (OArray ∅ ∅) ∧
    refcount vm' t = 1 ∧
    (∀ k, spn_array_get_intkey vm' t k = Some VNil) ∧
    (∀ k, spn_array_get_strkey vm' t k = Some VNil) ∧
    (∀ o, is_Some (objs vm !! o) → refcount vm' o = refcount vm o - points_to old o).
Proof.
  intros Hins Hop Hsp Ha Hold.
  assert (Hstep : dispatch_step bc natives vm ip rv = ins_newarr vm ins (ip + 1)).
  { unfold dispatch_step. rewrite Hins. binds. rewrite Hop. reflexivity. }
  rewrite Hstep. unfold ins_newarr. rewrite Hsp. binds. rewrite Ha. binds.
  rewrite Hold. binds.
  cbv beta iota zeta delta [makearray alloc].
  rewrite release_eq. cbn [objs set_objs].
  set (h1 := release_in old (objs vm)).
  set (t := fresh (dom h1)).
  pose proof (val_at_lt _ _ _ Hold) as Hlt.
  rewrite slot_set_Some by exact Hlt. binds.
  assert (Ht1 : h1 !! t = None) by apply fresh_not_in.
  assert (Ht : objs vm !! t = None).
  { destruct (objs vm !! t) eqn:E; [|reflexivity].
    assert (is_Some (h1 !! t)) as [x Hx]; [|congruence].
    apply is_Some_release_in. eauto. }
  eexists. exists t. split; [reflexivity|]. split; [exact Ht|].
  unfold set_stack, set_objs. cbn [objs stack].
  assert (Hobj : obj_at (<[t := mkCell 1 (OArray ∅ ∅)]> h1) t = Some (OArray ∅ ∅)).
  { unfold obj_at. rewrite lookup_insert_eq. reflexivity. }
  split.
  { unfold val_at, slot_get. cbn [stack].
    destruct (Z.leb_spec 0 a); [|lia].
    rewrite list_lookup_insert_eq by lia. reflexivity. }
  split; [exact Hobj|].
  split; [unfold refcount; cbn [objs]; rewrite lookup_insert_eq; reflexivity|].
  split; [intros k; rewrite get_intkey_obj; cbn [objs]; rewrite Hobj; reflexivity|].
  split; [intros k; rewrite get_strkey_obj; cbn [objs]; rewrite Hobj; reflexivity|].
  intros o Hpresent. assert (Hne : t ≠ o) by (intros ->; destruct Hpresent; congruence).
  unfold refcount at 1. cbn [objs]. rewrite lookup_insert_ne by exact Hne.
  fold (refcount_in h1 o). unfold h1. rewrite refcount_in_release by exact Hpresent.
  reflexivity.
Qed.

(** X25: ARRGET on an array retains what the object library finds under the
    key and stores it in the released register A.  On a string it demands
    an integer index (else "indexing string with non-integer value"),
    counts a negative index from the end of the string, and stores the
    character at the index as an integer; an index outside the string
    records "character at normalized index <index> is out of bounds for
    string of length <length>", the index being the normalized one.  On any
    other value it records "first operand of [] operator must be an array
    or a string".  Every error returns -1. *)
Theorem arrget_ins_semantics (vm : SpnVMachine) (ip ins : Z) (rv : bool)
    (s a : Z) (old b c : SpnValue) :
  fetch bc ip = Some ins → decode_opcode (OPCODE ins) = Some SPN_INS_ARRGET →
  sp vm = Some s →
  SLOTPTR vm s (OPA ins) = Some a → val_at vm a = Some old →
  reg_get vm s (OPB ins) = Some b →
  reg_get vm s (OPC ins) = Some c →
  (∀ o, b = VArray o →
     ∃ vm', dispatch_step bc natives vm ip rv = Some (Next (ip + 1) vm') ∧
       val_at vm' a = Some (spn_array_get vm o c) ∧
       objs vm' = release_in old (retain_in (spn_array_get vm o c) (objs vm))) ∧
  (isarray b = false → isstring b = false →
     ∀ addr, prog_addr vm ip = Some addr →
       dispatch_step bc natives vm ip rv =
         Some (Exit (-1)
                 (with_error
                    (error_at addr
                       "first operand of [] operator must be an array or a string") vm)
                 None)) ∧
  (∀ str, stringvalue vm b = Some str →
     let len := Z.of_nat (String.length str) in
     in_long len →
     (isint c = false →
        ∀ addr, prog_addr vm ip = Some addr →
          dispatch_step bc natives vm ip rv =
            Some (Exit (-1)
                    (with_error (error_at addr "indexing string with non-integer value") vm)
                    None)) ∧
     (∀ i, c = VInt i → - len <= i < len →
        let idx := if i <? 0 then len + i else i in
        ∃ vm' ch, String.get (Z.to_nat idx) str = Some ch ∧
          dispatch_step bc natives vm ip rv = Some (Next (ip + 1) vm') ∧
          val_at vm' a = Some (VInt (Z.of_nat (nat_of_ascii ch))) ∧
          objs vm' = release_in old (objs vm)) ∧
     (∀ i, c = VInt i → in_long i → i < - len ∨ len <= i →
        let idx := if i <? 0 then len + i else i in
        ∀ addr, prog_addr vm ip = Some addr →
          dispatch_step bc natives vm ip rv =
            Some (Exit (-1)
                    (with_error
                       (error_at addr
                          ("character at normalized index " +:+ decimal idx +:+
                           " is out of bounds for string of length " +:+ decimal len)) vm)
                    None))).
Proof.
  intros Hins Hop Hsp Ha Hold Hb Hc.
  assert (Hstep : dispatch_step bc natives vm ip rv = ins_arrget vm ins (ip + 1)).
  { unfold dispatch_step. rewrite Hins. binds. rewrite Hop. reflexivity. }
  rewrite Hstep. unfold ins_arrget. rewrite Hsp. binds. rewrite Ha. binds.
  rewrite Hb. binds. rewrite Hc. binds.
  replace (ip + 1 - 1) with ip by lia.
  split; [|split].
  - intros o ->.
    destruct (assign_at_spec vm a old (spn_array_get vm o c) Hold)
      as (vm' & Hassign & Hv & _ & Ho & _).
    rewrite Hassign. binds. exists vm'. repeat split; assumption.
  - intros Harr Hstr addr Haddr.
    destruct b; try discriminate; apply raise_at; solve [exact Haddr | reflexivity].
  - intros str Hs Hlen. destruct (stringvalue_inv _ _ _ Hs) as [o ->].
    rewrite Hs. binds.
    set (len := Z.of_nat (String.length str)) in *.
    split; [|split].
    + intros Hint addr Haddr. rewrite Hint. cbn [negb].
      apply raise_at; [exact Haddr|reflexivity].
    + intros i -> Hi. cbn [isint negb intvalue].
      set (idx := if i <? 0 then len + i else i).
      assert (Hidx : (if i <? 0 then long_wrap (len + i) else i) = idx).
      { unfold idx. destruct (Z.ltb_spec i 0); [|reflexivity].
        apply long_wrap_small. unfold in_long, LONG_MIN, LONG_MAX in *. lia. }
      rewrite Hidx.
      assert (Hin : 0 <= idx < len) by (unfold idx; destruct (Z.ltb_spec i 0); lia).
      destruct (Z.ltb_spec idx 0); [lia|]. destruct (Z.leb_spec len idx); [lia|].
      cbn [orb].
      destruct (string_get_lt str (Z.to_nat idx)) as [ch Hch]; [unfold len in Hin; lia|].
      rewrite Hch.
      destruct (replace_at_spec vm a old (makeint (Z.of_nat (nat_of_ascii ch))) Hold)
        as (vm' & Hrep & Hv & _ & Ho & _).
      rewrite Hrep. exists vm', ch. repeat split; assumption.
    + intros i -> Hi Hout addr Haddr. cbn [isint negb intvalue].
      set (idx := if i <? 0 then len + i else i).
      assert (Hidx : (if i <? 0 then long_wrap (len + i) else i) = idx).
      { unfold idx. destruct (Z.ltb_spec i 0); [|reflexivity].
        apply long_wrap_small. unfold in_long, LONG_MIN, LONG_MAX in *. lia. }
      rewrite Hidx.
      assert (Hcond : (idx <? 0) || (len <=? idx) = true).
      { unfold idx. destruct (Z.ltb_spec i 0).
        - destruct (Z.ltb_spec (len + i) 0); [reflexivity|lia].
        - destruct (Z.ltb_spec i 0); [lia|]. destruct (Z.leb_spec len i); [reflexivity|lia]. }
      rewrite Hcond. apply raise_at; [exact Haddr|apply format_string_index].
Qed.

(** X26: ARRSET records "assignment to member of non-array value" and
    returns -1 when register A holds no array, and "array index cannot be
    NaN" when the key in register B is a float that is not a number; in
    both cases the object library is not called.  Otherwise the key and the
    value are handed to the object library, and execution goes on at the
    next word with the machine it returns. *)
Theorem arrset_ins_semantics (vm : SpnVMachine) (ip ins : Z) (rv : bool)
    (s : Z) (a b c : SpnValue) :
  fetch bc ip = Some ins → decode_opcode (OPCODE ins) = Some SPN_INS_ARRSET →
  sp vm = Some s →
  reg_get vm s (OPA ins) = Some a →
  reg_get vm s (OPB ins) = Some b →
  reg_get vm s (OPC ins) = Some c →
  (isarray a = false →
     ∀ addr, prog_addr vm ip = Some addr →
       dispatch_step bc natives vm ip rv =
         Some (Exit (-1)
                 (with_error (error_at addr "assignment to member of non-array value") vm)
                 None)) ∧
  (∀ o f, a = VArray o → b = VFloat f → PrimFloat.is_nan f = true →
     ∀ addr, prog_addr vm ip = Some addr →
       dispatch_step bc natives vm ip rv =
         Some (Exit (-1) (with_error (error_at addr "array index cannot be NaN") vm) None)) ∧
  (∀ o, a = VArray o → (∀ f, b = VFloat f → PrimFloat.is_nan f = false) →
     dispatch_step bc natives vm ip rv = Some (Next (ip + 1) (spn_array_set vm o b c))).
Proof.
  intros Hins Hop Hsp Ha Hb Hc.
  assert (Hstep : dispatch_step bc natives vm ip rv = ins_arrset vm ins (ip + 1)).
  { unfold dispatch_step. rewrite Hins. binds. rewrite Hop. reflexivity. }
  rewrite Hstep. unfold ins_arrset. rewrite Hsp. binds. rewrite Ha. binds.
  rewrite Hb. binds. rewrite Hc. binds.
  replace (ip + 1 - 1) with ip by lia.
  split; [|split].
  - intros Harr addr Haddr.
    destruct a; try discriminate; apply raise_at; solve [exact Haddr | reflexivity].
  - intros o f -> -> Hnan addr Haddr. cbn [isfloat floatvalue andb].
    unfold PrimFloat.is_nan in Hnan. rewrite Hnan.
    apply raise_at; [exact Haddr|reflexivity].
  - intros o -> Hkey. destruct b as [| | |f| | | | |]; try reflexivity.
    cbn [isfloat floatvalue andb]. specialize (Hkey f eq_refl).
    unfold PrimFloat.is_nan in Hkey. rewrite Hkey. reflexivity.
Qed.

End Objects.

Lemma sizeof_ins_semantics_witness :
  ∃ vm', dispatch_step (arith_bc SPN_INS_SIZEOF) ex_natives (lib := ex_lib)
           (arith_vm (VString 3%positive) VNil) 4 true = Some (Next 5 vm') ∧
         val_at vm' 2 = Some (VInt 1).
Proof.
  destruct (proj1 (proj2 (sizeof_ins_semantics (arith_bc SPN_INS_SIZEOF) ex_natives
                            (lib := ex_lib) (arith_vm (VString 3%positive) VNil) 4
                            (mkins SPN_INS_SIZEOF 0 1 2) true 4 2 VNil (VString 3%positive)
                            eq_refl eq_refl eq_refl eq_refl eq_refl eq_refl))
              "s"%string eq_refl)
    as (vm' & Hstep & Hv & _).
  exists vm'. split; [exact Hstep|exact Hv].
Defined.

Lemma typeof_ins_semantics_witness :
  ∃ vm' t, dispatch_step (arith_bc SPN_INS_TYPEOF) ex_natives (lib := ex_lib)
             (arith_vm (VInt 1) VNil) 4 true = Some (Next 5 vm') ∧
           val_at vm' 2 = Some (VString t) ∧
           stringvalue vm' (VString t) = Some "value"%string ∧
           refcount vm' t = 1.
Proof.
  destruct (typeof_ins_semantics (arith_bc SPN_INS_TYPEOF) ex_natives (lib := ex_lib)
              (arith_vm (VInt 1) VNil) 4 (mkins SPN_INS_TYPEOF 0 1 2) true 4 2 VNil (VInt 1)
              eq_refl eq_refl eq_refl eq_refl eq_refl eq_refl)
    as (vm' & t & Hstep & _ & Hv & Hs & Hrc & _).
  - intros o Ho. discriminate Ho.
  - exists vm', t. repeat split; assumption.
Defined.

Lemma concat_ins_semantics_witness :
  ∃ vm' t, dispatch_step (arith_bc SPN_INS_CONCAT) ex_natives (lib := ex_lib)
             (arith_vm (VString 3%positive) (VString 3%positive)) 4 true
             = Some (Next 5 vm') ∧
           val_at vm' 2 = Some (VString t) ∧
           stringvalue vm' (VString t) = Some "ss"%string ∧
           sizeof_value (lib := ex_lib) vm' (VString t) = Some (VInt 2) ∧
           refcount vm' 3%positive = 1.
Proof.
  destruct (proj2 (concat_ins_semantics (arith_bc SPN_INS_CONCAT) ex_natives (lib := ex_lib)
                     (arith_vm (VString 3%positive) (VString 3%positive)) 4
                     (mkins SPN_INS_CONCAT 0 1 2) true 4 2 VNil (VString 3%positive)
                     (VString 3%positive) eq_refl eq_refl eq_refl eq_refl eq_refl eq_refl
                     eq_refl)
              "s"%string "s"%string eq_refl eq_refl)
    as (vm' & t & Hstep & _ & Hv & Hs & Hsz & _ & _ & _ & Hrc).
  - intros o Ho. discriminate Ho.
  - exists vm', t. split; [exact Hstep|]. split; [exact Hv|]. split; [exact Hs|].
    split; [exact Hsz|].
    rewrite (Hrc 3%positive) by (eexists; reflexivity). reflexivity.
Defined.

Lemma ldconst_ins_semantics_witness :
  ∃ vm', dispatch_step (code_with (mkins SPN_INS_LDCONST 0 3 0) (2 ^ 32 - 1) (2 ^ 32 - 1))
           ex_natives (lib := ex_lib) (arith_vm VNil VNil) 4 true = Some (Next 7 vm') ∧
         val_at vm' 2 = Some (VInt (-1)).
Proof.
  destruct (proj1 (proj2 (ldconst_ins_semantics
                            (code_with (mkins SPN_INS_LDCONST 0 3 0) (2 ^ 32 - 1) (2 ^ 32 - 1))
                            ex_natives (lib := ex_lib) (arith_vm VNil VNil) 4
                            (mkins SPN_INS_LDCONST 0 3 0) true 4 2 VNil
                            eq_refl eq_refl eq_refl eq_refl eq_refl))
              eq_refl (-1))
    as (vm' & Hstep & Hv & _).
  - unfold in_long, LONG_MIN, LONG_MAX. lia.
  - reflexivity.
  - reflexivity.
  - exists vm'. split; [exact Hstep|exact Hv].
Defined.

Lemma mov_ins_semantics_witness :
  ∃ vm', dispatch_step (arith_bc SPN_INS_MOV) ex_natives (lib := ex_lib)
           (arith_vm (VString 3%positive) VNil) 4 true = Some (Next 5 vm') ∧
         val_at vm' 2 = Some (VString 3%positive) ∧
         refcount vm' 3%positive = 2.
Proof.
  destruct (mov_ins_semantics (arith_bc SPN_INS_MOV) ex_natives (lib := ex_lib)
              (arith_vm (VString 3%positive) VNil) 4 (mkins SPN_INS_MOV 0 1 2) true 4 2 VNil
              (VString 3%positive) eq_refl eq_refl eq_refl eq_refl eq_refl eq_refl)
    as (vm' & Hstep & Hv & _ & Ho & _).
  exists vm'. split; [exact Hstep|]. split; [exact Hv|].
  unfold refcount. rewrite Ho. reflexivity.
Defined.

Lemma newarr_ins_semantics_witness :
  ∃ vm' t, dispatch_step (arith_bc SPN_INS_NEWARR) ex_natives (lib := ex_lib)
             (arith_vm VNil VNil) 4 true = Some (Next 5 vm') ∧
           val_at vm' 2 = Some (VArray t) ∧
           obj_at (objs vm') t = Some (OArray ∅ ∅) ∧ refcount vm' t = 1.
Proof.
  destruct (newarr_ins_semantics (arith_bc SPN_INS_NEWARR) ex_natives (lib := ex_lib)
              (arith_vm VNil VNil) 4 (mkins SPN_INS_NEWARR 0 1 2) true 4 2 VNil
              eq_refl eq_refl eq_refl eq_refl eq_refl)
    as (vm' & t & Hstep & _ & Hv & Hobj & Hrc & _).
  exists vm', t. repeat split; assumption.
Defined.

Lemma arrget_ins_semantics_witness :
  ∃ vm', dispatch_step (arith_bc SPN_INS_ARRGET) ex_natives (lib := ex_lib)
           (arith_vm (VString 3%positive) (VInt (-1))) 4 true = Some (Next 5 vm') ∧
         val_at vm' 2 = Some (VInt 115).
Proof.
  destruct (proj1 (proj2 (proj2 (proj2
              (arrget_ins_semantics (arith_bc SPN_INS_ARRGET) ex_natives (lib := ex_lib)
                 (arith_vm (VString 3%positive) (VInt (-1))) 4 (mkins SPN_INS_ARRGET 0 1 2)
                 true 4 2 VNil (VString 3%positive) (VInt (-1))
                 eq_refl eq_refl eq_refl eq_refl eq_refl eq_refl eq_refl))
              "s"%string eq_refl ltac:(unfold in_long, LONG_MIN, LONG_MAX; simpl; lia)))
              (-1) eq_refl ltac:(simpl; lia))
    as (vm' & ch & Hch & Hstep & Hv & _).
  exists vm'. split; [exact Hstep|].
  simpl in Hch. injection Hch as <-. exact Hv.
Defined.

Lemma arrset_ins_semantics_witness :
  dispatch_step (arith_bc SPN_INS_ARRSET) ex_natives (lib := ex_lib)
    (arith_vm (VInt 1) (VInt 2)) 4 true =
    Some (Exit (-1)
            (with_error
               "runtime error at address 0x00000004: assignment to member of non-array value"
               (arith_vm (VInt 1) (VInt 2))) None).
Proof.
  exact (proj1 (arrset_ins_semantics (arith_bc SPN_INS_ARRSET) ex_natives (lib := ex_lib)
                  (arith_vm (VInt 1) (VInt 2)) 4 (mkins SPN_INS_ARRSET 0 1 2) true 4
                  VNil (VInt 1) (VInt 2) eq_refl eq_refl eq_refl eq_refl eq_refl eq_refl)
           eq_refl 4 eq_refl).
Defined.

(** ** Calls of script functions *)

Lemma references_app o (l1 l2 : list SpnValue) :
  references o (l1 ++ l2) = references o l1 + references o l2.
Proof. induction l1 as [|x l1 IH]; simpl; [lia|]. rewrite IH. lia. Qed.

Lemma references_reverse o (l : list SpnValue) : references o (reverse l) = references o l.
Proof.
  induction l as [|x l IH]; [reflexivity|].
  rewrite reverse_cons, references_app, IH. simpl. lia.
Qed.

Lemma references_nil o n : references o (replicate n VNil) = 0.
Proof. induction n as [|n IH]; simpl; [reflexivity|]. rewrite IH. reflexivity. Qed.

Lemma references_bound o args decl nregs :
  0 <= decl → references o (bound_registers args decl nregs) = references o args.
Proof.
  intros Hdecl. unfold bound_registers.
  rewrite !references_app, references_nil.
  destruct (Z.le_gt_cases decl (Z.of_nat (length args))) as [Hle|Hgt].
  - rewrite Z.min_l by lia.
    rewrite <- (take_drop (Z.to_nat decl) args) at 3.
    rewrite references_app. lia.
  - rewrite Z.min_r by lia. rewrite Nat2Z.id.
    rewrite take_ge by lia. rewrite drop_ge by lia. simpl. lia.
Qed.

Lemma length_bound_registers args decl nregs :
  0 <= decl <= nregs →
  Z.of_nat (length (bound_registers args decl nregs)) =
    nregs + Z.max 0 (Z.of_nat (length args) - decl).
Proof.
  intros Hd. unfold bound_registers.
  rewrite !length_app, length_take, length_replicate, length_drop. lia.
Qed.

Lemma lookup_bound_registers args decl nregs r :
  0 <= decl <= nregs → 0 <= r →
  bound_registers args decl nregs !! Z.to_nat r =
    if r <? Z.min decl (Z.of_nat (length args)) then args !! Z.to_nat r
    else if r <? nregs then Some VNil
    else args !! Z.to_nat (r - nregs + decl).
Proof.
  intros Hd Hr. unfold bound_registers.
  set (m := Z.min decl (Z.of_nat (length args))).
  destruct (Z.ltb_spec r m) as [Hlt|Hge].
  - rewrite lookup_app_l by (rewrite length_take; lia).
    apply lookup_take_lt. lia.
  - rewrite lookup_app_r by (rewrite length_take; lia).
    rewrite length_take.
    replace (Z.to_nat r - Z.to_nat m `min` length args)%nat with (Z.to_nat (r - m)) by lia.
    destruct (Z.ltb_spec r nregs) as [Hlt|Hge'].
    + rewrite lookup_app_l by (rewrite length_replicate; lia).
      apply lookup_replicate_2. lia.
    + rewrite lookup_app_r by (rewrite length_replicate; lia).
      rewrite length_replicate, lookup_drop. f_equal. lia.
Qed.

(** The values of consecutive slots, read off a list. *)
Lemma slot_values_of_list vm (l : list SpnValue) : ∀ from,
  (∀ j, (j < length l)%nat → val_at vm (from + Z.of_nat j) = l !! j) →
  slot_values vm (length l) from = Some l.
Proof.
  induction l as [|x l IH]; intros from H; [reflexivity|].
  cbn [length slot_values].
  pose proof (H 0%nat ltac:(simpl; lia)) as H0.
  change (Z.of_nat 0) with 0 in H0. rewrite Z.add_0_r in H0. rewrite H0. simpl.
  rewrite (IH (from + 1)); [reflexivity|].
  intros j Hj. replace (from + 1 + Z.of_nat j) with (from + Z.of_nat (S j)) by lia.
  rewrite H by (simpl; lia). reflexivity.
Qed.

(** The frame a call has bound its arguments in holds [bound_registers]. *)
Lemma bound_frame vm0 args s0 S nregs decl extra hdr vm :
  0 <= decl <= nregs →
  extra = Z.max 0 (Z.of_nat (length args) - decl) →
  S = s0 + nregs + extra + 1 → 0 <= s0 →
  frame_size hdr = nregs + extra + 1 →
  bound_upto vm0 args s0 S nregs decl extra hdr (Z.of_nat (length args)) vm →
  (∀ r, 0 <= r < nregs + extra →
     val_at vm (S - r - 2) = bound_registers args decl nregs !! Z.to_nat r) ∧
  frame_values vm S hdr = Some (reverse (bound_registers args decl nregs)).
Proof.
  intros Hd Hextra HS Hs0 Hsize
    (Hsp & Hlen & Hrest & Hobjs & Hhdr & Hlow & Hargs & Hnil).
  set (argc := Z.of_nat (length args)) in *.
  assert (Hreg : ∀ r, 0 <= r < nregs + extra →
            val_at vm (S - r - 2) = bound_registers args decl nregs !! Z.to_nat r).
  { intros r Hr. rewrite lookup_bound_registers by lia. fold argc.
    destruct (Z.ltb_spec r (Z.min decl argc)) as [Hlt|Hge].
    - rewrite <- (Hargs r) by lia. unfold arg_reg.
      destruct (Z.ltb_spec r decl); [reflexivity|lia].
    - destruct (Z.ltb_spec r nregs) as [Hlt|Hge'].
      + apply Hnil; [lia|]. intros i Hi. unfold arg_reg.
        destruct (Z.ltb_spec i decl); lia.
      + rewrite <- (Hargs (r - nregs + decl)) by lia. unfold arg_reg.
        destruct (Z.ltb_spec (r - nregs + decl) decl); [lia|]. do 2 f_equal. lia. }
  split; [exact Hreg|].
  unfold frame_values. rewrite Hsize. unfold EXTRA_SLOTS.
  pose proof (length_bound_registers args decl nregs Hd) as HL. fold argc in HL.
  replace (Z.to_nat (nregs + extra + 1 - 1))
    with (length (reverse (bound_registers args decl nregs)))
    by (rewrite length_reverse; lia).
  apply slot_values_of_list. intros j Hj. rewrite length_reverse in Hj.
  rewrite reverse_lookup by exact Hj.
  replace (S - (nregs + extra + 1) + Z.of_nat j)
    with (S - (nregs + extra - 1 - Z.of_nat j) - 2) by lia.
  rewrite Hreg by lia. f_equal. lia.
Qed.

Lemma OPA_range ins : 0 <= OPA ins < 256.
Proof.
  unfold OPA. split.
  - apply Z.land_nonneg. right. lia.
  - change 255 with (Z.ones 8). rewrite Z.land_ones by lia.
    apply Z.mod_pos_bound. lia.
Qed.

Lemma is_Some_foldl_retain args : ∀ (h : gmap positive Cell) o,
  is_Some (foldl (λ h v, retain_in v h) h args !! o) ↔ is_Some (h !! o).
Proof.
  induction args as [|v args IH]; intros h o; [reflexivity|].
  simpl. rewrite IH. apply is_Some_retain_in.
Qed.

Lemma refcount_in_foldl_retain args : ∀ h o,
  is_Some (h !! o) →
  refcount_in (foldl (λ h v, retain_in v h) h args) o = refcount_in h o + references o args.
Proof.
  induction args as [|v args IH]; intros h o Ho; simpl; [lia|].
  rewrite IH by (apply is_Some_retain_in; exact Ho).
  rewrite refcount_in_retain by assumption. lia.
Qed.

Lemma obj_at_foldl_retain args : ∀ h o,
  obj_at (foldl (λ h v, retain_in v h) h args) o = obj_at h o.
Proof.
  induction args as [|v args IH]; intros h o; simpl; [reflexivity|].
  rewrite IH. apply obj_at_retain_in.
Qed.

Section ScriptCalls.

Context (bc : list Z) (natives : nat → NativeFn) {lib : ObjectLibrary}.

(** RET in a frame that returns to the host. *)
Lemma ret_to_host (vm : SpnVMachine) (ip ins : Z) (rv : bool) (s : Z) (h : TFrame)
    (res : SpnValue) (vals : list SpnValue) :
  fetch bc ip = Some ins → decode_opcode (OPCODE ins) = Some SPN_INS_RET →
  sp vm = Some s → frmhdr vm s = Some h →
  reg_get vm s (OPA ins) = Some res →
  frame_values vm s h = Some vals →
  retidx h < 0 → retaddr h = None →
  dispatch_step bc natives vm ip rv =
    Some (Exit 0
            (set_sp (Some (s - frame_size h))
               (set_objs (release_all vals
                            (if rv then retain_in res (objs vm) else objs vm)) vm))
            (if rv then Some res else None)).
Proof.
  intros Hins Hop Hsp Hh Hres Hvals Hidx Haddr.
  unfold dispatch_step. rewrite Hins. binds. rewrite Hop.
  unfold ins_ret. rewrite Hsp. binds. rewrite Hh. binds.
  unfold reg_get in Hres.
  destruct (SLOTPTR vm s (OPA ins)) as [p|]; [|discriminate]. simpl in Hres.
  binds. rewrite Hres. binds.
  destruct (Z.ltb_spec (retidx h) 0); [|lia].
  destruct rv.
  - binds.
    assert (Hpop : pop_frame (spn_value_retain res vm) =
              Some (set_sp (Some (s - frame_size h))
                      (set_objs (release_all vals (objs (spn_value_retain res vm)))
                         (spn_value_retain res vm)))).
    { apply pop_frame_spec.
      - destruct (retain_fields res vm) as (_ & -> & _). exact Hsp.
      - rewrite frmhdr_retain. exact Hh.
      - unfold frame_values. rewrite retain_eq, slot_values_set_objs. exact Hvals. }
    rewrite Hpop. binds.
    assert (Hh2 : frmhdr (set_sp (Some (s - frame_size h))
                           (set_objs (release_all vals (objs (spn_value_retain res vm)))
                              (spn_value_retain res vm))) s = Some h).
    { rewrite retain_eq. exact Hh. }
    rewrite Hh2. binds. rewrite Haddr. rewrite retain_eq. reflexivity.
  - binds. rewrite (pop_frame_spec vm s h vals Hsp Hh Hvals). binds.
    assert (Hh2 : frmhdr (set_sp (Some (s - frame_size h))
                           (set_objs (release_all vals (objs vm)) vm)) s = Some h)
      by exact Hh.
    rewrite Hh2. binds. rewrite Haddr. reflexivity.
Qed.

(** X27: a host call of a script function whose first instruction is
    [RET r] binds the arguments, returns 0 and unwinds the frame again: the
    value stored through the out-pointer is the argument bound to register
    [r] (nil when the register received none), the stack has the size it
    had, no object is changed, and every reference count is what it was,
    plus one for the object the returned value points to, which the host
    now owns; with a NULL out-pointer nothing is stored and no count
    changes. *)
Theorem callfunc_returns_register (fuel : nat) (vm : SpnVMachine) (fa : addr)
    (fnobj : SpnFunction) (argv : list SpnValue) (decl nregs ins : Z) (rv : bool) :
  haserror vm = false → stack_ok vm →
  func_at vm fa = Some fnobj → native fnobj = false → topprg fnobj = false →
  fetch bc (repr_bc fnobj + SPN_FUNCHDR_IDX_ARGC) = Some decl →
  fetch bc (repr_bc fnobj + SPN_FUNCHDR_IDX_NREGS) = Some nregs →
  0 <= decl <= nregs →
  fetch bc (repr_bc fnobj + SPN_FUNCHDR_LEN) = Some ins →
  decode_opcode (OPCODE ins) = Some SPN_INS_RET → OPA ins < nregs →
  let argc := Z.of_nat (length argv) in
  stacksize vm + nregs + Z.max 0 (argc - decl) + 1 <= 2 ^ 63 →
  (0 < fuel)%nat →
  let res := default VNil (bound_registers argv decl nregs !! Z.to_nat (OPA ins)) in
  ∃ vm', spn_vm_callfunc bc natives fuel vm (VFunc fa) rv argc argv =
           Some (0, vm', if rv then Some res else None) ∧
    res = (if OPA ins <? Z.min decl argc
           then default VNil (argv !! Z.to_nat (OPA ins)) else VNil) ∧
    sp vm' = Some (stacksize vm) ∧ haserror vm' = false ∧
    (∀ o, obj_at (objs vm') o = obj_at (objs vm) o) ∧
    (∀ o, is_Some (objs vm !! o) →
       refcount vm' o = refcount vm o + (if rv then points_to res o else 0)).
Proof.
  intros Hflag Hok Hfn Hnat Htop Hdecl Hnregs Hd Hins Hop HA argc Hbound Hfuel res.
  pose proof (OPA_range ins) as HA0.
  pose proof (stacksize_bounds vm Hok) as Hss.
  set (extra := Z.max 0 (argc - decl)) in *.
  set (S := stacksize vm + nregs + extra + 1).
  set (hdr := mkFrame (nregs + extra + 1) decl extra argc None (-1) fa).
  destruct (push_and_copy_args_bound bc vm fa fnobj (native_env argv) argc argv decl nregs)
    as (vm1 & Hpush & Hb); try assumption.
  { lia. } { unfold argc. rewrite Nat2Z.id. reflexivity. }
  { intros i Hi. unfold arg_src. destruct (Z.leb_spec 0 i); [reflexivity|lia]. }
  { exact I. }
  fold extra S hdr in Hb. simpl desc_retaddr in Hb. simpl desc_retidx in Hb.
  fold hdr in Hb.
  destruct (bound_frame vm argv (stacksize vm) S nregs decl extra hdr vm1)
    as (Hregs & Hvals); try assumption; try reflexivity; try lia.
  destruct Hb as (Hsp1 & Hlen1 & Hrest1 & Hobjs1 & Hhdr1 & Hlow1 & _ & _).
  assert (Hlook : is_Some (bound_registers argv decl nregs !! Z.to_nat (OPA ins))).
  { apply lookup_lt_is_Some.
    pose proof (length_bound_registers argv decl nregs Hd). lia. }
  destruct Hlook as [v Hv].
  assert (Hres : res = v) by (unfold res; rewrite Hv; reflexivity).
  assert (Hreg : reg_get vm1 S (OPA ins) = Some res).
  { unfold reg_get. rewrite (SLOTPTR_hdr vm1 S hdr _ Hhdr1) by (simpl; lia). simpl.
    rewrite Hregs by lia. rewrite Hv, Hres. reflexivity. }
  pose proof (ret_to_host vm1 (repr_bc fnobj + SPN_FUNCHDR_LEN) ins rv S hdr res _
                Hins Hop Hsp1 Hhdr1 Hreg Hvals ltac:(simpl; lia) eq_refl) as Hstep.
  eexists. split.
  { unfold spn_vm_callfunc. rewrite (clean_no_error fuel vm Hflag). binds.
    rewrite Hfn. binds. rewrite Hnat, Htop. binds. rewrite Hpush. binds.
    destruct fuel as [|fuel]; [lia|]. cbn [dispatch_loop]. rewrite Hstep. binds.
    reflexivity. }
  destruct Hrest1 as (Hg1 & He1 & Hh1 & Hc1).
  rewrite take_ge in Hobjs1 by lia.
  split.
  { unfold res. rewrite lookup_bound_registers by lia. fold argc.
    destruct (Z.ltb_spec (OPA ins) (Z.min decl argc)); [reflexivity|].
    destruct (Z.ltb_spec (OPA ins) nregs); [reflexivity|lia]. }
  split; [simpl; f_equal; unfold S; simpl; lia|].
  split; [simpl; rewrite Hh1; exact Hflag|].
  split.
  { intros o. simpl. rewrite obj_at_release_all.
    destruct rv; rewrite ?obj_at_retain_in, Hobjs1; apply obj_at_foldl_retain. }
  intros o Ho. rewrite !refcount_objs. simpl.
  assert (Ho1 : is_Some (objs vm1 !! o))
    by (rewrite Hobjs1; apply is_Some_foldl_retain; exact Ho).
  destruct rv.
  - rewrite refcount_in_release_all by (apply is_Some_retain_in; exact Ho1).
    rewrite refcount_in_retain by exact Ho1.
    rewrite Hobjs1, refcount_in_foldl_retain by exact Ho.
    rewrite references_reverse, references_bound by lia.
    unfold points_to. lia.
  - rewrite refcount_in_release_all by exact Ho1.
    rewrite Hobjs1, refcount_in_foldl_retain by exact Ho.
    rewrite references_reverse, references_bound by lia. lia.
Qed.

(** X28: in the frame a call has just set up, LDARGC loads the number of
    arguments the caller passed, whether it is below, equal to or above the
    number of formal parameters. *)
Theorem ldargc_after_call (vm : SpnVMachine) (fa : addr) (fnobj : SpnFunction)
    (desc : args_copy_descriptor) (argc : Z) (args : list SpnValue) (decl nregs : Z)
    (ip ins : Z) (rv : bool) :
  stack_ok vm →
  func_at vm fa = Some fnobj → native fnobj = false →
  fetch bc (repr_bc fnobj + SPN_FUNCHDR_IDX_ARGC) = Some decl →
  fetch bc (repr_bc fnobj + SPN_FUNCHDR_IDX_NREGS) = Some nregs →
  0 <= decl <= nregs → 0 <= argc →
  length args = Z.to_nat argc →
  (∀ i, 0 <= i < argc → arg_src bc vm desc i = args !! Z.to_nat i) →
  caller_below desc (stacksize vm) →
  stacksize vm + nregs + Z.max 0 (argc - decl) + 1 <= 2 ^ 63 →
  fetch bc ip = Some ins → decode_opcode (OPCODE ins) = Some SPN_INS_LDARGC →
  OPA ins < nregs →
  ∃ vm1 vm2 S, push_and_copy_args bc vm (VFunc fa) desc argc = Some vm1 ∧
    sp vm1 = Some S ∧
    dispatch_step bc natives vm1 ip rv = Some (Next (ip + 1) vm2) ∧
    reg_get vm2 S (OPA ins) = Some (VInt argc).
Proof.
  intros Hok Hfn Hnat Hdecl Hnregs Hd Hargc Hlen Hsrc Hcaller Hbound Hins Hop HA.
  pose proof (OPA_range ins) as HA0.
  pose proof (stacksize_bounds vm Hok) as Hss.
  set (extra := Z.max 0 (argc - decl)) in *.
  set (S := stacksize vm + nregs + extra + 1).
  set (hdr := mkFrame (nregs + extra + 1) decl extra argc
                (desc_retaddr desc) (desc_retidx desc) fa).
  destruct (push_and_copy_args_bound bc vm fa fnobj desc argc args decl nregs)
    as (vm1 & Hpush & Hb); try assumption.
  fold extra S hdr in Hb.
  assert (Hargc' : argc = Z.of_nat (length args)) by lia.
  destruct (bound_frame vm args (stacksize vm) S nregs decl extra hdr vm1)
    as (Hregs & _);
    [exact Hd | unfold extra; rewrite Hargc'; reflexivity | reflexivity | lia
    | reflexivity | rewrite <- Hargc'; exact Hb | ].
  destruct Hb as (Hsp1 & _ & _ & _ & Hhdr1 & _).
  assert (Hlook : is_Some (bound_registers args decl nregs !! Z.to_nat (OPA ins))).
  { apply lookup_lt_is_Some.
    pose proof (length_bound_registers args decl nregs Hd). lia. }
  destruct Hlook as [old Hold].
  assert (Hold1 : val_at vm1 (S - OPA ins - 2) = Some old).
  { rewrite Hregs by (unfold extra; lia). exact Hold. }
  assert (Hp : SLOTPTR vm1 S (OPA ins) = Some (S - OPA ins - 2))
    by (apply (SLOTPTR_hdr vm1 S hdr); [exact Hhdr1|simpl; unfold extra; lia]).
  destruct (replace_at_spec vm1 (S - OPA ins - 2) old (makeint argc) Hold1)
    as (vm2 & Hrep & Hv & Hk & _).
  exists vm1, vm2, S. split; [exact Hpush|]. split; [exact Hsp1|]. split.
  - unfold dispatch_step. rewrite Hins. binds. rewrite Hop.
    unfold ins_ldargc. rewrite Hsp1. binds. rewrite Hp. binds. rewrite Hhdr1. binds.
    change (real_argc hdr) with argc. rewrite Hrep. reflexivity.
  - unfold reg_get, SLOTPTR, frmhdr.
    rewrite Hk by (unfold IDX_FRMHDR; lia).
    fold (frmhdr vm1 S). rewrite Hhdr1. binds.
    change (frame_size hdr) with (nregs + extra + 1). unfold EXTRA_SLOTS, REG_OFFSET.
    destruct (Z.leb_spec 0 (OPA ins)); [|lia].
    destruct (Z.ltb_spec (OPA ins) (nregs + extra + 1 - 1)); [|unfold extra in *; lia].
    cbn [andb]. binds.
    replace (S + (- OPA ins + -2)) with (S - OPA ins - 2) by lia. exact Hv.
Qed.

End ScriptCalls.

Lemma callfunc_returns_register_witness :
  ∃ vm', spn_vm_callfunc (body_of (mkins SPN_INS_RET 1 0 0)) ex_natives (lib := ex_lib)
           1 ex_vm (VFunc 1%positive) true 3 [VInt 10; VString 3%positive; VInt 30] =
           Some (0, vm', Some (VString 3%positive)) ∧
         sp vm' = Some 0 ∧
         refcount ex_vm 3%positive = 1 ∧ refcount vm' 3%positive = 2.
Proof.
  destruct (callfunc_returns_register (body_of (mkins SPN_INS_RET 1 0 0)) ex_natives
              (lib := ex_lib) 1 ex_vm 1%positive ex_fn
              [VInt 10; VString 3%positive; VInt 30] 2 3 (mkins SPN_INS_RET 1 0 0) true
              eq_refl ltac:(split; reflexivity) eq_refl eq_refl eq_refl eq_refl eq_refl
              ltac:(lia) eq_refl eq_refl ltac:(vm_compute; reflexivity)
              ltac:(vm_compute; discriminate) ltac:(lia))
    as (vm' & Hrun & _ & Hsp & _ & _ & Hrc).
  exists vm'. split; [exact Hrun|]. split; [exact Hsp|]. split; [reflexivity|].
  rewrite (Hrc 3%positive) by (eexists; reflexivity). reflexivity.
Defined.

Lemma ldargc_after_call_witness :
  ∃ vm1 vm2 S, push_and_copy_args (body_of (mkins SPN_INS_LDARGC 2 0 0)) ex_vm
                 (VFunc 1%positive) (native_env [VInt 10; VString 3%positive; VInt 30]) 3
                 = Some vm1 ∧
    sp vm1 = Some S ∧
    dispatch_step (body_of (mkins SPN_INS_LDARGC 2 0 0)) ex_natives (lib := ex_lib) vm1 4 true
      = Some (Next 5 vm2) ∧
    reg_get vm2 S 2 = Some (VInt 3).
Proof.
  apply (ldargc_after_call (body_of (mkins SPN_INS_LDARGC 2 0 0)) ex_natives (lib := ex_lib)
           ex_vm 1%positive ex_fn (native_env [VInt 10; VString 3%positive; VInt 30]) 3
           [VInt 10; VString 3%positive; VInt 30] 2 3 4 (mkins SPN_INS_LDARGC 2 0 0) true).
  - split; reflexivity.
  - reflexivity.
  - reflexivity.
  - reflexivity.
  - reflexivity.
  - lia.
  - lia.
  - reflexivity.
  - intros i Hi. unfold arg_src. destruct (Z.leb_spec 0 i); [reflexivity|lia].
  - exact I.
  - vm_compute. discriminate.
  - reflexivity.
  - reflexivity.
  - vm_compute. reflexivity.
Defined.

(** ** The local symbol table *)

Lemma obj_at_insert_ne (h : gmap positive Cell) t c o :
  t ≠ o → obj_at (<[t := c]> h) o = obj_at h o.
Proof. intros Hne. unfold obj_at. rewrite lookup_insert_ne by exact Hne. reflexivity. Qed.

Lemma obj_at_present (h : gmap positive Cell) o ob :
  obj_at h o = Some ob → is_Some (h !! o).
Proof. unfold obj_at. destruct (h !! o); [eauto|discriminate]. Qed.

Lemma present_not_fresh (h : gmap positive Cell) (o : positive) :
  is_Some (h !! o) → fresh (dom h) ≠ o.
Proof.
  intros [c Hc] Heq. pose proof (fresh_not_in h) as Hf. rewrite Heq in Hf.
  assert (Some c = None) as HH; [rewrite <- Hc; exact Hf|discriminate HH].
Qed.

Lemma set_intkey_heap vm a k v vm' :
  spn_array_set_intkey vm a k v = Some vm' →
  ∃ old, spn_array_get_intkey vm a k = Some old ∧
    vm' = set_objs (alter (store_int k v) a (release_in old (retain_in v (objs vm)))) vm.
Proof.
  intros H. destruct (spn_array_get_intkey vm a k) as [old|] eqn:Hold.
  - rewrite (set_intkey_spec vm a k v old Hold) in H. injection H as <-. eauto.
  - unfold spn_array_set_intkey in H. rewrite Hold in H. discriminate.
Qed.

(** Storing a fresh object in a symbol table keeps every function object. *)
Lemma store_symbol_keeps vm ob tab i (mk : addr → SpnValue) vm2 program f :
  (∀ a, objptr (mk a) = Some a) →
  let a := fresh (dom (objs vm)) in
  spn_array_set_intkey (set_objs (<[a := mkCell 1 ob]> (objs vm)) vm) tab i (mk a)
    = Some vm2 →
  func_at vm program = Some f →
  ∃ h, spn_value_release (mk a) vm2 = set_objs h vm ∧
       obj_at h program = Some (OFunc f).
Proof.
  intros Hmk a Hset Hf.
  apply set_intkey_heap in Hset as (old & _ & ->).
  rewrite release_eq. eexists. split; [reflexivity|].
  cbn [objs set_objs].
  rewrite func_at_obj in Hf.
  destruct (obj_at (objs vm) program) as [[| |f'| |]|] eqn:Hobj; try discriminate.
  injection Hf as ->.
  assert (Hne : a ≠ program)
    by (apply present_not_fresh, (obj_at_present _ _ _ Hobj)).
  rewrite obj_at_release_in, obj_at_store_int.
  rewrite obj_at_release_in, obj_at_retain_in, obj_at_insert_ne by exact Hne.
  rewrite Hobj. destruct (decide (tab = program)); reflexivity.
Qed.

Lemma read_symbol_keeps bc program i stp vm stp' vm' f :
  read_symbol bc program i stp vm = Some (stp', vm') →
  func_at vm program = Some f →
  ∃ h, vm' = set_objs h vm ∧ obj_at h program = Some (OFunc f).
Proof.
  intros Hread Hf. unfold read_symbol in Hread. rewrite Hf in Hread.
  cbv beta iota delta [mbind option_bind] in Hread.
  destruct (fetch bc stp) as [ins|]; [|discriminate].
  destruct (decode_local_symbol (OPCODE ins)) as [[| |]|]; [| | |discriminate].
  - destruct (cstr_at bc (stp + 1) (OPLONG ins)) as [cstr|]; [|discriminate].
    cbv beta iota zeta delta [makestring_nocopy alloc] in Hread.
    match type of Hread with
    | match ?x with _ => _ end = _ => destruct x as [vm2|] eqn:Hset; [|discriminate]
    end.
    injection Hread as _ <-.
    exact (store_symbol_keeps vm _ _ _ VString vm2 program f (λ _, eq_refl) Hset Hf).
  - destruct (cstr_at bc (stp + 1) (OPLONG ins)) as [name|]; [|discriminate].
    cbv beta iota zeta delta [make_symstub alloc] in Hread.
    match type of Hread with
    | match ?x with _ => _ end = _ => destruct x as [vm2|] eqn:Hset; [|discriminate]
    end.
    injection Hread as _ <-.
    exact (store_symbol_keeps vm _ _ _ VSymStub vm2 program f (λ _, eq_refl) Hset Hf).
  - destruct (fetch bc (stp + 1)) as [hdroff|]; [|discriminate].
    destruct (fetch bc (stp + 1 + 1)) as [namelen|]; [|discriminate].
    destruct (cstr_at bc (stp + 1 + 1 + 1) namelen) as [name|]; [|discriminate].
    cbv beta iota zeta delta [makescriptfunc alloc] in Hread.
    match type of Hread with
    | match ?x with _ => _ end = _ => destruct x as [vm2|] eqn:Hset; [|discriminate]
    end.
    injection Hread as _ <-.
    exact (store_symbol_keeps vm _ _ _ VFunc vm2 program f (λ _, eq_refl) Hset Hf).
Qed.

Lemma func_at_set_objs vm h o f :
  obj_at h o = Some (OFunc f) → func_at (set_objs h vm) o = Some f.
Proof. intros H. rewrite func_at_obj. cbn [objs set_objs]. rewrite H. reflexivity. Qed.

Lemma read_symbols_keeps bc program f n : ∀ i stp vm vm',
  read_symbols bc n program i stp vm = Some vm' →
  func_at vm program = Some f →
  ∃ h, vm' = set_objs h vm ∧ obj_at h program = Some (OFunc f).
Proof.
  induction n as [|n IH]; intros i stp vm vm' Hread Hf.
  - injection Hread as <-. exists (objs vm). split; [destruct vm; reflexivity|].
    rewrite func_at_obj in Hf.
    destruct (obj_at (objs vm) program) as [[| |f'| |]|]; try discriminate.
    congruence.
  - cbn [read_symbols] in Hread.
    destruct (read_symbol bc program i stp vm) as [[stp1 vm1]|] eqn:Hone; [|discriminate].
    cbv beta iota delta [mbind option_bind] in Hread.
    destruct (read_symbol_keeps _ _ _ _ _ _ _ f Hone Hf) as (h1 & -> & Hobj1).
    destruct (IH _ _ _ _ Hread (func_at_set_objs vm h1 program f Hobj1))
      as (h & -> & Hobj).
    exists h. split; [reflexivity|exact Hobj].
Qed.

(** X29: read_local_symtab reads the symbol table of a top-level program at
    most once: a successful read sets the flag [readsymtab] of the program
    and changes nothing but the heap (the program keeps its other members),
    and a second read of the same program changes nothing at all, like the
    read of any program whose flag is set; a function that is not a
    top-level program fails the assertion. *)
Theorem read_local_symtab_once (bc : list Z) (vm : SpnVMachine) (program : addr)
    (prog : SpnFunction) :
  func_at vm program = Some prog →
  (∀ vm', read_local_symtab bc vm program = Some vm' →
     topprg prog = true ∧
     func_at vm' program = Some (symtab_read prog) ∧
     read_local_symtab bc vm' program = Some vm' ∧
     (∃ h, vm' = set_objs h vm) ∧
     (readsymtab prog = true → vm' = vm)) ∧
  (topprg prog = false → read_local_symtab bc vm program = None).
Proof.
  intros Hf. split.
  - intros vm' Hread. unfold read_local_symtab in Hread. rewrite Hf in Hread.
    cbv beta iota delta [mbind option_bind] in Hread.
    destruct (fetch bc (repr_bc prog + SPN_FUNCHDR_IDX_BODYLEN)) as [offset|] eqn:Hoff;
      [|discriminate].
    destruct (fetch bc (repr_bc prog + SPN_FUNCHDR_IDX_SYMCNT)) as [symcount|] eqn:Hcnt;
      [|discriminate].
    destruct (topprg prog) eqn:Htop; [|discriminate]. cbn [negb] in Hread.
    assert (Hagain : ∀ vm1 f1, func_at vm1 program = Some f1 →
              repr_bc f1 = repr_bc prog → topprg f1 = true → readsymtab f1 = true →
              read_local_symtab bc vm1 program = Some vm1).
    { intros vm1 f1 Hf1 Hbc Ht Hr. unfold read_local_symtab. rewrite Hf1.
      cbv beta iota delta [mbind option_bind]. rewrite Hbc, Hoff, Hcnt, Ht, Hr.
      reflexivity. }
    split; [reflexivity|].
    destruct (readsymtab prog) eqn:Hflag.
    + injection Hread as <-.
      assert (Hsame : symtab_read prog = prog).
      { clear - Hflag. unfold symtab_read. destruct prog; simpl in *.
        rewrite Hflag. reflexivity. }
      rewrite Hsame. split; [exact Hf|].
      split; [exact (Hagain vm prog Hf eq_refl Htop Hflag)|].
      split; [exists (objs vm); destruct vm; reflexivity|reflexivity].
    + match type of Hread with
      | read_symbols _ _ _ _ _ (update_func _ ?r _) = _ =>
          assert (Hp1 : r = symtab_read prog)
            by (unfold symtab_read; rewrite Htop; reflexivity);
          rewrite Hp1 in Hread
      end.
      assert (Hf1 : func_at (update_func program (symtab_read prog) vm) program
                    = Some (symtab_read prog)).
      { unfold func_at in *. unfold update_func. cbn [objs set_objs].
        rewrite lookup_alter_eq.
        destruct (objs vm !! program) as [[rc ob]|]; [|discriminate]. reflexivity. }
      destruct (read_symbols_keeps _ _ _ _ _ _ _ _ Hread Hf1) as (h & -> & Hobj).
      pose proof (func_at_set_objs (update_func program (symtab_read prog) vm) h program _ Hobj)
        as Hf2.
      split; [exact Hf2|].
      split; [exact (Hagain _ _ Hf2 eq_refl Htop eq_refl)|].
      split; [exists h; reflexivity|discriminate].
  - intros Htop. unfold read_local_symtab. rewrite Hf.
    cbv beta iota delta [mbind option_bind].
    destruct (fetch bc (repr_bc prog + SPN_FUNCHDR_IDX_BODYLEN)); [|reflexivity].
    destruct (fetch bc (repr_bc prog + SPN_FUNCHDR_IDX_SYMCNT)); [|reflexivity].
    rewrite Htop. reflexivity.
Qed.

Lemma read_local_symtab_once_witness :
  ∃ vm' t, read_local_symtab symtab_bc symtab_vm 1%positive = Some vm' ∧
    spn_array_get_intkey vm' 4%positive 0 = Some (VString t) ∧
    stringvalue vm' (VString t) = Some "hi"%string ∧
    read_local_symtab symtab_bc vm' 1%positive = Some vm'.
Proof.
  assert (∃ vm', read_local_symtab symtab_bc symtab_vm 1%positive = Some vm' ∧
            ∃ t, spn_array_get_intkey vm' 4%positive 0 = Some (VString t) ∧
                 stringvalue vm' (VString t) = Some "hi"%string)
    as (vm' & Hread & t & Hget & Hstr).
  { eexists. split; [vm_compute; reflexivity|].
    eexists. split; vm_compute; reflexivity. }
  exists vm', t. split; [exact Hread|]. split; [exact Hget|]. split; [exact Hstr|].
  exact (proj1 (proj2 (proj2 (proj1 (read_local_symtab_once symtab_bc symtab_vm 1%positive
                                       _ eq_refl) vm' Hread)))).
Defined.

(** ** Registering libraries *)

Lemma put_all_cons strs k v vals :
  put_all strs ((k, v) :: vals) =
    put_all (if isnil v then delete k strs else <[k := v]> strs) vals.
Proof. reflexivity. Qed.

Lemma put_all_other vals : ∀ strs name,
  name ∉ vals.*1 → put_all strs vals !! name = strs !! name.
Proof.
  induction vals as [|[k v] vals IH]; intros strs name Hnot; [reflexivity|].
  rewrite put_all_cons. cbn [fmap list_fmap fst] in Hnot.
  apply not_elem_of_cons in Hnot as [Hne Hnot].
  rewrite IH by exact Hnot.
  destruct (isnil v); [apply lookup_delete_ne|apply lookup_insert_ne]; congruence.
Qed.

Lemma put_all_bound vals : ∀ strs name v,
  NoDup (vals.*1) → (name, v) ∈ vals →
  default VNil (put_all strs vals !! name) = v.
Proof.
  induction vals as [|[k w] vals IH]; intros strs name v Hnd Hin.
  - apply elem_of_nil in Hin. contradiction.
  - rewrite put_all_cons. cbn [fmap list_fmap fst] in Hnd.
    apply NoDup_cons in Hnd as [Hk Hnd].
    apply elem_of_cons in Hin as [Heq|Hin].
    + injection Heq as -> ->. rewrite put_all_other by exact Hk.
      apply default_insert_lookup.
    + apply IH; assumption.
Qed.

Lemma set_strkey_heap vm a k v vm' :
  spn_array_set_strkey vm a k v = Some vm' →
  ∃ old, spn_array_get_strkey vm a k = Some old ∧
    vm' = set_objs (alter (store_str k v) a (release_in old (retain_in v (objs vm)))) vm.
Proof.
  intros H. destruct (spn_array_get_strkey vm a k) as [old|] eqn:Hold.
  - rewrite (set_strkey_spec vm a k v old Hold) in H. injection H as <-. eauto.
  - unfold spn_array_set_strkey in H. rewrite Hold in H. discriminate.
Qed.

Lemma refcount_in_store_str k v a (h : gmap positive Cell) o :
  refcount_in (alter (store_str k v) a h) o = refcount_in h o.
Proof.
  unfold refcount_in. destruct (decide (a = o)) as [->|Hne].
  - rewrite lookup_alter_eq. destruct (h !! o) as [[rc ob]|]; [|reflexivity].
    unfold store_str. simpl. destruct ob; reflexivity.
  - rewrite lookup_alter_ne by exact Hne. reflexivity.
Qed.

Lemma is_Some_store_str k v a (h : gmap positive Cell) o :
  is_Some (alter (store_str k v) a h !! o) ↔ is_Some (h !! o).
Proof.
  destruct (decide (a = o)) as [->|Hne].
  - rewrite lookup_alter_eq, fmap_is_Some. reflexivity.
  - rewrite lookup_alter_ne by exact Hne. reflexivity.
Qed.

Lemma get_strkey_set_objs vm h a k :
  spn_array_get_strkey (set_objs h vm) a k =
    match obj_at h a with
    | Some (OArray _ strs) => Some (default VNil (strs !! k))
    | _ => None
    end.
Proof. rewrite get_strkey_obj. reflexivity. Qed.

Lemma glbsymtab_set_objs vm h : glbsymtab (set_objs h vm) = glbsymtab vm.
Proof. reflexivity. Qed.

Lemma refcount_set_objs vm h o : refcount (set_objs h vm) o = refcount_in h o.
Proof. reflexivity. Qed.

(** The loop of spn_vm_addlib_values on an array. *)
Lemma add_values_spec st vals : ∀ vm ints strs,
  obj_at (objs vm) st = Some (OArray ints strs) →
  ∃ h, add_values st vals vm = Some (set_objs h vm) ∧
    obj_at h st = Some (OArray ints (put_all strs vals)) ∧
    (∀ o, o ≠ st → obj_at h o = obj_at (objs vm) o) ∧
    (∀ o, is_Some (h !! o) ↔ is_Some (objs vm !! o)) ∧
    ((∀ name, name ∈ vals.*1 → strs !! name = None) → NoDup (vals.*1) →
     ∀ o, is_Some (objs vm !! o) →
       refcount_in h o = refcount_in (objs vm) o + references o (vals.*2)).
Proof.
  induction vals as [|[k v] vals IH]; intros vm ints strs Hst.
  - exists (objs vm). split; [destruct vm; reflexivity|]. split; [exact Hst|].
    split; [reflexivity|]. split; [reflexivity|]. intros _ _ o _. simpl. lia.
  - cbn [add_values].
    assert (Hold : spn_array_get_strkey vm st k = Some (default VNil (strs !! k))).
    { rewrite get_strkey_obj, Hst. reflexivity. }
    rewrite (set_strkey_spec vm st k v _ Hold). binds.
    set (h1 := alter (store_str k v) st
                 (release_in (default VNil (strs !! k)) (retain_in v (objs vm)))).
    assert (Hst1 : obj_at h1 st
                   = Some (OArray ints (if isnil v then delete k strs else <[k := v]> strs))).
    { unfold h1. rewrite obj_at_store_str. rewrite decide_True by reflexivity.
      rewrite obj_at_release_in, obj_at_retain_in, Hst. reflexivity. }
    assert (Hother1 : ∀ o, o ≠ st → obj_at h1 o = obj_at (objs vm) o).
    { intros o Ho. unfold h1. rewrite obj_at_store_str.
      rewrite decide_False by congruence.
      rewrite obj_at_release_in, obj_at_retain_in. reflexivity. }
    assert (Hpres1 : ∀ o, is_Some (h1 !! o) ↔ is_Some (objs vm !! o)).
    { intros o. unfold h1.
      rewrite is_Some_store_str, is_Some_release_in, is_Some_retain_in. reflexivity. }
    destruct (IH (set_objs h1 vm) ints _ Hst1) as (h & Hrun & Hobj & Hother & Hpres & Hrc).
    exists h. split; [exact Hrun|]. split; [exact Hobj|].
    split; [intros o Ho; rewrite Hother by exact Ho; apply Hother1; exact Ho|].
    split; [intros o; rewrite Hpres; apply Hpres1|].
    intros Hfresh Hnd o Ho. cbn [fmap list_fmap fst snd] in *.
    apply NoDup_cons in Hnd as [Hk Hnd].
    assert (Hkold : strs !! k = None) by (apply Hfresh; left).
    rewrite Hrc.
    + cbn [objs set_objs]. unfold h1. rewrite refcount_in_store_str.
      rewrite Hkold. simpl default.
      change (release_in VNil (retain_in v (objs vm))) with (retain_in v (objs vm)).
      rewrite refcount_in_retain by exact Ho. simpl. lia.
    + intros name Hname.
      assert (name ≠ k) by (intros ->; contradiction).
      destruct (isnil v); [rewrite lookup_delete_ne by congruence
                          |rewrite lookup_insert_ne by congruence];
        apply Hfresh; right; exact Hname.
    + exact Hnd.
    + apply Hpres1. exact Ho.
Qed.

(** X30: spn_vm_addlib_values with a NULL library name stores the values in
    the global symbol table: afterwards each registered name is bound to its
    value (when no name is listed twice) and the other names are bound as
    before; only the heap of the machine changes; and when the names were
    unbound, each value was retained once.  With a library name it stores
    them in the array bound to that name in the global symbol table, which
    is used as it is when it exists and is created as a new object when the
    name is unbound; a name bound to a value that is neither nil nor an array
    is not supported. *)
Theorem addlib_values_binds (vm : SpnVMachine) (vals : list (string * SpnValue))
    (ints : gmap Z SpnValue) (strs : gmap string SpnValue) :
  obj_at (objs vm) (glbsymtab vm) = Some (OArray ints strs) →
  NoDup (vals.*1) →
  (∃ vm', spn_vm_addlib_values vm None vals = Some vm' ∧
     (∃ h, vm' = set_objs h vm) ∧
     (∀ name v, (name, v) ∈ vals →
        spn_array_get_strkey vm' (spn_vm_getglobals vm') name = Some v) ∧
     (∀ name, name ∉ vals.*1 →
        spn_array_get_strkey vm' (spn_vm_getglobals vm') name =
        spn_array_get_strkey vm (spn_vm_getglobals vm) name) ∧
     ((∀ name, name ∈ vals.*1 → strs !! name = None) →
      ∀ o, is_Some (objs vm !! o) →
        refcount vm' o = refcount vm o + references o (vals.*2))) ∧
  (∀ lib a ints' strs',
     strs !! lib = Some (VArray a) → a ≠ glbsymtab vm →
     obj_at (objs vm) a = Some (OArray ints' strs') →
     ∃ vm', spn_vm_addlib_values vm (Some lib) vals = Some vm' ∧
       spn_array_get_strkey vm' (spn_vm_getglobals vm') lib = Some (VArray a) ∧
       (∀ name v, (name, v) ∈ vals → spn_array_get_strkey vm' a name = Some v) ∧
       (∀ name, name ∉ vals.*1 →
          spn_array_get_strkey vm' a name = spn_array_get_strkey vm a name)) ∧
  (∀ lib, strs !! lib = None →
     ∃ vm' a, spn_vm_addlib_values vm (Some lib) vals = Some vm' ∧
       objs vm !! a = None ∧
       spn_array_get_strkey vm' (spn_vm_getglobals vm') lib = Some (VArray a) ∧
       (∀ name v, (name, v) ∈ vals → spn_array_get_strkey vm' a name = Some v) ∧
       (∀ name, name ∉ vals.*1 → spn_array_get_strkey vm' a name = Some VNil)) ∧
  (∀ lib v, strs !! lib = Some v → isnil v = false → isarray v = false →
     spn_vm_addlib_values vm (Some lib) vals = None).
Proof.
  intros Hg Hnd. unfold spn_vm_getglobals.
  assert (Hglb : ∀ name, spn_array_get_strkey vm (glbsymtab vm) name
                         = Some (default VNil (strs !! name))).
  { intros name. rewrite get_strkey_obj, Hg. reflexivity. }
  split; [|split; [|split]].
  - destruct (add_values_spec (glbsymtab vm) vals vm ints strs Hg)
      as (h & Hrun & Hobj & Hother & Hpres & Hrc).
    exists (set_objs h vm). split.
    { unfold spn_vm_addlib_values, library_storage. binds. exact Hrun. }
    split; [exists h; reflexivity|].
    rewrite glbsymtab_set_objs.
    split; [|split].
    + intros name v Hin. rewrite get_strkey_set_objs, Hobj.
      f_equal. apply put_all_bound; assumption.
    + intros name Hnot. rewrite get_strkey_set_objs, get_strkey_obj, Hobj, Hg.
      rewrite put_all_other by exact Hnot. reflexivity.
    + intros Hfresh o Ho. rewrite refcount_set_objs, refcount_objs.
      apply Hrc; assumption.
  - intros lib a ints' strs' Hlib Hne Ha.
    destruct (add_values_spec a vals vm ints' strs' Ha)
      as (h & Hrun & Hobj & Hother & Hpres & Hrc).
    exists (set_objs h vm). split.
    { unfold spn_vm_addlib_values, library_storage. rewrite Hglb, Hlib. binds.
      cbn [default isnil]. binds. exact Hrun. }
    rewrite glbsymtab_set_objs. split; [|split].
    + rewrite get_strkey_set_objs. rewrite Hother by congruence.
      rewrite Hg, Hlib. reflexivity.
    + intros name v Hin. rewrite get_strkey_set_objs, Hobj.
      f_equal. apply put_all_bound; assumption.
    + intros name Hnot. rewrite get_strkey_set_objs, get_strkey_obj, Hobj, Ha.
      rewrite put_all_other by exact Hnot. reflexivity.
  - intros lib Hlib.
    set (a := fresh (dom (objs vm))).
    pose proof (fresh_not_in (objs vm)) as Hfresh.
    change (objs vm !! a = None) in Hfresh.
    assert (Hag : a ≠ glbsymtab vm)
      by (apply present_not_fresh, (obj_at_present _ _ _ Hg)).
    set (h1 := <[a := mkCell 1 (OArray ∅ ∅)]> (objs vm)).
    assert (Hg1 : obj_at h1 (glbsymtab vm) = Some (OArray ints strs)).
    { unfold h1. rewrite obj_at_insert_ne by exact Hag. exact Hg. }
    assert (Hold1 : spn_array_get_strkey (set_objs h1 vm) (glbsymtab vm) lib = Some VNil).
    { rewrite get_strkey_set_objs, Hg1, Hlib. reflexivity. }
    set (h2 := release_in (VArray a)
                 (alter (store_str lib (VArray a)) (glbsymtab vm)
                    (release_in VNil (retain_in (VArray a) h1)))).
    assert (Ha2 : obj_at h2 a = Some (OArray ∅ ∅)).
    { unfold h2. rewrite obj_at_release_in, obj_at_store_str.
      rewrite decide_False by congruence.
      rewrite obj_at_release_in, obj_at_retain_in. unfold h1.
      unfold obj_at. rewrite lookup_insert_eq. reflexivity. }
    assert (Hg2 : obj_at h2 (glbsymtab vm) = Some (OArray ints (<[lib := VArray a]> strs))).
    { unfold h2. rewrite obj_at_release_in, obj_at_store_str.
      rewrite decide_True by reflexivity.
      rewrite obj_at_release_in, obj_at_retain_in, Hg1. reflexivity. }
    destruct (add_values_spec a vals (set_objs h2 vm) ∅ ∅ Ha2)
      as (h & Hrun & Hobj & Hother & Hpres & Hrc).
    exists (set_objs h vm), a. split.
    { unfold spn_vm_addlib_values, library_storage. rewrite Hglb, Hlib. binds.
      cbn [default isnil]. cbv beta iota zeta delta [makearray alloc].
      change (fresh (dom (objs vm))) with a.
      change (<[a := mkCell 1 (OArray ∅ ∅)]> (objs vm)) with h1.
      rewrite glbsymtab_set_objs.
      rewrite (set_strkey_spec (set_objs h1 vm) _ lib (VArray a) VNil Hold1). binds.
      rewrite release_eq. exact Hrun. }
    split; [exact Hfresh|].
    rewrite glbsymtab_set_objs. split; [|split].
    + rewrite get_strkey_set_objs. rewrite Hother by congruence.
      change (objs (set_objs h2 vm)) with h2. rewrite Hg2, lookup_insert_eq. reflexivity.
    + intros name v Hin. rewrite get_strkey_set_objs, Hobj.
      f_equal. apply put_all_bound; assumption.
    + intros name Hnot. rewrite get_strkey_set_objs, Hobj.
      rewrite put_all_other by exact Hnot. reflexivity.
  - intros lib v Hlib Hnil Harr.
    unfold spn_vm_addlib_values, library_storage. rewrite Hglb, Hlib. binds.
    cbn [default]. destruct v; try discriminate; reflexivity.
Qed.

Lemma addlib_values_binds_witness :
  ∃ vm', spn_vm_addlib_values ex_vm None [("x"%string, VInt 1); ("s"%string, VString 3%positive)]
           = Some vm' ∧
    spn_array_get_strkey vm' (spn_vm_getglobals vm') "x" = Some (VInt 1) ∧
    spn_array_get_strkey vm' (spn_vm_getglobals vm') "s" = Some (VString 3%positive) ∧
    refcount vm' 3%positive = 2.
Proof.
  destruct (proj1 (addlib_values_binds ex_vm
                     [("x"%string, VInt 1); ("s"%string, VString 3%positive)] ∅ ∅ eq_refl
                     ltac:(apply (bool_decide_unpack _); vm_compute; exact I)))
    as (vm' & Hrun & _ & Hbound & _ & Hrc).
  exists vm'. split; [exact Hrun|].
  split; [apply Hbound; set_solver|]. split; [apply Hbound; set_solver|].
  rewrite (Hrc ltac:(intros name _; apply lookup_empty) 3%positive)
    by (eexists; reflexivity).
  reflexivity.
Defined.
